(** * A bidirectional map over two intrusive search trees

    Shallow embedding of [intrusive_tree.h] and [bimap.h].

    The C++ code is pointer code: every pair record is one heap object
    that carries two sets of tree links, the two trees are threaded
    through those links, and each tree hangs off a sentinel node.  The
    embedding keeps that picture.  A heap is a finite map from addresses
    to objects, a pointer is an address, [nullptr] is [None], and every
    member function is a function on heaps written in the option monad:
    [None] stands for undefined behaviour (a null or dangling pointer is
    dereferenced) or for a loop that has used up its fuel.  Every loop
    is run with as much fuel as the heap has objects, which is enough
    for any walk along an acyclic chain of links.

    [size_t] counters are natural numbers: they cannot overflow before
    the heap holds 2^64 records. *)

From stdpp Require Import gmap list sorting strings.
From Stdlib Require Import ZArith.

Set Warnings "-clear-no-such-hyp".

Abbreviation addr := nat.

(** Loops over the links get one unit of fuel per heap object. *)
Definition heap_fuel {T} (h : gmap addr T) : nat := size h.

(* ================================================================== *)
(** ** namespace intrusive                                             *)
(* ================================================================== *)

Module intrusive.

(** Modelled from the spec: [intrusive_node.h] is not part of the
    sources.  The spec gives a node three links: parent, left child and
    right child. *)
Record node := Node {
  parent : option addr;
  left : option addr;
  right : option addr
}.

Definition null_node : node := Node None None None.

Definition set_parent (v : option addr) (n : node) : node :=
  Node v (left n) (right n).
Definition set_left (v : option addr) (n : node) : node :=
  Node (parent n) v (right n).
Definition set_right (v : option addr) (n : node) : node :=
  Node (parent n) (left n) v.

(** [static_cast] between a heap object of type [T] and the [node<Tag>]
    it embeds.  [key] is what the comparator looks at; an object that is
    a bare node (a sentinel) has none, and casting it to [T&] is
    undefined. *)
Class Access (T K : Type) := {
  base : T → node;
  set_base : node → T → T;
  key : T → option K;
  base_set_base n o : base (set_base n o) = n;
  key_set_base n o : key (set_base n o) = key o;
  set_base_base o : set_base (base o) o = o;
  set_base_set_base n m o : set_base n (set_base m o) = set_base n o
}.

Inductive find_result := THERE_IS | ADD_RIGHT | ADD_LEFT.

(** [intrusive_tree<T, Compare, Tag>]: the sentinel pointer, the
    comparator and the node counter. *)
Record intrusive_tree (K : Type) := Tree {
  sentinel : addr;
  comp : K → K → bool;
  n_node : nat
}.
Arguments Tree {K}.
Arguments sentinel {K}.
Arguments comp {K}.
Arguments n_node {K}.

Section tree.
Context {T K : Type} {A : Access T K}.
Implicit Types (h : gmap addr T) (t : intrusive_tree K).

(** [p->field = v]: undefined when [p] dangles. *)
Definition upd h (p : addr) (f : node → node) : option (gmap addr T) :=
  o ← h !! p; Some (<[p := set_base (f (base o)) o]> h).

Definition upd_opt h (p : option addr) (f : node → node)
  : option (gmap addr T) :=
  match p with Some a => upd h a f | None => Some h end.

(** *** Member functions of [node<Tag>] *)

(** Modelled from the spec: [node::min_node] (in the missing
    [intrusive_node.h]), the leftmost descendant of [n], [n] itself
    when it has no left child. *)
Fixpoint min_node_loop (fuel : nat) h (n : addr) : option addr :=
  match fuel with
  | 0 => None
  | S fuel =>
      o ← h !! n;
      match left (base o) with
      | Some l => min_node_loop fuel h l
      | None => Some n
      end
  end.
Definition min_node h (n : addr) : option addr :=
  min_node_loop (heap_fuel h) h n.

(** Climb from [cur], whose parent is [p], until a node is reached
    from its left child. *)
Fixpoint ascend (fuel : nat) h (cur p : addr) : option addr :=
  match fuel with
  | 0 => None
  | S fuel =>
      o ← h !! p;
      if decide (left (base o) = Some cur) then Some p
      else q ← parent (base o); ascend fuel h p q
  end.

(** Modelled from the spec: [node::next] (in the missing
    [intrusive_node.h]), the in-order successor: the leftmost node of
    the right subtree, else the first ancestor reached from its left
    child. *)
Definition next h (n : addr) : option addr :=
  o ← h !! n;
  match right (base o) with
  | Some r => min_node h r
  | None => p ← parent (base o); ascend (heap_fuel h) h n p
  end.

(** The slot of [n]'s parent that points to [n] is made to point to
    [child], and [child] is given that parent. *)
Definition replace_in_parent h (n : addr) (child : option addr)
  : option (gmap addr T) :=
  o ← h !! n;
  p ← parent (base o);
  op ← h !! p;
  h1 ← (if decide (left (base op) = Some n)
        then upd h p (set_left child)
        else upd h p (set_right child));
  upd_opt h1 child (set_parent (Some p)).

(** Modelled from the spec: [node::unlink] (in the missing
    [intrusive_node.h]), the three-case removal of a node from its
    tree: a leaf is cut off, a node with one child is replaced by that
    child, a node with two children is replaced by its in-order
    successor, which is first cut out of the right subtree. *)
Definition unlink h (n : addr) : option (gmap addr T) :=
  o ← h !! n;
  h' ← match left (base o), right (base o) with
       | Some l, Some r =>
           s ← min_node h r;
           os ← h !! s;
           ps ← parent (base os);
           h3 ← (if decide (ps = n) then Some h
                 else
                   h1 ← upd h ps (set_left (right (base os)));
                   h2 ← upd_opt h1 (right (base os)) (set_parent (Some ps));
                   h3 ← upd h2 s (set_right (Some r));
                   upd h3 r (set_parent (Some s)));
           h4 ← upd h3 s (set_left (Some l));
           h5 ← upd h4 l (set_parent (Some s));
           replace_in_parent h5 n (Some s)
       | Some c, None => replace_in_parent h n (Some c)
       | None, Some c => replace_in_parent h n (Some c)
       | None, None => replace_in_parent h n None
       end;
  upd h' n (λ _, null_node).

(** Modelled from the spec: [node::swap] (in the missing
    [intrusive_node.h]), the exchange of the root references of two
    sentinels; each root is given its new parent. *)
Definition node_swap h (a b : addr) : option (gmap addr T) :=
  oa ← h !! a;
  ob ← h !! b;
  h1 ← upd h a (set_left (left (base ob)));
  h2 ← upd h1 b (set_left (left (base oa)));
  h3 ← upd_opt h2 (left (base ob)) (set_parent (Some a));
  upd_opt h3 (left (base oa)) (set_parent (Some b)).

(** *** Member functions of [intrusive_tree] *)

Definition get_compare t : K → K → bool := comp t.

(** [swap]: counters, comparators, then [sentinel->swap]. *)
Definition swap h t other
  : option (gmap addr T * intrusive_tree K * intrusive_tree K) :=
  h' ← node_swap h (sentinel t) (sentinel other);
  Some (h',
        Tree (sentinel t) (comp other) (n_node other),
        Tree (sentinel other) (comp t) (n_node t)).

(** The condition of the [assert] in [empty]. *)
Definition empty_assertion h t : option bool :=
  s ← h !! sentinel t;
  Some (bool_decide ((left (base s) = None) ↔ (n_node t = 0))).

Definition empty h t : option bool :=
  s ← h !! sentinel t;
  Some (bool_decide (left (base s) = None)).

Definition size t : nat := n_node t.

(** [begin]: [min_node(sentinel)]; [end]: the sentinel. *)
Definition begin_ h t : option addr := min_node h (sentinel t).
Definition end_ t : addr := sentinel t.

(** The [while] loop of the private [find]. *)
Fixpoint find_loop (fuel : nat) h (cmp : K → K → bool) (cur : addr)
    (data : K) : option (addr * find_result) :=
  match fuel with
  | 0 => None
  | S fuel =>
      o ← h !! cur;
      k ← key o;
      if cmp k data then
        match right (base o) with
        | Some r => find_loop fuel h cmp r data
        | None => Some (cur, ADD_RIGHT)
        end
      else if cmp data k then
        match left (base o) with
        | Some l => find_loop fuel h cmp l data
        | None => Some (cur, ADD_LEFT)
        end
      else Some (cur, THERE_IS)
  end.

(** The private [find(data, res)]: the node the search stops at and
    the way it stopped. *)
Definition find_priv h t (data : K) : option (addr * find_result) :=
  s ← h !! sentinel t;
  match left (base s) with
  | None => Some (sentinel t, ADD_LEFT)
  | Some root => find_loop (heap_fuel h) h (comp t) root data
  end.

(** The public [find(x)]. *)
Definition find h t (x : K) : option addr :=
  '(cur, res) ← find_priv h t x;
  match res with
  | THERE_IS => Some cur
  | _ => Some (end_ t)
  end.

Definition find_next h t (x : K) : option addr :=
  '(cur, res) ← find_priv h t x;
  match res with
  | THERE_IS | ADD_LEFT => Some cur
  | ADD_RIGHT => next h cur
  end.

(** [insert(data)]: [data] is the object at address [d]. *)
Definition insert h t (d : addr)
  : option (addr * gmap addr T * intrusive_tree K) :=
  od ← h !! d;
  kd ← key od;
  '(cur, res) ← find_priv h t kd;
  match res with
  | THERE_IS => Some (end_ t, h, t)
  | _ =>
      h1 ← upd h d (set_parent (Some cur));
      let t1 := Tree (sentinel t) (comp t) (S (n_node t)) in
      match res with
      | ADD_LEFT =>
          h2 ← upd h1 cur (set_left (Some d)); Some (d, h2, t1)
      | _ =>
          h2 ← upd h1 cur (set_right (Some d)); Some (d, h2, t1)
      end
  end.

(** [n_node--] on a [size_t] of 64 bits: a counter that is zero wraps
    around to the largest value. *)
Definition size_max : nat := 2 ^ 64 - 1.
Definition decrement (n : nat) : nat :=
  match n with
  | 0 => size_max
  | S m => m
  end.

(** [remove(iterator)]. *)
Definition remove h t (it : addr)
  : option (addr * gmap addr T * intrusive_tree K) :=
  it_next ← next h it;
  h' ← unlink h it;
  Some (it_next, h', Tree (sentinel t) (comp t) (decrement (n_node t))).

(** [remove(T& data)]. *)
Definition remove_value h t (data : K)
  : option (addr * gmap addr T * intrusive_tree K) :=
  '(cur, res) ← find_priv h t data;
  match res with
  | THERE_IS => Some (end_ t, h, t)
  | _ => remove h t cur
  end.

(** The loop [for (it; it != end(); ++it)]: the positions it visits. *)
Fixpoint walk (fuel : nat) h t (it : addr) : option (list addr) :=
  match fuel with
  | 0 => None
  | S fuel =>
      if decide (it = end_ t) then Some []
      else it' ← next h it; w ← walk fuel h t it'; Some (it :: w)
  end.

(** A full traversal, from [begin] up to [end], with the key at each
    position. *)
Definition positions h t : option (list addr) :=
  it ← begin_ h t; walk (heap_fuel h) h t it.
Definition traversal h t : option (list (addr * K)) :=
  w ← positions h t;
  mapM (λ it, o ← h !! it; k ← key o; Some (it, k)) w.

(** Modelled from the spec: the iterator's [is_end] is used by
    [bimap.h] and is not part of the sources; the end position is the
    sentinel, the one node that is not a [T]. *)
Definition is_end h (it : addr) : option bool :=
  o ← h !! it; Some (bool_decide (key o = None)).

(** Modelled from the spec: [is_equals] is used by [bimap.h] and is
    not part of the sources; two keys are equal when neither is less
    than the other. *)
Definition is_equals t (a b : K) : bool :=
  negb (comp t a b) && negb (comp t b a).
End tree.
End intrusive.

(* ================================================================== *)
(** ** namespace details                                               *)
(* ================================================================== *)

Module details.
Import intrusive.

(** Modelled from the spec: [bimap_details.h] is not part of the
    sources.  [key_t<Base, Tag>] is a [node<Tag>] with a [key]; a pair
    record [node_t<Left, Right>] is a left [key_t] and a right [key_t]
    in one allocation. *)
Record key_t (Base : Type) := KeyT { links : node; key : Base }.
Arguments KeyT {Base}.
Arguments links {Base}.
Arguments key {Base}.

Record node_t (Left Right : Type) := NodeT {
  left_part : key_t Left;
  right_part : key_t Right
}.
Arguments NodeT {Left Right}.
Arguments left_part {Left Right}.
Arguments right_part {Left Right}.

(** What lives at an address: a sentinel, which is a bare node and is
    read through either tag, or a pair record. *)
Inductive obj (Left Right : Type) :=
  | sentinel_node (n : node)
  | pair_record (r : node_t Left Right).
Arguments sentinel_node {Left Right}.
Arguments pair_record {Left Right}.

Section casts.
Context {Left Right : Type}.

Definition left_base (o : obj Left Right) : node :=
  match o with
  | sentinel_node n => n
  | pair_record r => links (left_part r)
  end.
Definition right_base (o : obj Left Right) : node :=
  match o with
  | sentinel_node n => n
  | pair_record r => links (right_part r)
  end.
Definition set_left_base (n : node) (o : obj Left Right) : obj Left Right :=
  match o with
  | sentinel_node _ => sentinel_node n
  | pair_record r =>
      pair_record (NodeT (KeyT n (key (left_part r))) (right_part r))
  end.
Definition set_right_base (n : node) (o : obj Left Right) : obj Left Right :=
  match o with
  | sentinel_node _ => sentinel_node n
  | pair_record r =>
      pair_record (NodeT (left_part r) (KeyT n (key (right_part r))))
  end.
Definition left_key (o : obj Left Right) : option Left :=
  match o with
  | sentinel_node _ => None
  | pair_record r => Some (key (left_part r))
  end.
Definition right_key (o : obj Left Right) : option Right :=
  match o with
  | sentinel_node _ => None
  | pair_record r => Some (key (right_part r))
  end.

(** The view of the heap through [left_tag] and through [right_tag]. *)
Program Definition left_tag : Access (obj Left Right) Left :=
  {| base := left_base; set_base := set_left_base;
     intrusive.key := left_key |}.
Next Obligation. by intros n []. Qed.
Next Obligation. by intros n []. Qed.
Next Obligation. by intros [|[[] ?]]. Qed.
Next Obligation. by intros n m []. Qed.

Program Definition right_tag : Access (obj Left Right) Right :=
  {| base := right_base; set_base := set_right_base;
     intrusive.key := right_key |}.
Next Obligation. by intros n []. Qed.
Next Obligation. by intros n []. Qed.
Next Obligation. by intros [|[? []]]. Qed.
Next Obligation. by intros n m []. Qed.
End casts.
End details.

(* ================================================================== *)
(** ** class bimap                                                     *)
(* ================================================================== *)

Module bimap.
Import intrusive details.

(** What [at_left] and [at_right] can do: return a value or throw
    [std::out_of_range]. *)
Inductive outcome (V : Type) :=
  | returns (v : V)
  | throws_out_of_range.
Arguments returns {V}.
Arguments throws_out_of_range {V}.

(** The data members of [bimap]. *)
Record bimap (Left Right : Type) := Bimap {
  left_tree : intrusive_tree Left;
  right_tree : intrusive_tree Right;
  n_node : nat
}.
Arguments Bimap {Left Right}.
Arguments left_tree {Left Right}.
Arguments right_tree {Left Right}.
Arguments n_node {Left Right}.

Section members.
Context {Left Right : Type}.
Abbreviation heap := (gmap addr (obj Left Right)).
Implicit Types (h : heap) (B : bimap Left Right).

(** Left and right iterators are addresses read through [left_tag]
    and through [right_tag]. *)
Definition end_left B : addr := end_ (left_tree B).
Definition end_right B : addr := end_ (right_tree B).
Definition begin_left h B : option addr :=
  begin_ (A := left_tag) h (left_tree B).
Definition begin_right h B : option addr :=
  begin_ (A := right_tag) h (right_tree B).

(** [operator*] and [operator++] of the two iterator types. *)
Definition deref_left h (it : addr) : option Left :=
  o ← h !! it; left_key o.
Definition deref_right h (it : addr) : option Right :=
  o ← h !! it; right_key o.
Definition incr_left h (it : addr) : option addr :=
  next (A := left_tag) h it.
Definition incr_right h (it : addr) : option addr :=
  next (A := right_tag) h it.

(** [flip]: at the end position the pointer kept in the sentinel's
    [right] slot, anywhere else the same pair record seen through the
    other tag. *)
Definition flip_left h (it : addr) : option addr :=
  e ← is_end (A := left_tag) h it;
  if (e : bool) then o ← h !! it; right (left_base o) else Some it.
Definition flip_right h (it : addr) : option addr :=
  e ← is_end (A := right_tag) h it;
  if (e : bool) then o ← h !! it; right (right_base o) else Some it.

Definition link_sentinel h B : option heap :=
  h1 ← upd (A := right_tag) h (sentinel (right_tree B))
           (set_right (Some (sentinel (left_tree B))));
  upd (A := left_tag) h1 (sentinel (left_tree B))
      (set_right (Some (sentinel (right_tree B)))).

(** Modelled from the spec: the constructor of a tree from a
    comparator alone is used by [bimap.h] and is not part of the
    sources; the tree gets a sentinel of its own, with null links. *)
Definition new_tree {K} h (cmp : K → K → bool) : heap * intrusive_tree K :=
  let s := fresh (dom h : gset addr) in
  (<[s := sentinel_node null_node]> h, Tree s cmp 0).

(** [bimap(compare_left, compare_right)]. *)
Definition ctor h (compare_left : Left → Left → bool)
    (compare_right : Right → Right → bool) : option (heap * bimap Left Right) :=
  let '(h1, lt) := new_tree h compare_left in
  let '(h2, rt) := new_tree h1 compare_right in
  let B := Bimap lt rt 0 in
  h3 ← link_sentinel h2 B;
  Some (h3, B).

Definition find_left h B (l : Left) : option addr :=
  find (A := left_tag) h (left_tree B) l.
Definition find_right h B (r : Right) : option addr :=
  find (A := right_tag) h (right_tree B) r.

(** [new node_t{left, right}]. *)
Definition new_node h (l : Left) (r : Right) : addr * heap :=
  let d := fresh (dom h : gset addr) in
  (d, <[d := pair_record (NodeT (KeyT null_node l) (KeyT null_node r))]> h).

(** The private [add]. *)
Definition add h B (l : Left) (r : Right)
  : option (addr * heap * bimap Left Right) :=
  fl ← find_left h B l;
  if decide (fl = end_left B) then
    fr ← find_right h B r;
    if decide (fr = end_right B) then
      let '(d, h1) := new_node h l r in
      '(iter_left_tree, h2, lt) ← intrusive.insert (A := left_tag) h1 (left_tree B) d;
      '(_, h3, rt) ← intrusive.insert (A := right_tag) h2 (right_tree B) d;
      Some (iter_left_tree, h3, Bimap lt rt (S (n_node B)))
    else Some (end_left B, h, B)
  else Some (end_left B, h, B).

Definition insert h B (l : Left) (r : Right)
  : option (addr * heap * bimap Left Right) :=
  add h B l r.

(** Modelled from the spec: [delete pointer] runs the destructor of
    the pair record, which is not part of the sources; it unlinks the
    record from both indexes and frees it. *)
Definition delete_node h (p : addr) : option heap :=
  h1 ← unlink (A := left_tag) h p;
  h2 ← unlink (A := right_tag) h1 p;
  Some (delete p h2).

(** [erase_left(left_iterator)]. *)
Definition erase_left h B (it : addr)
  : option (addr * heap * bimap Left Right) :=
  it' ← incr_left h it;
  h' ← delete_node h it;
  Some (it', h', Bimap (left_tree B) (right_tree B) (pred (n_node B))).

(** [erase_left(left_t const&)]. *)
Definition erase_left_key h B (l : Left)
  : option (bool * heap * bimap Left Right) :=
  l_iter ← find_left h B l;
  if decide (l_iter ≠ end_left B) then
    '(_, h', B') ← erase_left h B l_iter; Some (true, h', B')
  else Some (false, h, B).

Definition erase_right h B (it : addr)
  : option (addr * heap * bimap Left Right) :=
  it' ← incr_right h it;
  h' ← delete_node h it;
  Some (it', h', Bimap (left_tree B) (right_tree B) (pred (n_node B))).

Definition erase_right_key h B (r : Right)
  : option (bool * heap * bimap Left Right) :=
  r_iter ← find_right h B r;
  if decide (r_iter ≠ end_right B) then
    '(_, h', B') ← erase_right h B r_iter; Some (true, h', B')
  else Some (false, h, B).

(** [at_left] and [at_right]. *)
Definition at_left h B (k : Left) : option (outcome Right) :=
  iter ← find_left h B k;
  if decide (iter = end_left B) then Some throws_out_of_range
  else f ← flip_left h iter; v ← deref_right h f; Some (returns v).
Definition at_right h B (k : Right) : option (outcome Left) :=
  iter ← find_right h B k;
  if decide (iter = end_right B) then Some throws_out_of_range
  else f ← flip_right h iter; v ← deref_left h f; Some (returns v).

(** [at_left_or_default]; [default_right] is [right_t()]. *)
Definition at_left_or_default (default_right : Right) h B (k : Left)
  : option (Right * heap * bimap Left Right) :=
  l_iter ← find_left h B k;
  if decide (l_iter = end_left B) then
    r_iter ← find_right h B default_right;
    '(h1, B1) ← (if decide (r_iter ≠ end_right B)
                 then '(_, h1, B1) ← erase_right h B r_iter; Some (h1, B1)
                 else Some (h, B));
    '(it, h2, B2) ← insert h1 B1 k default_right;
    f ← flip_left h2 it;
    v ← deref_right h2 f;
    Some (v, h2, B2)
  else
    f ← flip_left h l_iter; v ← deref_right h f; Some (v, h, B).

(** [at_right_or_default]; [default_left] is [left_t()]. *)
Definition at_right_or_default (default_left : Left) h B (k : Right)
  : option (Left * heap * bimap Left Right) :=
  r_iter ← find_right h B k;
  if decide (r_iter = end_right B) then
    l_iter ← find_left h B default_left;
    '(h1, B1) ← (if decide (l_iter ≠ end_left B)
                 then '(_, h1, B1) ← erase_left h B l_iter; Some (h1, B1)
                 else Some (h, B));
    '(it, h2, B2) ← insert h1 B1 default_left k;
    v ← deref_left h2 it;
    Some (v, h2, B2)
  else
    f ← flip_right h r_iter; v ← deref_left h f; Some (v, h, B).

(** The conditions of the two [assert]s in [empty]. *)
Definition empty_assertions h B : option bool :=
  al ← empty_assertion (A := left_tag) h (left_tree B);
  ar ← empty_assertion (A := right_tag) h (right_tree B);
  el ← intrusive.empty (A := left_tag) h (left_tree B);
  er ← intrusive.empty (A := right_tag) h (right_tree B);
  Some (al && ar && bool_decide (el = er)
        && bool_decide (el = bool_decide (n_node B = 0))).

Definition empty B : bool := bool_decide (n_node B = 0).
Definition size B : nat := n_node B.

Definition eq_left B (a b : Left) : bool := is_equals (left_tree B) a b.
Definition eq_right B (a b : Right) : bool := is_equals (right_tree B) a b.

(** [swap(bimap&)]. *)
Definition swap h B other
  : option (heap * bimap Left Right * bimap Left Right) :=
  '(h1, lt, olt) ← intrusive.swap (A := left_tag) h (left_tree B) (left_tree other);
  '(h2, rt, ort) ← intrusive.swap (A := right_tag) h1 (right_tree B) (right_tree other);
  let B' := Bimap lt rt (n_node other) in
  let other' := Bimap olt ort (n_node B) in
  h3 ← link_sentinel h2 B';
  h4 ← link_sentinel h3 other';
  Some (h4, B', other').

(** A full left traversal and a full right traversal: the positions
    from [begin] up to [end]. *)
Definition left_positions h B : option (list addr) :=
  positions (A := left_tag) h (left_tree B).
Definition right_positions h B : option (list addr) :=
  positions (A := right_tag) h (right_tree B).

(** The pair a left position stands for: [*it] and [*it.flip()]. *)
Definition entry h (it : addr) : option (Left * Right) :=
  l ← deref_left h it;
  f ← flip_left h it;
  r ← deref_right h f;
  Some (l, r).

(** The pairs of a bimap in left order. *)
Definition entries h B : option (list (Left * Right)) :=
  w ← left_positions h B; mapM (entry h) w.

(** The loop of the copy constructor. *)
Fixpoint copy_loop (fuel : nat) h B other (it : addr)
  : option (heap * bimap Left Right) :=
  match fuel with
  | 0 => None
  | S fuel =>
      if decide (it = end_left other) then Some (h, B)
      else
        '(l, r) ← entry h it;
        '(_, h', B') ← insert h B l r;
        it' ← incr_left h' it;
        copy_loop fuel h' B' other it'
  end.

(** [bimap(bimap const& other)]. *)
Definition copy_ctor h other : option (heap * bimap Left Right) :=
  let '(h1, lt) := new_tree h (get_compare (left_tree other)) in
  let '(h2, rt) := new_tree h1 (get_compare (right_tree other)) in
  let B := Bimap lt rt 0 in
  h3 ← link_sentinel h2 B;
  it ← begin_left h3 other;
  copy_loop (heap_fuel h3) h3 B other it.

(** [bimap(bimap&& other)]: the new object and what is left of
    [other]. *)
Definition move_ctor h other
  : option (heap * bimap Left Right * bimap Left Right) :=
  let '(h1, lt) := new_tree h (get_compare (left_tree other)) in
  let '(h2, rt) := new_tree h1 (get_compare (right_tree other)) in
  '(h3, lt', olt) ← intrusive.swap (A := left_tag) h2 lt (left_tree other);
  '(h4, rt', ort) ← intrusive.swap (A := right_tag) h3 rt (right_tree other);
  Some (h4, Bimap lt' rt' (n_node other), Bimap olt ort (n_node other)).

(** The loop of [operator==]. *)
Fixpoint equal_loop (fuel : nat) h a b (it_a it_b : addr) : option bool :=
  match fuel with
  | 0 => None
  | S fuel =>
      if decide (it_a ≠ end_left a ∧ it_b ≠ end_left b) then
        la ← deref_left h it_a;
        lb ← deref_left h it_b;
        if negb (eq_left a la lb) then Some false
        else
          fa ← flip_left h it_a; ra ← deref_right h fa;
          fb ← flip_left h it_b; rb ← deref_right h fb;
          if negb (eq_right a ra rb) then Some false
          else
            it_a' ← incr_left h it_a;
            it_b' ← incr_left h it_b;
            equal_loop fuel h a b it_a' it_b'
      else Some true
  end.

(** [operator==]. *)
Definition equal h a b : option bool :=
  if decide (size a ≠ size b) then Some false
  else
    it_a ← begin_left h a;
    it_b ← begin_left h b;
    equal_loop (heap_fuel h) h a b it_a it_b.

(** [operator!=]. *)
Definition not_equal h a b : option bool := negb <$> equal h a b.

(** The loop of [erase_left(first, last)]. *)
Fixpoint erase_left_loop (fuel : nat) h B (first last : addr)
  : option (addr * heap * bimap Left Right) :=
  match fuel with
  | 0 => None
  | S fuel =>
      if decide (first ≠ last) then
        '(first', h', B') ← erase_left h B first;
        erase_left_loop fuel h' B' first' last
      else Some (last, h, B)
  end.

(** [erase_left(left_iterator first, left_iterator last)]. *)
Definition erase_left_range h B (first last : addr)
  : option (addr * heap * bimap Left Right) :=
  erase_left_loop (heap_fuel h) h B first last.

(** The loop of [erase_right(first, last)]. *)
Fixpoint erase_right_loop (fuel : nat) h B (first last : addr)
  : option (addr * heap * bimap Left Right) :=
  match fuel with
  | 0 => None
  | S fuel =>
      if decide (first ≠ last) then
        '(first', h', B') ← erase_right h B first;
        erase_right_loop fuel h' B' first' last
      else Some (last, h, B)
  end.

(** [erase_right(right_iterator first, right_iterator last)]. *)
Definition erase_right_range h B (first last : addr)
  : option (addr * heap * bimap Left Right) :=
  erase_right_loop (heap_fuel h) h B first last.

(** The loop of the destructor. *)
Fixpoint dtor_loop (fuel : nat) h B (it : addr)
  : option (heap * bimap Left Right) :=
  match fuel with
  | 0 => None
  | S fuel =>
      if decide (it ≠ end_left B) then
        '(it', h', B') ← erase_left h B it;
        dtor_loop fuel h' B' it'
      else Some (h, B)
  end.

(** [~bimap()]: the heap once the body of the destructor has run, and
    the members of the object as the body leaves them; the members'
    own destructors, which are not part of the sources, are not run. *)
Definition dtor h B : option (heap * bimap Left Right) :=
  it ← begin_left h B; dtor_loop (heap_fuel h) h B it.

(** [operator=(bimap const&)]: the copy of [other] is swapped with
    [*this] and then destroyed.  Every bimap object has sentinels of
    its own, so [this != &other] is the comparison of the sentinels. *)
Definition copy_assign h B other : option (heap * bimap Left Right) :=
  if decide (end_left B ≠ end_left other) then
    '(h1, tmp) ← copy_ctor h other;
    '(h2, tmp', B') ← swap h1 tmp B;
    '(h3, _) ← dtor h2 tmp';
    Some (h3, B')
  else Some (h, B).

(** The mutating calls a program can make on a bimap. *)
Inductive operation :=
  | Insert (l : Left) (r : Right)
  | EraseLeft (l : Left)
  | EraseRight (r : Right).

Definition apply_operation h B (o : operation)
  : option (heap * bimap Left Right) :=
  match o with
  | Insert l r => '(_, h', B') ← insert h B l r; Some (h', B')
  | EraseLeft l => '(_, h', B') ← erase_left_key h B l; Some (h', B')
  | EraseRight r => '(_, h', B') ← erase_right_key h B r; Some (h', B')
  end.

Fixpoint apply_operations h B (os : list operation)
  : option (heap * bimap Left Right) :=
  match os with
  | [] => Some (h, B)
  | o :: os => '(h', B') ← apply_operation h B o; apply_operations h' B' os
  end.

(** A program that constructs a bimap on the empty heap and makes the
    calls [os]. *)
Definition run (compare_left : Left → Left → bool)
    (compare_right : Right → Right → bool) (os : list operation)
  : option (heap * bimap Left Right) :=
  '(h, B) ← ctor ∅ compare_left compare_right; apply_operations h B os.
End members.
End bimap.

(* ================================================================== *)
(** ** The trees the links spell out                                   *)
(* ================================================================== *)

(** A comparator is a strict weak order: irreflexive, transitive, and
    with a transitive "neither is less" relation. *)
Record strict_weak_order {K} (cmp : K → K → bool) : Prop := {
  swo_irrefl a : cmp a a = false;
  swo_trans a b c : cmp a b = true → cmp b c = true → cmp a c = true;
  swo_cotrans a b c : cmp a b = true → cmp a c = true ∨ cmp c b = true
}.

(** Two keys are equivalent when neither is less than the other. *)
Definition equiv_key {K} (cmp : K → K → bool) (a b : K) : Prop :=
  cmp a b = false ∧ cmp b a = false.

#[global] Instance equiv_key_dec {K} (cmp : K → K → bool) (a b : K) :
  Decision (equiv_key cmp a b).
Proof. unfold equiv_key. apply _. Defined.

(** The shape of a tree: which address sits where, and with which key. *)
Inductive shape (K : Type) :=
  | Nil
  | Bin (l : shape K) (a : addr) (k : K) (r : shape K).
Arguments Nil {K}.
Arguments Bin {K}.

(** A shape with a hole, read from the hole upwards: [CL a k r c] says
    that the hole is the left child of [a], whose right subtree is [r],
    and that [c] is what lies above [a]. *)
Inductive ctx (K : Type) :=
  | Hole
  | CL (a : addr) (k : K) (r : shape K) (c : ctx K)
  | CR (l : shape K) (a : addr) (k : K) (c : ctx K).
Arguments Hole {K}.
Arguments CL {K}.
Arguments CR {K}.

Section shapes.
Context {K : Type}.
Implicit Types (s l r : shape K) (c : ctx K).

Fixpoint inorder s : list (addr * K) :=
  match s with
  | Nil => []
  | Bin l a k r => inorder l ++ (a, k) :: inorder r
  end.

Definition addrs s : list addr := (inorder s).*1.
Definition keys s : list K := (inorder s).*2.

Definition root s : option addr :=
  match s with Nil => None | Bin _ a _ _ => Some a end.

Fixpoint plug c s : shape K :=
  match c with
  | Hole => s
  | CL a k r c => plug c (Bin s a k r)
  | CR l a k c => plug c (Bin l a k s)
  end.

(** What an in-order walk meets before and after the hole. *)
Fixpoint before c : list (addr * K) :=
  match c with
  | Hole => []
  | CL a k r c => before c
  | CR l a k c => before c ++ inorder l ++ [(a, k)]
  end.
Fixpoint after c : list (addr * K) :=
  match c with
  | Hole => []
  | CL a k r c => (a, k) :: inorder r ++ after c
  | CR l a k c => after c
  end.

(** The addresses of a shape with a hole. *)
Definition ctx_addrs c : list addr := (before c).*1 ++ (after c).*1.

(** The parent of the hole; [top] is the parent of the whole shape. *)
Definition hole_par (top : addr) c : addr :=
  match c with Hole => top | CL a _ _ _ => a | CR _ a _ _ => a end.

(** The root of [plug c s] when the root of [s] is [p]. *)
Fixpoint ctx_root c (p : option addr) : option addr :=
  match c with
  | Hole => p
  | CL a _ _ c => ctx_root c (Some a)
  | CR _ a _ c => ctx_root c (Some a)
  end.

(** The first address of a walk, [top] when the walk is empty. *)
Definition first_or (top : addr) (w : list (addr * K)) : addr :=
  match w with [] => top | (a, _) :: _ => a end.

(** The search path of [data]: the search stops at a node with an
    equivalent key or at an empty slot. *)
Fixpoint descend (cmp : K → K → bool) (data : K) s c : ctx K * shape K :=
  match s with
  | Nil => (c, Nil)
  | Bin l a k r =>
      if cmp k data then descend cmp data r (CR l a k c)
      else if cmp data k then descend cmp data l (CL a k r c)
      else (c, s)
  end.

(** What the private [find] reports for a search path. *)
Definition stop_of (top : addr) (cs : ctx K * shape K)
  : addr * intrusive.find_result :=
  match cs.2, cs.1 with
  | Bin _ a _ _, _ => (a, intrusive.THERE_IS)
  | Nil, Hole => (top, intrusive.ADD_LEFT)
  | Nil, CL a _ _ _ => (a, intrusive.ADD_LEFT)
  | Nil, CR _ a _ _ => (a, intrusive.ADD_RIGHT)
  end.

(** The way down the left spine of a shape with root [a]: the context
    of the leftmost node, that node, and its right subtree. *)
Fixpoint min_path l (a : addr) (k : K) r c : ctx K * addr * K * shape K :=
  match l with
  | Nil => (c, a, k, r)
  | Bin ll b kb lr => min_path ll b kb lr (CL a k r c)
  end.

(** What takes the place of a node with subtrees [l] and [r] once the
    node is unlinked: the other subtree when one is empty, else [l]
    and [r] under the leftmost node of [r]. *)
Definition join_shapes l r : shape K :=
  match l, r with
  | Nil, _ => r
  | _, Nil => l
  | _, Bin rl b kb rr =>
      let '(cm, m, km, rm) := min_path rl b kb rr Hole in
      Bin l m km (plug cm rm)
  end.

(** A search tree: the keys of an in-order walk increase strictly. *)
Definition bst (cmp : K → K → bool) s : Prop :=
  StronglySorted (λ x y, cmp x y = true) (keys s).
End shapes.

Section representation.
Import intrusive.
Context {T K : Type} {A : Access T K}.
Implicit Types (h : gmap addr T) (s : shape K) (c : ctx K).

(** What a tree sees of the object at an address: links and key. *)
Definition view h (a : addr) : option (node * option K) :=
  (λ o, (base o, key o)) <$> h !! a.

(** The heap links the nodes of [s] as [s] says, the root of [s]
    having parent [par]. *)
Fixpoint rep h (par : addr) s : Prop :=
  match s with
  | Nil => True
  | Bin l a k r =>
      view h a = Some (Node (Some par) (root l) (root r), Some k)
      ∧ rep h a l ∧ rep h a r
  end.

(** The same for a shape with a hole whose slot holds [p]. *)
Fixpoint rep_ctx h (top : addr) c (p : option addr) : Prop :=
  match c with
  | Hole => True
  | CL a k r c' =>
      view h a = Some (Node (Some (hole_par top c')) p (root r), Some k)
      ∧ rep h a r ∧ rep_ctx h top c' (Some a)
  | CR l a k c' =>
      view h a = Some (Node (Some (hole_par top c')) (root l) p, Some k)
      ∧ rep h a l ∧ rep_ctx h top c' (Some a)
  end.

(** The store that fills the hole of [c] with [p]. *)
Definition set_slot c (p : option addr) : node → node :=
  match c with
  | CR _ _ _ _ => set_right p
  | _ => set_left p
  end.

(** A whole tree: the sentinel [sent] is a bare node without a
    parent, its left link is the root, its right link is [xr]. *)
Definition tree_rep h (sent : addr) (xr : option addr) s : Prop :=
  view h sent = Some (Node None (root s) xr, None) ∧ rep h sent s.

(** The invariant of an index. *)
Record tree_inv h (t : intrusive_tree K) (xr : option addr) s : Prop := {
  ti_rep : tree_rep h (sentinel t) xr s;
  ti_nodup : NoDup (addrs s);
  ti_bst : bst (comp t) s;
  ti_order : strict_weak_order (comp t)
}.

Definition tree_ok h (t : intrusive_tree K) : Prop :=
  ∃ xr s, tree_inv h t xr s.

(** [h'] differs from [h] in tree links only, and only at the
    addresses in [F]. *)
Definition modifies h h' (F : list addr) : Prop :=
  ∀ a, match h !! a with
       | None => h' !! a = None
       | Some o => ∃ n, h' !! a = Some (set_base n o) ∧ (a ∉ F → n = base o)
       end.
End representation.

Section bimap_invariant.
Import intrusive details bimap.
Context {Left Right : Type}.
Implicit Types (h : gmap addr (obj Left Right)) (B : bimap Left Right).

(** The invariant of a bimap: the two indexes are search trees over
    the same pair records, the two sentinels point to each other, and
    the counter counts the records. *)
Record wf_shapes h B (sl : shape Left) (sr : shape Right) : Prop := {
  wf_left : tree_inv (A := left_tag) h (left_tree B)
              (Some (sentinel (right_tree B))) sl;
  wf_right : tree_inv (A := right_tag) h (right_tree B)
               (Some (sentinel (left_tree B))) sr;
  wf_sentinels : sentinel (left_tree B) ≠ sentinel (right_tree B);
  wf_same : addrs sl ≡ₚ addrs sr;
  wf_count : n_node B = length (addrs sl)
}.

Definition wf h B : Prop := ∃ sl sr, wf_shapes h B sl sr.

(** The pair stored at an address. *)
Definition pair_at h (a : addr) : option (Left * Right) :=
  match h !! a with
  | Some (pair_record r) => Some (key (left_part r), key (right_part r))
  | _ => None
  end.

(** The states a program can bring a bimap into: it is constructed
    empty, with comparators that are strict weak orders, and then
    pairs are inserted and erased. *)
Inductive reachable : gmap addr (obj Left Right) → bimap Left Right → Prop :=
  | reach_ctor h cl cr h' B :
      strict_weak_order cl → strict_weak_order cr →
      ctor h cl cr = Some (h', B) → reachable h' B
  | reach_insert h B l r it h' B' :
      reachable h B → insert h B l r = Some (it, h', B') → reachable h' B'
  | reach_erase_left h B l b h' B' :
      reachable h B → erase_left_key h B l = Some (b, h', B') →
      reachable h' B'
  | reach_erase_right h B r b h' B' :
      reachable h B → erase_right_key h B r = Some (b, h', B') →
      reachable h' B'.

(** The addresses a bimap occupies, and two bimaps in one heap that
    share none of them. *)
Definition footprint B (sl : shape Left) : list addr :=
  sentinel (left_tree B) :: sentinel (right_tree B) :: addrs sl.

Definition separate h B C : Prop :=
  ∃ slB srB slC srC,
    wf_shapes h B slB srB ∧ wf_shapes h C slC srC
    ∧ ∀ a, a ∈ footprint B slB → a ∉ footprint C slC.

(** The pairs behind a left walk. *)
Definition entries_of h (w : list (addr * Left)) (es : list (Left * Right))
  : Prop :=
  Forall2 (λ ak e, pair_at h ak.1 = Some e ∧ e.1 = ak.2) w es.
End bimap_invariant.

(* ================================================================== *)
(** ** A sample bimap                                                  *)
(* ================================================================== *)

(** [bimap<unsigned, unsigned>] with [std::less] on both sides, after
    [insert(2, 20)], [insert(1, 30)] and [insert(3, 10)]. *)
Module sample.
Import intrusive details bimap.

Definition operations : list (operation (Left := nat) (Right := nat)) :=
  [Insert 2 20; Insert 1 30; Insert 3 10].

Definition heap : gmap addr (obj nat nat) :=
  Eval vm_compute in default ∅ (fst <$> run Nat.ltb Nat.ltb operations).

Definition map : bimap nat nat :=
  Bimap (Tree 0 Nat.ltb 3) (Tree 1 Nat.ltb 3) 3.

(** The heap after [bimap copy(map)], and the copy. *)
Definition copied_heap : gmap addr (obj nat nat) :=
  Eval vm_compute in default ∅ (fst <$> copy_ctor heap map).

Definition copy : bimap nat nat :=
  Bimap (Tree 5 Nat.ltb 3) (Tree 6 Nat.ltb 3) 3.

End sample.

(* ================================================================== *)
(** ** Runs of [bimap<int, std::string>]                               *)
(* ================================================================== *)

(** The states that a few short programs reach, with [std::less<int>]
    and [std::less<std::string>] as comparators. *)
Module scenario.
Import intrusive details bimap.

Abbreviation state := (gmap addr (obj Z string) * bimap Z string)%type.

Definition heap_of (s : option state) : gmap addr (obj Z string) :=
  default ∅ (fst <$> s).

(** After [insert(1, "a")], [insert(2, "b")], [insert(3, "c")]. *)
Definition abc_heap : gmap addr (obj Z string) :=
  Eval vm_compute in
    heap_of (run Z.ltb String.ltb
               [Insert 1%Z "a"; Insert 2%Z "b"; Insert 3%Z "c"]).
Definition abc_map : bimap Z string :=
  Bimap (Tree 0 Z.ltb 3) (Tree 1 String.ltb 3) 3.

(** After [erase_left(2)] on that. *)
Definition ac_heap : gmap addr (obj Z string) :=
  Eval vm_compute in
    heap_of ('(_, h, B) ← erase_left_key abc_heap abc_map 2%Z; Some (h, B)).
Definition ac_map : bimap Z string :=
  Bimap (Tree 0 Z.ltb 3) (Tree 1 String.ltb 3) 2.

(** After [insert(1, "a")]. *)
Definition a_heap : gmap addr (obj Z string) :=
  Eval vm_compute in heap_of (run Z.ltb String.ltb [Insert 1%Z "a"]).
Definition a_map : bimap Z string :=
  Bimap (Tree 0 Z.ltb 1) (Tree 1 String.ltb 1) 1.

(** After [insert(1, "a")] and [erase_left(1)]. *)
Definition erased_heap : gmap addr (obj Z string) :=
  Eval vm_compute in
    heap_of (run Z.ltb String.ltb [Insert 1%Z "a"; EraseLeft 1%Z]).
Definition erased_map : bimap Z string :=
  Bimap (Tree 0 Z.ltb 1) (Tree 1 String.ltb 1) 0.

(** A new bimap, then [at_left_or_default(5)], then
    [at_left_or_default(7)]; [std::string()] is the empty string. *)
Definition new_heap : gmap addr (obj Z string) :=
  Eval vm_compute in heap_of (run Z.ltb String.ltb []).
Definition new_map : bimap Z string :=
  Bimap (Tree 0 Z.ltb 0) (Tree 1 String.ltb 0) 0.
Definition five_heap : gmap addr (obj Z string) :=
  Eval vm_compute in
    heap_of ('(_, h, B) ← at_left_or_default "" new_heap new_map 5%Z;
             Some (h, B)).
Definition five_map : bimap Z string :=
  Bimap (Tree 0 Z.ltb 1) (Tree 1 String.ltb 1) 1.
Definition seven_heap : gmap addr (obj Z string) :=
  Eval vm_compute in
    heap_of ('(_, h, B) ← at_left_or_default "" five_heap five_map 7%Z;
             Some (h, B)).
Definition seven_map : bimap Z string :=
  Bimap (Tree 0 Z.ltb 2) (Tree 1 String.ltb 2) 1.

(** After a bimap is move-constructed from the one that holds
    [(1, "a")]: the heap, the new bimap and the source. *)
Definition moved_heap : gmap addr (obj Z string) :=
  Eval vm_compute in
    default ∅ ((λ x, x.1.1) <$> move_ctor a_heap a_map).
Definition moved_to : bimap Z string :=
  Bimap (Tree 3 Z.ltb 1) (Tree 4 String.ltb 1) 1.
Definition moved_from : bimap Z string :=
  Bimap (Tree 0 Z.ltb 0) (Tree 1 String.ltb 0) 1.
End scenario.

(* ================================================================== *)
(** ** Facts about shapes                                              *)
(* ================================================================== *)

Section shape_facts.
Context {K : Type}.
Implicit Types (s l r : shape K) (c : ctx K) (w : list (addr * K)).

Lemma inorder_plug c s :
  inorder (plug c s) = before c ++ inorder s ++ after c.
Proof.
  revert s. induction c as [|a k r c IH|l a k c IH]; intros s; simpl.
  - by rewrite app_nil_r.
  - rewrite IH. simpl. by rewrite <- !app_assoc.
  - rewrite IH. simpl. by rewrite <- !app_assoc.
Qed.

Lemma addrs_plug c s :
  addrs (plug c s) = (before c).*1 ++ addrs s ++ (after c).*1.
Proof. unfold addrs. by rewrite inorder_plug, !fmap_app. Qed.

Lemma addrs_Bin l a k r : addrs (Bin l a k r) = addrs l ++ a :: addrs r.
Proof. unfold addrs. simpl. by rewrite fmap_app. Qed.

Lemma keys_Bin l a k r : keys (Bin l a k r) = keys l ++ k :: keys r.
Proof. unfold keys. simpl. by rewrite fmap_app. Qed.

Lemma root_None s : root s = None → s = Nil.
Proof. by destruct s. Qed.

Lemma root_addrs s a : root s = Some a → a ∈ addrs s.
Proof.
  destruct s; [done|]. intros [= ->]. rewrite addrs_Bin. set_solver.
Qed.

Lemma first_or_app top w1 w2 :
  first_or top (w1 ++ w2) = first_or (first_or top w2) w1.
Proof. by destruct w1 as [|[]]. Qed.

Lemma perm_rotate (a : addr) (u v w : list addr) :
  u ++ a :: v ++ w ≡ₚ a :: v ++ u ++ w.
Proof.
  rewrite <- Permutation_middle. f_equiv.
  rewrite !app_assoc. f_equiv. apply Permutation_app_comm.
Qed.

Lemma ctx_addrs_CL a k r c :
  ctx_addrs (CL a k r c) ≡ₚ a :: addrs r ++ ctx_addrs c.
Proof.
  unfold ctx_addrs, addrs. simpl. rewrite fmap_app. apply perm_rotate.
Qed.

Lemma ctx_addrs_CR l a k c :
  ctx_addrs (CR l a k c) ≡ₚ a :: addrs l ++ ctx_addrs c.
Proof.
  unfold ctx_addrs, addrs. simpl. rewrite !fmap_app. simpl.
  rewrite <- !app_assoc. simpl. rewrite app_assoc.
  rewrite <- Permutation_middle. f_equiv.
  by rewrite (Permutation_app_comm (before c).*1), <- app_assoc.
Qed.

Lemma addrs_plug_perm c s : addrs (plug c s) ≡ₚ addrs s ++ ctx_addrs c.
Proof.
  rewrite addrs_plug. unfold ctx_addrs.
  rewrite !app_assoc. f_equiv. apply Permutation_app_comm.
Qed.

Lemma elem_of_ctx_addrs_CL x a k r c :
  x ∈ ctx_addrs (CL a k r c) ↔ x = a ∨ x ∈ addrs r ∨ x ∈ ctx_addrs c.
Proof. rewrite ctx_addrs_CL. set_solver. Qed.

Lemma elem_of_ctx_addrs_CR x l a k c :
  x ∈ ctx_addrs (CR l a k c) ↔ x = a ∨ x ∈ addrs l ∨ x ∈ ctx_addrs c.
Proof. rewrite ctx_addrs_CR. set_solver. Qed.

Lemma NoDup_ctx_addrs_CL a k r c :
  NoDup (ctx_addrs (CL a k r c)) ↔
  (a ∉ addrs r) ∧ (a ∉ ctx_addrs c) ∧ NoDup (addrs r) ∧ NoDup (ctx_addrs c)
  ∧ (∀ x, x ∈ addrs r → x ∉ ctx_addrs c).
Proof.
  rewrite ctx_addrs_CL, NoDup_cons, NoDup_app, not_elem_of_app. naive_solver.
Qed.

Lemma NoDup_ctx_addrs_CR l a k c :
  NoDup (ctx_addrs (CR l a k c)) ↔
  (a ∉ addrs l) ∧ (a ∉ ctx_addrs c) ∧ NoDup (addrs l) ∧ NoDup (ctx_addrs c)
  ∧ (∀ x, x ∈ addrs l → x ∉ ctx_addrs c).
Proof.
  rewrite ctx_addrs_CR, NoDup_cons, NoDup_app, not_elem_of_app. naive_solver.
Qed.

Lemma NoDup_plug c s :
  NoDup (addrs (plug c s)) ↔
  NoDup (addrs s) ∧ NoDup (ctx_addrs c)
  ∧ (∀ x, x ∈ addrs s → x ∉ ctx_addrs c).
Proof. rewrite addrs_plug_perm, NoDup_app. naive_solver. Qed.

Lemma NoDup_Bin l a k r :
  NoDup (addrs (Bin l a k r)) ↔
  (a ∉ addrs l) ∧ (a ∉ addrs r) ∧ NoDup (addrs l) ∧ NoDup (addrs r)
  ∧ (∀ x, x ∈ addrs l → x ∉ addrs r).
Proof.
  rewrite addrs_Bin, NoDup_app, NoDup_cons. split.
  - intros (? & H & ? & ?). repeat split; [|done..|].
    + intros Ha. apply (H a Ha). by left.
    + intros x Hx Hx'. apply (H x Hx). by right.
  - intros (? & ? & ? & ? & H). repeat split; [done| |done..].
    intros x Hx [->|Hx']%elem_of_cons; [done|]. by apply (H x).
Qed.

Lemma elem_of_addrs_Bin x l a k r :
  x ∈ addrs (Bin l a k r) ↔ x ∈ addrs l ∨ x = a ∨ x ∈ addrs r.
Proof. rewrite addrs_Bin. set_solver. Qed.

Lemma elem_of_addrs_plug x c s :
  x ∈ addrs (plug c s) ↔ x ∈ addrs s ∨ x ∈ ctx_addrs c.
Proof. rewrite addrs_plug_perm. set_solver. Qed.

(** Every node of a shape splits it into a context and a subtree. *)
Lemma plug_at s c0 x :
  x ∈ addrs s →
  ∃ c l k r, plug c0 s = plug c (Bin l x k r).
Proof.
  revert c0. induction s as [|l IHl a k r IHr]; intros c0 Hx.
  - by apply elem_of_nil in Hx.
  - rewrite addrs_Bin in Hx.
    apply elem_of_app in Hx as [Hx|Hx];
      [|apply elem_of_cons in Hx as [->|Hx]].
    + apply (IHl (CL a k r c0)) in Hx. done.
    + by exists c0, l, k, r.
    + apply (IHr (CR l a k c0)) in Hx. done.
Qed.

(** A walk without repeated addresses is cut at an address in one
    way only. *)
Lemma split_unique w1 w2 w1' w2' (x : addr) (k k' : K) :
  NoDup ((w1 ++ (x, k) :: w2).*1) →
  w1 ++ (x, k) :: w2 = w1' ++ (x, k') :: w2' →
  w1 = w1' ∧ k = k' ∧ w2 = w2'.
Proof.
  revert w1'. induction w1 as [|[y ky] w1 IH]; intros w1' Hnd Heq.
  - destruct w1' as [|[y ky] w1']; simpl in *.
    + by simplify_eq.
    + simplify_eq. apply NoDup_cons in Hnd as [Hx _].
      exfalso. apply Hx. rewrite fmap_app. set_solver.
  - destruct w1' as [|[z kz] w1']; simpl in *.
    + simplify_eq. apply NoDup_cons in Hnd as [Hx _].
      exfalso. apply Hx. rewrite fmap_app. set_solver.
    + simplify_eq. apply NoDup_cons in Hnd as [_ Hnd].
      destruct (IH w1' Hnd) as (-> & -> & ->); done.
Qed.

Lemma min_path_spec l a k r c :
  let '(cm, m, km, rm) := min_path l a k r c in
  plug cm (Bin Nil m km rm) = plug c (Bin l a k r)
  ∧ before cm = before c
  ∧ ((cm = c ∧ l = Nil) ∨ (l ≠ Nil ∧ ∃ a' k' r' c', cm = CL a' k' r' c')).
Proof.
  revert a k r c. induction l as [|ll IH b kb lr _]; intros a k r c; simpl.
  - auto.
  - specialize (IH b kb lr (CL a k r c)).
    destruct (min_path ll b kb lr (CL a k r c)) as [[[cm m] km] rm].
    destruct IH as (-> & -> & [[-> ->]|(_ & ?)]); eauto 10.
Qed.

Lemma join_shapes_inorder l r :
  inorder (join_shapes l r) = inorder l ++ inorder r.
Proof.
  destruct l as [|ll a k lr]; [done|].
  destruct r as [|rl b kb rr]; simpl; [by rewrite app_nil_r|].
  pose proof (min_path_spec rl b kb rr Hole) as H.
  destruct (min_path rl b kb rr Hole) as [[[cm m] km] rm].
  destruct H as (Hp & Hb & _). apply (f_equal inorder) in Hp.
  rewrite inorder_plug, Hb in Hp. simpl in *. rewrite <- Hp.
  by rewrite inorder_plug, Hb.
Qed.
End shape_facts.

(** Sorted walks. *)
Section sorted_facts.
Context {K : Type} (cmp : K → K → bool).
Implicit Types (u v : list K).

Local Abbreviation lt := (λ x y : K, cmp x y = true).

Lemma sorted_app u v :
  StronglySorted lt (u ++ v) ↔
  StronglySorted lt u ∧ StronglySorted lt v
  ∧ ∀ x y, x ∈ u → y ∈ v → cmp x y = true.
Proof.
  induction u as [|a u IH]; simpl.
  - split; [intros H; repeat split; [constructor|done|]|naive_solver].
    intros x y Hx. by apply elem_of_nil in Hx.
  - split.
    + intros H. apply StronglySorted_inv in H as [H1 H2].
      apply IH in H1 as (Hu & Hv & Huv).
      apply Forall_app in H2 as [H2 H3].
      repeat split; [by constructor|done|].
      intros x y [->|Hx]%elem_of_cons Hy; [|by apply Huv].
      by eapply Forall_forall in H3.
    + intros (Hu & Hv & Huv).
      apply StronglySorted_inv in Hu as [Hu1 Hu2].
      constructor.
      * apply IH. repeat split; [done..|]. intros x y Hx Hy.
        apply Huv; [by right|done].
      * apply Forall_app. split; [done|].
        apply Forall_forall. intros y Hy. apply Huv; [by left|done].
Qed.

Lemma sorted_cons a v :
  StronglySorted lt (a :: v) ↔
  StronglySorted lt v ∧ ∀ y, y ∈ v → cmp a y = true.
Proof.
  split.
  - intros [H1 H2]%StronglySorted_inv. split; [done|].
    by apply Forall_forall.
  - intros [H1 H2]. constructor; [done|]. by apply Forall_forall.
Qed.
End sorted_facts.

(* ================================================================== *)
(** ** Facts about heaps and the shapes they hold                      *)
(* ================================================================== *)

Section rep_facts.
Import intrusive.
Context {T K : Type} {A : Access T K}.
Implicit Types (h : gmap addr T) (s l r : shape K) (c : ctx K).

Lemma view_Some h a n k :
  view h a = Some (n, k) ↔ ∃ o, h !! a = Some o ∧ base o = n ∧ key o = k.
Proof.
  unfold view. destruct (h !! a) as [o|]; simpl; [|naive_solver].
  split; [intros [= <- <-]; eauto|]. by intros (? & [= <-] & <- & <-).
Qed.

Lemma modifies_refl h F : modifies h h F.
Proof.
  intros a. destruct (h !! a) as [o|] eqn:E; [|done].
  exists (base o). by rewrite set_base_base.
Qed.

Lemma modifies_trans h1 h2 h3 F1 F2 F :
  modifies h1 h2 F1 → modifies h2 h3 F2 →
  (∀ a, a ∈ F1 → a ∈ F) → (∀ a, a ∈ F2 → a ∈ F) →
  modifies h1 h3 F.
Proof.
  intros H12 H23 HF1 HF2 a. specialize (H12 a). specialize (H23 a).
  destruct (h1 !! a) as [o|].
  - destruct H12 as (n & E2 & Hn). rewrite E2 in H23.
    destruct H23 as (m & E3 & Hm). exists m.
    rewrite set_base_set_base in E3. split; [done|]. intros Ha.
    rewrite Hm by naive_solver. rewrite base_set_base. naive_solver.
  - by rewrite H12 in H23.
Qed.

Lemma modifies_weaken h h' F F' :
  modifies h h' F → (∀ a, a ∈ F → a ∈ F') → modifies h h' F'.
Proof.
  intros H HF. eapply modifies_trans; [done|apply modifies_refl|done|done].
Qed.

Lemma modifies_step h1 h2 h3 F F' :
  modifies h1 h2 F → modifies h2 h3 F' → (∀ a, a ∈ F' → a ∈ F) →
  modifies h1 h3 F.
Proof. intros H12 H23 HF. by eapply modifies_trans. Qed.

Lemma modifies_dom h h' F : modifies h h' F → dom h' = dom h.
Proof.
  intros H. apply set_eq. intros a. rewrite !elem_of_dom.
  specialize (H a). destruct (h !! a) as [o|].
  - destruct H as (n & -> & _). split; eauto.
  - rewrite H. done.
Qed.

Lemma modifies_fuel h h' F : modifies h h' F → heap_fuel h' = heap_fuel h.
Proof.
  intros H. unfold heap_fuel. by rewrite <- !size_dom, (modifies_dom _ _ _ H).
Qed.

Lemma modifies_outside h h' F a :
  modifies h h' F → a ∉ F → h' !! a = h !! a.
Proof.
  intros H Ha. specialize (H a). destruct (h !! a) as [o|]; [|done].
  destruct H as (n & -> & Hn). by rewrite (Hn Ha), set_base_base.
Qed.

Lemma modifies_view_outside h h' F a :
  modifies h h' F → a ∉ F → view h' a = view h a.
Proof. intros H Ha. unfold view. by rewrite (modifies_outside _ _ _ _ H Ha). Qed.

Lemma modifies_key h h' F a :
  modifies h h' F → (key <$> h' !! a) = (key <$> h !! a).
Proof.
  intros H. specialize (H a). destruct (h !! a) as [o|]; [|by rewrite H].
  destruct H as (n & -> & _). simpl. by rewrite key_set_base.
Qed.

(** A store through a pointer. *)
Lemma upd_Some h a f n k :
  view h a = Some (n, k) →
  ∃ h', upd h a f = Some h'
    ∧ (∀ b, view h' b = if decide (b = a) then Some (f n, k) else view h b)
    ∧ modifies h h' [a].
Proof.
  intros (o & Ho & <- & <-)%view_Some. unfold upd. rewrite Ho. simpl.
  eexists. split; [done|]. split.
  - intros b. unfold view. case_decide as Hb.
    + subst. by rewrite lookup_insert_eq; simpl;
        rewrite base_set_base, key_set_base.
    + by rewrite lookup_insert_ne.
  - intros b. destruct (decide (b = a)) as [->|Hb].
    + rewrite Ho, lookup_insert_eq. eexists. split; [done|].
      intros Hb. exfalso. apply Hb. by left.
    + rewrite lookup_insert_ne by done. destruct (h !! b) as [o'|]; [|done].
      exists (base o'). by rewrite set_base_base.
Qed.

Lemma upd_opt_None h f : upd_opt h None f = Some h.
Proof. done. Qed.

(** The nodes of a shape are objects with a key. *)
Lemma rep_view h par s a :
  rep h par s → a ∈ addrs s → ∃ n k, view h a = Some (n, Some k).
Proof.
  revert par. induction s as [|l IHl b k r IHr]; intros par Hr Ha.
  - by apply elem_of_nil in Ha.
  - destruct Hr as (Hv & Hl & Hrr). rewrite addrs_Bin in Ha.
    apply elem_of_app in Ha as [Ha|Ha];
      [|apply elem_of_cons in Ha as [->|Ha]]; eauto.
Qed.

Lemma rep_key h par s a k :
  rep h par s → (a, k) ∈ inorder s → ∃ n, view h a = Some (n, Some k).
Proof.
  revert par. induction s as [|l IHl b kb r IHr]; intros par Hr Ha.
  - by apply elem_of_nil in Ha.
  - destruct Hr as (Hv & Hl & Hrr). simpl in Ha.
    apply elem_of_app in Ha as [Ha|Ha];
      [|apply elem_of_cons in Ha as [[= -> ->]|Ha]]; eauto.
Qed.

(** Only the views of its own nodes matter to a shape. *)
Lemma rep_agree h h' par s :
  rep h par s → (∀ a, a ∈ addrs s → view h' a = view h a) → rep h' par s.
Proof.
  revert par. induction s as [|l IHl b k r IHr]; intros par Hr Hag; [done|].
  destruct Hr as (Hv & Hl & Hrr). simpl. rewrite Hag.
  - split; [done|]. split.
    + apply IHl; [done|]. intros a Ha. apply Hag. rewrite addrs_Bin. set_solver.
    + apply IHr; [done|]. intros a Ha. apply Hag. rewrite addrs_Bin. set_solver.
  - rewrite addrs_Bin. set_solver.
Qed.

Lemma rep_ctx_agree h h' top c p :
  rep_ctx h top c p →
  (∀ a, a ∈ ctx_addrs c → view h' a = view h a) →
  rep_ctx h' top c p.
Proof.
  revert p. induction c as [|a k r c IH|l a k c IH]; intros p Hc Hag; [done|..].
  - destruct Hc as (Hv & Hr & Hc). simpl.
    setoid_rewrite elem_of_ctx_addrs_CL in Hag.
    rewrite Hag by auto. split; [done|]. split.
    + eapply rep_agree; [done|]. auto.
    + apply IH; auto.
  - destruct Hc as (Hv & Hl & Hc). simpl.
    setoid_rewrite elem_of_ctx_addrs_CR in Hag.
    rewrite Hag by auto. split; [done|]. split.
    + eapply rep_agree; [done|]. auto.
    + apply IH; auto.
Qed.

Lemma root_plug c s : root (plug c s) = ctx_root c (root s).
Proof.
  revert s. induction c as [|a k r c IH|l a k c IH]; intros s; simpl;
    [done|by rewrite IH..].
Qed.

Lemma rep_plug h top c s :
  rep h top (plug c s) ↔ rep_ctx h top c (root s) ∧ rep h (hole_par top c) s.
Proof.
  revert s. induction c as [|a k r c IH|l a k c IH]; intros s; simpl.
  - naive_solver.
  - rewrite IH. simpl. naive_solver.
  - rewrite IH. simpl. naive_solver.
Qed.

(** In a context the slot that holds the hole can be overwritten. *)
Lemma rep_ctx_fill h h' top c p p' :
  rep_ctx h top c p →
  NoDup (ctx_addrs c) →
  (∀ a, a ∈ ctx_addrs c → a ≠ hole_par top c → view h' a = view h a) →
  (∀ n k, c ≠ Hole → view h (hole_par top c) = Some (n, k) →
     view h' (hole_par top c)
     = Some (match c with
             | CR _ _ _ _ => set_right p' n
             | _ => set_left p' n
             end, k)) →
  rep_ctx h' top c p'.
Proof.
  destruct c as [|a k r c|l a k c]; intros Hc Hnd Hag Hslot; [done|..].
  - destruct Hc as (Hv & Hr & Hc). simpl in *.
    apply NoDup_ctx_addrs_CL in Hnd as (Har & Hac & _ & _ & _).
    setoid_rewrite elem_of_ctx_addrs_CL in Hag.
    rewrite (Hslot _ _ ltac:(done) Hv). split; [done|]. split.
    + eapply rep_agree; [done|]. intros b Hb. apply Hag; [auto|]. by intros ->.
    + eapply rep_ctx_agree; [done|]. intros b Hb.
      apply Hag; [auto|]. by intros ->.
  - destruct Hc as (Hv & Hl & Hc). simpl in *.
    apply NoDup_ctx_addrs_CR in Hnd as (Hal & Hac & _ & _ & _).
    setoid_rewrite elem_of_ctx_addrs_CR in Hag.
    rewrite (Hslot _ _ ltac:(done) Hv). split; [done|]. split.
    + eapply rep_agree; [done|]. intros b Hb. apply Hag; [auto|]. by intros ->.
    + eapply rep_ctx_agree; [done|]. intros b Hb.
      apply Hag; [auto|]. by intros ->.
Qed.

(** The root of a shape can be given another parent. *)
Lemma rep_reparent h h' par par' s :
  rep h par s →
  NoDup (addrs s) →
  (∀ a, a ∈ addrs s → root s ≠ Some a → view h' a = view h a) →
  (∀ a n k, root s = Some a → view h a = Some (n, k) →
     view h' a = Some (set_parent (Some par') n, k)) →
  rep h' par' s.
Proof.
  destruct s as [|l a k r]; [done|]. intros (Hv & Hl & Hr) Hnd Hag Hroot.
  apply NoDup_Bin in Hnd as (Hal & Har & _ & _ & _). simpl in *.
  setoid_rewrite elem_of_addrs_Bin in Hag.
  rewrite (Hroot a _ _ eq_refl Hv). split; [done|]. split.
  - eapply rep_agree; [done|]. intros b Hb. apply Hag; [auto|]. by intros [= ->].
  - eapply rep_agree; [done|]. intros b Hb. apply Hag; [auto|]. by intros [= ->].
Qed.

(** A walk without repeats fits in the heap. *)
Lemma length_le_size h (w : list addr) :
  NoDup w → (∀ a, a ∈ w → is_Some (h !! a)) → length w ≤ heap_fuel h.
Proof.
  intros Hnd Hin. unfold heap_fuel. rewrite <- size_dom.
  rewrite <- (size_list_to_set (C := gset addr) w Hnd).
  apply subseteq_size. intros a Ha%elem_of_list_to_set.
  by apply elem_of_dom, Hin.
Qed.
End rep_facts.

(* ================================================================== *)
(** ** Search paths                                                    *)
(* ================================================================== *)

Section descend_facts.
Context {K : Type} (cmp : K → K → bool).
Hypothesis Hswo : strict_weak_order cmp.
Implicit Types (s l r : shape K) (c : ctx K).

Lemma swo_asym a b : cmp a b = true → cmp b a = false.
Proof.
  intros Hab. destruct (cmp b a) eqn:Hba; [|done].
  by rewrite <- (swo_irrefl cmp Hswo a), (swo_trans cmp Hswo a b a).
Qed.

Lemma equiv_key_lt_l a b x :
  equiv_key cmp a b → cmp x a = true → cmp x b = true.
Proof.
  intros [Hab Hba] Hxa.
  destruct (swo_cotrans cmp Hswo x a b Hxa) as [H|H]; [done|congruence].
Qed.

Lemma equiv_key_lt_r a b x :
  equiv_key cmp a b → cmp a x = true → cmp b x = true.
Proof.
  intros [Hab Hba] Hax.
  destruct (swo_cotrans cmp Hswo a x b Hax) as [H|H]; [congruence|done].
Qed.

Lemma keys_plug c s :
  keys (plug c s) = (before c).*2 ++ keys s ++ (after c).*2.
Proof. unfold keys. by rewrite inorder_plug, !fmap_app. Qed.

(** In a search tree the keys around a node are on the right side of
    its key. *)
Lemma bst_plug_Bin c l a k r :
  bst cmp (plug c (Bin l a k r)) →
  (∀ x, x ∈ (before c).*2 → cmp x k = true)
  ∧ (∀ x, x ∈ keys l → cmp x k = true)
  ∧ (∀ x, x ∈ keys r → cmp k x = true)
  ∧ (∀ x, x ∈ (after c).*2 → cmp k x = true).
Proof.
  unfold bst. rewrite keys_plug, keys_Bin.
  intros (_ & H2 & H3)%sorted_app.
  apply sorted_app in H2 as (H4 & _ & H5).
  apply sorted_app in H4 as (_ & H6 & H7).
  apply sorted_cons in H6 as [_ H6].
  repeat split.
  - intros x Hx. apply H3; [done|]. set_solver.
  - intros x Hx. apply H7; [done|]. set_solver.
  - done.
  - intros x Hx. apply H5; [|done]. set_solver.
Qed.

Lemma descend_plug data s c :
  plug (descend cmp data s c).1 (descend cmp data s c).2 = plug c s.
Proof.
  revert c. induction s as [|l IHl a k r IHr]; intros c; simpl; [done|].
  destruct (cmp k data); [by rewrite IHr|].
  destruct (cmp data k); [by rewrite IHl|done].
Qed.

(** The search keeps the key it looks for between what lies before
    the path and what lies after it. *)
Lemma descend_bounds data s c :
  bst cmp (plug c s) →
  (∀ x, x ∈ (before c).*2 → cmp x data = true) →
  (∀ x, x ∈ (after c).*2 → cmp data x = true) →
  let c' := (descend cmp data s c).1 in
  (∀ x, x ∈ (before c').*2 → cmp x data = true)
  ∧ (∀ x, x ∈ (after c').*2 → cmp data x = true)
  ∧ match (descend cmp data s c).2 with
    | Nil => True
    | Bin _ _ k' _ => equiv_key cmp k' data
    end.
Proof.
  revert c. induction s as [|l IHl a k r IHr]; intros c Hbst Hb Ha; simpl.
  - done.
  - pose proof (bst_plug_Bin _ _ _ _ _ Hbst) as (_ & Hl & Hr & _).
    destruct (cmp k data) eqn:E1; [|destruct (cmp data k) eqn:E2].
    + apply IHr; [done| |done]. simpl. intros x.
      rewrite !fmap_app. simpl. rewrite !elem_of_app, list_elem_of_singleton.
      intros [?|[?| ->]]; [by apply Hb| |done].
      eapply swo_trans; [done|by apply Hl|done].
    + apply IHl; [done|done|]. simpl. intros x.
      rewrite fmap_app, elem_of_cons, elem_of_app.
      intros [->|[?|?]]; [done| |by apply Ha].
      eapply swo_trans; [done|done|by apply Hr].
    + done.
Qed.

Lemma descend_top data s :
  bst cmp s →
  let c' := (descend cmp data s Hole).1 in
  (∀ x, x ∈ (before c').*2 → cmp x data = true)
  ∧ (∀ x, x ∈ (after c').*2 → cmp data x = true)
  ∧ match (descend cmp data s Hole).2 with
    | Nil => True
    | Bin _ _ k' _ => equiv_key cmp k' data
    end.
Proof.
  intros Hbst. apply descend_bounds; [done|..];
    intros x Hx; by apply elem_of_nil in Hx.
Qed.

(** A strictly increasing walk holds at most one key equivalent to a
    given one. *)
Lemma sorted_equiv_unique (w : list (addr * K)) a1 k1 a2 k2 data :
  StronglySorted (λ x y, cmp x y = true) w.*2 →
  (a1, k1) ∈ w → (a2, k2) ∈ w →
  equiv_key cmp k1 data → equiv_key cmp k2 data →
  (a1, k1) = (a2, k2).
Proof.
  intros Hs H1 H2 E1 E2.
  assert (Hne : ∀ x y, equiv_key cmp x data → equiv_key cmp y data →
                       cmp x y = true → False).
  { intros x y Ex Ey Hxy.
    pose proof (equiv_key_lt_r _ _ _ Ex Hxy) as Hd.
    destruct Ey. congruence. }
  induction w as [|[a k] w IH]; [by apply elem_of_nil in H1|].
  simpl in Hs. apply sorted_cons in Hs as [Hs Hlt].
  apply elem_of_cons in H1 as [H1|H1], H2 as [H2|H2].
  - congruence.
  - simplify_eq. exfalso. eapply (Hne k k2); [done..|].
    apply Hlt. apply (list_elem_of_fmap_2 snd) in H2. done.
  - simplify_eq. exfalso. eapply (Hne k k1); [done..|].
    apply Hlt. apply (list_elem_of_fmap_2 snd) in H1. done.
  - by apply IH.
Qed.
End descend_facts.

(* ================================================================== *)
(** ** What the members of [intrusive_tree] do                         *)
(* ================================================================== *)

Section tree_specs.
Context {T K : Type} {A : intrusive.Access T K}.
Implicit Types (h : gmap addr T) (t : intrusive.intrusive_tree K).
Implicit Types (s l r : shape K) (c : ctx K).

Lemma tree_rep_sentinel_fresh h sent xr s : tree_rep h sent xr s → sent ∉ addrs s.
Proof.
  intros [Hv Hr] Hin. destruct (rep_view _ _ _ _ Hr Hin) as (n & k & Hv').
  congruence.
Qed.

Lemma tree_rep_fuel h sent xr s :
  tree_rep h sent xr s → NoDup (addrs s) → S (length (addrs s)) ≤ heap_fuel h.
Proof.
  intros Hrep Hnd.
  pose proof (tree_rep_sentinel_fresh _ _ _ _ Hrep) as Hs.
  destruct Hrep as [Hv Hr].
  apply (length_le_size h (sent :: addrs s)); [by constructor|].
  intros a [->|Ha]%elem_of_cons.
  - apply view_Some in Hv as (o & -> & _). eauto.
  - destruct (rep_view _ _ _ _ Hr Ha) as (n & k & (o & -> & _)%view_Some). eauto.
Qed.

Lemma length_addrs s : length (addrs s) = length (inorder s).
Proof. unfold addrs. by rewrite length_fmap. Qed.

(** The loop of [find] walks the search path. *)
Lemma find_loop_descend h cmp data top par s a c fuel :
  rep h par s → root s = Some a → length (inorder s) ≤ fuel →
  intrusive.find_loop fuel h cmp a data
  = Some (stop_of top (descend cmp data s c)).
Proof.
  revert par a c fuel.
  induction s as [|l IHl b k r IHr]; intros par a c fuel Hr Hroot Hfuel;
    [done|].
  simpl in Hroot. injection Hroot as ->. simpl in Hfuel.
  rewrite length_app in Hfuel. simpl in Hfuel.
  destruct fuel as [|fuel]; [lia|].
  destruct Hr as ((o & Ho & Hb & Hk)%view_Some & Hl & Hrr).
  simpl. rewrite Ho. simpl. rewrite Hk. simpl. rewrite Hb. simpl.
  destruct (cmp k data).
  - destruct r as [|rl rb rk rr]; [done|]. simpl root.
    eapply IHr; [done|done|lia].
  - destruct (cmp data k); [|done].
    destruct l as [|ll lb lk lr]; [done|]. simpl root.
    eapply IHl; [done|done|lia].
Qed.

Lemma find_priv_spec h t xr s data :
  tree_rep h (intrusive.sentinel t) xr s → NoDup (addrs s) →
  intrusive.find_priv h t data
  = Some (stop_of (intrusive.sentinel t)
            (descend (intrusive.comp t) data s Hole)).
Proof.
  intros Hrep Hnd. pose proof (tree_rep_fuel _ _ _ _ Hrep Hnd) as Hfuel.
  destruct Hrep as ((o & Ho & Hb & Hk)%view_Some & Hr).
  unfold intrusive.find_priv. rewrite Ho. simpl. rewrite Hb. simpl.
  destruct s as [|l a k r]; [done|]. simpl root.
  eapply find_loop_descend; [done|done|]. rewrite <- length_addrs. lia.
Qed.

(** [find] returns the one node whose key is equivalent to [x], and
    the end position when there is none. *)
Lemma find_spec h t xr s x :
  tree_inv h t xr s →
  (∃ a k, intrusive.find h t x = Some a ∧ (a, k) ∈ inorder s
          ∧ equiv_key (intrusive.comp t) k x)
  ∨ (intrusive.find h t x = Some (intrusive.end_ t)
     ∧ ∀ a k, (a, k) ∈ inorder s → ¬ equiv_key (intrusive.comp t) k x).
Proof.
  intros [Hrep Hnd Hbst Hswo]. unfold intrusive.find.
  rewrite (find_priv_spec _ _ _ _ _ Hrep Hnd).
  pose proof (descend_top _ Hswo x s Hbst) as (Hb & Ha & Hs).
  pose proof (descend_plug (intrusive.comp t) x s Hole) as Hp.
  destruct (descend (intrusive.comp t) x s Hole) as [c' s']. simpl in *.
  destruct s' as [|l' a' k' r'].
  - right. split; [by destruct c'|].
    apply (f_equal inorder) in Hp. rewrite inorder_plug in Hp. simpl in Hp.
    intros a k Hin [E1 E2]. rewrite <- Hp in Hin.
    apply elem_of_app in Hin as [Hin|Hin].
    + apply (list_elem_of_fmap_2 snd) in Hin. apply Hb in Hin.
      simpl in Hin. congruence.
    + apply (list_elem_of_fmap_2 snd) in Hin. apply Ha in Hin.
      simpl in Hin. congruence.
  - left. exists a', k'. split; [done|]. split; [|done].
    rewrite <- Hp, inorder_plug. simpl. set_solver.
Qed.

Lemma find_present h t xr s x a k :
  tree_inv h t xr s → (a, k) ∈ inorder s →
  equiv_key (intrusive.comp t) k x →
  intrusive.find h t x = Some a.
Proof.
  intros Hinv Hin He.
  destruct (find_spec _ _ _ _ x Hinv) as [(a' & k' & Hf & Hin' & He')|[_ Hno]].
  - destruct Hinv as [_ _ Hbst Hswo].
    by injection (sorted_equiv_unique _ Hswo _ _ _ _ _ _ Hbst Hin Hin' He He')
      as -> ->.
  - by destruct (Hno _ _ Hin).
Qed.

Lemma find_absent h t xr s x :
  tree_inv h t xr s →
  (∀ a k, (a, k) ∈ inorder s → ¬ equiv_key (intrusive.comp t) k x) →
  intrusive.find h t x = Some (intrusive.end_ t).
Proof.
  intros Hinv Hno.
  destruct (find_spec _ _ _ _ x Hinv) as [(a' & k' & Hf & Hin' & He')|[? _]];
    [|done].
  by destruct (Hno _ _ Hin').
Qed.

(** [min_node] walks down the left spine. *)
Lemma min_node_loop_spec h par s a fuel :
  rep h par s → root s = Some a → length (inorder s) ≤ fuel →
  intrusive.min_node_loop fuel h a = Some (first_or a (inorder s)).
Proof.
  revert par a fuel.
  induction s as [|l IHl b k r _]; intros par a fuel Hr Hroot Hfuel; [done|].
  simpl in Hroot. injection Hroot as ->. simpl in Hfuel.
  rewrite length_app in Hfuel. simpl in Hfuel.
  destruct fuel as [|fuel]; [lia|].
  destruct Hr as ((o & Ho & Hb & Hk)%view_Some & Hl & Hrr).
  simpl. rewrite Ho. simpl. rewrite Hb. simpl.
  destruct l as [|ll lb lk lr]; [done|]. simpl root. cbv beta iota.
  rewrite (IHl a lb fuel Hl eq_refl) by lia. f_equal. simpl.
  by destruct (inorder ll) as [|[]].
Qed.

Lemma begin_spec h t xr s :
  tree_rep h (intrusive.sentinel t) xr s → NoDup (addrs s) →
  intrusive.begin_ h t = Some (first_or (intrusive.sentinel t) (inorder s)).
Proof.
  intros Hrep Hnd. pose proof (tree_rep_fuel _ _ _ _ Hrep Hnd) as Hfuel.
  destruct Hrep as ((o & Ho & Hb & Hk)%view_Some & Hr).
  unfold intrusive.begin_, intrusive.min_node.
  destruct (heap_fuel h) as [|fuel]; [lia|].
  simpl. rewrite Ho. simpl. rewrite Hb. simpl.
  destruct s as [|l a k r]; [done|]. simpl root. cbv beta iota.
  rewrite (min_node_loop_spec _ _ _ a fuel Hr eq_refl)
    by (rewrite <- length_addrs; lia).
  f_equal. simpl. by destruct (inorder l) as [|[]].
Qed.

Lemma ctx_root_not_Hole c p p' : c ≠ Hole → ctx_root c p = ctx_root c p'.
Proof. by destruct c. Qed.

(** Climbing from the hole of a context ends at the first node that
    an in-order walk meets after the hole. *)
Lemma ascend_spec h top c x n kt fuel :
  rep_ctx h top c (Some x) →
  view h top = Some (n, kt) → intrusive.left n = ctx_root c (Some x) →
  x ∉ ctx_addrs c → NoDup (ctx_addrs c) →
  length (ctx_addrs c) < fuel →
  intrusive.ascend fuel h x (hole_par top c)
  = Some (first_or top (after c)).
Proof.
  revert x fuel.
  induction c as [|a k r c IH|l a k c IH];
    intros x fuel Hc Htop Hleft Hx Hnd Hfuel;
    (destruct fuel as [|fuel]; [lia|]); simpl.
  - apply view_Some in Htop as (o & Ho & Hb & _). rewrite Ho. simpl.
    rewrite Hb, Hleft. simpl. by rewrite decide_True.
  - destruct Hc as ((o & Ho & Hb & _)%view_Some & _ & _).
    rewrite Ho. simpl. rewrite Hb. simpl. by rewrite decide_True.
  - destruct Hc as ((o & Ho & Hb & _)%view_Some & Hl & Hc).
    rewrite Ho. simpl. rewrite Hb. simpl.
    rewrite elem_of_ctx_addrs_CR in Hx.
    apply NoDup_ctx_addrs_CR in Hnd as (? & ? & ? & ? & ?).
    rewrite decide_False.
    2:{ intros Hroot%root_addrs. naive_solver. }
    simpl. apply IH; [done|done|done|done|done|].
    rewrite ctx_addrs_CR in Hfuel. simpl in Hfuel.
    rewrite length_app in Hfuel. lia.
Qed.

(** [next] is the in-order successor. *)
Lemma next_plug h sent xr c l x k r :
  tree_rep h sent xr (plug c (Bin l x k r)) →
  NoDup (addrs (plug c (Bin l x k r))) →
  intrusive.next h x = Some (first_or sent (inorder r ++ after c)).
Proof.
  intros Hrep Hnd. pose proof (tree_rep_fuel _ _ _ _ Hrep Hnd) as Hfuel.
  destruct Hrep as (Htop & Hr).
  apply rep_plug in Hr as (Hc & Hv & Hl & Hrr).
  apply NoDup_plug in Hnd as (Hnd1 & Hnd2 & Hnd3).
  rewrite addrs_plug_perm, length_app in Hfuel.
  unfold intrusive.next.
  pose proof Hv as (o & Ho & Hb & _)%view_Some. rewrite Ho. simpl.
  rewrite Hb. simpl.
  destruct r as [|rl rb rk rr]; simpl root.
  - simpl. eapply ascend_spec; [done|done| |..|lia].
    + simpl. by rewrite root_plug.
    + apply Hnd3. rewrite elem_of_addrs_Bin. auto.
    + done.
  - unfold intrusive.min_node.
    rewrite addrs_Bin, length_app in Hfuel. simpl in Hfuel.
    cbv beta iota.
    rewrite (min_node_loop_spec _ _ _ rb _ Hrr eq_refl)
      by (rewrite <- length_addrs; lia).
    f_equal. simpl. by destruct (inorder rl) as [|[]].
Qed.

Lemma next_spec h sent xr s w1 x k w2 :
  tree_rep h sent xr s → NoDup (addrs s) →
  inorder s = w1 ++ (x, k) :: w2 →
  intrusive.next h x = Some (first_or sent w2).
Proof.
  intros Hrep Hnd Hs.
  assert (NoDup (w1 ++ (x, k) :: w2).*1) as Hnd0 by by rewrite <- Hs.
  assert (x ∈ addrs s) as Hx.
  { unfold addrs. rewrite Hs, fmap_app. set_solver. }
  destruct (plug_at s Hole x Hx) as (c & l & k' & r & Hp). simpl in Hp.
  rewrite Hp in Hrep, Hnd. rewrite (next_plug _ _ _ _ _ _ _ _ Hrep Hnd).
  rewrite Hp, inorder_plug in Hs. simpl in Hs.
  rewrite <- app_assoc in Hs. simpl in Hs. rewrite app_assoc in Hs.
  symmetry in Hs. apply split_unique in Hs as (_ & _ & ->); done.
Qed.

(** The private [find] stops at the node with an equivalent key when
    there is one, and at an empty slot otherwise. *)
Lemma find_priv_cases h t xr s x :
  tree_inv h t xr s →
  let cs := descend (intrusive.comp t) x s Hole in
  intrusive.find_priv h t x = Some (stop_of (intrusive.sentinel t) cs)
  ∧ plug cs.1 cs.2 = s
  ∧ (∀ y, y ∈ (before cs.1).*2 → intrusive.comp t y x = true)
  ∧ (∀ y, y ∈ (after cs.1).*2 → intrusive.comp t x y = true)
  ∧ match cs.2 with
    | Nil => ∀ a k, (a, k) ∈ inorder s → ¬ equiv_key (intrusive.comp t) k x
    | Bin _ _ k' _ => equiv_key (intrusive.comp t) k' x
    end.
Proof.
  intros [Hrep Hnd Hbst Hswo] cs.
  pose proof (descend_top _ Hswo x s Hbst) as (Hb & Ha & Hs).
  pose proof (descend_plug (intrusive.comp t) x s Hole) as Hp.
  split; [by apply find_priv_spec with xr|]. split; [done|].
  split; [done|]. split; [done|]. fold cs in Hp, Hb, Ha, Hs.
  destruct cs as [c' [|l' a' k' r']]; simpl in *; [|done].
  apply (f_equal inorder) in Hp. rewrite inorder_plug in Hp. simpl in Hp.
  intros a k Hin [E1 E2]. rewrite <- Hp in Hin.
  apply elem_of_app in Hin as [Hin|Hin];
    apply (list_elem_of_fmap_2 snd) in Hin; simpl in Hin.
  - apply Hb in Hin. congruence.
  - apply Ha in Hin. congruence.
Qed.

Lemma find_priv_present h t xr s x a k :
  tree_inv h t xr s → (a, k) ∈ inorder s →
  equiv_key (intrusive.comp t) k x →
  intrusive.find_priv h t x = Some (a, intrusive.THERE_IS).
Proof.
  intros Hinv Hin He.
  destruct (find_priv_cases _ _ _ _ x Hinv) as (-> & Hp & _ & _ & Hs).
  destruct (descend (intrusive.comp t) x s Hole) as [c' [|l' a' k' r']];
    simpl in *.
  - by destruct (Hs _ _ Hin).
  - destruct Hinv as [_ _ Hbst Hswo].
    assert ((a', k') ∈ inorder s) as Hin'.
    { rewrite <- Hp, inorder_plug. simpl. set_solver. }
    by injection (sorted_equiv_unique _ Hswo _ _ _ _ _ _ Hbst Hin Hin' He Hs)
      as -> ->.
Qed.

(** [find_next] splits the in-order walk into the keys less than [x]
    and the keys not less than [x], and returns the position where
    the second part starts. *)
Lemma find_next_spec h t xr s x :
  tree_inv h t xr s →
  ∃ w1 w2,
    inorder s = w1 ++ w2
    ∧ (∀ a k, (a, k) ∈ w1 → intrusive.comp t k x = true)
    ∧ (∀ a k, (a, k) ∈ w2 → intrusive.comp t k x = false)
    ∧ intrusive.find_next h t x
      = Some (first_or (intrusive.sentinel t) w2).
Proof.
  intros Hinv.
  destruct (find_priv_cases _ _ _ _ x Hinv) as (Hf & Hp & Hb & Ha & Hs).
  destruct Hinv as [Hrep Hnd Hbst Hswo].
  unfold intrusive.find_next. rewrite Hf.
  assert (∀ (w : list (addr * K)) a k,
            (∀ y, y ∈ w.*2 → intrusive.comp t x y = true) →
            (a, k) ∈ w → intrusive.comp t k x = false) as Hafter.
  { intros w a k Hw Hin. apply (swo_asym _ Hswo), Hw.
    by apply (list_elem_of_fmap_2 snd) in Hin. }
  destruct (descend (intrusive.comp t) x s Hole) as [c' [|l' a' k' r']];
    simpl in *.
  - exists (before c'), (after c').
    split; [by rewrite <- Hp, inorder_plug|].
    split; [intros a k Hin; by apply (list_elem_of_fmap_2 snd), Hb in Hin|].
    split; [intros a k Hin; by eapply Hafter|].
    destruct c' as [|a k r c|l a k c]; simpl; [done|done|].
    rewrite <- Hp in Hrep, Hnd. simpl in Hrep, Hnd.
    by rewrite (next_plug _ _ _ _ _ _ _ _ Hrep Hnd).
  - rewrite <- Hp in Hbst.
    apply bst_plug_Bin in Hbst as (_ & Hl & Hr & _); [|done].
    exists (before c' ++ inorder l'), ((a', k') :: inorder r' ++ after c').
    split; [rewrite <- Hp, inorder_plug; simpl; by rewrite <- !app_assoc|].
    split; [|split; [|done]].
    + intros a k [Hin|Hin]%elem_of_app;
        apply (list_elem_of_fmap_2 snd) in Hin; simpl in Hin; [by apply Hb|].
      eapply equiv_key_lt_l; [done|done|]. by apply Hl.
    + intros a k [[= -> ->]|[Hin|Hin]%elem_of_app]%elem_of_cons.
      * by destruct Hs.
      * apply (list_elem_of_fmap_2 snd), Hr in Hin. simpl in Hin.
        destruct (intrusive.comp t k x) eqn:E; [|done].
        destruct Hs as [Hs _].
        by rewrite (swo_trans _ Hswo _ _ _ Hin E) in Hs.
      * by eapply Hafter.
Qed.

(** [remove(T&)] does nothing when it finds the value. *)
Lemma remove_value_present h t xr s v a k :
  tree_inv h t xr s → (a, k) ∈ inorder s →
  equiv_key (intrusive.comp t) k v →
  intrusive.remove_value h t v = Some (intrusive.end_ t, h, t).
Proof.
  intros Hinv Hin He. unfold intrusive.remove_value.
  by rewrite (find_priv_present _ _ _ _ _ _ _ Hinv Hin He).
Qed.

Lemma tree_inv_counter h t t' xr s :
  tree_inv h t xr s →
  intrusive.sentinel t' = intrusive.sentinel t →
  intrusive.comp t' = intrusive.comp t →
  tree_inv h t' xr s.
Proof. intros [] Hs Hc. split; by rewrite ?Hs, ?Hc. Qed.

(** The parent of a hole is the sentinel or a node of the context. *)
Lemma hole_par_cases top c :
  (c = Hole ∧ hole_par top c = top)
  ∨ (c ≠ Hole ∧ hole_par top c ∈ ctx_addrs c).
Proof.
  destruct c as [|a k r c|l a k c]; [by left|right..]; (split; [done|]); simpl.
  - rewrite elem_of_ctx_addrs_CL. auto.
  - rewrite elem_of_ctx_addrs_CR. auto.
Qed.

Lemma hole_par_view h top xr c s :
  tree_rep h top xr (plug c s) →
  ∃ n k, view h (hole_par top c) = Some (n, k).
Proof.
  intros [Htop [Hc _]%rep_plug].
  destruct c as [|a k r c|l a k c]; simpl in *; [eauto|..];
    destruct Hc as (-> & _); eauto.
Qed.

(** Two stores hang a fresh leaf into an empty slot. *)
Lemma link_leaf h sent xr c d pd kd :
  tree_rep h sent xr (plug c Nil) → NoDup (addrs (plug c Nil)) →
  view h d = Some (intrusive.Node pd None None, Some kd) →
  d ∉ addrs (plug c Nil) →
  ∃ h1 h2,
    intrusive.upd h d (intrusive.set_parent (Some (hole_par sent c))) = Some h1
    ∧ intrusive.upd h1 (hole_par sent c)
        (match c with
         | CR _ _ _ _ => intrusive.set_right (Some d)
         | _ => intrusive.set_left (Some d)
         end) = Some h2
    ∧ tree_rep h2 sent xr (plug c (Bin Nil d kd Nil))
    ∧ modifies h h2 [d; hole_par sent c].
Proof.
  intros Hrep Hnd Hd Hfresh.
  pose proof (tree_rep_sentinel_fresh _ _ _ _ Hrep) as Hsent.
  destruct (hole_par_view _ _ _ _ _ Hrep) as (ncur & kcur & Hcur).
  destruct Hrep as [Htop Hr]. apply rep_plug in Hr as [Hc _].
  apply NoDup_plug in Hnd as (_ & Hndc & _).
  rewrite elem_of_addrs_plug in Hfresh, Hsent.
  assert (d ≠ sent) as Hds by (intros ->; congruence).
  assert (hole_par sent c ≠ d) as Hcd.
  { destruct (hole_par_cases sent c) as [[_ ->]|[_ ?]]; [done|].
    intros <-. auto. }
  destruct (upd_Some h d (intrusive.set_parent (Some (hole_par sent c))) _ _ Hd)
    as (h1 & Hu1 & Hv1 & Hm1).
  assert (view h1 (hole_par sent c) = Some (ncur, kcur)) as Hcur1.
  { by rewrite Hv1, decide_False. }
  destruct (upd_Some h1 (hole_par sent c)
              (match c with
               | CR _ _ _ _ => intrusive.set_right (Some d)
               | _ => intrusive.set_left (Some d)
               end) _ _ Hcur1) as (h2 & Hu2 & Hv2 & Hm2).
  exists h1, h2. split; [done|]. split; [done|]. split; [split|].
  - rewrite Hv2. rewrite root_plug in *.
    destruct (hole_par_cases sent c) as [[Hc0 E]|[Hne Hin]].
    + rewrite decide_True by done. subst c. simpl in *.
      rewrite Hcur in Htop. by injection Htop as -> ->.
    + rewrite decide_False by (intros E; rewrite <- E in Hin; auto).
      rewrite Hv1, decide_False by done.
      by rewrite (ctx_root_not_Hole c _ None).
  - apply rep_plug. split.
    + eapply (rep_ctx_fill h h2); [done|done|..].
      * intros b Hb Hbc. rewrite Hv2, decide_False by done.
        rewrite Hv1, decide_False; [done|]. intros ->. auto.
      * intros n k Hne Hv.
        rewrite Hv2, decide_True by done.
        rewrite Hcur in Hv. injection Hv as -> ->. by destruct c.
    + simpl. rewrite Hv2, decide_False by done.
      by rewrite Hv1, decide_True.
  - eapply modifies_trans; [done|done|set_solver..].
Qed.

(** [insert] hangs the new node where the search for its key ends. *)
Lemma insert_spec h t xr s d pd kd :
  tree_inv h t xr s →
  view h d = Some (intrusive.Node pd None None, Some kd) →
  d ∉ addrs s →
  (∀ a k, (a, k) ∈ inorder s → ¬ equiv_key (intrusive.comp t) k kd) →
  ∃ h' w1 w2 s',
    intrusive.insert h t d
    = Some (d, h', intrusive.Tree (intrusive.sentinel t) (intrusive.comp t)
                     (S (intrusive.n_node t)))
    ∧ tree_inv h' t xr s'
    ∧ inorder s = w1 ++ w2 ∧ inorder s' = w1 ++ (d, kd) :: w2
    ∧ modifies h h' (d :: intrusive.sentinel t :: addrs s).
Proof.
  intros Hinv Hd Hfresh Habs.
  destruct (find_priv_cases _ _ _ _ kd Hinv) as (Hf & Hp & Hb & Ha & Hs).
  destruct Hinv as [Hrep Hnd Hbst Hswo].
  destruct (descend (intrusive.comp t) kd s Hole) as [c' [|l' a' k' r']];
    simpl in *.
  2:{ exfalso. apply (Habs a' k'); [|done].
      rewrite <- Hp, inorder_plug. simpl. set_solver. }
  rewrite <- Hp in Hrep, Hnd, Hfresh.
  destruct (link_leaf _ _ _ _ _ _ _ Hrep Hnd Hd Hfresh)
    as (h1 & h2 & Hu1 & Hu2 & Hrep2 & Hm).
  exists h2, (before c'), (after c'), (plug c' (Bin Nil d kd Nil)).
  assert (inorder s = before c' ++ after c') as Hin
    by by rewrite <- Hp, inorder_plug.
  split; [|split; [split|split; [done|split]]].
  - unfold intrusive.insert.
    pose proof Hd as (od & Hod & _ & Hkd)%view_Some.
    rewrite Hod. simpl. rewrite Hkd. simpl. rewrite Hf.
    destruct c' as [|a k r c|l a k c]; simpl in *;
      rewrite Hu1; simpl; rewrite Hu2; done.
  - done.
  - unfold addrs. rewrite inorder_plug. simpl.
    rewrite fmap_app. simpl. rewrite <- Permutation_middle.
    apply NoDup_cons. split.
    + unfold addrs in Hfresh. by rewrite inorder_plug, fmap_app in Hfresh.
    + unfold addrs in Hnd. by rewrite inorder_plug, fmap_app in Hnd.
  - unfold bst, keys in *. rewrite inorder_plug. rewrite Hin in Hbst.
    simpl. rewrite fmap_app in *. simpl.
    apply sorted_app in Hbst as (H1 & H2 & H3).
    apply sorted_app. split; [done|]. split.
    + apply sorted_cons. done.
    + intros x y Hx [->|Hy]%elem_of_cons; [by apply Hb|by apply H3].
  - done.
  - by rewrite inorder_plug.
  - eapply modifies_weaken; [done|]. intros a.
    rewrite !elem_of_cons, elem_of_nil. intros [->|[->|[]]]; [auto|].
    destruct (hole_par_cases (intrusive.sentinel t) c') as [[_ ->]|[_ ?]];
      [auto|].
    right. right. rewrite <- Hp, elem_of_addrs_plug. auto.
Qed.
End tree_specs.

(* ================================================================== *)
(** ** What [unlink] does                                              *)
(* ================================================================== *)

Section unlink_specs.
Context {T K : Type} {A : intrusive.Access T K}.
Implicit Types (h : gmap addr T) (s l r : shape K) (c : ctx K).

Lemma tree_rep_agree h h' sent xr s :
  tree_rep h sent xr s →
  (∀ b, b ∈ sent :: addrs s → view h' b = view h b) →
  tree_rep h' sent xr s.
Proof.
  intros [Htop Hr] Hag. split.
  - rewrite Hag; [done|by left].
  - eapply rep_agree; [done|]. intros b Hb. apply Hag. by right.
Qed.

(** A shape is given a new parent by one store into its root. *)
Lemma adopt h par0 par s :
  rep h par0 s → NoDup (addrs s) →
  ∃ h', intrusive.upd_opt h (root s) (intrusive.set_parent (Some par)) = Some h'
    ∧ rep h' par s
    ∧ (∀ b, root s ≠ Some b → view h' b = view h b)
    ∧ modifies h h' (addrs s).
Proof.
  intros Hr Hnd. destruct s as [|l a k r].
  - exists h. split; [done|]. split; [done|]. split; [done|].
    apply modifies_refl.
  - pose proof Hr as (Hv & _ & _).
    destruct (upd_Some h a (intrusive.set_parent (Some par)) _ _ Hv)
      as (h' & Hu & Hv' & Hm).
    exists h'. split; [done|]. split; [|split].
    + eapply rep_reparent; [done|done|..].
      * intros b _ Hb. rewrite Hv', decide_False; [done|]. by intros ->.
      * intros b n kb [= <-] Hvb. rewrite Hv', decide_True by done.
        rewrite Hv in Hvb. by injection Hvb as <- <-.
    + intros b Hb. rewrite Hv', decide_False; [done|]. by intros ->.
    + eapply modifies_weaken; [done|]. intros b ->%list_elem_of_singleton.
      rewrite addrs_Bin. set_solver.
Qed.

(** The subtree in the hole of a context is replaced by another one:
    one store into the parent of the hole, one into the new root. *)
Lemma splice h h0 top c x par0 s' :
  rep_ctx h top c (Some x) → NoDup (ctx_addrs c) → c ≠ Hole →
  (∀ b, b ∈ ctx_addrs c → view h0 b = view h b) →
  rep h0 par0 s' → NoDup (addrs s') →
  (∀ b, b ∈ addrs s' → b ∉ ctx_addrs c) →
  ∃ h1 h2,
    intrusive.upd h0 (hole_par top c) (set_slot c (root s')) = Some h1
    ∧ intrusive.upd_opt h1 (root s')
        (intrusive.set_parent (Some (hole_par top c))) = Some h2
    ∧ rep_ctx h2 top c (root s') ∧ rep h2 (hole_par top c) s'
    ∧ (∀ b, b ≠ hole_par top c → root s' ≠ Some b → view h2 b = view h0 b)
    ∧ modifies h0 h2 (hole_par top c :: addrs s').
Proof.
  intros Hc Hndc Hne Hag Hr' Hnd' Hdisj.
  destruct (hole_par_cases top c) as [[? _]|[_ Hpar]]; [done|].
  assert (∃ n k, view h (hole_par top c) = Some (n, k)) as (n & k & Hvp).
  { destruct c as [|a k r c|l a k c]; [done|..];
      destruct Hc as (Hva & _); simpl; eauto. }
  assert (view h0 (hole_par top c) = Some (n, k)) as Hvp0 by by rewrite Hag.
  destruct (upd_Some h0 _ (set_slot c (root s')) _ _ Hvp0)
    as (h1 & Hu1 & Hv1 & Hm1).
  assert (rep h1 par0 s') as Hr1.
  { eapply rep_agree; [done|]. intros b Hb.
    rewrite Hv1, decide_False; [done|]. intros ->. by apply (Hdisj _ Hb). }
  destruct (adopt h1 par0 (hole_par top c) s' Hr1 Hnd')
    as (h2 & Hu2 & Hr2 & Hv2 & Hm2).
  assert (root s' ≠ Some (hole_par top c)) as Hrp.
  { intros Hroot%root_addrs. by apply (Hdisj _ Hroot). }
  exists h1, h2. split; [done|]. split; [done|]. split; [|split; [done|split]].
  - eapply (rep_ctx_fill h h2); [done|done|..].
    + intros b Hb Hbp. rewrite Hv2.
      * rewrite Hv1, decide_False by done. by apply Hag.
      * intros Hroot%root_addrs. by apply (Hdisj _ Hroot).
    + intros n' k' _ Hv. rewrite Hvp in Hv. injection Hv as <- <-.
      rewrite Hv2 by done. rewrite Hv1, decide_True by done. by destruct c.
  - intros b Hb1 Hb2. rewrite Hv2 by done. by rewrite Hv1, decide_False.
  - eapply modifies_trans; [done|done|set_solver..].
Qed.

(** [replace_in_parent] picks the slot of the hole. *)
Lemma replace_in_parent_slot h h0 top c x n k np kp child :
  rep_ctx h top c (Some x) → x ∉ ctx_addrs c →
  (c = Hole → intrusive.left np = Some x) →
  view h0 x = Some (n, k) → intrusive.parent n = Some (hole_par top c) →
  view h0 (hole_par top c) = Some (np, kp) →
  view h (hole_par top c) = Some (np, kp) →
  intrusive.replace_in_parent h0 x child
  = h1 ← intrusive.upd h0 (hole_par top c) (set_slot c child);
    intrusive.upd_opt h1 child (intrusive.set_parent (Some (hole_par top c))).
Proof.
  intros Hc Hx Htop (o & Ho & Hb & _)%view_Some Hpar
    (op & Hop & Hbp & _)%view_Some Hvp.
  unfold intrusive.replace_in_parent. rewrite Ho. simpl. rewrite Hb, Hpar.
  simpl. rewrite Hop. simpl. rewrite Hbp.
  destruct c as [|a ka r c|l a ka c]; simpl in *.
  - by rewrite decide_True by auto.
  - destruct Hc as (Hva & _). rewrite Hva in Hvp. injection Hvp as <- <-.
    by rewrite decide_True.
  - destruct Hc as (Hva & _). rewrite Hva in Hvp. injection Hvp as <- <-.
    rewrite decide_False; [done|]. simpl. intros Hroot%root_addrs.
    apply Hx. rewrite elem_of_ctx_addrs_CR. auto.
Qed.

Lemma replace_in_parent_spec h h0 sent xr c x nx kx par0 s' :
  view h sent = Some (intrusive.Node None (ctx_root c (Some x)) xr, None) →
  rep_ctx h sent c (Some x) →
  NoDup (ctx_addrs c) → sent ∉ ctx_addrs c → x ∉ ctx_addrs c → x ≠ sent →
  (∀ b, b ∈ sent :: ctx_addrs c → view h0 b = view h b) →
  view h0 x = Some (nx, kx) →
  intrusive.parent nx = Some (hole_par sent c) →
  rep h0 par0 s' → NoDup (addrs s') →
  (∀ b, b ∈ addrs s' → (b ∉ ctx_addrs c) ∧ b ≠ sent ∧ b ≠ x) →
  ∃ h1, intrusive.replace_in_parent h0 x (root s') = Some h1
    ∧ tree_rep h1 sent xr (plug c s')
    ∧ view h1 x = view h0 x
    ∧ modifies h0 h1 (hole_par sent c :: addrs s').
Proof.
  intros Htop Hc Hndc Hsc Hxc Hxs Hag Hvx Hpar Hr' Hnd' Hdisj.
  assert (root s' ≠ Some x) as Hrx.
  { intros Hroot%root_addrs. by destruct (Hdisj _ Hroot) as (_ & _ & ?). }
  assert (root s' ≠ Some sent) as Hrs.
  { intros Hroot%root_addrs. by destruct (Hdisj _ Hroot) as (_ & ? & _). }
  destruct (hole_par_cases sent c) as [[-> _]|[Hne Hpin]].
  - simpl in *.
    assert (view h0 sent = Some (intrusive.Node None (Some x) xr, None))
      as Htop0 by (rewrite Hag; [done|by left]).
    rewrite (replace_in_parent_slot h h0 sent Hole x nx kx
               (intrusive.Node None (Some x) xr) None (root s')
               I Hxc (λ _, eq_refl) Hvx Hpar Htop0 Htop). simpl.
    destruct (upd_Some h0 sent (intrusive.set_left (root s')) _ _ Htop0)
      as (h1 & Hu1 & Hv1 & Hm1). rewrite Hu1. simpl.
    assert (rep h1 par0 s') as Hr1.
    { eapply rep_agree; [done|]. intros b Hb.
      rewrite Hv1, decide_False; [done|]. intros ->.
      by destruct (Hdisj _ Hb) as (_ & ? & _). }
    destruct (adopt h1 par0 sent s' Hr1 Hnd') as (h2 & Hu2 & Hr2 & Hv2 & Hm2).
    exists h2. split; [done|]. split; [split|split].
    + rewrite Hv2 by done. by rewrite Hv1, decide_True.
    + done.
    + rewrite Hv2 by done. by rewrite Hv1, decide_False.
    + eapply modifies_trans; [done|done|set_solver..].
  - assert (∃ np kp, view h (hole_par sent c) = Some (np, kp))
      as (np & kp & Hvp).
    { destruct c as [|a k r c|l a k c]; [done|..];
        destruct Hc as (Hva & _); simpl; eauto. }
    assert (view h0 (hole_par sent c) = Some (np, kp)) as Hvp0
      by (rewrite Hag; [done|by right]).
    rewrite (replace_in_parent_slot h h0 sent c x nx kx _ _ (root s')
               Hc Hxc ltac:(done) Hvx Hpar Hvp0 Hvp).
    destruct (splice h h0 sent c x par0 s' Hc Hndc Hne) as
      (h1 & h2 & Hu1 & Hu2 & Hc2 & Hr2 & Hv2 & Hm2); [| done | done | |].
    { intros b Hb. apply Hag. by right. }
    { intros b Hb. by destruct (Hdisj _ Hb). }
    rewrite Hu1. simpl. exists h2. split; [done|]. split; [split|split].
    + rewrite Hv2; [|by intros E; rewrite E in Hsc|done].
      rewrite Hag by by left.
      by rewrite Htop, root_plug, (ctx_root_not_Hole c (root s') (Some x)).
    + apply rep_plug. done.
    + apply Hv2; [|done]. by intros ->.
    + done.
Qed.

(** Once the subtree that replaces [x] is in place, [unlink] hangs it
    into the slot of [x] and clears the links of [x]. *)
Lemma unlink_tail h h0 sent xr c l x k r par0 s' :
  tree_rep h sent xr (plug c (Bin l x k r)) →
  NoDup (addrs (plug c (Bin l x k r))) →
  modifies h h0 (addrs l ++ addrs r) →
  rep h0 par0 s' → NoDup (addrs s') →
  (∀ b, b ∈ addrs s' → b ∈ addrs l ++ addrs r) →
  ∃ h1 h2,
    intrusive.replace_in_parent h0 x (root s') = Some h1
    ∧ intrusive.upd h1 x (λ _, intrusive.null_node) = Some h2
    ∧ tree_rep h2 sent xr (plug c s')
    ∧ view h2 x = Some (intrusive.null_node, Some k)
    ∧ modifies h h2 (sent :: addrs (plug c (Bin l x k r))).
Proof.
  intros Hrep Hnd Hm0 Hr' Hnd' Hsub.
  pose proof (tree_rep_sentinel_fresh _ _ _ _ Hrep) as Hsent.
  destruct Hrep as [Htop Hr]. apply rep_plug in Hr as [Hc (Hv & Hl & Hrr)].
  apply NoDup_plug in Hnd as (HndS & Hndc & Hdisj).
  apply NoDup_Bin in HndS as (Hxl & Hxr & Hndl & Hndr & Hlr).
  rewrite root_plug in Htop. simpl root in Htop.
  rewrite elem_of_addrs_plug, elem_of_addrs_Bin in Hsent.
  setoid_rewrite elem_of_addrs_Bin in Hdisj.
  setoid_rewrite elem_of_app in Hsub.
  assert (x ∉ ctx_addrs c) as Hxc by auto.
  assert (x ≠ sent) as Hxs by (intros ->; auto).
  assert (x ∉ addrs l ++ addrs r) as Hxlr by (rewrite elem_of_app; tauto).
  assert (view h0 x
          = Some (intrusive.Node (Some (hole_par sent c)) (root l) (root r),
                  Some k)) as Hvx0.
  { rewrite <- Hv. by eapply modifies_view_outside. }
  assert (sent ∉ ctx_addrs c) as Hsc by tauto.
  assert (∀ b, b ∈ sent :: ctx_addrs c → view h0 b = view h b) as Hag.
  { intros b Hb. eapply modifies_view_outside; [done|].
    rewrite elem_of_app. intros Hb'. apply elem_of_cons in Hb as [->|Hb].
    - tauto.
    - apply (Hdisj b); tauto. }
  assert (∀ b, b ∈ addrs s' → (b ∉ ctx_addrs c) ∧ b ≠ sent ∧ b ≠ x) as Hdisj'.
  { intros b Hb. specialize (Hsub b Hb). repeat split.
    - apply Hdisj. tauto.
    - intros ->. tauto.
    - intros ->. tauto. }
  destruct (replace_in_parent_spec h h0 sent xr c x _ _ par0 s' Htop Hc
              Hndc Hsc Hxc Hxs Hag Hvx0 eq_refl Hr' Hnd' Hdisj')
    as (h1 & Hrp & Hrep1 & Hvx1 & Hm1).
  assert (view h1 x = Some (intrusive.Node (Some (hole_par sent c)) (root l) (root r), Some k))
    as Hvx by by rewrite Hvx1.
  destruct (upd_Some h1 x (λ _, intrusive.null_node) _ _ Hvx)
    as (h2 & Hu2 & Hv2 & Hm2).
  exists h1, h2. split; [done|]. split; [done|]. split; [|split].
  - eapply tree_rep_agree; [done|]. intros b Hb.
    rewrite Hv2, decide_False; [done|]. intros ->.
    apply elem_of_cons in Hb as [?|Hb]; [done|].
    apply elem_of_addrs_plug in Hb as [Hb|Hb]; [|done].
    specialize (Hsub _ Hb). tauto.
  - by rewrite Hv2, decide_True.
  - eapply modifies_trans; [|done| |].
    + eapply (modifies_trans _ _ _ _ _
                ((addrs l ++ addrs r) ++ hole_par sent c :: addrs s'));
        [done|done|set_solver..].
    + intros b [Hb|Hb]%elem_of_app.
      * right. rewrite elem_of_addrs_plug, elem_of_addrs_Bin.
        apply elem_of_app in Hb. tauto.
      * apply elem_of_cons in Hb as [->|Hb].
        -- destruct (hole_par_cases sent c) as [[_ ->]|[_ ?]]; [by left|].
           right. rewrite elem_of_addrs_plug. auto.
        -- right. rewrite elem_of_addrs_plug, elem_of_addrs_Bin.
           specialize (Hsub _ Hb). tauto.
    + intros b ->%list_elem_of_singleton. right.
      rewrite elem_of_addrs_plug, elem_of_addrs_Bin. auto.
Qed.

(** The two-children case: the leftmost node [m] of the right subtree
    is cut out and takes over both subtrees of [x]. *)
Lemma lift_min h x k l la r rb cm m km rm :
  rep h x l → root l = Some la →
  rep h x r → root r = Some rb →
  NoDup (addrs (Bin l x k r)) →
  length (addrs r) ≤ heap_fuel h →
  plug cm (Bin Nil m km rm) = r → before cm = [] →
  (cm = Hole ∨ ∃ a' k' r' c', cm = CL a' k' r' c') →
  ∃ os ps h3 h4 h5 par0,
    intrusive.min_node h rb = Some m
    ∧ h !! m = Some os
    ∧ intrusive.parent (intrusive.base os) = Some ps
    ∧ (if decide (ps = x) then Some h
       else
         h1 ← intrusive.upd h ps
                (intrusive.set_left (intrusive.right (intrusive.base os)));
         h2 ← intrusive.upd_opt h1 (intrusive.right (intrusive.base os))
                (intrusive.set_parent (Some ps));
         h3 ← intrusive.upd h2 m (intrusive.set_right (Some rb));
         intrusive.upd h3 rb (intrusive.set_parent (Some m))) = Some h3
    ∧ intrusive.upd h3 m (intrusive.set_left (Some la)) = Some h4
    ∧ intrusive.upd h4 la (intrusive.set_parent (Some m)) = Some h5
    ∧ rep h5 par0 (Bin l m km (plug cm rm))
    ∧ modifies h h5 (addrs l ++ addrs r).
Proof.
  intros Hl Hla Hr Hrb Hnd Hfuel Hp Hb Hcases.
  assert (intrusive.min_node h rb = Some m) as Hmin.
  { unfold intrusive.min_node.
    rewrite (min_node_loop_spec h x r rb _ Hr Hrb)
      by (rewrite <- length_addrs; done).
    f_equal. by rewrite <- Hp, inorder_plug, Hb. }
  apply NoDup_Bin in Hnd as (Hxl & Hxr & Hndl & Hndr & Hlr).
  subst r. rewrite root_plug in Hrb. simpl root in Hrb.
  apply rep_plug in Hr as [Hcm (Hvm & _ & Hrm)]. simpl root in Hcm, Hvm.
  apply NoDup_plug in Hndr as (Hndm & Hndcm & Hdisjm).
  apply NoDup_Bin in Hndm as (_ & Hmrm & _ & Hndrm & _).
  setoid_rewrite elem_of_addrs_plug in Hlr.
  setoid_rewrite elem_of_addrs_Bin in Hlr.
  setoid_rewrite elem_of_addrs_Bin in Hdisjm.
  rewrite elem_of_addrs_plug, elem_of_addrs_Bin in Hxr.
  pose proof Hvm as (os & Hos & Hbos & _)%view_Some.
  assert (la ∈ addrs l) as Hlal by by apply root_addrs.
  assert (la ≠ m) as Hlam by (intros ->; apply (Hlr m); auto).
  assert (∀ F, F ⊆ addrs (plug cm (Bin Nil m km rm)) →
               F ⊆ addrs l ++ addrs (plug cm (Bin Nil m km rm))) as Hsub
    by set_solver.
  destruct Hcases as [->|(a' & k' & r' & c' & Hcmeq)].
  - simpl in *. injection Hrb as <-.
    destruct (upd_Some h m (intrusive.set_left (Some la)) _ _ Hvm)
      as (h4 & Hu4 & Hv4 & Hm4).
    assert (rep h4 x l) as Hl4.
    { eapply rep_agree; [done|]. intros b Hb'.
      rewrite Hv4, decide_False; [done|]. intros ->. apply (Hlr m); auto. }
    destruct (adopt h4 x m l Hl4 Hndl) as (h5 & Hu5 & Hr5 & Hv5 & Hm5).
    rewrite Hla in Hu5, Hv5. simpl in Hu5.
    exists os, x, h, h4, h5, x. rewrite Hbos. simpl.
    rewrite decide_True by done.
    repeat split; try done.
    + rewrite Hv5 by congruence. rewrite Hv4, decide_True by done.
      by rewrite Hla.
    + eapply rep_agree; [done|]. intros b Hb'.
      rewrite Hv5 by (intros [= ->]; apply (Hlr b); auto).
      rewrite Hv4, decide_False; [done|]. by intros ->.
    + eapply modifies_trans; [done|done|..].
      * intros b ->%list_elem_of_singleton. rewrite elem_of_app.
        right. rewrite addrs_Bin. set_solver.
      * set_solver.
  - assert (hole_par x cm = a') as Hpar by by rewrite Hcmeq.
    assert (∀ p, set_slot cm p = intrusive.set_left p) as Hslot
      by by rewrite Hcmeq.
    assert (cm ≠ Hole) as Hcmne by by rewrite Hcmeq.
    assert (a' ∈ ctx_addrs cm) as Ha'
      by (rewrite Hcmeq; apply elem_of_ctx_addrs_CL; auto).
    clear Hcmeq. rewrite Hpar in Hvm, Hbos.
    assert (a' ≠ x) as Ha'x by (intros ->; tauto).
    assert (a' ≠ m) as Ha'm by (intros ->; apply (Hdisjm m); auto).
    destruct (splice h h x cm m m rm Hcm Hndcm Hcmne (λ _ _, eq_refl)
                Hrm Hndrm) as (h1 & h2 & Hu1 & Hu2 & Hc2 & Hr2 & Hv2 & Hm2).
    { intros b Hb'. apply Hdisjm. auto. }
    assert (rep h2 x (plug cm rm)) as Hr2' by by apply rep_plug.
    rewrite Hpar in Hu1, Hu2, Hv2, Hm2. rewrite Hslot in Hu1.
    assert (root (plug cm rm) = Some rb) as Hrb2.
    { by rewrite root_plug, (ctx_root_not_Hole cm (root rm) (Some m)). }
    assert (m ∉ addrs (plug cm rm)) as Hm2'.
    { rewrite elem_of_addrs_plug. intros [?|?]; [done|].
      apply (Hdisjm m); auto. }
    assert (NoDup (addrs (plug cm rm))) as Hnd2.
    { apply NoDup_plug. repeat split; [done|done|]. intros b Hb'.
      apply Hdisjm. auto. }
    assert (view h2 m = view h m) as Hvm2.
    { apply Hv2; [done|]. by intros Hroot%root_addrs. }
    rewrite Hvm in Hvm2.
    destruct (upd_Some h2 m (intrusive.set_right (Some rb)) _ _ Hvm2)
      as (h3a & Hu3a & Hv3a & Hm3a).
    assert (rep h3a x (plug cm rm)) as Hr3a.
    { eapply rep_agree; [done|]. intros b Hb'.
      rewrite Hv3a, decide_False; [done|]. by intros ->. }
    destruct (adopt h3a x m _ Hr3a Hnd2) as (h3 & Hu3 & Hr3 & Hv3 & Hm3).
    rewrite Hrb2 in Hu3, Hv3. simpl in Hu3.
    assert (rb ≠ m) as Hrbm.
    { intros ->. by apply Hm2', root_addrs. }
    assert (view h3 m
            = Some (intrusive.Node (Some a') None (Some rb), Some km)) as Hvm3.
    { rewrite Hv3 by congruence. by rewrite Hv3a, decide_True. }
    destruct (upd_Some h3 m (intrusive.set_left (Some la)) _ _ Hvm3)
      as (h4 & Hu4 & Hv4 & Hm4).
    assert (modifies h h4 (addrs (plug cm (Bin Nil m km rm)))) as Hm04.
    { assert (∀ b, b ∈ addrs (plug cm rm) ∨ b ∈ addrs rm ∨ b = m ∨ b = a' →
                   b ∈ addrs (plug cm (Bin Nil m km rm))) as Hin.
      { intros b. rewrite !elem_of_addrs_plug, elem_of_addrs_Bin.
        intros [[?|?]|[?|[->| ->]]]; auto. }
      eapply modifies_step; [|exact Hm4|].
      - eapply modifies_step; [|exact Hm3|].
        + eapply modifies_step; [|exact Hm3a|].
          * eapply modifies_weaken; [exact Hm2|].
            intros b [->|?]%elem_of_cons; auto.
          * intros b ->%list_elem_of_singleton. auto.
        + auto.
      - intros b ->%list_elem_of_singleton. auto. }
    assert (rep h4 x l) as Hl4.
    { eapply rep_agree; [done|]. intros b Hb'.
      eapply modifies_view_outside; [done|]. intros Hb''.
      rewrite elem_of_addrs_plug, elem_of_addrs_Bin in Hb''.
      by apply (Hlr b Hb'). }
    destruct (adopt h4 x m l Hl4 Hndl) as (h5 & Hu5 & Hr5 & Hv5 & Hm5).
    rewrite Hla in Hu5, Hv5. simpl in Hu5.
    exists os, a', h3, h4, h5, a'. rewrite Hbos. simpl.
    rewrite decide_False by done. rewrite Hu1. simpl. rewrite Hu2. simpl.
    rewrite Hu3a. simpl.
    repeat split; try done.
    + rewrite Hv5 by congruence. rewrite Hv4, decide_True by done.
      by rewrite Hla, Hrb2.
    + eapply rep_agree; [done|]. intros b Hb'.
      rewrite Hv5.
      * rewrite Hv4, decide_False; [done|]. by intros ->.
      * intros [= ->]. apply (Hlr b); [done|].
        apply elem_of_addrs_plug in Hb' as [?|?]; auto.
    + eapply modifies_trans; [done|done|..]; set_solver.
Qed.

Lemma addrs_join_shapes l r : addrs (join_shapes l r) = addrs l ++ addrs r.
Proof. unfold addrs. by rewrite join_shapes_inorder, fmap_app. Qed.

(** [unlink] takes a node out of its tree and leaves the in-order
    walk of the others as it was. *)
Lemma unlink_spec h sent xr c l x k r :
  tree_rep h sent xr (plug c (Bin l x k r)) →
  NoDup (addrs (plug c (Bin l x k r))) →
  ∃ h', intrusive.unlink h x = Some h'
    ∧ tree_rep h' sent xr (plug c (join_shapes l r))
    ∧ view h' x = Some (intrusive.null_node, Some k)
    ∧ modifies h h' (sent :: addrs (plug c (Bin l x k r))).
Proof.
  intros Hrep Hnd.
  pose proof (tree_rep_fuel _ _ _ _ Hrep Hnd) as Hfuel.
  pose proof Hrep as [_ [_ (Hv & Hl & Hr)]%rep_plug].
  pose proof Hnd as (HndS & _ & _)%NoDup_plug.
  pose proof HndS as (_ & _ & Hndl & Hndr & Hlr)%NoDup_Bin.
  pose proof Hv as (o & Ho & Hb & _)%view_Some.
  assert (NoDup (addrs (join_shapes l r))) as Hndj.
  { rewrite addrs_join_shapes. apply NoDup_app. auto. }
  assert (∀ b, b ∈ addrs (join_shapes l r) → b ∈ addrs l ++ addrs r) as Hsubj.
  { intros b. by rewrite addrs_join_shapes. }
  unfold intrusive.unlink. rewrite Ho. simpl. rewrite Hb. simpl.
  destruct l as [|ll la lk lr], r as [|rl rb rk rr]; simpl root; cbv beta iota.
  - destruct (unlink_tail h h sent xr c _ x k _ x (join_shapes Nil Nil)
                Hrep Hnd (modifies_refl _ _) I Hndj Hsubj)
      as (h1 & h2 & Hu1 & Hu2 & ? & ? & ?).
    simpl in Hu1. rewrite Hu1. simpl. rewrite Hu2. eauto.
  - destruct (unlink_tail h h sent xr c _ x k _ x
                (join_shapes Nil (Bin rl rb rk rr))
                Hrep Hnd (modifies_refl _ _) Hr Hndj Hsubj)
      as (h1 & h2 & Hu1 & Hu2 & ? & ? & ?).
    simpl in Hu1. rewrite Hu1. simpl. rewrite Hu2. eauto.
  - destruct (unlink_tail h h sent xr c _ x k _ x
                (join_shapes (Bin ll la lk lr) Nil)
                Hrep Hnd (modifies_refl _ _) Hl Hndj Hsubj)
      as (h1 & h2 & Hu1 & Hu2 & ? & ? & ?).
    simpl in Hu1. rewrite Hu1. simpl. rewrite Hu2. eauto.
  - pose proof (min_path_spec rl rb rk rr Hole) as Hsp.
    simpl join_shapes in *.
    destruct (min_path rl rb rk rr Hole) as [[[cm m] km] rm].
    destruct Hsp as (Hp & Hbf & Hcases). simpl in Hp, Hbf.
    destruct (lift_min h x k (Bin ll la lk lr) la (Bin rl rb rk rr) rb
                cm m km rm Hl eq_refl Hr eq_refl HndS)
      as (os & ps & h3 & h4 & h5 & par0 & Hmin & Hos & Hps & Hh3 & Hu4 & Hu5
          & Hr5 & Hm5); [|done|done|tauto|].
    { rewrite addrs_plug_perm, length_app, addrs_Bin, !length_app in Hfuel.
      simpl in Hfuel. lia. }
    rewrite Hmin. simpl. rewrite Hos. simpl. rewrite Hps. simpl.
    rewrite Hh3. simpl. rewrite Hu4. simpl. rewrite Hu5. simpl.
    destruct (unlink_tail h h5 sent xr c _ x k _ par0
                (Bin (Bin ll la lk lr) m km (plug cm rm)) Hrep Hnd
                Hm5 Hr5 Hndj Hsubj)
      as (h6 & h7 & Hu6 & Hu7 & ? & ? & ?).
    simpl in Hu6. rewrite Hu6. simpl. rewrite Hu7. eauto.
Qed.
End unlink_specs.

(* ================================================================== *)
(** ** Walks and removals under the invariant of an index              *)
(* ================================================================== *)

Section tree_inv_specs.
Context {T K : Type} {A : intrusive.Access T K}.
Implicit Types (h : gmap addr T) (t : intrusive.intrusive_tree K).
Implicit Types (s l r : shape K) (c : ctx K).

Lemma sorted_remove (cmp : K → K → bool) (u v : list K) a :
  StronglySorted (λ x y, cmp x y = true) (u ++ a :: v) →
  StronglySorted (λ x y, cmp x y = true) (u ++ v).
Proof.
  intros (Hu & [Hv _]%sorted_cons & Huv)%sorted_app.
  apply sorted_app. repeat split; [done..|].
  intros x y Hx Hy. apply Huv; [done|by right].
Qed.

(** The loop [for (it; it != end(); ++it)] visits the rest of the
    in-order walk. *)
Lemma walk_spec h t xr s w1 w2 fuel :
  tree_rep h (intrusive.sentinel t) xr s → NoDup (addrs s) →
  inorder s = w1 ++ w2 → length w2 < fuel →
  intrusive.walk fuel h t (first_or (intrusive.sentinel t) w2) = Some w2.*1.
Proof.
  intros Hrep Hnd. revert w1 fuel.
  induction w2 as [|[x k] w2 IH]; intros w1 fuel Hs Hfuel;
    (destruct fuel as [|fuel]; [simpl in Hfuel; lia|]); simpl.
  - unfold intrusive.end_. by rewrite decide_True.
  - unfold intrusive.end_. rewrite decide_False.
    2:{ intros ->. apply (tree_rep_sentinel_fresh _ _ _ _ Hrep).
        unfold addrs. rewrite Hs, fmap_app. set_solver. }
    rewrite (next_spec _ _ _ _ _ _ _ _ Hrep Hnd Hs). simpl.
    rewrite (IH (w1 ++ [(x, k)]) fuel).
    + done.
    + by rewrite <- app_assoc.
    + simpl in Hfuel. lia.
Qed.

Lemma walk_all h t xr s :
  tree_rep h (intrusive.sentinel t) xr s → NoDup (addrs s) →
  intrusive.positions h t = Some (addrs s).
Proof.
  intros Hrep Hnd. unfold intrusive.positions.
  rewrite (begin_spec _ _ _ _ Hrep Hnd). simpl.
  apply (walk_spec _ _ _ _ [] _ _ Hrep Hnd); [done|].
  pose proof (tree_rep_fuel _ _ _ _ Hrep Hnd). rewrite <- length_addrs. lia.
Qed.

Lemma traversal_spec h t xr s :
  tree_rep h (intrusive.sentinel t) xr s → NoDup (addrs s) →
  intrusive.traversal h t = Some (inorder s).
Proof.
  intros Hrep Hnd. unfold intrusive.traversal.
  rewrite (walk_all _ _ _ _ Hrep Hnd). simpl.
  destruct Hrep as [_ Hr]. unfold addrs.
  assert (∀ a k, (a, k) ∈ inorder s → ∃ n, view h a = Some (n, Some k)) as Hk
    by (intros a k; by apply rep_key with (intrusive.sentinel t)).
  apply mapM_Some, Forall2_fmap_l, Forall_Forall2_diag, Forall_forall.
  intros [a k] Hin. simpl.
  destruct (Hk a k Hin) as (n & (o & Ho & _ & Hko)%view_Some).
  rewrite Ho. simpl. by rewrite Hko.
Qed.

(** [unlink] under the invariant: the node leaves the walk, the rest
    stays a search tree. *)
Lemma unlink_inv h t xr s x :
  tree_inv h t xr s → x ∈ addrs s →
  ∃ h' s' w1 k w2,
    intrusive.unlink h x = Some h'
    ∧ tree_inv h' t xr s'
    ∧ inorder s = w1 ++ (x, k) :: w2
    ∧ inorder s' = w1 ++ w2
    ∧ view h' x = Some (intrusive.null_node, Some k)
    ∧ modifies h h' (intrusive.sentinel t :: addrs s).
Proof.
  intros [Hrep Hnd Hbst Hswo] Hx.
  destruct (plug_at s Hole x Hx) as (c & l & k & r & Hp). simpl in Hp.
  subst s.
  destruct (unlink_spec _ _ _ _ _ _ _ _ Hrep Hnd) as (h' & Hu & Hrep' & Hv & Hm).
  exists h', (plug c (join_shapes l r)), (before c ++ inorder l), k,
    (inorder r ++ after c).
  assert (inorder (plug c (Bin l x k r))
          = (before c ++ inorder l) ++ (x, k) :: inorder r ++ after c) as E1.
  { rewrite inorder_plug. simpl. by rewrite <- !app_assoc. }
  assert (inorder (plug c (join_shapes l r))
          = (before c ++ inorder l) ++ inorder r ++ after c) as E2.
  { rewrite inorder_plug, join_shapes_inorder. by rewrite <- !app_assoc. }
  split; [done|]. split; [split|]; [done| | |done|done].
  - unfold addrs in *. rewrite E1 in Hnd. rewrite E2.
    rewrite fmap_app in *. simpl in Hnd.
    apply NoDup_app in Hnd as (H1 & H2 & H3%NoDup_cons).
    apply NoDup_app. repeat split; [done| |tauto].
    intros y Hy Hy'. apply (H2 y Hy). by right.
  - unfold bst, keys in *. rewrite E1 in Hbst. rewrite E2.
    rewrite fmap_app in *. simpl in Hbst. by eapply sorted_remove.
Qed.
End tree_inv_specs.

(* ================================================================== *)
(** ** The two indexes of a bimap share the heap                       *)
(* ================================================================== *)

Section sharing.
Context {Left Right : Type}.
Local Abbreviation LT := (@details.left_tag Left Right).
Local Abbreviation RT := (@details.right_tag Left Right).
Implicit Types (h : gmap addr (details.obj Left Right)).
Implicit Types (B : bimap.bimap Left Right).

Lemma view_left_pair h a n k :
  view (A := LT) h a = Some (n, Some k) →
  ∃ r, h !! a = Some (details.pair_record r)
       ∧ details.links (details.left_part r) = n
       ∧ details.key (details.left_part r) = k.
Proof.
  intros (o & Ho & Hb & Hk)%view_Some. destruct o as [|r]; [done|].
  simpl in *. exists r. by simplify_eq.
Qed.

Lemma view_right_pair h a n k :
  view (A := RT) h a = Some (n, Some k) →
  ∃ r, h !! a = Some (details.pair_record r)
       ∧ details.links (details.right_part r) = n
       ∧ details.key (details.right_part r) = k.
Proof.
  intros (o & Ho & Hb & Hk)%view_Some. destruct o as [|r]; [done|].
  simpl in *. exists r. by simplify_eq.
Qed.

Lemma view_sentinel_left h a n :
  view (A := LT) h a = Some (n, None) ↔ h !! a = Some (details.sentinel_node n).
Proof.
  rewrite view_Some. split.
  - intros (o & Ho & Hb & Hk). destruct o; simpl in *; by simplify_eq.
  - intros Ho. by eexists.
Qed.

Lemma view_sentinel_right h a n :
  view (A := RT) h a = Some (n, None) ↔ h !! a = Some (details.sentinel_node n).
Proof.
  rewrite view_Some. split.
  - intros (o & Ho & Hb & Hk). destruct o; simpl in *; by simplify_eq.
  - intros Ho. by eexists.
Qed.

(** Stores through one tag leave the other tag's view of a pair
    record alone, and never touch the keys. *)
Lemma modifies_left_view_right h h' F a :
  modifies (A := LT) h h' F →
  a ∉ F ∨ (∃ r, h !! a = Some (details.pair_record r)) →
  view (A := RT) h' a = view (A := RT) h a.
Proof.
  intros Hm [Ha|[r Hr]].
  - unfold view. by rewrite (modifies_outside _ _ _ _ Hm Ha).
  - specialize (Hm a). rewrite Hr in Hm. destruct Hm as (n & Hn & _).
    unfold view. by rewrite Hn, Hr.
Qed.

Lemma modifies_right_view_left h h' F a :
  modifies (A := RT) h h' F →
  a ∉ F ∨ (∃ r, h !! a = Some (details.pair_record r)) →
  view (A := LT) h' a = view (A := LT) h a.
Proof.
  intros Hm [Ha|[r Hr]].
  - unfold view. by rewrite (modifies_outside _ _ _ _ Hm Ha).
  - specialize (Hm a). rewrite Hr in Hm. destruct Hm as (n & Hn & _).
    unfold view. by rewrite Hn, Hr.
Qed.

Lemma modifies_left_pair_at h h' F a :
  modifies (A := LT) h h' F → pair_at h' a = pair_at h a.
Proof.
  intros Hm. specialize (Hm a). unfold pair_at.
  destruct (h !! a) as [[n|r]|]; [..|by rewrite Hm];
    destruct Hm as (n' & -> & _); done.
Qed.

Lemma modifies_right_pair_at h h' F a :
  modifies (A := RT) h h' F → pair_at h' a = pair_at h a.
Proof.
  intros Hm. specialize (Hm a). unfold pair_at.
  destruct (h !! a) as [[n|r]|]; [..|by rewrite Hm];
    destruct Hm as (n' & -> & _); done.
Qed.

Lemma tree_inv_agree {T K} {A : intrusive.Access T K}
    (h h' : gmap addr T) t xr (s : shape K) :
  tree_inv h t xr s →
  (∀ b, b ∈ intrusive.sentinel t :: addrs s → view h' b = view h b) →
  tree_inv h' t xr s.
Proof. intros [] Hag. split; [by eapply tree_rep_agree|done..]. Qed.

Lemma tree_inv_right_frame h h' F t xr (s : shape Right) :
  tree_inv (A := RT) h t xr s → modifies (A := LT) h h' F →
  intrusive.sentinel t ∉ F →
  tree_inv (A := RT) h' t xr s.
Proof.
  intros Hinv Hm Hs. eapply tree_inv_agree; [done|].
  intros b [->|Hb]%elem_of_cons;
    (eapply modifies_left_view_right; [done|]); [by left|right].
  destruct Hinv as [[_ Hr] _ _ _].
  destruct (rep_view _ _ _ _ Hr Hb) as (n & k & (r & Hr' & _)%view_right_pair).
  eauto.
Qed.

Lemma tree_inv_left_frame h h' F t xr (s : shape Left) :
  tree_inv (A := LT) h t xr s → modifies (A := RT) h h' F →
  intrusive.sentinel t ∉ F →
  tree_inv (A := LT) h' t xr s.
Proof.
  intros Hinv Hm Hs. eapply tree_inv_agree; [done|].
  intros b [->|Hb]%elem_of_cons;
    (eapply modifies_right_view_left; [done|]); [by left|right].
  destruct Hinv as [[_ Hr] _ _ _].
  destruct (rep_view _ _ _ _ Hr Hb) as (n & k & (r & Hr' & _)%view_left_pair).
  eauto.
Qed.

(** An index lives in the heap at its sentinel and its nodes. *)
Lemma tree_inv_same {T K} {A : intrusive.Access T K}
    (h h' : gmap addr T) t xr (s : shape K) :
  tree_inv h t xr s →
  (∀ b, b ∈ intrusive.sentinel t :: addrs s → h' !! b = h !! b) →
  tree_inv h' t xr s.
Proof.
  intros Hinv Hag. eapply tree_inv_agree; [done|].
  intros b Hb. unfold view. by rewrite Hag.
Qed.

Lemma tree_inv_dom {T K} {A : intrusive.Access T K}
    (h : gmap addr T) t xr (s : shape K) b :
  tree_inv h t xr s → b ∈ intrusive.sentinel t :: addrs s → is_Some (h !! b).
Proof.
  intros [[Htop Hr] _ _ _] [->|Hb]%elem_of_cons.
  - apply view_Some in Htop as (o & -> & _). eauto.
  - destruct (rep_view _ _ _ _ Hr Hb) as (n & k & (o & -> & _)%view_Some).
    eauto.
Qed.

(** The pair at an address is what the left iterator shows there. *)
Lemma entry_pair_at h a : bimap.entry h a = pair_at h a.
Proof.
  unfold bimap.entry, bimap.deref_left, bimap.flip_left, bimap.deref_right,
    intrusive.is_end, pair_at.
  destruct (h !! a) as [[n|r]|] eqn:E; simpl; [done| |done].
  by rewrite E.
Qed.
End sharing.

(* ================================================================== *)
(** ** What the members of [bimap] do                                  *)
(* ================================================================== *)

Section bimap_specs.
Context {Left Right : Type}.
Local Abbreviation LT := (@details.left_tag Left Right).
Local Abbreviation RT := (@details.right_tag Left Right).
Implicit Types (h : gmap addr (details.obj Left Right)).
Implicit Types (B : bimap.bimap Left Right).
Implicit Types (sl : shape Left) (sr : shape Right).

Local Abbreviation sentL B := (intrusive.sentinel (bimap.left_tree B)).
Local Abbreviation sentR B := (intrusive.sentinel (bimap.right_tree B)).
Local Abbreviation compL B := (intrusive.comp (bimap.left_tree B)).
Local Abbreviation compR B := (intrusive.comp (bimap.right_tree B)).

(** The addresses a bimap occupies. *)
Lemma wf_dom h B sl sr b :
  wf_shapes h B sl sr → b ∈ sentL B :: sentR B :: addrs sl →
  is_Some (h !! b).
Proof.
  intros [HL HR _ Hsame _] [->|[->|Hb]%elem_of_cons]%elem_of_cons.
  - eapply tree_inv_dom; [exact HL|by left].
  - eapply tree_inv_dom; [exact HR|by left].
  - eapply tree_inv_dom; [exact HL|by right].
Qed.

Lemma wf_sentinel_left h B sl sr :
  wf_shapes h B sl sr →
  h !! sentL B
  = Some (details.sentinel_node
            (intrusive.Node None (root sl) (Some (sentR B)))).
Proof. intros [[[Htop _] _ _ _] _ _ _ _]. by apply view_sentinel_left. Qed.

Lemma wf_sentinel_right h B sl sr :
  wf_shapes h B sl sr →
  h !! sentR B
  = Some (details.sentinel_node
            (intrusive.Node None (root sr) (Some (sentL B)))).
Proof. intros [_ [[Htop _] _ _ _] _ _ _]. by apply view_sentinel_right. Qed.

Lemma wf_node_left h B sl sr a :
  wf_shapes h B sl sr → a ∈ addrs sl →
  ∃ r, h !! a = Some (details.pair_record r).
Proof.
  intros [[[_ Hr] _ _ _] _ _ _ _] Ha.
  destruct (rep_view _ _ _ _ Hr Ha) as (n & k & (r & ? & _)%view_left_pair).
  eauto.
Qed.

Lemma wf_sentinels_fresh h B sl sr :
  wf_shapes h B sl sr →
  (sentL B ∉ addrs sl) ∧ (sentR B ∉ addrs sl)
  ∧ (sentL B ∉ addrs sr) ∧ (sentR B ∉ addrs sr).
Proof.
  intros Hwf.
  assert (∀ b, b ∈ addrs sl → b ≠ sentL B ∧ b ≠ sentR B) as H.
  { intros b [r Hb]%(wf_node_left _ _ _ _ _ Hwf). split; intros ->.
    - by rewrite (wf_sentinel_left _ _ _ _ Hwf) in Hb.
    - by rewrite (wf_sentinel_right _ _ _ _ Hwf) in Hb. }
  pose proof (wf_same _ _ _ _ Hwf) as Hsame.
  setoid_rewrite <- Hsame. naive_solver.
Qed.

(** What a pair record shows on either side. *)
Lemma wf_pair_left h B sl sr a kl :
  wf_shapes h B sl sr → (a, kl) ∈ inorder sl →
  ∃ kr, pair_at h a = Some (kl, kr) ∧ (a, kr) ∈ inorder sr.
Proof.
  intros [[[_ HrL] _ _ _] [[_ HrR] _ _ _] _ Hsame _] Hin.
  destruct (rep_key _ _ _ _ _ HrL Hin) as (n & (r & Hr & _ & Hk)%view_left_pair).
  assert (a ∈ addrs sr) as Ha.
  { rewrite <- Hsame. unfold addrs. by apply (list_elem_of_fmap_2 fst) in Hin. }
  unfold addrs in Ha. apply list_elem_of_fmap in Ha as ([a' kr] & -> & Ha).
  simpl in *.
  destruct (rep_key _ _ _ _ _ HrR Ha) as (n' & (r' & Hr' & _ & Hk')%view_right_pair).
  exists kr. split; [|done]. unfold pair_at. rewrite Hr. simplify_eq. done.
Qed.

Lemma wf_pair_right h B sl sr a kr :
  wf_shapes h B sl sr → (a, kr) ∈ inorder sr →
  ∃ kl, pair_at h a = Some (kl, kr) ∧ (a, kl) ∈ inorder sl.
Proof.
  intros [[[_ HrL] _ _ _] [[_ HrR] _ _ _] _ Hsame _] Hin.
  destruct (rep_key _ _ _ _ _ HrR Hin) as (n & (r & Hr & _ & Hk)%view_right_pair).
  assert (a ∈ addrs sl) as Ha.
  { rewrite Hsame. unfold addrs. by apply (list_elem_of_fmap_2 fst) in Hin. }
  unfold addrs in Ha. apply list_elem_of_fmap in Ha as ([a' kl] & -> & Ha).
  simpl in *.
  destruct (rep_key _ _ _ _ _ HrL Ha) as (n' & (r' & Hr' & _ & Hk')%view_left_pair).
  exists kl. split; [|done]. unfold pair_at. rewrite Hr. simplify_eq. done.
Qed.

(** The traversals of a bimap follow the two shapes. *)
Lemma wf_left_positions h B sl sr :
  wf_shapes h B sl sr → bimap.left_positions h B = Some (addrs sl).
Proof. intros [[] _ _ _ _]. by eapply walk_all. Qed.

Lemma wf_right_positions h B sl sr :
  wf_shapes h B sl sr → bimap.right_positions h B = Some (addrs sr).
Proof. intros [_ [] _ _ _]. by eapply walk_all. Qed.

Lemma entries_of_mapM h (w : list (addr * Left)) es :
  (∀ a kl, (a, kl) ∈ w → ∃ kr, pair_at h a = Some (kl, kr)) →
  mapM (bimap.entry h) w.*1 = Some es ↔ entries_of h w es.
Proof.
  intros Hp. unfold entries_of. rewrite mapM_Some, Forall2_fmap_l.
  split; intros HF.
  - induction HF as [|[a kl] e w es He HF IH]; constructor.
    + simpl in *. rewrite entry_pair_at in He. split; [done|].
      destruct (Hp a kl) as [kr Hkr]; [by left|].
      rewrite Hkr in He. by injection He as <-.
    + apply IH. intros ???. apply Hp. by right.
  - induction HF as [|[a kl] e w es [He _] HF IH]; constructor.
    + simpl in *. by rewrite entry_pair_at.
    + apply IH. intros ???. apply Hp. by right.
Qed.

Lemma wf_entries h B sl sr es :
  wf_shapes h B sl sr →
  bimap.entries h B = Some es ↔ entries_of h (inorder sl) es.
Proof.
  intros Hwf. unfold bimap.entries.
  rewrite (wf_left_positions _ _ _ _ Hwf). simpl.
  apply entries_of_mapM. intros a kl Hin.
  destruct (wf_pair_left _ _ _ _ _ _ Hwf Hin) as (kr & ? & _). eauto.
Qed.

Lemma wf_entries_total h B sl sr :
  wf_shapes h B sl sr → ∃ es, bimap.entries h B = Some es.
Proof.
  intros Hwf.
  assert (∃ es, entries_of h (inorder sl) es) as [es Hes].
  { assert (∀ a kl, (a, kl) ∈ inorder sl →
                    ∃ kr, pair_at h a = Some (kl, kr)) as Hp.
    { intros a kl Hin.
      destruct (wf_pair_left _ _ _ _ _ _ Hwf Hin) as (kr & ? & _). eauto. }
    clear Hwf. induction (inorder sl) as [|[a kl] w IH].
    - exists []. constructor.
    - destruct (Hp a kl) as [kr Hkr]; [by left|].
      destruct IH as [es Hes]; [intros ???; apply Hp; by right|].
      exists ((kl, kr) :: es). by constructor. }
  exists es. by eapply wf_entries.
Qed.

(** [add] when neither key is there: one record is allocated and
    linked into both indexes. *)
Lemma add_fresh h B sl sr l r :
  wf_shapes h B sl sr →
  (∀ a k, (a, k) ∈ inorder sl → ¬ equiv_key (compL B) k l) →
  (∀ a k, (a, k) ∈ inorder sr → ¬ equiv_key (compR B) k r) →
  ∃ d h' B' sl' sr' w1 w2 v1 v2,
    bimap.add h B l r = Some (d, h', B')
    ∧ h !! d = None
    ∧ wf_shapes h' B' sl' sr'
    ∧ sentL B' = sentL B ∧ sentR B' = sentR B
    ∧ compL B' = compL B ∧ compR B' = compR B
    ∧ bimap.n_node B' = S (bimap.n_node B)
    ∧ inorder sl = w1 ++ w2 ∧ inorder sl' = w1 ++ (d, l) :: w2
    ∧ inorder sr = v1 ++ v2 ∧ inorder sr' = v1 ++ (d, r) :: v2
    ∧ pair_at h' d = Some (l, r)
    ∧ (∀ a, a ≠ d → pair_at h' a = pair_at h a)
    ∧ (∀ a, is_Some (h !! a) → a ∉ sentL B :: sentR B :: addrs sl →
            h' !! a = h !! a).
Proof.
  intros Hwf HnoL HnoR.
  pose proof (wf_sentinels_fresh _ _ _ _ Hwf) as (HsLl & HsRl & HsLr & HsRr).
  pose proof (λ b, wf_dom _ _ _ _ b Hwf) as Hdom.
  destruct Hwf as [HL HR Hsent Hsame Hcount].
  unfold bimap.add, bimap.find_left, bimap.find_right.
  rewrite (find_absent _ _ _ _ _ HL HnoL). simpl.
  rewrite decide_True by done.
  rewrite (find_absent _ _ _ _ _ HR HnoR). simpl.
  rewrite decide_True by done.
  unfold bimap.new_node.
  set (d := fresh (dom h)).
  assert (h !! d = None) as Hd by apply not_elem_of_dom, is_fresh.
  set (o := details.pair_record
              (details.NodeT (details.KeyT intrusive.null_node l)
                 (details.KeyT intrusive.null_node r))).
  set (h1 := <[d := o]> h).
  assert (∀ b, is_Some (h !! b) → h1 !! b = h !! b) as Hh1.
  { intros b Hb. unfold h1. rewrite lookup_insert_ne; [done|].
    intros <-. rewrite Hd in Hb. by destruct Hb. }
  assert (d ∉ sentL B :: sentR B :: addrs sl) as Hdfresh.
  { intros Hin%Hdom. rewrite Hd in Hin. by destruct Hin. }
  rewrite !not_elem_of_cons in Hdfresh. destruct Hdfresh as (HdL & HdR & Hdsl).
  assert (d ∉ addrs sr) as Hdsr by by rewrite <- Hsame.
  assert (tree_inv (A := LT) h1 (bimap.left_tree B) (Some (sentR B)) sl)
    as HL1.
  { eapply tree_inv_same; [done|]. intros b Hb. apply Hh1.
    eapply tree_inv_dom; [exact HL|done]. }
  assert (tree_inv (A := RT) h1 (bimap.right_tree B) (Some (sentL B)) sr)
    as HR1.
  { eapply tree_inv_same; [done|]. intros b Hb. apply Hh1.
    eapply tree_inv_dom; [exact HR|done]. }
  assert (view (A := LT) h1 d
          = Some (intrusive.Node None None None, Some l)) as HvL.
  { unfold view, h1. by rewrite lookup_insert_eq. }
  destruct (insert_spec (A := LT) h1 _ _ _ d None l HL1 HvL Hdsl HnoL)
    as (h2 & w1 & w2 & sl' & Hins1 & HL2 & Hin & Hin' & Hm12).
  rewrite Hins1. simpl.
  assert (tree_inv (A := RT) h2 (bimap.right_tree B) (Some (sentL B)) sr)
    as HR2.
  { eapply tree_inv_right_frame; [done|done|].
    rewrite !not_elem_of_cons. auto. }
  assert (view (A := RT) h2 d
          = Some (intrusive.Node None None None, Some r)) as HvR.
  { rewrite (modifies_left_view_right _ _ _ _ Hm12).
    - unfold view, h1. by rewrite lookup_insert_eq.
    - right. unfold h1. rewrite lookup_insert_eq. eauto. }
  destruct (insert_spec (A := RT) h2 _ _ _ d None r HR2 HvR Hdsr HnoR)
    as (h3 & v1 & v2 & sr' & Hins2 & HR3 & Hjn & Hjn' & Hm23).
  rewrite Hins2. simpl.
  assert (tree_inv (A := LT) h3 (bimap.left_tree B) (Some (sentR B)) sl')
    as HL3.
  { eapply tree_inv_left_frame; [done|done|].
    rewrite !not_elem_of_cons. auto. }
  assert (addrs sl' ≡ₚ d :: addrs sl) as Hpl.
  { unfold addrs. rewrite Hin, Hin', !fmap_app. simpl.
    by rewrite <- Permutation_middle. }
  assert (addrs sr' ≡ₚ d :: addrs sr) as Hpr.
  { unfold addrs. rewrite Hjn, Hjn', !fmap_app. simpl.
    by rewrite <- Permutation_middle. }
  eexists d, h3, _, sl', sr', w1, w2, v1, v2.
  split; [done|]. split; [done|]. split; [split|]; simpl.
  - by eapply tree_inv_counter.
  - by eapply tree_inv_counter.
  - done.
  - by rewrite Hpl, Hpr, Hsame.
  - by rewrite Hpl, Hcount.
  - repeat split; try done.
    + rewrite (modifies_right_pair_at _ _ _ _ Hm23).
      rewrite (modifies_left_pair_at _ _ _ _ Hm12).
      unfold pair_at, h1. by rewrite lookup_insert_eq.
    + intros a Ha.
      rewrite (modifies_right_pair_at _ _ _ _ Hm23).
      rewrite (modifies_left_pair_at _ _ _ _ Hm12).
      unfold pair_at, h1. by rewrite lookup_insert_ne.
    + intros a Ha Hout. rewrite !not_elem_of_cons in Hout.
      destruct Hout as (HaL & HaR & Hasl).
      assert (a ≠ d) as Had by (intros ->; rewrite Hd in Ha; by destruct Ha).
      rewrite (modifies_outside _ _ _ _ Hm23).
      2:{ rewrite !not_elem_of_cons, <- Hsame. auto. }
      rewrite (modifies_outside _ _ _ _ Hm12).
      2:{ rewrite !not_elem_of_cons. auto. }
      by apply Hh1.
Qed.

Lemma NoDup_fst_inj {K} (w : list (addr * K)) x k1 k2 :
  NoDup w.*1 → (x, k1) ∈ w → (x, k2) ∈ w → k1 = k2.
Proof.
  induction w as [|[y k] w IH]; intros Hnd H1 H2; [by apply elem_of_nil in H1|].
  simpl in Hnd. apply NoDup_cons in Hnd as [Hy Hnd].
  apply elem_of_cons in H1 as [H1|H1], H2 as [H2|H2].
  - congruence.
  - simplify_eq. by apply (list_elem_of_fmap_2 fst) in H2.
  - simplify_eq. by apply (list_elem_of_fmap_2 fst) in H1.
  - by apply IH.
Qed.

Lemma split_fresh {K} (w1 w2 : list (addr * K)) x k :
  NoDup (w1 ++ (x, k) :: w2).*1 →
  (x ∉ (w1 ++ w2).*1) ∧ NoDup (w1 ++ w2).*1
  ∧ (w1 ++ (x, k) :: w2).*1 ≡ₚ x :: (w1 ++ w2).*1.
Proof.
  rewrite !fmap_app. simpl. rewrite <- Permutation_middle.
  intros [? ?]%NoDup_cons. done.
Qed.

(** [delete pointer]: the record leaves both indexes and the heap. *)
Lemma delete_node_spec h B sl sr x :
  wf_shapes h B sl sr → x ∈ addrs sl →
  ∃ h' sl' sr' w1 kl w2 v1 kr v2,
    bimap.delete_node h x = Some h'
    ∧ wf_shapes h'
        (bimap.Bimap (bimap.left_tree B) (bimap.right_tree B)
           (pred (bimap.n_node B))) sl' sr'
    ∧ inorder sl = w1 ++ (x, kl) :: w2 ∧ inorder sl' = w1 ++ w2
    ∧ inorder sr = v1 ++ (x, kr) :: v2 ∧ inorder sr' = v1 ++ v2
    ∧ pair_at h x = Some (kl, kr)
    ∧ h' !! x = None
    ∧ (∀ a, a ≠ x → pair_at h' a = pair_at h a)
    ∧ (∀ a, a ∉ sentL B :: sentR B :: addrs sl → h' !! a = h !! a).
Proof.
  intros Hwf Hx.
  pose proof (wf_sentinels_fresh _ _ _ _ Hwf) as (HsLl & HsRl & HsLr & HsRr).
  pose proof Hwf as [HL HR Hsent Hsame Hcount].
  assert (x ∈ addrs sr) as Hxr by by rewrite <- Hsame.
  destruct (unlink_inv (A := LT) _ _ _ _ _ HL Hx)
    as (h1 & sl' & w1 & kl & w2 & Hu1 & HL1 & Hin & Hin' & _ & Hm1).
  assert (tree_inv (A := RT) h1 (bimap.right_tree B) (Some (sentL B)) sr)
    as HR1.
  { eapply tree_inv_right_frame; [done|done|].
    rewrite !not_elem_of_cons. auto. }
  destruct (unlink_inv (A := RT) _ _ _ _ _ HR1 Hxr)
    as (h2 & sr' & v1 & kr & v2 & Hu2 & HR2 & Hjn & Hjn' & _ & Hm2).
  assert (tree_inv (A := LT) h2 (bimap.left_tree B) (Some (sentR B)) sl')
    as HL2.
  { eapply tree_inv_left_frame; [done|done|].
    rewrite !not_elem_of_cons. auto. }
  pose proof HL as [_ HndL _ _]. pose proof HR as [_ HndR _ _].
  pose proof HndR as HndR0.
  unfold addrs in HndL, HndR. rewrite Hin in HndL. rewrite Hjn in HndR.
  apply split_fresh in HndL as (HxL & _ & HpL).
  apply split_fresh in HndR as (HxR & _ & HpR).
  assert (x ≠ sentL B ∧ x ≠ sentR B) as [HxsL HxsR]
    by (split; intros ->; done).
  exists (delete x h2), sl', sr', w1, kl, w2, v1, kr, v2.
  split; [by unfold bimap.delete_node; rewrite Hu1; simpl; rewrite Hu2|].
  split; [split; simpl|].
  - eapply tree_inv_same; [exact HL2|]. intros b Hb.
    rewrite lookup_delete_ne; [done|]. intros <-.
    apply elem_of_cons in Hb as [?|Hb]; [done|].
    unfold addrs in Hb. by rewrite Hin' in Hb.
  - eapply tree_inv_same; [exact HR2|]. intros b Hb.
    rewrite lookup_delete_ne; [done|]. intros <-.
    apply elem_of_cons in Hb as [?|Hb]; [done|].
    unfold addrs in Hb. by rewrite Hjn' in Hb.
  - done.
  - unfold addrs in *. rewrite Hin', Hjn'. rewrite Hin, Hjn in Hsame.
    rewrite HpL, HpR in Hsame. by apply Permutation_cons_inv in Hsame.
  - unfold addrs in *. rewrite Hcount, Hin, HpL, Hin'. done.
  - repeat split; try done.
    + destruct (wf_pair_left _ _ _ _ x kl Hwf) as (kr' & Hp & Hin2).
      { rewrite Hin. set_solver. }
      rewrite Hp. do 2 f_equal.
      eapply (NoDup_fst_inj (inorder sr)); [exact HndR0|done|].
      rewrite Hjn. set_solver.
    + apply lookup_delete_eq.
    + intros a Ha. unfold pair_at at 1. rewrite lookup_delete_ne by done.
      fold (pair_at h2 a).
      rewrite (modifies_right_pair_at _ _ _ _ Hm2).
      by rewrite (modifies_left_pair_at _ _ _ _ Hm1).
    + intros a Hout. rewrite !not_elem_of_cons in Hout.
      destruct Hout as (HaL & HaR & Hasl).
      rewrite lookup_delete_ne by (intros <-; done).
      rewrite (modifies_outside _ _ _ _ Hm2).
      2:{ rewrite !not_elem_of_cons, <- Hsame. auto. }
      rewrite (modifies_outside _ _ _ _ Hm1); [done|].
      rewrite !not_elem_of_cons. auto.
Qed.

(** [add] when one of the keys is there: nothing happens. *)
Lemma add_present h B sl sr l r :
  wf_shapes h B sl sr →
  (∃ a k, (a, k) ∈ inorder sl ∧ equiv_key (compL B) k l)
  ∨ (∃ a k, (a, k) ∈ inorder sr ∧ equiv_key (compR B) k r) →
  bimap.add h B l r = Some (bimap.end_left B, h, B).
Proof.
  intros Hwf Hpresent.
  pose proof (wf_sentinels_fresh _ _ _ _ Hwf) as (HsLl & HsRl & HsLr & HsRr).
  destruct Hwf as [HL HR Hsent Hsame Hcount].
  unfold bimap.add, bimap.find_left, bimap.find_right.
  destruct (find_spec _ _ _ _ l HL) as [(a & k & -> & Hin & He)|[-> Hno]];
    simpl.
  - rewrite decide_False; [done|]. unfold bimap.end_left, intrusive.end_.
    intros ->. apply HsLl. by apply (list_elem_of_fmap_2 fst) in Hin.
  - rewrite decide_True by done.
    destruct Hpresent as [(a & k & Hin & He)|(a & k & Hin & He)];
      [by destruct (Hno _ _ Hin)|].
    rewrite (find_present _ _ _ _ _ _ _ HR Hin He). simpl.
    rewrite decide_False; [done|]. unfold bimap.end_right, intrusive.end_.
    intros ->. apply HsRr. by apply (list_elem_of_fmap_2 fst) in Hin.
Qed.

(** Either key is there or neither is. *)
Lemma present_or_absent h B sl sr l r :
  wf_shapes h B sl sr →
  ((∃ a k, (a, k) ∈ inorder sl ∧ equiv_key (compL B) k l)
   ∨ (∃ a k, (a, k) ∈ inorder sr ∧ equiv_key (compR B) k r))
  ∨ ((∀ a k, (a, k) ∈ inorder sl → ¬ equiv_key (compL B) k l)
     ∧ (∀ a k, (a, k) ∈ inorder sr → ¬ equiv_key (compR B) k r)).
Proof.
  intros [HL HR _ _ _].
  destruct (find_spec _ _ _ _ l HL) as [(a & k & _ & Hin & He)|[_ HnoL]];
    [eauto 10|].
  destruct (find_spec _ _ _ _ r HR) as [(a & k & _ & Hin & He)|[_ HnoR]];
    [eauto 10|]. auto.
Qed.

Lemma insert_wf h B l r it h' B' :
  wf h B → bimap.insert h B l r = Some (it, h', B') → wf h' B'.
Proof.
  intros (sl & sr & Hwf) Hins. unfold bimap.insert in Hins.
  destruct (present_or_absent _ _ _ _ l r Hwf) as [Hp|[HnoL HnoR]].
  - rewrite (add_present _ _ _ _ _ _ Hwf Hp) in Hins.
    injection Hins as <- <- <-. by exists sl, sr.
  - destruct (add_fresh _ _ _ _ _ _ Hwf HnoL HnoR)
      as (d & h'' & B'' & sl' & sr' & ? & ? & ? & ? & Hadd & _ & Hwf' & _).
    rewrite Hadd in Hins. injection Hins as <- <- <-. by exists sl', sr'.
Qed.

(** [erase_left] and [erase_right] at a position of the bimap. *)
Lemma erase_left_spec h B sl sr w1 x kl w2 :
  wf_shapes h B sl sr → inorder sl = w1 ++ (x, kl) :: w2 →
  ∃ h',
    bimap.erase_left h B x
    = Some (first_or (sentL B) w2, h',
            bimap.Bimap (bimap.left_tree B) (bimap.right_tree B)
              (pred (bimap.n_node B)))
    ∧ bimap.delete_node h x = Some h'.
Proof.
  intros Hwf Hin. assert (x ∈ addrs sl) as Hx.
  { unfold addrs. rewrite Hin, fmap_app. set_solver. }
  destruct (delete_node_spec _ _ _ _ _ Hwf Hx) as (h' & ? & ? & ? & ? & ? & ? & ? & ? & Hdel & _).
  destruct Hwf as [[[] ? ? ?] _ _ _ _].
  exists h'. split; [|done]. unfold bimap.erase_left, bimap.incr_left.
  erewrite next_spec; [|done..]. simpl. by rewrite Hdel.
Qed.

Lemma erase_right_spec h B sl sr v1 x kr v2 :
  wf_shapes h B sl sr → inorder sr = v1 ++ (x, kr) :: v2 →
  ∃ h',
    bimap.erase_right h B x
    = Some (first_or (sentR B) v2, h',
            bimap.Bimap (bimap.left_tree B) (bimap.right_tree B)
              (pred (bimap.n_node B)))
    ∧ bimap.delete_node h x = Some h'.
Proof.
  intros Hwf Hin. assert (x ∈ addrs sl) as Hx.
  { rewrite (wf_same _ _ _ _ Hwf). unfold addrs. rewrite Hin, fmap_app.
    set_solver. }
  destruct (delete_node_spec _ _ _ _ _ Hwf Hx) as (h' & ? & ? & ? & ? & ? & ? & ? & ? & Hdel & _).
  destruct Hwf as [_ [[] ? ? ?] _ _ _].
  exists h'. split; [|done]. unfold bimap.erase_right, bimap.incr_right.
  erewrite next_spec; [|done..]. simpl. by rewrite Hdel.
Qed.

(** Erasing by key: the record with an equivalent key goes, if there
    is one. *)
Lemma erase_left_key_cases h B sl sr l :
  wf_shapes h B sl sr →
  (∃ a k h', (a, k) ∈ inorder sl ∧ equiv_key (compL B) k l
     ∧ bimap.delete_node h a = Some h'
     ∧ bimap.erase_left_key h B l
       = Some (true, h',
               bimap.Bimap (bimap.left_tree B) (bimap.right_tree B)
                 (pred (bimap.n_node B))))
  ∨ ((∀ a k, (a, k) ∈ inorder sl → ¬ equiv_key (compL B) k l)
     ∧ bimap.erase_left_key h B l = Some (false, h, B)).
Proof.
  intros Hwf.
  pose proof (wf_sentinels_fresh _ _ _ _ Hwf) as (HsLl & _).
  pose proof Hwf as [HL _ _ _ _].
  unfold bimap.erase_left_key, bimap.find_left.
  destruct (find_spec _ _ _ _ l HL) as [(a & k & -> & Hin & He)|[-> Hno]];
    simpl.
  - left. pose proof Hin as (w1 & w2 & Hsplit)%list_elem_of_split.
    destruct (erase_left_spec _ _ _ _ _ _ _ _ Hwf Hsplit) as (h' & -> & Hdel).
    exists a, k, h'. rewrite decide_True; [done|].
    unfold bimap.end_left, intrusive.end_. intros ->. apply HsLl.
    by apply (list_elem_of_fmap_2 fst) in Hin.
  - right. split; [done|]. by rewrite decide_False by auto.
Qed.

Lemma erase_right_key_cases h B sl sr r :
  wf_shapes h B sl sr →
  (∃ a k h', (a, k) ∈ inorder sr ∧ equiv_key (compR B) k r
     ∧ bimap.delete_node h a = Some h'
     ∧ bimap.erase_right_key h B r
       = Some (true, h',
               bimap.Bimap (bimap.left_tree B) (bimap.right_tree B)
                 (pred (bimap.n_node B))))
  ∨ ((∀ a k, (a, k) ∈ inorder sr → ¬ equiv_key (compR B) k r)
     ∧ bimap.erase_right_key h B r = Some (false, h, B)).
Proof.
  intros Hwf.
  pose proof (wf_sentinels_fresh _ _ _ _ Hwf) as (_ & _ & _ & HsRr).
  pose proof Hwf as [_ HR _ _ _].
  unfold bimap.erase_right_key, bimap.find_right.
  destruct (find_spec _ _ _ _ r HR) as [(a & k & -> & Hin & He)|[-> Hno]];
    simpl.
  - left. pose proof Hin as (v1 & v2 & Hsplit)%list_elem_of_split.
    destruct (erase_right_spec _ _ _ _ _ _ _ _ Hwf Hsplit) as (h' & -> & Hdel).
    exists a, k, h'. rewrite decide_True; [done|].
    unfold bimap.end_right, intrusive.end_. intros ->. apply HsRr.
    by apply (list_elem_of_fmap_2 fst) in Hin.
  - right. split; [done|]. by rewrite decide_False by auto.
Qed.

Lemma delete_node_wf h B sl sr x h' :
  wf_shapes h B sl sr → x ∈ addrs sl → bimap.delete_node h x = Some h' →
  wf h' (bimap.Bimap (bimap.left_tree B) (bimap.right_tree B)
           (pred (bimap.n_node B))).
Proof.
  intros Hwf Hx Hdel.
  destruct (delete_node_spec _ _ _ _ _ Hwf Hx)
    as (h'' & sl' & sr' & ? & ? & ? & ? & ? & ? & Hdel' & Hwf' & _).
  rewrite Hdel in Hdel'. injection Hdel' as <-. by exists sl', sr'.
Qed.

Lemma erase_left_key_wf h B l b h' B' :
  wf h B → bimap.erase_left_key h B l = Some (b, h', B') → wf h' B'.
Proof.
  intros (sl & sr & Hwf) He.
  destruct (erase_left_key_cases _ _ _ _ l Hwf)
    as [(a & k & h'' & Hin & _ & Hdel & He')|[_ He']];
    rewrite He' in He; injection He as <- <- <-; [|by exists sl, sr].
  eapply delete_node_wf; [done| |done].
  by apply (list_elem_of_fmap_2 fst) in Hin.
Qed.

Lemma erase_right_key_wf h B r b h' B' :
  wf h B → bimap.erase_right_key h B r = Some (b, h', B') → wf h' B'.
Proof.
  intros (sl & sr & Hwf) He.
  destruct (erase_right_key_cases _ _ _ _ r Hwf)
    as [(a & k & h'' & Hin & _ & Hdel & He')|[_ He']];
    rewrite He' in He; injection He as <- <- <-; [|by exists sl, sr].
  eapply delete_node_wf; [done| |done].
  rewrite (wf_same _ _ _ _ Hwf). by apply (list_elem_of_fmap_2 fst) in Hin.
Qed.

(** The constructor makes an empty bimap out of two fresh sentinels. *)
Lemma ctor_spec h cl cr :
  strict_weak_order cl → strict_weak_order cr →
  ∃ h' B,
    bimap.ctor h cl cr = Some (h', B)
    ∧ wf_shapes h' B Nil Nil
    ∧ compL B = cl ∧ compR B = cr
    ∧ h !! sentL B = None ∧ h !! sentR B = None
    ∧ (∀ a, is_Some (h !! a) → h' !! a = h !! a).
Proof.
  intros HcL HcR. unfold bimap.ctor, bimap.new_tree, bimap.link_sentinel.
  set (s1 := fresh (dom h)).
  set (h1 := <[s1 := details.sentinel_node intrusive.null_node]> h).
  set (s2 := fresh (dom h1)).
  set (h2 := <[s2 := details.sentinel_node intrusive.null_node]> h1).
  assert (h !! s1 = None) as H1 by apply not_elem_of_dom, is_fresh.
  assert (h1 !! s2 = None) as H2 by apply not_elem_of_dom, is_fresh.
  assert (s1 ≠ s2) as Hne.
  { intros E. rewrite <- E in H2. unfold h1 in H2.
    by rewrite lookup_insert_eq in H2. }
  assert (h !! s2 = None) as H2'.
  { unfold h1 in H2. by rewrite lookup_insert_ne in H2. }
  assert (h2 !! s2 = Some (details.sentinel_node intrusive.null_node)) as E2
    by apply lookup_insert_eq.
  assert (h2 !! s1 = Some (details.sentinel_node intrusive.null_node)) as E1.
  { unfold h2. rewrite lookup_insert_ne by done. apply lookup_insert_eq. }
  simpl. unfold intrusive.upd. simpl. rewrite E2. simpl.
  rewrite lookup_insert_ne by done. rewrite E1. simpl.
  eexists _, _. split; [done|]. simpl.
  split; [split; simpl|].
  - split; [split; [|done]|by constructor|by constructor|done].
    unfold view. by rewrite lookup_insert_eq.
  - split; [split; [|done]|by constructor|by constructor|done].
    unfold view. rewrite lookup_insert_ne by done.
    by rewrite lookup_insert_eq.
  - done.
  - done.
  - done.
  - repeat split; try done. intros a Ha. unfold h2, h1.
    rewrite !lookup_insert_ne; [done|..]; intros <-;
      rewrite ?H1, ?H2' in Ha; by destruct Ha.
Qed.

(** Every state a program can reach satisfies the invariant. *)
Lemma reachable_wf h B : reachable h B → wf h B.
Proof.
  induction 1 as [h cl cr h' B HcL HcR Hc| | |].
  - destruct (ctor_spec h cl cr HcL HcR) as (h'' & B'' & Hc' & Hwf & _).
    rewrite Hc in Hc'. injection Hc' as <- <-. by exists Nil, Nil.
  - by eapply insert_wf.
  - by eapply erase_left_key_wf.
  - by eapply erase_right_key_wf.
Qed.

Lemma apply_operation_reachable h B o h' B' :
  reachable h B → bimap.apply_operation h B o = Some (h', B') →
  reachable h' B'.
Proof.
  intros Hr Ho. destruct o as [l r|l|r]; simpl in Ho.
  - destruct (bimap.insert h B l r) as [[[it h1] B1]|] eqn:E; [|done].
    injection Ho as <- <-. by eapply reach_insert.
  - destruct (bimap.erase_left_key h B l) as [[[b h1] B1]|] eqn:E; [|done].
    injection Ho as <- <-. by eapply reach_erase_left.
  - destruct (bimap.erase_right_key h B r) as [[[b h1] B1]|] eqn:E; [|done].
    injection Ho as <- <-. by eapply reach_erase_right.
Qed.

Lemma apply_operations_reachable h B os h' B' :
  reachable h B → bimap.apply_operations h B os = Some (h', B') →
  reachable h' B'.
Proof.
  revert h B. induction os as [|o os IH]; intros h B Hr Ho; simpl in Ho.
  - by injection Ho as <- <-.
  - destruct (bimap.apply_operation h B o) as [[h1 B1]|] eqn:E; [|done].
    eapply IH; [|done]. by eapply apply_operation_reachable.
Qed.

Lemma run_reachable cl cr os h B :
  strict_weak_order cl → strict_weak_order cr →
  bimap.run cl cr os = Some (h, B) → reachable h B.
Proof.
  intros HcL HcR Hrun. unfold bimap.run in Hrun.
  destruct (bimap.ctor ∅ cl cr) as [[h0 B0]|] eqn:E; [|done].
  eapply apply_operations_reachable; [|done]. by eapply reach_ctor.
Qed.

(** Positions of pair records flip to themselves, the two end
    positions flip to each other. *)
Lemma flip_left_node h B sl sr a :
  wf_shapes h B sl sr → a ∈ addrs sl → bimap.flip_left h a = Some a.
Proof.
  intros Hwf [r Hr]%(wf_node_left _ _ _ _ _ Hwf).
  unfold bimap.flip_left, intrusive.is_end. by rewrite Hr.
Qed.

Lemma flip_right_node h B sl sr a :
  wf_shapes h B sl sr → a ∈ addrs sl → bimap.flip_right h a = Some a.
Proof.
  intros Hwf [r Hr]%(wf_node_left _ _ _ _ _ Hwf).
  unfold bimap.flip_right, intrusive.is_end. by rewrite Hr.
Qed.

Lemma flip_left_end h B sl sr :
  wf_shapes h B sl sr →
  bimap.flip_left h (bimap.end_left B) = Some (bimap.end_right B).
Proof.
  intros Hwf. unfold bimap.flip_left, intrusive.is_end, bimap.end_left,
    intrusive.end_.
  by rewrite (wf_sentinel_left _ _ _ _ Hwf).
Qed.

Lemma flip_right_end h B sl sr :
  wf_shapes h B sl sr →
  bimap.flip_right h (bimap.end_right B) = Some (bimap.end_left B).
Proof.
  intros Hwf. unfold bimap.flip_right, intrusive.is_end, bimap.end_right,
    intrusive.end_.
  by rewrite (wf_sentinel_right _ _ _ _ Hwf).
Qed.

(** The entries of a bimap are the pairs of keys that a record has in
    the two shapes. *)
Lemma entries_elem h B sl sr es l r :
  wf_shapes h B sl sr → bimap.entries h B = Some es →
  (l, r) ∈ es ↔ ∃ a, (a, l) ∈ inorder sl ∧ (a, r) ∈ inorder sr.
Proof.
  intros Hwf Hes%(wf_entries _ _ _ _ _ Hwf). split.
  - intros Hin. apply list_elem_of_lookup in Hin as [i Hi].
    destruct (Forall2_lookup_r _ _ _ _ _ Hes Hi) as ([a kl] & Hw & Hp & Hk).
    simpl in *. subst kl. apply list_elem_of_lookup_2 in Hw.
    destruct (wf_pair_left _ _ _ _ _ _ Hwf Hw) as (kr & Hp' & Hr).
    rewrite Hp in Hp'. injection Hp' as <-. eauto.
  - intros (a & HinL & HinR).
    apply list_elem_of_lookup in HinL as [i Hi].
    destruct (Forall2_lookup_l _ _ _ _ _ Hes Hi) as ([l' r'] & He & Hp & Hk).
    simpl in *. subst l'.
    destruct (wf_pair_right _ _ _ _ _ _ Hwf HinR) as (kl & Hp' & _).
    rewrite Hp in Hp'. injection Hp' as -> <-.
    by apply list_elem_of_lookup_2 in He.
Qed.
End bimap_specs.

Section bimap_lookups.
Context {Left Right : Type}.
Implicit Types (h : gmap addr (details.obj Left Right)).
Implicit Types (B : bimap.bimap Left Right).
Implicit Types (sl : shape Left) (sr : shape Right).
Implicit Types (es : list (Left * Right)).

Local Abbreviation sentL B := (intrusive.sentinel (bimap.left_tree B)).
Local Abbreviation sentR B := (intrusive.sentinel (bimap.right_tree B)).
Local Abbreviation compL B := (intrusive.comp (bimap.left_tree B)).
Local Abbreviation compR B := (intrusive.comp (bimap.right_tree B)).

Lemma deref_pair h a l r :
  pair_at h a = Some (l, r) →
  bimap.deref_left h a = Some l ∧ bimap.deref_right h a = Some r.
Proof.
  unfold pair_at, bimap.deref_left, bimap.deref_right.
  destruct (h !! a) as [[n|p]|]; [done| |done]. by intros [= <- <-].
Qed.

(** [at_left] and [at_right] on a key that is there, and on a key
    that is not. *)
Lemma at_left_present h B sl sr a kl kr k :
  wf_shapes h B sl sr → (a, kl) ∈ inorder sl → (a, kr) ∈ inorder sr →
  equiv_key (compL B) kl k →
  bimap.at_left h B k = Some (bimap.returns kr).
Proof.
  intros Hwf HinL HinR He.
  pose proof (wf_sentinels_fresh _ _ _ _ Hwf) as (HsLl & _).
  assert (a ∈ addrs sl) as Ha by by apply (list_elem_of_fmap_2 fst) in HinL.
  destruct (wf_pair_right _ _ _ _ _ _ Hwf HinR) as (kl' & Hp & _).
  apply deref_pair in Hp as [_ Hd].
  unfold bimap.at_left, bimap.find_left.
  rewrite (find_present _ _ _ _ _ _ _ (wf_left _ _ _ _ Hwf) HinL He). simpl.
  rewrite decide_False by (unfold bimap.end_left, intrusive.end_; by intros ->).
  rewrite (flip_left_node _ _ _ _ _ Hwf Ha). simpl. by rewrite Hd.
Qed.

Lemma at_left_absent h B sl sr k :
  wf_shapes h B sl sr →
  (∀ a kl, (a, kl) ∈ inorder sl → ¬ equiv_key (compL B) kl k) →
  bimap.at_left h B k = Some bimap.throws_out_of_range.
Proof.
  intros Hwf Hno. unfold bimap.at_left, bimap.find_left.
  rewrite (find_absent _ _ _ _ _ (wf_left _ _ _ _ Hwf) Hno). simpl.
  by rewrite decide_True.
Qed.

Lemma at_right_present h B sl sr a kl kr k :
  wf_shapes h B sl sr → (a, kl) ∈ inorder sl → (a, kr) ∈ inorder sr →
  equiv_key (compR B) kr k →
  bimap.at_right h B k = Some (bimap.returns kl).
Proof.
  intros Hwf HinL HinR He.
  pose proof (wf_sentinels_fresh _ _ _ _ Hwf) as (_ & HsRl & _).
  assert (a ∈ addrs sl) as Ha by by apply (list_elem_of_fmap_2 fst) in HinL.
  destruct (wf_pair_left _ _ _ _ _ _ Hwf HinL) as (kr' & Hp & _).
  apply deref_pair in Hp as [Hd _].
  unfold bimap.at_right, bimap.find_right.
  rewrite (find_present _ _ _ _ _ _ _ (wf_right _ _ _ _ Hwf) HinR He). simpl.
  rewrite decide_False
    by (unfold bimap.end_right, intrusive.end_; by intros ->).
  rewrite (flip_right_node _ _ _ _ _ Hwf Ha). simpl. by rewrite Hd.
Qed.

Lemma at_right_absent h B sl sr k :
  wf_shapes h B sl sr →
  (∀ a kr, (a, kr) ∈ inorder sr → ¬ equiv_key (compR B) kr k) →
  bimap.at_right h B k = Some bimap.throws_out_of_range.
Proof.
  intros Hwf Hno. unfold bimap.at_right, bimap.find_right.
  rewrite (find_absent _ _ _ _ _ (wf_right _ _ _ _ Hwf) Hno). simpl.
  by rewrite decide_True.
Qed.

(** How the entries follow a walk that gains or loses a position. *)
Lemma entries_of_agree h h' (w : list (addr * Left)) es :
  entries_of h w es →
  (∀ a, a ∈ w.*1 → pair_at h' a = pair_at h a) →
  entries_of h' w es.
Proof.
  intros Hes. induction Hes as [|[a kl] e w es [Hp Hk] _ IH]; intros Hag;
    constructor.
  - split; [|done]. simpl in *. rewrite Hag; [done|by left].
  - apply IH. intros b Hb. apply Hag. by right.
Qed.

Lemma entries_of_insert h h' (w1 w2 : list (addr * Left)) d l r es :
  entries_of h (w1 ++ w2) es →
  pair_at h' d = Some (l, r) →
  (∀ a, a ≠ d → pair_at h' a = pair_at h a) →
  d ∉ (w1 ++ w2).*1 →
  ∃ e1 e2, es = e1 ++ e2
           ∧ entries_of h' (w1 ++ (d, l) :: w2) (e1 ++ (l, r) :: e2).
Proof.
  intros Hes Hd Hag Hfresh.
  apply (entries_of_agree _ h') in Hes.
  2:{ intros a Ha. apply Hag. by intros ->. }
  apply Forall2_app_inv_l in Hes as (e1 & e2 & H1 & H2 & ->).
  exists e1, e2. split; [done|]. apply Forall2_app; [done|].
  by constructor.
Qed.

Lemma entries_of_delete h h' (w1 w2 : list (addr * Left)) x kl kr es :
  entries_of h (w1 ++ (x, kl) :: w2) es →
  pair_at h x = Some (kl, kr) →
  (∀ a, a ≠ x → pair_at h' a = pair_at h a) →
  x ∉ (w1 ++ w2).*1 →
  ∃ e1 e2, es = e1 ++ (kl, kr) :: e2 ∧ entries_of h' (w1 ++ w2) (e1 ++ e2).
Proof.
  intros Hes Hx Hag Hfresh.
  apply Forall2_app_inv_l in Hes as (e1 & e2' & H1 & H2 & ->).
  apply Forall2_cons_inv_l in H2 as (e & e2 & [Hp _] & H2 & ->).
  simpl in Hp. rewrite Hx in Hp. injection Hp as <-.
  exists e1, e2. split; [done|].
  apply (entries_of_agree h).
  - by apply Forall2_app.
  - intros a Ha. apply Hag. by intros ->.
Qed.
Lemma filter_all {X} (P : X → Prop) `{!∀ x, Decision (P x)} (l : list X) :
  Forall P l → filter P l = l.
Proof.
  induction 1 as [|x l Hx _ IH]; [done|].
  by rewrite filter_cons_True, IH.
Qed.

(** The first half of [at_left_or_default] on a key that is not there
    is [erase_right] by key. *)
Lemma erase_right_key_inline h B r :
  (r_iter ← bimap.find_right h B r;
   if decide (r_iter ≠ bimap.end_right B)
   then '(_, h1, B1) ← bimap.erase_right h B r_iter; Some (h1, B1)
   else Some (h, B))
  = '(_, h1, B1) ← bimap.erase_right_key h B r; Some (h1, B1).
Proof.
  unfold bimap.erase_right_key.
  destruct (bimap.find_right h B r) as [it|]; simpl; [|done].
  destruct (decide (it ≠ bimap.end_right B)); [|done].
  by destruct (bimap.erase_right h B it) as [[[??]?]|].
Qed.

Lemma erase_left_key_inline h B l :
  (l_iter ← bimap.find_left h B l;
   if decide (l_iter ≠ bimap.end_left B)
   then '(_, h1, B1) ← bimap.erase_left h B l_iter; Some (h1, B1)
   else Some (h, B))
  = '(_, h1, B1) ← bimap.erase_left_key h B l; Some (h1, B1).
Proof.
  unfold bimap.erase_left_key.
  destruct (bimap.find_left h B l) as [it|]; simpl; [|done].
  destruct (decide (it ≠ bimap.end_left B)); [|done].
  by destruct (bimap.erase_left h B it) as [[[??]?]|].
Qed.

(** Erasing by right key removes the entry with an equivalent right
    value, if there is one, and no other. *)
Lemma erase_right_key_spec h B sl sr es r :
  wf_shapes h B sl sr → bimap.entries h B = Some es →
  ∃ b h1 B1 sl1 sr1,
    bimap.erase_right_key h B r = Some (b, h1, B1)
    ∧ wf_shapes h1 B1 sl1 sr1
    ∧ bimap.left_tree B1 = bimap.left_tree B
    ∧ bimap.right_tree B1 = bimap.right_tree B
    ∧ (∀ a kl, (a, kl) ∈ inorder sl1 → (a, kl) ∈ inorder sl)
    ∧ (∀ a kr, (a, kr) ∈ inorder sr1 → ¬ equiv_key (compR B) kr r)
    ∧ bimap.entries h1 B1
      = Some (filter (λ e, ¬ equiv_key (compR B) e.2 r) es)
    ∧ (∀ a, a ∉ sentL B :: sentR B :: addrs sl → h1 !! a = h !! a).
Proof.
  intros Hwf Hes.
  destruct (erase_right_key_cases _ _ _ _ r Hwf)
    as [(a0 & kr0 & h1 & Hin0 & He0 & Hdel & Herase)|[Hno Herase]].
  - assert (a0 ∈ addrs sl) as Ha0.
    { rewrite (wf_same _ _ _ _ Hwf).
      by apply (list_elem_of_fmap_2 fst) in Hin0. }
    destruct (delete_node_spec _ _ _ _ _ Hwf Ha0)
      as (h1' & sl1 & sr1 & w1 & kl0 & w2 & v1 & kr0' & v2 & Hdel' & Hwf1
          & Hin & Hin' & Hjn & Hjn' & Hp0 & _ & Hpa & Hframe).
    rewrite Hdel in Hdel'. injection Hdel' as <-.
    pose proof (wf_right _ _ _ _ Hwf) as [_ HndR HbstR HswoR].
    pose proof (wf_left _ _ _ _ Hwf) as [_ HndL _ _].
    assert (kr0' = kr0) as ->.
    { eapply (NoDup_fst_inj (inorder sr)); [exact HndR| |exact Hin0].
      rewrite Hjn. set_solver. }
    unfold addrs in HndL, HndR. rewrite Hin in HndL. rewrite Hjn in HndR.
    apply split_fresh in HndL as (HxL & _ & _).
    apply split_fresh in HndR as (HxR & _ & _).
    assert (∀ a kr, (a, kr) ∈ inorder sr1 → ¬ equiv_key (compR B) kr r)
      as Hno1.
    { intros a kr Ha He. rewrite Hjn' in Ha.
      assert ((a, kr) ∈ inorder sr) as Ha' by (rewrite Hjn; set_solver).
      assert ((a, kr) = (a0, kr0)) as [= -> ->]
        by by eapply (sorted_equiv_unique _ HswoR).
      by apply (list_elem_of_fmap_2 fst) in Ha. }
    pose proof Hes as Hes'. apply (wf_entries _ _ _ _ _ Hwf) in Hes'.
    rewrite Hin in Hes'.
    destruct (entries_of_delete _ h1 _ _ _ _ _ _ Hes' Hp0 Hpa HxL)
      as (e1 & e2 & -> & Hes1).
    rewrite <- Hin' in Hes1. apply (wf_entries _ _ _ _ _ Hwf1) in Hes1.
    eexists true, h1, _, sl1, sr1. split; [done|]. split; [done|].
    simpl. split; [done|]. split; [done|]. split; [|split; [done|split; [|done]]].
    + intros a kl Ha. rewrite Hin' in Ha. rewrite Hin. set_solver.
    + rewrite Hes1. f_equal. rewrite filter_app, filter_cons_False.
      2:{ simpl. by intros []. }
      rewrite <- filter_app. symmetry. apply filter_all, Forall_forall.
      intros [l' r'] Hin1. simpl.
      apply (entries_elem _ _ _ _ _ _ _ Hwf1 Hes1) in Hin1 as (a & _ & Ha).
      by apply (Hno1 a).
  - exists false, h, B, sl, sr. split; [done|]. split; [done|].
    split; [done|]. split; [done|]. split; [done|]. split; [done|].
    split; [|done].
    rewrite Hes. f_equal. symmetry. apply filter_all, Forall_forall.
    intros [l' r'] Hin1. simpl.
    apply (entries_elem _ _ _ _ _ _ _ Hwf Hes) in Hin1 as (a & _ & Ha).
    by apply (Hno a).
Qed.
End bimap_lookups.

(* ================================================================== *)
(** ** Two bimaps in one heap                                          *)
(* ================================================================== *)

Section bimap_copies.
Context {Left Right : Type}.
Implicit Types (h : gmap addr (details.obj Left Right)).
Implicit Types (B C : bimap.bimap Left Right).
Implicit Types (sl : shape Left) (sr : shape Right).
Implicit Types (es : list (Left * Right)).

Local Abbreviation sentL B := (intrusive.sentinel (bimap.left_tree B)).
Local Abbreviation sentR B := (intrusive.sentinel (bimap.right_tree B)).
Local Abbreviation compL B := (intrusive.comp (bimap.left_tree B)).
Local Abbreviation compR B := (intrusive.comp (bimap.right_tree B)).

(** A bimap is untouched by a change of the heap outside its
    footprint. *)
Lemma wf_shapes_same h h' B sl sr :
  wf_shapes h B sl sr →
  (∀ a, a ∈ footprint B sl → h' !! a = h !! a) →
  wf_shapes h' B sl sr.
Proof.
  intros [HL HR Hs Hsame Hc] Hag. split; [| |done..].
  - eapply tree_inv_same; [done|]. intros b Hb. apply Hag.
    unfold footprint. set_solver.
  - eapply tree_inv_same; [done|]. intros b Hb. apply Hag.
    unfold footprint. rewrite Hsame. set_solver.
Qed.

Lemma footprint_dom h B sl sr a :
  wf_shapes h B sl sr → a ∈ footprint B sl → is_Some (h !! a).
Proof. apply wf_dom. Qed.

(** A mutating call on a bimap stays within its footprint and fresh
    addresses. *)
Lemma apply_operation_frame h B sl sr o h' B' :
  wf_shapes h B sl sr → bimap.apply_operation h B o = Some (h', B') →
  ∃ sl' sr',
    wf_shapes h' B' sl' sr'
    ∧ (∀ a, a ∈ footprint B' sl' → a ∈ footprint B sl ∨ h !! a = None)
    ∧ (∀ a, is_Some (h !! a) → a ∉ footprint B sl → h' !! a = h !! a).
Proof.
  intros Hwf Hop. destruct o as [l r|l|r]; simpl in Hop.
  - unfold bimap.insert in Hop.
    destruct (present_or_absent h B sl sr l r Hwf) as [Hp|[HaL HaR]].
    + rewrite (add_present _ _ _ _ _ _ Hwf Hp) in Hop. simplify_eq/=.
      exists sl, sr. eauto.
    + destruct (add_fresh _ _ _ _ _ _ Hwf HaL HaR)
        as (d & h1 & B1 & sl' & sr' & w1 & w2 & v1 & v2 & Hadd & Hd & Hwf'
            & HsL & HsR & _ & _ & _ & E1 & E2 & _ & _ & _ & _ & Hfr).
      rewrite Hadd in Hop. simplify_eq/=.
      exists sl', sr'. split; [done|]. split; [|done].
      intros a. unfold footprint, addrs. rewrite HsL, HsR, E1, E2.
      rewrite !fmap_app, fmap_cons. simpl. set_solver.
  - destruct (erase_left_key_cases h B sl sr l Hwf)
      as [(x & k & h1 & Hin & _ & Hdel & Her)|[_ Her]];
      rewrite Her in Hop; simplify_eq/=; [|exists sl, sr; eauto].
    apply (list_elem_of_fmap_2 fst) in Hin. simpl in Hin.
    destruct (delete_node_spec _ _ _ _ _ Hwf Hin)
      as (h2 & sl' & sr' & w1 & kl & w2 & v1 & kr & v2 & Hdel' & Hwf'
          & E1 & E2 & _ & _ & _ & _ & _ & Hfr).
    rewrite Hdel in Hdel'. simplify_eq.
    exists sl', sr'. split; [done|]. split; [|by auto].
    intros a. unfold footprint, addrs. simpl. rewrite E1, E2.
    rewrite !fmap_app, fmap_cons. set_solver.
  - destruct (erase_right_key_cases h B sl sr r Hwf)
      as [(x & k & h1 & Hin & _ & Hdel & Her)|[_ Her]];
      rewrite Her in Hop; simplify_eq/=; [|exists sl, sr; eauto].
    apply (list_elem_of_fmap_2 fst) in Hin. simpl in Hin.
    fold (addrs sr) in Hin. rewrite <- (wf_same _ _ _ _ Hwf) in Hin.
    destruct (delete_node_spec _ _ _ _ _ Hwf Hin)
      as (h2 & sl' & sr' & w1 & kl & w2 & v1 & kr & v2 & Hdel' & Hwf'
          & E1 & E2 & _ & _ & _ & _ & _ & Hfr).
    rewrite Hdel in Hdel'. simplify_eq.
    exists sl', sr'. split; [done|]. split; [|by auto].
    intros a. unfold footprint, addrs. simpl. rewrite E1, E2.
    rewrite !fmap_app, fmap_cons. set_solver.
Qed.

(** Mutating one of two separate bimaps leaves the other as it is. *)
Lemma apply_operation_apart h B slB srB C slC srC o h' B' :
  wf_shapes h B slB srB → wf_shapes h C slC srC →
  (∀ a, a ∈ footprint B slB → a ∉ footprint C slC) →
  bimap.apply_operation h B o = Some (h', B') →
  ∃ slB' srB',
    wf_shapes h' B' slB' srB' ∧ wf_shapes h' C slC srC
    ∧ (∀ a, a ∈ footprint B' slB' → a ∉ footprint C slC)
    ∧ (∀ a, a ∈ footprint C slC → h' !! a = h !! a).
Proof.
  intros HB HC Hsep Hop.
  destruct (apply_operation_frame _ _ _ _ _ _ _ HB Hop)
    as (slB' & srB' & HB' & Hfp & Hfr).
  assert (∀ a, a ∈ footprint C slC → h' !! a = h !! a) as Hsame.
  { intros a Ha. apply Hfr; [by eapply footprint_dom|].
    intros Hb. by apply (Hsep a). }
  exists slB', srB'. split; [done|]. split; [by eapply wf_shapes_same|].
  split; [|done].
  intros a Ha Hc. destruct (Hfp a Ha) as [Hb|Hn]; [by apply (Hsep a)|].
  destruct (footprint_dom _ _ _ _ _ HC Hc) as [o' Ho]. congruence.
Qed.

Lemma apply_operations_apart os : ∀ h B slB srB C slC srC h' B',
  wf_shapes h B slB srB → wf_shapes h C slC srC →
  (∀ a, a ∈ footprint B slB → a ∉ footprint C slC) →
  bimap.apply_operations h B os = Some (h', B') →
  ∃ slB' srB',
    wf_shapes h' B' slB' srB' ∧ wf_shapes h' C slC srC
    ∧ (∀ a, a ∈ footprint B' slB' → a ∉ footprint C slC)
    ∧ (∀ a, a ∈ footprint C slC → h' !! a = h !! a).
Proof.
  induction os as [|o os IH]; intros h B slB srB C slC srC h' B' HB HC Hsep Hops;
    simpl in Hops.
  - simplify_eq. exists slB, srB. eauto.
  - destruct (bimap.apply_operation h B o) as [[h1 B1]|] eqn:Hop;
      simplify_eq/=.
    destruct (apply_operation_apart _ _ _ _ _ _ _ _ _ _ HB HC Hsep Hop)
      as (slB1 & srB1 & HB1 & HC1 & Hsep1 & Hfr1).
    destruct (IH _ _ _ _ _ _ _ _ _ HB1 HC1 Hsep1 Hops)
      as (slB' & srB' & HB' & HC' & Hsep' & Hfr').
    exists slB', srB'. repeat (split; [done|]).
    intros a Ha. rewrite Hfr' by done. by apply Hfr1.
Qed.

(** The entries of a bimap depend on its footprint only. *)
Lemma entries_same h h' B sl sr :
  wf_shapes h B sl sr →
  (∀ a, a ∈ footprint B sl → h' !! a = h !! a) →
  bimap.entries h' B = bimap.entries h B.
Proof.
  intros Hwf Hag.
  pose proof (wf_shapes_same _ _ _ _ _ Hwf Hag) as Hwf'.
  destruct (wf_entries_total _ _ _ _ Hwf) as [es Hes]. rewrite Hes.
  apply (wf_entries _ _ _ _ _ Hwf'). apply (wf_entries _ _ _ _ _ Hwf) in Hes.
  eapply entries_of_agree; [done|].
  intros a Ha. unfold pair_at. rewrite Hag; [done|].
  unfold footprint. fold (addrs sl) in Ha. set_solver.
Qed.

(** The loop of the copy constructor, with [u1] of the source's walk
    already copied and [u2] still ahead: every insertion succeeds and
    puts its pair behind all the pairs copied before. *)
Lemma copy_loop_spec C sl sr u2 : ∀ u1 fuel h B slB srB es1,
  wf_shapes h C sl sr → inorder sl = u1 ++ u2 →
  wf_shapes h B slB srB →
  (∀ a, a ∈ footprint B slB → a ∉ footprint C sl) →
  compL B = compL C → compR B = compR C →
  entries_of h (inorder slB) es1 → entries_of h u1 es1 →
  length u2 < fuel →
  ∃ h' B' slB' srB' es2,
    bimap.copy_loop fuel h B C (first_or (sentL C) u2) = Some (h', B')
    ∧ wf_shapes h' B' slB' srB'
    ∧ (∀ a, a ∈ footprint B' slB' → a ∈ footprint B slB ∨ h !! a = None)
    ∧ compL B' = compL C ∧ compR B' = compR C
    ∧ entries_of h u2 es2
    ∧ entries_of h' (inorder slB') (es1 ++ es2)
    ∧ (∀ a, is_Some (h !! a) → a ∉ footprint B slB → h' !! a = h !! a).
Proof.
  induction u2 as [|[x kl] u2 IH];
    intros u1 fuel h B slB srB es1 HC Hsl HB Hsep HcL HcR HesB Hes1 Hfuel;
    (destruct fuel as [|fuel]; [simpl in Hfuel; lia|]); simpl in *.
  { rewrite decide_True by done.
    exists h, B, slB, srB, []. rewrite app_nil_r.
    split_and!; auto. constructor. }
  assert ((x, kl) ∈ inorder sl) as Hin.
  { rewrite Hsl. apply elem_of_app. right. by left. }
  assert (x ∈ addrs sl) as Hx by by apply (list_elem_of_fmap_2 fst) in Hin.
  assert (x ≠ bimap.end_left C) as Hne.
  { intros ->. by apply (wf_sentinels_fresh _ _ _ _ HC) in Hx. }
  rewrite decide_False by done.
  destruct (wf_pair_left _ _ _ _ _ _ HC Hin) as (kr & Hpx & Hinr).
  rewrite entry_pair_at, Hpx. simpl.
  pose proof (ti_nodup _ _ _ _ (wf_left _ _ _ _ HC)) as HndC.
  unfold addrs in HndC. rewrite Hsl in HndC.
  pose proof (ti_bst _ _ _ _ (wf_left _ _ _ _ HC)) as HbstL.
  unfold bst, keys in HbstL. rewrite Hsl, fmap_app in HbstL.
  apply sorted_app in HbstL as (_ & _ & HbstL).
  pose proof (ti_bst _ _ _ _ (wf_right _ _ _ _ HC)) as HbstR.
  pose proof (ti_order _ _ _ _ (wf_left _ _ _ _ HC)) as HswoL.
  pose proof (ti_order _ _ _ _ (wf_right _ _ _ _ HC)) as HswoR.
  assert (K0 : ∀ a k, (a, k) ∈ inorder slB →
            ∃ r a', (a', k) ∈ u1 ∧ pair_at h a = Some (k, r)
                    ∧ pair_at h a' = Some (k, r)).
  { intros a k Hak. apply list_elem_of_lookup in Hak as [i Hi].
    destruct (Forall2_lookup_l _ _ _ _ _ HesB Hi) as ([k' r] & Hei & Hp & Hk).
    simpl in *. subst k'.
    destruct (Forall2_lookup_r _ _ _ _ _ Hes1 Hei) as ([a' k'] & Hui & Hp' & Hk').
    simpl in *. subst k'.
    exists r, a'. split; [by eapply list_elem_of_lookup_2|done]. }
  assert (K1 : ∀ a k, (a, k) ∈ inorder slB → compL C k kl = true).
  { intros a k (r & a' & Hu & _)%K0. apply HbstL.
    - by apply (list_elem_of_fmap_2 snd) in Hu.
    - rewrite fmap_cons. by left. }
  assert (K2 : ∀ a r, (a, r) ∈ inorder srB → ¬ equiv_key (compR C) r kr).
  { intros a r Har Heq.
    destruct (wf_pair_right _ _ _ _ _ _ HB Har) as (k & Hpa & Hak).
    destruct (K0 a k Hak) as (r' & a' & Hu1 & Hpa' & Hpa'').
    rewrite Hpa in Hpa'. simplify_eq.
    assert ((a', k) ∈ inorder sl) as Hin'.
    { rewrite Hsl. apply elem_of_app. by left. }
    destruct (wf_pair_left _ _ _ _ _ _ HC Hin') as (kr2 & Hp2 & Hin2).
    rewrite Hpa'' in Hp2. simplify_eq.
    assert (equiv_key (compR C) kr kr) as Hrefl.
    { split; apply (swo_irrefl _ HswoR). }
    pose proof (sorted_equiv_unique _ HswoR _ _ _ _ _ _ HbstR Hin2 Hinr Heq Hrefl).
    simplify_eq. rewrite fmap_app in HndC.
    apply NoDup_app in HndC as (_ & HndC & _).
    apply (HndC x); [by apply (list_elem_of_fmap_2 fst) in Hu1|].
    rewrite fmap_cons. by left. }
  destruct (add_fresh h B slB srB kl kr HB)
    as (d & h1 & B1 & slB1 & srB1 & w1 & w2 & v1 & v2 & Hadd & Hd & HB1
        & HsL & HsR & HcL1 & HcR1 & _ & E1 & E2 & _ & _ & Hpd & Hpo & Hfr).
  { intros a k Hak [Hf _]. rewrite HcL, (K1 a k Hak) in Hf. done. }
  { intros a r Har. rewrite HcR. by eapply K2. }
  unfold bimap.insert. rewrite Hadd. simpl.
  assert (∀ a, a ∈ footprint C sl → h1 !! a = h !! a) as HfrC.
  { intros a Ha. apply Hfr; [eapply footprint_dom; [exact HC|done]|].
    intros Hb. by apply (Hsep a). }
  pose proof (wf_shapes_same _ _ _ _ _ HC HfrC) as HC1.
  unfold bimap.incr_left.
  rewrite (next_spec _ _ _ _ _ _ _ _ (ti_rep _ _ _ _ (wf_left _ _ _ _ HC1))
             (ti_nodup _ _ _ _ (wf_left _ _ _ _ HC1)) Hsl). simpl.
  assert (w2 = []) as ->.
  { destruct w2 as [|[b kb] w2]; [done|]. exfalso.
    pose proof (ti_bst _ _ _ _ (wf_left _ _ _ _ HB1)) as Hb1.
    unfold bst, keys in Hb1. rewrite E2, fmap_app, fmap_cons in Hb1.
    apply sorted_app in Hb1 as (_ & Hb1 & _).
    apply sorted_cons in Hb1 as [_ Hb1]. rewrite HcL1, HcL in Hb1.
    specialize (Hb1 kb). rewrite fmap_cons in Hb1.
    specialize (Hb1 ltac:(by left)).
    assert (compL C kb kl = true) as Hlt.
    { apply (K1 b). rewrite E1. apply elem_of_app. right. by left. }
    simpl in Hb1. rewrite (swo_asym _ HswoL _ _ Hlt) in Hb1. done. }
  assert (d ∉ footprint C sl) as HdC.
  { intros [o Ho]%(footprint_dom _ _ _ _ _ HC). congruence. }
  rewrite app_nil_r in E1.
  assert (entries_of h1 (inorder slB1) (es1 ++ [(kl, kr)])) as HesB1.
  { rewrite E2. apply Forall2_app; [|by repeat constructor].
    rewrite <- E1. eapply entries_of_agree; [done|].
    intros a Ha. apply Hpo. intros ->.
    assert (is_Some (h !! d)) as [? ?]; [|congruence].
    eapply footprint_dom; [exact HB|]. by do 2 right. }
  assert (x ≠ d) as Hxd.
  { intros ->. apply HdC. by do 2 right. }
  destruct (IH (u1 ++ [(x, kl)]) fuel h1 B1 slB1 srB1 (es1 ++ [(kl, kr)]))
    as (h' & B' & slB' & srB' & es2 & Hloop & HB' & Hfp' & HcL' & HcR'
        & Hes2 & HesB' & Hfr'); try done.
  { by rewrite <- app_assoc. }
  { intros a. unfold footprint, addrs. rewrite HsL, HsR, E2.
    rewrite fmap_app. simpl.
    intros [->|[->|[Ha| ->%list_elem_of_singleton]%elem_of_app]%elem_of_cons]%elem_of_cons;
      [apply (Hsep (sentL B)); by left
      |apply (Hsep (sentR B)); right; by left
      | |done].
    apply (Hsep a). unfold footprint, addrs. rewrite E1. by do 2 right. }
  { congruence. }
  { congruence. }
  { apply Forall2_app; [|repeat constructor; simpl; by rewrite ?Hpo].
    eapply entries_of_agree; [done|].
    intros a Ha. apply Hpo. intros ->. apply HdC.
    unfold footprint, addrs. rewrite Hsl, fmap_app.
    do 2 right. apply elem_of_app. by left. }
  { lia. }
  assert (∀ a, a ∈ footprint B1 slB1 → a ∈ footprint B slB ∨ h !! a = None)
    as Hfp1.
  { intros a. unfold footprint, addrs. rewrite HsL, HsR, E1, E2.
    rewrite fmap_app. simpl.
    intros [->|[->|[Ha| ->%list_elem_of_singleton]%elem_of_app]%elem_of_cons]%elem_of_cons;
      [left; by left|left; right; by left|left; by do 2 right|by right]. }
  exists h', B', slB', srB', ((kl, kr) :: es2).
  split; [done|]. split; [done|]. split.
  { intros a Ha. destruct (Hfp' a Ha) as [Hb|Hn]; [by apply Hfp1|].
    destruct (h !! a) as [o|] eqn:Ho; [|by right]. left.
    destruct (decide (a ∈ footprint B slB)) as [|Hnb]; [done|].
    rewrite Hfr in Hn by eauto. congruence. }
  split; [done|]. split; [done|]. split.
  { constructor; [done|]. eapply entries_of_agree; [done|].
    intros a Ha. symmetry. apply Hpo. intros ->. apply HdC.
    unfold footprint, addrs. rewrite Hsl, fmap_app, fmap_cons.
    do 2 right. apply elem_of_app. right. by right. }
  split; [by rewrite <- app_assoc in HesB'|].
  intros a Ha Hnb. rewrite Hfr'.
  - by apply Hfr.
  - rewrite Hfr by done. done.
  - intros Hb1. destruct (Hfp1 a Hb1) as [|Hn]; [done|].
    destruct Ha. congruence.
Qed.

Lemma entries_of_inj h (w : list (addr * Left)) es es' :
  entries_of h w es → entries_of h w es' → es = es'.
Proof.
  intros H. revert es'. induction H as [|[a k] e w es [Hp _] _ IH];
    intros es' H'.
  - by apply Forall2_nil_inv_l in H'.
  - apply Forall2_cons_inv_l in H' as (e' & es'' & [Hp' _] & H' & ->).
    simpl in *. f_equal; [congruence|by apply IH].
Qed.

(** The loop of [operator==] on two walks that show the same pairs. *)
Lemma equal_loop_spec p2 : ∀ q2 p1 q1 es2 fuel h B slB srB C slC srC,
  wf_shapes h B slB srB → wf_shapes h C slC srC →
  inorder slB = p1 ++ p2 → inorder slC = q1 ++ q2 →
  entries_of h p2 es2 → entries_of h q2 es2 →
  length p2 < fuel →
  bimap.equal_loop fuel h B C (first_or (sentL B) p2) (first_or (sentL C) q2)
  = Some true.
Proof.
  induction p2 as [|[a ka] p2 IH];
    intros q2 p1 q1 es2 fuel h B slB srB C slC srC HB HC EB EC Hp Hq Hfuel;
    (destruct fuel as [|fuel]; [simpl in Hfuel; lia|]); simpl in *.
  { rewrite decide_False; [done|]. by intros [H _]. }
  apply Forall2_cons_inv_l in Hp as ([l r] & es2' & [Hpa Hl] & Hp & ->).
  apply Forall2_cons_inv_r in Hq as ([b kb] & q2' & [Hpb Hl'] & Hq & ->).
  simpl in *. subst ka kb.
  assert (a ∈ addrs slB) as Ha.
  { unfold addrs. rewrite EB, fmap_app, fmap_cons.
    apply elem_of_app. right. by left. }
  assert (b ∈ addrs slC) as Hb.
  { unfold addrs. rewrite EC, fmap_app, fmap_cons.
    apply elem_of_app. right. by left. }
  rewrite decide_True; cycle 1.
  { split; intros ->.
    - by apply (wf_sentinels_fresh _ _ _ _ HB) in Ha.
    - by apply (wf_sentinels_fresh _ _ _ _ HC) in Hb. }
  destruct (deref_pair _ _ _ _ Hpa) as [Dla Dra].
  destruct (deref_pair _ _ _ _ Hpb) as [Dlb Drb].
  rewrite Dla, Dlb. simpl.
  unfold bimap.eq_left, bimap.eq_right, intrusive.is_equals.
  rewrite (swo_irrefl _ (ti_order _ _ _ _ (wf_left _ _ _ _ HB))). simpl.
  rewrite (flip_left_node _ _ _ _ _ HB Ha), (flip_left_node _ _ _ _ _ HC Hb).
  simpl. rewrite Dra, Drb. simpl.
  rewrite (swo_irrefl _ (ti_order _ _ _ _ (wf_right _ _ _ _ HB))). simpl.
  unfold bimap.incr_left.
  rewrite (next_spec _ _ _ _ _ _ _ _ (ti_rep _ _ _ _ (wf_left _ _ _ _ HB))
             (ti_nodup _ _ _ _ (wf_left _ _ _ _ HB)) EB). simpl.
  rewrite (next_spec _ _ _ _ _ _ _ _ (ti_rep _ _ _ _ (wf_left _ _ _ _ HC))
             (ti_nodup _ _ _ _ (wf_left _ _ _ _ HC)) EC). simpl.
  eapply (IH q2' (p1 ++ [(a, l)]) (q1 ++ [(b, l)])); try done.
  - by rewrite <- app_assoc.
  - by rewrite <- app_assoc.
  - lia.
Qed.

(** [operator==] on two bimaps with the same pairs. *)
Lemma equal_same_entries h B slB srB C slC srC es :
  wf_shapes h B slB srB → wf_shapes h C slC srC →
  bimap.entries h B = Some es → bimap.entries h C = Some es →
  bimap.equal h B C = Some true.
Proof.
  intros HB HC HeB HeC.
  apply (wf_entries _ _ _ _ _ HB) in HeB.
  apply (wf_entries _ _ _ _ _ HC) in HeC.
  pose proof (Forall2_length _ _ _ HeB) as LB.
  pose proof (Forall2_length _ _ _ HeC) as LC.
  unfold bimap.equal, bimap.size.
  rewrite decide_False; cycle 1.
  { rewrite (wf_count _ _ _ _ HB), (wf_count _ _ _ _ HC).
    unfold addrs. rewrite !length_fmap. lia. }
  unfold bimap.begin_left.
  rewrite (begin_spec _ _ _ _ (ti_rep _ _ _ _ (wf_left _ _ _ _ HB))
             (ti_nodup _ _ _ _ (wf_left _ _ _ _ HB))). simpl.
  rewrite (begin_spec _ _ _ _ (ti_rep _ _ _ _ (wf_left _ _ _ _ HC))
             (ti_nodup _ _ _ _ (wf_left _ _ _ _ HC))). simpl.
  eapply (equal_loop_spec _ _ [] []); try done.
  pose proof (tree_rep_fuel _ _ _ _ (ti_rep _ _ _ _ (wf_left _ _ _ _ HB))
                (ti_nodup _ _ _ _ (wf_left _ _ _ _ HB))) as Hf.
  unfold addrs in Hf. rewrite length_fmap in Hf. lia.
Qed.

(** The copy constructor starts like the constructor from two
    comparators. *)
Lemma copy_ctor_unfold h C :
  bimap.copy_ctor h C
  = '(h3, B) ← bimap.ctor h (compL C) (compR C);
    it ← bimap.begin_left h3 C;
    bimap.copy_loop (heap_fuel h3) h3 B C it.
Proof.
  unfold bimap.copy_ctor, bimap.ctor, intrusive.get_compare.
  destruct (bimap.new_tree h (compL C)) as [h1 lt].
  destruct (bimap.new_tree h1 (compR C)) as [h2 rt].
  by destruct (bimap.link_sentinel h2 (bimap.Bimap lt rt 0)).
Qed.

(** What the copy constructor builds. *)
Lemma copy_ctor_spec h C sl sr es :
  wf_shapes h C sl sr → bimap.entries h C = Some es →
  ∃ h' B slB srB,
    bimap.copy_ctor h C = Some (h', B)
    ∧ wf_shapes h' B slB srB ∧ wf_shapes h' C sl sr
    ∧ (∀ a, a ∈ footprint B slB → a ∉ footprint C sl)
    ∧ (∀ a, a ∈ footprint B slB → h !! a = None)
    ∧ (∀ a, is_Some (h !! a) → h' !! a = h !! a)
    ∧ compL B = compL C ∧ compR B = compR C
    ∧ bimap.entries h' B = Some es.
Proof.
  intros HC Hes.
  destruct (ctor_spec h (compL C) (compR C))
    as (h3 & B0 & Hctor & HB0 & HcL & HcR & HfL & HfR & Hfr0).
  { exact (ti_order _ _ _ _ (wf_left _ _ _ _ HC)). }
  { exact (ti_order _ _ _ _ (wf_right _ _ _ _ HC)). }
  rewrite copy_ctor_unfold, Hctor. simpl.
  assert (∀ a, a ∈ footprint C sl → h3 !! a = h !! a) as HfrC.
  { intros a Ha. apply Hfr0. eapply footprint_dom; [exact HC|done]. }
  pose proof (wf_shapes_same _ _ _ _ _ HC HfrC) as HC3.
  unfold bimap.begin_left.
  rewrite (begin_spec _ _ _ _ (ti_rep _ _ _ _ (wf_left _ _ _ _ HC3))
             (ti_nodup _ _ _ _ (wf_left _ _ _ _ HC3))). simpl.
  assert (∀ a, a ∈ footprint B0 Nil → h !! a = None) as Hfresh0.
  { intros a [->|[->|Ha]%elem_of_cons]%elem_of_cons; [done..|].
    by apply elem_of_nil in Ha. }
  destruct (copy_loop_spec C sl sr (inorder sl) [] (heap_fuel h3) h3 B0 Nil Nil [])
    as (h' & B & slB & srB & es2 & Hloop & HB & Hfp & HcL' & HcR' & Hes2
        & HesB & Hfr); try done.
  { intros a Ha Hc. apply Hfresh0 in Ha.
    destruct (footprint_dom _ _ _ _ _ HC Hc) as [o Ho]. congruence. }
  { constructor. }
  { constructor. }
  { pose proof (tree_rep_fuel _ _ _ _ (ti_rep _ _ _ _ (wf_left _ _ _ _ HC3))
                  (ti_nodup _ _ _ _ (wf_left _ _ _ _ HC3))) as Hf.
    unfold addrs in Hf. rewrite length_fmap in Hf. lia. }
  simpl in HesB.
  assert (∀ a, is_Some (h !! a) → h' !! a = h !! a) as Hfr'.
  { intros a Ha. rewrite <- (Hfr0 a Ha). apply Hfr.
    - rewrite (Hfr0 a Ha). done.
    - intros Hn%Hfresh0. destruct Ha. congruence. }
  assert (∀ a, a ∈ footprint B slB → h !! a = None) as Hfresh.
  { intros a Ha. destruct (Hfp a Ha) as [Hb|Hn]; [by apply Hfresh0|].
    destruct (h !! a) as [o|] eqn:Ho; [|done].
    rewrite Hfr0 in Hn by eauto. congruence. }
  assert (es2 = es) as ->.
  { apply (wf_entries _ _ _ _ _ HC) in Hes.
    eapply entries_of_inj; [|exact Hes].
    eapply entries_of_agree; [exact Hes2|].
    intros a Ha. unfold pair_at. rewrite HfrC; [done|]. by do 2 right. }
  exists h', B, slB, srB. split; [done|]. split; [done|].
  assert (∀ a, a ∈ footprint C sl → h' !! a = h !! a) as HfrC'.
  { intros a Ha. apply Hfr'. eapply footprint_dom; [exact HC|done]. }
  split; [eapply wf_shapes_same; [exact HC|done]|].
  split.
  { intros a Ha%Hfresh Hc.
    destruct (footprint_dom _ _ _ _ _ HC Hc) as [o Ho]. congruence. }
  split; [done|]. split; [done|]. split; [done|]. split; [done|].
  by apply (wf_entries _ _ _ _ _ HB).
Qed.
End bimap_copies.

(* ================================================================== *)
(** ** The properties of the specification                             *)
(* ================================================================== *)

Section bimap_properties.
Context {Left Right : Type}.
Implicit Types (h : gmap addr (details.obj Left Right)).
Implicit Types (B C : bimap.bimap Left Right).
Implicit Types (es : list (Left * Right)).

Local Abbreviation sentL B := (intrusive.sentinel (bimap.left_tree B)).
Local Abbreviation sentR B := (intrusive.sentinel (bimap.right_tree B)).
Local Abbreviation compL B := (intrusive.comp (bimap.left_tree B)).
Local Abbreviation compR B := (intrusive.comp (bimap.right_tree B)).

(** C1.  [insert(l, r)] on a bimap whose entries are [es].  If some
    entry has a left key equivalent to [l] or a right key equivalent
    to [r], the call returns [end_left()] and leaves heap and bimap
    as they were.  Otherwise it allocates one record [d] at an
    address that was free, returns [d] as a left position that shows
    the pair [(l, r)], both traversals gain exactly the position [d],
    every other position keeps its pair, the size grows by one, and
    the invariant of the bimap holds again. *)
Theorem insert_rejects_or_adds h B l r es :
  wf h B → bimap.entries h B = Some es →
  (Exists (λ e, equiv_key (compL B) e.1 l ∨ equiv_key (compR B) e.2 r) es →
     bimap.insert h B l r = Some (bimap.end_left B, h, B))
  ∧ (Forall (λ e, ¬ equiv_key (compL B) e.1 l
                  ∧ ¬ equiv_key (compR B) e.2 r) es →
     ∃ d h' B' lw rw lw' rw',
       bimap.insert h B l r = Some (d, h', B')
       ∧ h !! d = None ∧ d ≠ bimap.end_left B'
       ∧ bimap.entry h' d = Some (l, r)
       ∧ bimap.left_positions h B = Some lw
       ∧ bimap.right_positions h B = Some rw
       ∧ bimap.left_positions h' B' = Some lw' ∧ lw' ≡ₚ d :: lw
       ∧ bimap.right_positions h' B' = Some rw' ∧ rw' ≡ₚ d :: rw
       ∧ (∀ a, a ∈ lw → bimap.entry h' a = bimap.entry h a)
       ∧ bimap.size B' = S (bimap.size B)
       ∧ wf h' B').
Proof.
  intros (sl & sr & Hwf) Hes. split.
  - intros ([l' r'] & Hin & Hor)%Exists_exists. simpl in Hor.
    apply (entries_elem _ _ _ _ _ _ _ Hwf Hes) in Hin as (a & HinL & HinR).
    apply (add_present _ _ _ _ _ _ Hwf). destruct Hor; [left|right]; eauto.
  - intros Hall. rewrite Forall_forall in Hall.
    assert (∀ a k, (a, k) ∈ inorder sl → ¬ equiv_key (compL B) k l) as HnoL.
    { intros a k Hin.
      destruct (wf_pair_left _ _ _ _ _ _ Hwf Hin) as (kr & _ & Hin').
      apply (Hall (k, kr)), (entries_elem _ _ _ _ _ _ _ Hwf Hes). eauto. }
    assert (∀ a k, (a, k) ∈ inorder sr → ¬ equiv_key (compR B) k r) as HnoR.
    { intros a k Hin.
      destruct (wf_pair_right _ _ _ _ _ _ Hwf Hin) as (kl & _ & Hin').
      apply (Hall (kl, k)), (entries_elem _ _ _ _ _ _ _ Hwf Hes). eauto. }
    destruct (add_fresh _ _ _ _ _ _ Hwf HnoL HnoR)
      as (d & h' & B' & sl' & sr' & w1 & w2 & v1 & v2 & Hadd & Hd & Hwf'
          & HsL & _ & _ & _ & Hn & Hin & Hin' & Hjn & Hjn' & Hpd & Hpa & _).
    exists d, h', B', (addrs sl), (addrs sr), (addrs sl'), (addrs sr').
    split; [done|]. split; [done|]. split.
    { unfold bimap.end_left, intrusive.end_. rewrite HsL. intros ->.
      destruct (wf_dom _ _ _ _ (sentL B) Hwf) as [? E]; [by left|].
      by rewrite E in Hd. }
    split; [by rewrite entry_pair_at|].
    split; [by eapply wf_left_positions|].
    split; [by eapply wf_right_positions|].
    split; [by eapply wf_left_positions|].
    split.
    { unfold addrs. rewrite Hin, Hin', !fmap_app. simpl.
      by rewrite <- Permutation_middle. }
    split; [by eapply wf_right_positions|].
    split.
    { unfold addrs. rewrite Hjn, Hjn', !fmap_app. simpl.
      by rewrite <- Permutation_middle. }
    split; [|split; [done|by exists sl', sr']].
    intros a Ha. rewrite !entry_pair_at. apply Hpa. intros ->.
    destruct (wf_dom _ _ _ _ d Hwf) as [? E]; [by do 2 right|].
    by rewrite E in Hd.
Qed.

(** C4, the part that holds.  On a bimap that satisfies the invariant,
    with the left traversal [lw]: every position [p] of the traversal
    flips to a right position that flips back to [p], and the two end
    positions flip to each other. *)
Lemma flip_is_an_involution h B lw :
  wf h B → bimap.left_positions h B = Some lw →
  (∀ p, p ∈ lw →
     ∃ q, bimap.flip_left h p = Some q ∧ bimap.flip_right h q = Some p
          ∧ bimap.entry h q = bimap.entry h p)
  ∧ bimap.flip_left h (bimap.end_left B) = Some (bimap.end_right B)
  ∧ bimap.flip_right h (bimap.end_right B) = Some (bimap.end_left B).
Proof.
  intros (sl & sr & Hwf) Hlw.
  rewrite (wf_left_positions _ _ _ _ Hwf) in Hlw. injection Hlw as <-.
  split; [|split].
  - intros p Hp. exists p.
    rewrite (flip_left_node _ _ _ _ _ Hwf Hp).
    by rewrite (flip_right_node _ _ _ _ _ Hwf Hp).
  - by eapply flip_left_end.
  - by eapply flip_right_end.
Qed.

(** C6.  On a bimap whose entries are [es]: [at_left(k)] throws
    [std::out_of_range] exactly when no entry has a left key
    equivalent to [k], and returns the right value of the entry that
    has one; [at_right] does the same with the sides exchanged.  Both
    are functions of the heap and the bimap and return no new state. *)
Theorem at_throws_exactly_when_absent h B es :
  wf h B → bimap.entries h B = Some es →
  (∀ k : Left,
     (bimap.at_left h B k = Some bimap.throws_out_of_range
      ↔ Forall (λ e, ¬ equiv_key (compL B) e.1 k) es)
     ∧ (∀ l r, (l, r) ∈ es → equiv_key (compL B) l k →
               bimap.at_left h B k = Some (bimap.returns r)))
  ∧ (∀ k : Right,
       (bimap.at_right h B k = Some bimap.throws_out_of_range
        ↔ Forall (λ e, ¬ equiv_key (compR B) e.2 k) es)
       ∧ (∀ l r, (l, r) ∈ es → equiv_key (compR B) r k →
                 bimap.at_right h B k = Some (bimap.returns l))).
Proof.
  intros (sl & sr & Hwf) Hes.
  pose proof (λ l r, entries_elem _ _ _ _ _ l r Hwf Hes) as Helem.
  split; intros k.
  - assert (∀ l r, (l, r) ∈ es → equiv_key (compL B) l k →
                   bimap.at_left h B k = Some (bimap.returns r)) as Hpres.
    { intros l r (a & HinL & HinR)%Helem He.
      by eapply at_left_present. }
    split; [split|done].
    + intros Hthrow. apply Forall_forall. intros [l r] Hin He.
      by rewrite (Hpres _ _ Hin He) in Hthrow.
    + rewrite Forall_forall. intros Hno.
      eapply at_left_absent; [done|]. intros a kl Hin.
      destruct (wf_pair_left _ _ _ _ _ _ Hwf Hin) as (kr & _ & Hin').
      apply (Hno (kl, kr)), Helem. eauto.
  - assert (∀ l r, (l, r) ∈ es → equiv_key (compR B) r k →
                   bimap.at_right h B k = Some (bimap.returns l)) as Hpres.
    { intros l r (a & HinL & HinR)%Helem He.
      by eapply at_right_present. }
    split; [split|done].
    + intros Hthrow. apply Forall_forall. intros [l r] Hin He.
      by rewrite (Hpres _ _ Hin He) in Hthrow.
    + rewrite Forall_forall. intros Hno.
      eapply at_right_absent; [done|]. intros a kr Hin.
      destruct (wf_pair_right _ _ _ _ _ _ Hwf Hin) as (kl & _ & Hin').
      apply (Hno (kl, kr)), Helem. eauto.
Qed.

(** C5.  [at_left_or_default(k)] on a bimap whose entries are [es],
    with [dflt] for [Right()].  If an entry has a left key equivalent
    to [k], its right value is returned and heap and bimap stay as
    they were.  If no entry has one, the call does what
    [erase_right(dflt)] followed by [insert(k, dflt)] does: the entry
    whose right value is equivalent to [dflt] goes, if there is one,
    then the pair [(k, dflt)] is inserted as a new record [d], and the
    right value of [d], which is [dflt], is returned; the entries are
    then [(k, dflt)] and the old entries without the one that held
    [dflt].  On a new [bimap<int, std::string>],
    [at_left_or_default(5)] leaves the one entry [(5, "")], and
    [at_left_or_default(7)] after it leaves the one entry [(7, "")]. *)
Theorem at_left_or_default_displaces (dflt : Right) h B k es :
  wf h B → bimap.entries h B = Some es →
  (∀ l r, (l, r) ∈ es → equiv_key (compL B) l k →
     bimap.at_left_or_default dflt h B k = Some (r, h, B))
  ∧ (Forall (λ e, ¬ equiv_key (compL B) e.1 k) es →
     ∃ b h1 B1 d h' B' es',
       bimap.erase_right_key h B dflt = Some (b, h1, B1)
       ∧ bimap.entries h1 B1
         = Some (filter (λ e, ¬ equiv_key (compR B) e.2 dflt) es)
       ∧ bimap.insert h1 B1 k dflt = Some (d, h', B')
       ∧ bimap.at_left_or_default dflt h B k = Some (dflt, h', B')
       ∧ h1 !! d = None ∧ bimap.entry h' d = Some (k, dflt)
       ∧ wf h' B'
       ∧ bimap.entries h' B' = Some es'
       ∧ es' ≡ₚ (k, dflt)
                :: filter (λ e, ¬ equiv_key (compR B) e.2 dflt) es)
  ∧ (bimap.at_left_or_default "" scenario.new_heap scenario.new_map 5%Z
     = Some ("", scenario.five_heap, scenario.five_map)
     ∧ bimap.entries scenario.five_heap scenario.five_map = Some [(5%Z, "")]
     ∧ bimap.at_left_or_default "" scenario.five_heap scenario.five_map 7%Z
       = Some ("", scenario.seven_heap, scenario.seven_map)
     ∧ bimap.entries scenario.seven_heap scenario.seven_map
       = Some [(7%Z, "")]).
Proof.
  intros (sl & sr & Hwf) Hes. split; [|split].
  - intros l r (a & HinL & HinR)%(entries_elem _ _ _ _ _ _ _ Hwf Hes) He.
    pose proof (wf_sentinels_fresh _ _ _ _ Hwf) as (HsLl & _).
    assert (a ∈ addrs sl) as Ha by by apply (list_elem_of_fmap_2 fst) in HinL.
    destruct (wf_pair_right _ _ _ _ _ _ Hwf HinR) as (kl' & Hp & _).
    apply deref_pair in Hp as [_ Hd].
    unfold bimap.at_left_or_default, bimap.find_left.
    rewrite (find_present _ _ _ _ _ _ _ (wf_left _ _ _ _ Hwf) HinL He). simpl.
    rewrite decide_False by (unfold bimap.end_left, intrusive.end_; by intros ->).
    rewrite (flip_left_node _ _ _ _ _ Hwf Ha). simpl. by rewrite Hd.
  - intros Hall. rewrite Forall_forall in Hall.
    assert (∀ a kl, (a, kl) ∈ inorder sl → ¬ equiv_key (compL B) kl k) as HnoL.
    { intros a kl Hin.
      destruct (wf_pair_left _ _ _ _ _ _ Hwf Hin) as (kr & _ & Hin').
      apply (Hall (kl, kr)), (entries_elem _ _ _ _ _ _ _ Hwf Hes). eauto. }
    destruct (erase_right_key_spec _ _ _ _ _ dflt Hwf Hes)
      as (b & h1 & B1 & sl1 & sr1 & Her & Hwf1 & HlT & HrT & Hsub & HnoR1
          & Hes1 & _).
    assert (∀ a kl, (a, kl) ∈ inorder sl1 → ¬ equiv_key (compL B1) kl k)
      as HnoL1 by (rewrite HlT; eauto).
    rewrite <- HrT in HnoR1.
    destruct (add_fresh _ _ _ _ _ _ Hwf1 HnoL1 HnoR1)
      as (d & h2 & B2 & sl2 & sr2 & w1 & w2 & v1 & v2 & Hadd & Hd & Hwf2
          & _ & _ & _ & _ & _ & Hin & Hin' & _ & _ & Hpd & Hpa & _).
    assert (d ∉ (w1 ++ w2).*1) as Hdfresh.
    { rewrite <- Hin. intros Hd'.
      destruct (wf_dom _ _ _ _ d Hwf1) as [? E]; [by do 2 right|].
      by rewrite E in Hd. }
    pose proof Hes1 as Hes1'. apply (wf_entries _ _ _ _ _ Hwf1) in Hes1'.
    rewrite Hin in Hes1'.
    destruct (entries_of_insert _ h2 _ _ d k dflt _ Hes1' Hpd Hpa Hdfresh)
      as (e1 & e2 & Hsplit & Hes2).
    rewrite <- Hin' in Hes2. apply (wf_entries _ _ _ _ _ Hwf2) in Hes2.
    assert (d ∈ addrs sl2) as Hd2.
    { unfold addrs. rewrite Hin', fmap_app. set_solver. }
    exists b, h1, B1, d, h2, B2, (e1 ++ (k, dflt) :: e2).
    split; [done|]. split; [done|]. split; [done|].
    split; [|split; [done|split; [by rewrite entry_pair_at|]]].
    + unfold bimap.at_left_or_default, bimap.find_left.
      rewrite (find_absent _ _ _ _ _ (wf_left _ _ _ _ Hwf) HnoL). simpl.
      rewrite decide_True by done.
      pose proof (erase_right_key_inline h B dflt) as Hinl.
      rewrite Her in Hinl. simpl in Hinl.
      destruct (bimap.find_right h B dflt) as [it|]; simpl in Hinl; [|done].
      simpl. rewrite Hinl.
      simpl. unfold bimap.insert. rewrite Hadd. simpl.
      rewrite (flip_left_node _ _ _ _ _ Hwf2 Hd2). simpl.
      by rewrite (proj2 (deref_pair _ _ _ _ Hpd)).
    + split; [by exists sl2, sr2|]. split; [done|].
      by rewrite <- Permutation_middle, Hsplit.
  - repeat split; vm_compute; reflexivity.
Qed.
(** C9.  The copy constructor on a bimap [C] whose entries are [es].
    It returns, and changes no object that was in the heap before.
    The copy and [C] are both well-formed and share no object.  The
    copy holds the entries [es] in the same left order and has the
    size of [C], and [operator==] answers [true] for the copy and
    [C], in either order.  Whatever calls of [insert], [erase_left]
    and [erase_right] are then made on the copy, [C] stays
    well-formed, apart from the copy, and keeps the entries [es];
    the same holds for the copy when the calls are made on [C]. *)
Theorem copy_is_equal_and_independent h C es :
  wf h C → bimap.entries h C = Some es →
  ∃ h' B,
    bimap.copy_ctor h C = Some (h', B)
    ∧ (∀ a, is_Some (h !! a) → h' !! a = h !! a)
    ∧ separate h' B C
    ∧ bimap.entries h' B = Some es ∧ bimap.entries h' C = Some es
    ∧ bimap.size B = bimap.size C
    ∧ bimap.equal h' B C = Some true ∧ bimap.equal h' C B = Some true
    ∧ (∀ os h'' B',
         bimap.apply_operations h' B os = Some (h'', B') →
         separate h'' B' C ∧ bimap.entries h'' C = Some es)
    ∧ (∀ os h'' C',
         bimap.apply_operations h' C os = Some (h'', C') →
         separate h'' B C' ∧ bimap.entries h'' B = Some es).
Proof.
  intros (sl & sr & HC) Hes.
  destruct (copy_ctor_spec _ _ _ _ _ HC Hes)
    as (h' & B & slB & srB & Hcopy & HB & HC' & Hsep & Hfresh & Hfr
        & HcL & HcR & HesB).
  assert (bimap.entries h' C = Some es) as HesC.
  { rewrite <- Hes. eapply entries_same; [exact HC|].
    intros a Ha. apply Hfr. eapply wf_dom; [exact HC|done]. }
  exists h', B. split; [done|]. split; [done|].
  split; [by exists slB, srB, sl, sr|].
  split; [done|]. split; [done|]. split.
  { unfold bimap.size.
    rewrite (wf_count _ _ _ _ HB), (wf_count _ _ _ _ HC').
    apply (wf_entries _ _ _ _ _ HB), Forall2_length in HesB.
    apply (wf_entries _ _ _ _ _ HC'), Forall2_length in HesC.
    unfold addrs. rewrite !length_fmap. congruence. }
  split; [by eapply equal_same_entries|].
  split; [by eapply equal_same_entries|].
  split.
  - intros os h'' B' Hops.
    destruct (apply_operations_apart _ _ _ _ _ _ _ _ _ _ HB HC' Hsep Hops)
      as (slB' & srB' & HB'' & HC'' & Hsep' & Hfr').
    split; [by exists slB', srB', sl, sr|].
    rewrite <- HesC. eapply entries_same; [exact HC'|done].
  - intros os h'' C' Hops.
    assert (∀ a, a ∈ footprint C sl → a ∉ footprint B slB) as Hsep'.
    { intros a Ha Hb. exact (Hsep a Hb Ha). }
    destruct (apply_operations_apart _ _ _ _ _ _ _ _ _ _ HC' HB Hsep' Hops)
      as (slC' & srC' & HC'' & HB'' & Hsep'' & Hfr').
    split.
    + exists slB, srB, slC', srC'. split; [done|]. split; [done|].
      intros a Ha Hc. exact (Hsep'' a Hc Ha).
    + rewrite <- HesB. eapply entries_same; [exact HB|done].
Qed.
End bimap_properties.

Section index_properties.
Context {T K : Type} {A : intrusive.Access T K}.
Implicit Types (h : gmap addr T) (t : intrusive.intrusive_tree K).

Lemma tree_ok_traversal h t xr s :
  tree_inv h t xr s → intrusive.traversal h t = Some (inorder s).
Proof. intros []. by eapply traversal_spec. Qed.

(** C8.  On an index whose traversal is [w]: [find_next(x)] cuts [w]
    into the entries with a key less than [x] and, after them, the
    entries with a key not less than [x], and returns the position
    where the second part starts, which is the end position when the
    second part is empty.  The keys of [w] increase strictly, so the
    position returned is the one with the least key not less than
    [x]; and when every key is less than [x], as on an empty index,
    the end position is returned. *)
Theorem find_next_is_lower_bound h t x w :
  tree_ok h t → intrusive.traversal h t = Some w →
  StronglySorted (λ p q, intrusive.comp t p.2 q.2 = true) w
  ∧ (∃ w1 w2,
       w = w1 ++ w2
       ∧ Forall (λ p, intrusive.comp t p.2 x = true) w1
       ∧ Forall (λ p, intrusive.comp t p.2 x = false) w2
       ∧ intrusive.find_next h t x = Some (first_or (intrusive.end_ t) w2))
  ∧ (Forall (λ p, intrusive.comp t p.2 x = true) w →
     intrusive.find_next h t x = Some (intrusive.end_ t)).
Proof.
  intros (xr & s & Hinv) Hw.
  rewrite (tree_ok_traversal _ _ _ _ Hinv) in Hw. injection Hw as <-.
  destruct (find_next_spec _ _ _ _ x Hinv) as (w1 & w2 & Hs & H1 & H2 & Hf).
  split; [|split].
  - destruct Hinv as [_ _ Hbst _]. unfold bst, keys in Hbst.
    clear -Hbst. induction (inorder s) as [|p w IH]; [constructor|].
    simpl in Hbst. apply StronglySorted_inv in Hbst as [Hw Hp].
    constructor; [by apply IH|]. by apply Forall_fmap in Hp.
  - exists w1, w2. split; [done|]. rewrite !Forall_forall.
    split; [|split; [|done]]; intros [a k] Hin; simpl; eauto.
  - intros Hall. rewrite Hf. destruct w2 as [|[a k] w2]; [done|].
    rewrite Hs, Forall_app, Forall_cons in Hall. simpl in Hall.
    destruct Hall as (_ & Hk & _). rewrite (H2 a k) in Hk; [done|by left].
Qed.

(** C10.  On an index whose traversal [w] holds an entry with a key
    equivalent to [v]: [remove(v)] returns the end position and
    leaves the heap and the index, its node counter included, as
    they were. *)
Theorem remove_of_a_present_value_does_nothing h t v w a k :
  tree_ok h t → intrusive.traversal h t = Some w →
  (a, k) ∈ w → equiv_key (intrusive.comp t) k v →
  intrusive.remove_value h t v = Some (intrusive.end_ t, h, t)
  ∧ intrusive.traversal h t = Some w
  ∧ intrusive.size t = intrusive.n_node t.
Proof.
  intros (xr & s & Hinv) Hw Hin He. split; [|done].
  rewrite (tree_ok_traversal _ _ _ _ Hinv) in Hw. injection Hw as <-.
  by eapply remove_value_present.
Qed.
End index_properties.

(* ================================================================== *)
(** ** The sample bimap and the properties on it                       *)
(* ================================================================== *)

Lemma nat_ltb_order : strict_weak_order Nat.ltb.
Proof.
  split.
  - intros a. apply Nat.ltb_irrefl.
  - intros a b c. rewrite !Nat.ltb_lt. lia.
  - intros a b c. rewrite !Nat.ltb_lt. lia.
Qed.

Lemma Z_ltb_order : strict_weak_order Z.ltb.
Proof.
  split.
  - intros a. apply Z.ltb_irrefl.
  - intros a b c. rewrite !Z.ltb_lt. lia.
  - intros a b c. rewrite !Z.ltb_lt. lia.
Qed.

Lemma sample_run :
  bimap.run Nat.ltb Nat.ltb sample.operations = Some (sample.heap, sample.map).
Proof. vm_compute. reflexivity. Qed.

Lemma sample_wf : wf sample.heap sample.map.
Proof.
  eapply reachable_wf, run_reachable;
    [apply nat_ltb_order|apply nat_ltb_order|apply sample_run].
Qed.

Lemma sample_entries :
  bimap.entries sample.heap sample.map = Some [(1, 30); (2, 20); (3, 10)].
Proof. vm_compute. reflexivity. Qed.

Lemma wf_tree_ok_left {Left Right} (h : gmap addr (details.obj Left Right)) B :
  wf h B → tree_ok (A := details.left_tag) h (bimap.left_tree B).
Proof. intros (sl & sr & [HL _ _ _ _]). by eexists _, _. Qed.

Lemma wf_tree_ok_right {Left Right} (h : gmap addr (details.obj Left Right)) B :
  wf h B → tree_ok (A := details.right_tag) h (bimap.right_tree B).
Proof. intros (sl & sr & [_ HR _ _ _]). by eexists _, _. Qed.

Lemma sample_traversal :
  intrusive.traversal (A := details.left_tag) sample.heap
    (bimap.left_tree sample.map)
  = Some [(3, 1); (2, 2); (4, 3)].
Proof. vm_compute. reflexivity. Qed.

Lemma insert_rejects_or_adds_witness :
  wf sample.heap sample.map
  ∧ bimap.entries sample.heap sample.map = Some [(1, 30); (2, 20); (3, 10)]
  ∧ bimap.insert sample.heap sample.map 2 99
    = Some (bimap.end_left sample.map, sample.heap, sample.map)
  ∧ ∃ d h' B', bimap.insert sample.heap sample.map 7 70 = Some (d, h', B')
               ∧ bimap.entry h' d = Some (7, 70)
               ∧ bimap.size B' = 4.
Proof.
  split; [exact sample_wf|]. split; [exact sample_entries|]. split.
  - apply (insert_rejects_or_adds sample.heap sample.map 2 99 _
             sample_wf sample_entries).
    apply Exists_cons_tl, Exists_cons_hd. left. split; reflexivity.
  - destruct (proj2 (insert_rejects_or_adds sample.heap sample.map 7 70 _
                       sample_wf sample_entries))
      as (d & h' & B' & lw & rw & lw' & rw' & Hins & _ & _ & He & _ & _ & _
          & _ & _ & _ & _ & Hsize & _).
    + repeat constructor; simpl; intros [E1 E2]; discriminate.
    + exists d, h', B'. repeat split; [exact Hins|exact He|exact Hsize].
Defined.

Lemma at_throws_exactly_when_absent_witness :
  wf sample.heap sample.map
  ∧ bimap.entries sample.heap sample.map = Some [(1, 30); (2, 20); (3, 10)]
  ∧ bimap.at_left sample.heap sample.map 7 = Some bimap.throws_out_of_range
  ∧ bimap.at_right sample.heap sample.map 30 = Some (bimap.returns 1).
Proof.
  split; [exact sample_wf|]. split; [exact sample_entries|].
  destruct (at_throws_exactly_when_absent sample.heap sample.map _
              sample_wf sample_entries) as [HL HR].
  split.
  - apply (HL 7). repeat constructor; simpl; intros [E1 E2]; discriminate.
  - apply (proj2 (HR 30) 1 30); [by left|split; reflexivity].
Defined.

Lemma at_left_or_default_displaces_witness :
  wf sample.heap sample.map
  ∧ bimap.entries sample.heap sample.map = Some [(1, 30); (2, 20); (3, 10)]
  ∧ bimap.at_left_or_default 0 sample.heap sample.map 2
    = Some (20, sample.heap, sample.map).
Proof.
  split; [exact sample_wf|]. split; [exact sample_entries|].
  apply (proj1 (at_left_or_default_displaces 0 sample.heap sample.map 2 _
                  sample_wf sample_entries) 2 20).
  - right. by left.
  - split; reflexivity.
Defined.

Lemma copy_is_equal_and_independent_witness :
  wf sample.heap sample.map
  ∧ bimap.entries sample.heap sample.map = Some [(1, 30); (2, 20); (3, 10)]
  ∧ ∃ h' B,
      bimap.copy_ctor sample.heap sample.map = Some (h', B)
      ∧ bimap.entries h' B = Some [(1, 30); (2, 20); (3, 10)]
      ∧ bimap.equal h' B sample.map = Some true.
Proof.
  split; [exact sample_wf|]. split; [exact sample_entries|].
  destruct (copy_is_equal_and_independent sample.heap sample.map _
              sample_wf sample_entries)
    as (h' & B & Hcopy & _ & _ & HesB & _ & _ & Heq & _).
  exists h', B. split; [exact Hcopy|]. split; [exact HesB|exact Heq].
Defined.

Lemma find_next_is_lower_bound_witness :
  tree_ok (A := details.left_tag) sample.heap (bimap.left_tree sample.map)
  ∧ intrusive.traversal (A := details.left_tag) sample.heap
      (bimap.left_tree sample.map) = Some [(3, 1); (2, 2); (4, 3)]
  ∧ (Forall (λ p : addr * nat, Nat.ltb p.2 9 = true) [(3, 1); (2, 2); (4, 3)] →
     intrusive.find_next (A := details.left_tag) sample.heap
       (bimap.left_tree sample.map) 9
     = Some (intrusive.end_ (bimap.left_tree sample.map))).
Proof.
  split; [exact (wf_tree_ok_left _ _ sample_wf)|].
  split; [exact sample_traversal|].
  apply (find_next_is_lower_bound (A := details.left_tag) sample.heap
           (bimap.left_tree sample.map) 9 _
           (wf_tree_ok_left _ _ sample_wf) sample_traversal).
Defined.

Lemma remove_of_a_present_value_does_nothing_witness :
  tree_ok (A := details.left_tag) sample.heap (bimap.left_tree sample.map)
  ∧ intrusive.traversal (A := details.left_tag) sample.heap
      (bimap.left_tree sample.map) = Some [(3, 1); (2, 2); (4, 3)]
  ∧ (2, 2) ∈ [(3, 1); (2, 2); (4, 3)]
  ∧ equiv_key Nat.ltb 2 2
  ∧ intrusive.remove_value (A := details.left_tag) sample.heap
      (bimap.left_tree sample.map) 2
    = Some (intrusive.end_ (bimap.left_tree sample.map), sample.heap,
            bimap.left_tree sample.map).
Proof.
  split; [exact (wf_tree_ok_left _ _ sample_wf)|].
  split; [exact sample_traversal|].
  split; [by right; left|]. split; [split; reflexivity|].
  apply (remove_of_a_present_value_does_nothing (A := details.left_tag)
           sample.heap (bimap.left_tree sample.map) 2 _ 2 2
           (wf_tree_ok_left _ _ sample_wf) sample_traversal).
  - by right; left.
  - split; reflexivity.
Defined.

(* ================================================================== *)
(** ** The properties on runs of [bimap<int, std::string>]             *)
(* ================================================================== *)

(** C2.  A bimap is constructed and [(1, "a")], [(2, "b")], [(3, "c")]
    are inserted.  Then [at_left(2)] returns ["b"]; [erase_left(2)]
    returns [true]; after it [find_right("b")] returns [end_right()],
    [size()] returns 2 and the pairs left are [(1, "a")] and
    [(3, "c")]. *)
Theorem scenario_insert_lookup_erase :
  bimap.run Z.ltb String.ltb
    [bimap.Insert 1%Z "a"; bimap.Insert 2%Z "b"; bimap.Insert 3%Z "c"]
  = Some (scenario.abc_heap, scenario.abc_map)
  ∧ bimap.at_left scenario.abc_heap scenario.abc_map 2%Z
    = Some (bimap.returns "b")
  ∧ bimap.erase_left_key scenario.abc_heap scenario.abc_map 2%Z
    = Some (true, scenario.ac_heap, scenario.ac_map)
  ∧ bimap.find_right scenario.ac_heap scenario.ac_map "b"
    = Some (bimap.end_right scenario.ac_map)
  ∧ bimap.size scenario.ac_map = 2
  ∧ bimap.entries scenario.ac_heap scenario.ac_map
    = Some [(1%Z, "a"); (3%Z, "c")].
Proof. repeat split; vm_compute; reflexivity. Qed.

(** C3, the part that holds.  In every state that satisfies the
    invariant of a bimap, [size()] is the number of positions of the
    left traversal and of the right traversal. *)
Lemma size_counts_positions {Left Right}
    (h : gmap addr (details.obj Left Right)) B :
  wf h B →
  ∃ lw rw,
    bimap.left_positions h B = Some lw
    ∧ bimap.right_positions h B = Some rw
    ∧ bimap.size B = length lw ∧ bimap.size B = length rw.
Proof.
  intros (sl & sr & Hwf). exists (addrs sl), (addrs sr).
  split; [by eapply wf_left_positions|].
  split; [by eapply wf_right_positions|].
  pose proof (wf_count _ _ _ _ Hwf) as Hc.
  pose proof (wf_same _ _ _ _ Hwf) as Hs.
  unfold bimap.size. split; [done|]. by rewrite Hc, Hs.
Qed.

(** C3, the part that fails.  After [insert(1, "a")] and
    [erase_left(1)] the bimap is empty and [size()] is 0, but the
    counters of the two indexes, which only [intrusive_tree::insert]
    and [intrusive_tree::remove] touch, still say 1: [erase_left]
    unlinks the record through its destructor and never calls
    [remove].  The [assert] in [intrusive_tree::empty] fails in that
    state. *)
Theorem erase_leaves_the_index_counters_stale :
  bimap.run Z.ltb String.ltb [bimap.Insert 1%Z "a"; bimap.EraseLeft 1%Z]
  = Some (scenario.erased_heap, scenario.erased_map)
  ∧ bimap.size scenario.erased_map = 0
  ∧ bimap.left_positions scenario.erased_heap scenario.erased_map = Some []
  ∧ bimap.right_positions scenario.erased_heap scenario.erased_map = Some []
  ∧ intrusive.size (bimap.left_tree scenario.erased_map) = 1
  ∧ intrusive.size (bimap.right_tree scenario.erased_map) = 1
  ∧ intrusive.empty_assertion (A := details.left_tag) scenario.erased_heap
      (bimap.left_tree scenario.erased_map) = Some false
  ∧ bimap.empty_assertions scenario.erased_heap scenario.erased_map
    = Some false.
Proof. repeat split; vm_compute; reflexivity. Qed.

(** C7.  A bimap that holds [(1, "a")] is moved from.  The new bimap
    has the pair and the source has none, but [size()] of the source
    is still 1 and [empty()] is [false]: the move constructor copies
    the counter and never resets it, where [swap] exchanges the
    counters.  The second [assert] of [empty] fails on the source, and
    the sentinels of the new bimap are not linked to each other, so
    its [end_left().flip()] is not [end_right()]. *)
Theorem moved_from_bimap_keeps_its_count :
  bimap.run Z.ltb String.ltb [bimap.Insert 1%Z "a"]
  = Some (scenario.a_heap, scenario.a_map)
  ∧ bimap.move_ctor scenario.a_heap scenario.a_map
    = Some (scenario.moved_heap, scenario.moved_to, scenario.moved_from)
  ∧ bimap.entries scenario.moved_heap scenario.moved_to = Some [(1%Z, "a")]
  ∧ bimap.entries scenario.moved_heap scenario.moved_from = Some []
  ∧ bimap.size scenario.moved_from = 1
  ∧ bimap.empty scenario.moved_from = false
  ∧ bimap.empty_assertions scenario.moved_heap scenario.moved_from
    = Some false
  ∧ bimap.flip_left scenario.moved_heap (bimap.end_left scenario.moved_to)
    = None.
Proof. repeat split; vm_compute; reflexivity. Qed.

(* ================================================================== *)
(** ** Erasing from a bimap                                            *)
(* ================================================================== *)

Section bimap_erasures.
Context {Left Right : Type}.
Implicit Types (h : gmap addr (details.obj Left Right)).
Implicit Types (B C : bimap.bimap Left Right).
Implicit Types (sl : shape Left) (sr : shape Right).
Implicit Types (es : list (Left * Right)).

Local Abbreviation sentL B := (intrusive.sentinel (bimap.left_tree B)).
Local Abbreviation sentR B := (intrusive.sentinel (bimap.right_tree B)).
Local Abbreviation compL B := (intrusive.comp (bimap.left_tree B)).
Local Abbreviation compR B := (intrusive.comp (bimap.right_tree B)).
Local Abbreviation less_one B :=
  (bimap.Bimap (bimap.left_tree B) (bimap.right_tree B)
     (pred (bimap.n_node B))).

(** [erase_left(it)] on the shapes. *)
Lemma erase_left_shapes h B sl sr w1 x kl w2 :
  wf_shapes h B sl sr → inorder sl = w1 ++ (x, kl) :: w2 →
  ∃ h' sl' sr' v1 kr v2,
    bimap.erase_left h B x = Some (first_or (sentL B) w2, h', less_one B)
    ∧ wf_shapes h' (less_one B) sl' sr'
    ∧ inorder sl' = w1 ++ w2
    ∧ inorder sr = v1 ++ (x, kr) :: v2 ∧ inorder sr' = v1 ++ v2
    ∧ pair_at h x = Some (kl, kr) ∧ h' !! x = None
    ∧ (∀ a, a ≠ x → pair_at h' a = pair_at h a)
    ∧ (∀ a, a ∉ footprint B sl → h' !! a = h !! a).
Proof.
  intros Hwf Hin.
  destruct (erase_left_spec _ _ _ _ _ _ _ _ Hwf Hin) as (h' & Her & Hdel).
  assert (x ∈ addrs sl) as Hx.
  { unfold addrs. rewrite Hin, fmap_app, fmap_cons.
    apply elem_of_app. right. by left. }
  destruct (delete_node_spec _ _ _ _ _ Hwf Hx)
    as (h1 & sl' & sr' & w1' & kl' & w2' & v1 & kr & v2 & Hdel' & Hwf'
        & E1 & E2 & E3 & E4 & Hp & Hfree & Hpo & Hfr).
  rewrite Hdel in Hdel'. injection Hdel' as <-.
  pose proof (ti_nodup _ _ _ _ (wf_left _ _ _ _ Hwf)) as Hnd.
  unfold addrs in Hnd. rewrite Hin in Hnd. rewrite Hin in E1.
  destruct (split_unique _ _ _ _ _ _ _ Hnd E1) as (<- & <- & <-).
  exists h', sl', sr', v1, kr, v2. by repeat (split; [done|]).
Qed.

(** [erase_right(it)] on the shapes. *)
Lemma erase_right_shapes h B sl sr v1 x kr v2 :
  wf_shapes h B sl sr → inorder sr = v1 ++ (x, kr) :: v2 →
  ∃ h' sl' sr' w1 kl w2,
    bimap.erase_right h B x = Some (first_or (sentR B) v2, h', less_one B)
    ∧ wf_shapes h' (less_one B) sl' sr'
    ∧ inorder sr' = v1 ++ v2
    ∧ inorder sl = w1 ++ (x, kl) :: w2 ∧ inorder sl' = w1 ++ w2
    ∧ pair_at h x = Some (kl, kr) ∧ h' !! x = None
    ∧ (∀ a, a ≠ x → pair_at h' a = pair_at h a)
    ∧ (∀ a, a ∉ footprint B sl → h' !! a = h !! a).
Proof.
  intros Hwf Hin.
  destruct (erase_right_spec _ _ _ _ _ _ _ _ Hwf Hin) as (h' & Her & Hdel).
  assert (x ∈ addrs sl) as Hx.
  { rewrite (wf_same _ _ _ _ Hwf). unfold addrs.
    rewrite Hin, fmap_app, fmap_cons. apply elem_of_app. right. by left. }
  destruct (delete_node_spec _ _ _ _ _ Hwf Hx)
    as (h1 & sl' & sr' & w1 & kl & w2 & v1' & kr' & v2' & Hdel' & Hwf'
        & E1 & E2 & E3 & E4 & Hp & Hfree & Hpo & Hfr).
  rewrite Hdel in Hdel'. injection Hdel' as <-.
  pose proof (ti_nodup _ _ _ _ (wf_right _ _ _ _ Hwf)) as Hnd.
  unfold addrs in Hnd. rewrite Hin in Hnd. rewrite Hin in E3.
  destruct (split_unique _ _ _ _ _ _ _ Hnd E3) as (<- & <- & <-).
  exists h', sl', sr', w1, kl, w2. by repeat (split; [done|]).
Qed.

Lemma first_or_head {K} (top : addr) (w : list (addr * K)) :
  first_or top w = default top (head w.*1).
Proof. by destruct w as [|[]]. Qed.

(** What is left of the entries once the record [x] is gone. *)
Lemma erased_entries h B sl sr h' B' sl' sr' w1 x kl w2 v1 kr v2 es :
  wf_shapes h B sl sr → wf_shapes h' B' sl' sr' →
  compL B' = compL B → compR B' = compR B →
  inorder sl = w1 ++ (x, kl) :: w2 → inorder sl' = w1 ++ w2 →
  inorder sr = v1 ++ (x, kr) :: v2 → inorder sr' = v1 ++ v2 →
  pair_at h x = Some (kl, kr) →
  (∀ a, a ≠ x → pair_at h' a = pair_at h a) →
  bimap.entries h B = Some es →
  ∃ e1 e2,
    es = e1 ++ (kl, kr) :: e2 ∧ length e1 = length w1
    ∧ bimap.entries h' B' = Some (e1 ++ e2)
    ∧ bimap.at_left h' B' kl = Some bimap.throws_out_of_range
    ∧ bimap.at_right h' B' kr = Some bimap.throws_out_of_range.
Proof.
  intros Hwf Hwf' HcL HcR E1 E1' E2 E2' Hp Hpo Hes.
  pose proof (wf_left _ _ _ _ Hwf) as [_ HndL HbstL HswoL].
  pose proof (wf_right _ _ _ _ Hwf) as [_ HndR HbstR HswoR].
  unfold addrs in HndL, HndR. rewrite E1 in HndL. rewrite E2 in HndR.
  apply split_fresh in HndL as (HxL & _ & _).
  apply split_fresh in HndR as (HxR & _ & _).
  apply (wf_entries _ _ _ _ _ Hwf) in Hes. rewrite E1 in Hes.
  apply Forall2_app_inv_l in Hes as (e1 & k2 & H1 & H2 & ->).
  apply Forall2_cons_inv_l in H2 as (e & e2 & [Hpe _] & H2 & ->).
  simpl in Hpe. rewrite Hp in Hpe. injection Hpe as <-.
  exists e1, e2. split; [done|].
  split; [symmetry; by eapply Forall2_length|].
  assert (entries_of h' (w1 ++ w2) (e1 ++ e2)) as Hes'.
  { rewrite fmap_app in HxL. apply not_elem_of_app in HxL as [Hx1 Hx2].
    apply Forall2_app; (eapply entries_of_agree; [done|]);
      intros a Ha; apply Hpo; by intros ->. }
  rewrite <- E1' in Hes'. apply (wf_entries _ _ _ _ _ Hwf') in Hes'.
  split; [done|]. split.
  - eapply at_left_absent; [done|]. rewrite HcL. intros a k Hin He.
    assert ((a, k) = (x, kl)) as [= -> ->].
    { eapply (sorted_equiv_unique _ HswoL); [exact HbstL| | |exact He|].
      - rewrite E1. rewrite E1' in Hin. revert Hin.
        rewrite !elem_of_app, elem_of_cons. tauto.
      - rewrite E1. apply elem_of_app. right. by left.
      - split; apply (swo_irrefl _ HswoL). }
    rewrite E1' in Hin. by apply (list_elem_of_fmap_2 fst) in Hin.
  - eapply at_right_absent; [done|]. rewrite HcR. intros a k Hin He.
    assert ((a, k) = (x, kr)) as [= -> ->].
    { eapply (sorted_equiv_unique _ HswoR); [exact HbstR| | |exact He|].
      - rewrite E2. rewrite E2' in Hin. revert Hin.
        rewrite !elem_of_app, elem_of_cons. tauto.
      - rewrite E2. apply elem_of_app. right. by left.
      - split; apply (swo_irrefl _ HswoR). }
    rewrite E2' in Hin. by apply (list_elem_of_fmap_2 fst) in Hin.
Qed.

(** [erase_left(key)] in full. *)
Lemma erase_left_key_full h B sl sr es l :
  wf_shapes h B sl sr → bimap.entries h B = Some es →
  ∃ b h1 B1 sl1 sr1,
    bimap.erase_left_key h B l = Some (b, h1, B1)
    ∧ wf_shapes h1 B1 sl1 sr1
    ∧ bimap.left_tree B1 = bimap.left_tree B
    ∧ bimap.right_tree B1 = bimap.right_tree B
    ∧ (b = true ↔ Exists (λ e, equiv_key (compL B) e.1 l) es)
    ∧ bimap.n_node B1 = (if b then pred (bimap.n_node B) else bimap.n_node B)
    ∧ (b = false → h1 = h ∧ B1 = B)
    ∧ (∀ a kl, (a, kl) ∈ inorder sl1 → (a, kl) ∈ inorder sl)
    ∧ (∀ a kr, (a, kr) ∈ inorder sr1 → (a, kr) ∈ inorder sr)
    ∧ (∀ a kl, (a, kl) ∈ inorder sl1 → ¬ equiv_key (compL B) kl l)
    ∧ bimap.entries h1 B1
      = Some (filter (λ e, ¬ equiv_key (compL B) e.1 l) es)
    ∧ (∀ a, a ∉ footprint B sl → h1 !! a = h !! a).
Proof.
  intros Hwf Hes.
  destruct (erase_left_key_cases _ _ _ _ l Hwf)
    as [(a0 & kl0 & h1 & Hin0 & He0 & Hdel & Herase)|[Hno Herase]].
  - assert (a0 ∈ addrs sl) as Ha0 by by apply (list_elem_of_fmap_2 fst) in Hin0.
    destruct (delete_node_spec _ _ _ _ _ Hwf Ha0)
      as (h1' & sl1 & sr1 & w1 & kl0' & w2 & v1 & kr0 & v2 & Hdel' & Hwf1
          & Hin & Hin' & Hjn & Hjn' & Hp0 & _ & Hpa & Hframe).
    rewrite Hdel in Hdel'. injection Hdel' as <-.
    pose proof (wf_left _ _ _ _ Hwf) as [_ HndL HbstL HswoL].
    assert (kl0' = kl0) as ->.
    { eapply (NoDup_fst_inj (inorder sl)); [exact HndL| |exact Hin0].
      rewrite Hin. apply elem_of_app. right. by left. }
    unfold addrs in HndL. rewrite Hin in HndL.
    apply split_fresh in HndL as (HxL & _ & _).
    assert (∀ a kl, (a, kl) ∈ inorder sl1 → (a, kl) ∈ inorder sl) as HsubL.
    { intros a kl. rewrite Hin, Hin', !elem_of_app, elem_of_cons. tauto. }
    assert (∀ a kr, (a, kr) ∈ inorder sr1 → (a, kr) ∈ inorder sr) as HsubR.
    { intros a kr. rewrite Hjn, Hjn', !elem_of_app, elem_of_cons. tauto. }
    assert (∀ a kl, (a, kl) ∈ inorder sl1 → ¬ equiv_key (compL B) kl l)
      as Hno1.
    { intros a kl Ha He.
      assert ((a, kl) = (a0, kl0)) as [= -> ->].
      { eapply (sorted_equiv_unique _ HswoL); [exact HbstL|by apply HsubL|done..]. }
      rewrite Hin' in Ha. by apply (list_elem_of_fmap_2 fst) in Ha. }
    pose proof Hes as Hes'. apply (wf_entries _ _ _ _ _ Hwf) in Hes'.
    rewrite Hin in Hes'.
    destruct (entries_of_delete _ h1 _ _ _ _ _ _ Hes' Hp0 Hpa HxL)
      as (e1 & e2 & -> & Hes1).
    rewrite <- Hin' in Hes1. apply (wf_entries _ _ _ _ _ Hwf1) in Hes1.
    eexists true, h1, _, sl1, sr1. split; [done|]. split; [done|].
    simpl. split; [done|]. split; [done|]. split.
    { split; [intros _|done]. apply Exists_exists. exists (kl0, kr0).
      split; [|done]. apply elem_of_app. right. by left. }
    split; [done|]. split; [done|].
    split; [done|]. split; [done|]. split; [done|].
    split; [|done].
    rewrite Hes1. f_equal. rewrite filter_app, filter_cons_False.
    2:{ simpl. by intros []. }
    rewrite <- filter_app. symmetry. apply filter_all, Forall_forall.
    intros [l' r'] Hin1. simpl.
    apply (entries_elem _ _ _ _ _ _ _ Hwf1 Hes1) in Hin1 as (a & Ha & _).
    by apply (Hno1 a).
  - assert (Forall (λ e, ¬ equiv_key (compL B) e.1 l) es) as Hall.
    { apply Forall_forall. intros [l' r'] Hin1. simpl.
      apply (entries_elem _ _ _ _ _ _ _ Hwf Hes) in Hin1 as (a & Ha & _).
      by apply (Hno a). }
    exists false, h, B, sl, sr. split; [done|]. split; [done|].
    split; [done|]. split; [done|]. split.
    { split; [done|]. intros Hex. exfalso.
      apply Exists_exists in Hex as (e & Hin1 & He).
      rewrite Forall_forall in Hall. by apply (Hall e). }
    split; [done|]. split; [done|].
    split; [done|]. split; [done|]. split; [done|].
    split; [|done]. rewrite Hes. f_equal. symmetry. by apply filter_all.
Qed.

(** [erase_right(key)] in full. *)
Lemma erase_right_key_full h B sl sr es r :
  wf_shapes h B sl sr → bimap.entries h B = Some es →
  ∃ b h1 B1 sl1 sr1,
    bimap.erase_right_key h B r = Some (b, h1, B1)
    ∧ wf_shapes h1 B1 sl1 sr1
    ∧ bimap.left_tree B1 = bimap.left_tree B
    ∧ bimap.right_tree B1 = bimap.right_tree B
    ∧ (b = true ↔ Exists (λ e, equiv_key (compR B) e.2 r) es)
    ∧ bimap.n_node B1 = (if b then pred (bimap.n_node B) else bimap.n_node B)
    ∧ (b = false → h1 = h ∧ B1 = B)
    ∧ (∀ a kl, (a, kl) ∈ inorder sl1 → (a, kl) ∈ inorder sl)
    ∧ (∀ a kr, (a, kr) ∈ inorder sr1 → (a, kr) ∈ inorder sr)
    ∧ (∀ a kr, (a, kr) ∈ inorder sr1 → ¬ equiv_key (compR B) kr r)
    ∧ bimap.entries h1 B1
      = Some (filter (λ e, ¬ equiv_key (compR B) e.2 r) es)
    ∧ (∀ a, a ∉ footprint B sl → h1 !! a = h !! a).
Proof.
  intros Hwf Hes.
  destruct (erase_right_key_cases _ _ _ _ r Hwf)
    as [(a0 & kr0 & h1 & Hin0 & He0 & Hdel & Herase)|[Hno Herase]].
  - assert (a0 ∈ addrs sl) as Ha0.
    { rewrite (wf_same _ _ _ _ Hwf).
      by apply (list_elem_of_fmap_2 fst) in Hin0. }
    destruct (delete_node_spec _ _ _ _ _ Hwf Ha0)
      as (h1' & sl1 & sr1 & w1 & kl0 & w2 & v1 & kr0' & v2 & Hdel' & Hwf1
          & Hin & Hin' & Hjn & Hjn' & Hp0 & _ & Hpa & Hframe).
    rewrite Hdel in Hdel'. injection Hdel' as <-.
    pose proof (wf_left _ _ _ _ Hwf) as [_ HndL _ _].
    pose proof (wf_right _ _ _ _ Hwf) as [_ HndR HbstR HswoR].
    assert (kr0' = kr0) as ->.
    { eapply (NoDup_fst_inj (inorder sr)); [exact HndR| |exact Hin0].
      rewrite Hjn. apply elem_of_app. right. by left. }
    unfold addrs in HndR. rewrite Hjn in HndR.
    apply split_fresh in HndR as (HxR & _ & _).
    unfold addrs in HndL. rewrite Hin in HndL.
    apply split_fresh in HndL as (HxL & _ & _).
    assert (∀ a kl, (a, kl) ∈ inorder sl1 → (a, kl) ∈ inorder sl) as HsubL.
    { intros a kl. rewrite Hin, Hin', !elem_of_app, elem_of_cons. tauto. }
    assert (∀ a kr, (a, kr) ∈ inorder sr1 → (a, kr) ∈ inorder sr) as HsubR.
    { intros a kr. rewrite Hjn, Hjn', !elem_of_app, elem_of_cons. tauto. }
    assert (∀ a kr, (a, kr) ∈ inorder sr1 → ¬ equiv_key (compR B) kr r)
      as Hno1.
    { intros a kr Ha He.
      assert ((a, kr) = (a0, kr0)) as [= -> ->].
      { eapply (sorted_equiv_unique _ HswoR); [exact HbstR|by apply HsubR|done..]. }
      rewrite Hjn' in Ha. by apply (list_elem_of_fmap_2 fst) in Ha. }
    pose proof Hes as Hes'. apply (wf_entries _ _ _ _ _ Hwf) in Hes'.
    rewrite Hin in Hes'.
    destruct (entries_of_delete _ h1 _ _ _ _ _ _ Hes' Hp0 Hpa HxL)
      as (e1 & e2 & -> & Hes1).
    rewrite <- Hin' in Hes1. apply (wf_entries _ _ _ _ _ Hwf1) in Hes1.
    eexists true, h1, _, sl1, sr1. split; [done|]. split; [done|].
    simpl. split; [done|]. split; [done|]. split.
    { split; [intros _|done]. apply Exists_exists. exists (kl0, kr0).
      split; [|done]. apply elem_of_app. right. by left. }
    split; [done|]. split; [done|].
    split; [done|]. split; [done|]. split; [done|].
    split; [|done].
    rewrite Hes1. f_equal. rewrite filter_app, filter_cons_False.
    2:{ simpl. by intros []. }
    rewrite <- filter_app. symmetry. apply filter_all, Forall_forall.
    intros [l' r'] Hin1. simpl.
    apply (entries_elem _ _ _ _ _ _ _ Hwf1 Hes1) in Hin1 as (a & _ & Ha).
    by apply (Hno1 a).
  - assert (Forall (λ e, ¬ equiv_key (compR B) e.2 r) es) as Hall.
    { apply Forall_forall. intros [l' r'] Hin1. simpl.
      apply (entries_elem _ _ _ _ _ _ _ Hwf Hes) in Hin1 as (a & _ & Ha).
      by apply (Hno a). }
    exists false, h, B, sl, sr. split; [done|]. split; [done|].
    split; [done|]. split; [done|]. split.
    { split; [done|]. intros Hex. exfalso.
      apply Exists_exists in Hex as (e & Hin1 & He).
      rewrite Forall_forall in Hall. by apply (Hall e). }
    split; [done|]. split; [done|].
    split; [done|]. split; [done|]. split; [done|].
    split; [|done]. rewrite Hes. f_equal. symmetry. by apply filter_all.
Qed.

(** A walk without the record [x], and without the records of [F]. *)
Lemma filter_without {K} (F : list addr) (v1 v2 : list (addr * K)) x k :
  x ∉ (v1 ++ v2).*1 →
  filter (λ p, p.1 ∉ x :: F) (v1 ++ (x, k) :: v2)
  = filter (λ p, p.1 ∉ F) (v1 ++ v2).
Proof.
  intros Hx. rewrite !filter_app, filter_cons_False.
  2:{ simpl. intros Hn. apply Hn. by left. }
  rewrite fmap_app in Hx. apply not_elem_of_app in Hx as [H1 H2].
  assert (∀ v : list (addr * K), x ∉ v.*1 →
            filter (λ p, p.1 ∉ x :: F) v = filter (λ p, p.1 ∉ F) v) as Hv.
  { clear. induction v as [|[a ka] v IH]; [done|]. rewrite fmap_cons.
    intros [Ha Hv]%not_elem_of_cons. simpl in Ha.
    destruct (decide (a ∈ F)) as [HF|HF].
    - rewrite !filter_cons_False; [by apply IH|simpl; by auto|].
      simpl. intros Hn. apply Hn. by right.
    - rewrite !filter_cons_True; [by rewrite IH|done|].
      simpl. by intros [?|?]%elem_of_cons. }
  by rewrite !Hv.
Qed.

(** The loop of [erase_left(first, last)] on the part [w2] of the
    left walk. *)
Lemma erase_left_loop_spec w2 : ∀ fuel h B sl sr w1 w3,
  wf_shapes h B sl sr → inorder sl = w1 ++ w2 ++ w3 →
  length w2 < fuel →
  ∃ h' B' sl' sr',
    bimap.erase_left_loop fuel h B (first_or (sentL B) (w2 ++ w3))
      (first_or (sentL B) w3)
    = Some (first_or (sentL B) w3, h', B')
    ∧ wf_shapes h' B' sl' sr' ∧ inorder sl' = w1 ++ w3
    ∧ bimap.left_tree B' = bimap.left_tree B
    ∧ bimap.right_tree B' = bimap.right_tree B
    ∧ bimap.n_node B' = bimap.n_node B - length w2
    ∧ (w2 = [] → h' = h ∧ B' = B)
    ∧ inorder sr' = filter (λ p, p.1 ∉ w2.*1) (inorder sr)
    ∧ (∀ a, a ∈ w2.*1 → h' !! a = None)
    ∧ (∀ a, a ∉ w2.*1 → pair_at h' a = pair_at h a)
    ∧ (∀ a, a ∉ footprint B sl → h' !! a = h !! a).
Proof.
  induction w2 as [|[x kl] w2 IH]; intros fuel h B sl sr w1 w3 Hwf Hin Hfuel;
    (destruct fuel as [|fuel]; [simpl in Hfuel; lia|]); simpl in *.
  { rewrite decide_False by (intros Hne; by apply Hne).
    exists h, B, sl, sr. rewrite Nat.sub_0_r.
    repeat (split; [done|]). split.
    { symmetry. apply filter_all, Forall_forall. intros p _ Hp.
      by apply elem_of_nil in Hp. }
    split; [|done]. intros a Ha. by apply elem_of_nil in Ha. }
  pose proof (ti_nodup _ _ _ _ (wf_left _ _ _ _ Hwf)) as Hnd.
  unfold addrs in Hnd. rewrite Hin in Hnd.
  assert (x ∈ addrs sl) as Hx.
  { unfold addrs. rewrite Hin, fmap_app, fmap_cons.
    apply elem_of_app. right. by left. }
  assert (x ≠ first_or (sentL B) w3) as Hne.
  { destruct w3 as [|[y ky] w3]; simpl.
    - intros ->. by apply (wf_sentinels_fresh _ _ _ _ Hwf) in Hx.
    - intros ->. rewrite fmap_app in Hnd.
      apply NoDup_app in Hnd as (_ & _ & Hnd). rewrite fmap_cons in Hnd.
      apply NoDup_cons in Hnd as [Hnd _]. apply Hnd.
      rewrite fmap_app, fmap_cons. apply elem_of_app. right. by left. }
  rewrite decide_True by done.
  destruct (erase_left_shapes _ _ _ _ _ _ _ _ Hwf Hin)
    as (h1 & sl1 & sr1 & v1 & kr & v2 & Her & Hwf1 & Hin1 & Hjn & Hjn1
        & Hp & Hfree & Hpo & Hfr).
  rewrite Her. simpl.
  destruct (IH fuel h1 _ sl1 sr1 w1 w3 Hwf1 Hin1 ltac:(lia))
    as (h' & B' & sl' & sr' & Hloop & Hwf' & Hin' & HlT & HrT & Hn & _
        & HsubR & Hfree' & Hpo' & Hfr').
  simpl in *. rewrite Hloop.
  exists h', B', sl', sr'. repeat (split; [done|]).
  split; [lia|]. split; [done|]. split.
  { rewrite HsubR, Hjn, Hjn1. symmetry. apply filter_without.
    pose proof (ti_nodup _ _ _ _ (wf_right _ _ _ _ Hwf)) as HndR.
    unfold addrs in HndR. rewrite Hjn in HndR.
    by apply split_fresh in HndR as (? & _). }
  assert (x ∉ footprint (less_one B) sl1) as Hxf.
  { intros [Hs|[Hs|Hs]%elem_of_cons]%elem_of_cons; simpl in Hs.
    - subst x. by apply (wf_sentinels_fresh _ _ _ _ Hwf) in Hx.
    - subst x. by apply (wf_sentinels_fresh _ _ _ _ Hwf) in Hx.
    - unfold addrs in Hs. rewrite Hin1 in Hs.
      apply split_fresh in Hnd as (Hnd & _). done. }
  split.
  { intros a [->|Ha]%elem_of_cons; [|by apply Hfree'].
    by rewrite Hfr'. }
  split.
  { intros a [Hax Ha]%not_elem_of_cons. rewrite Hpo' by done. by apply Hpo. }
  intros a Ha. rewrite Hfr', Hfr; [done..|].
  intros [Hs|[Hs|Hs]%elem_of_cons]%elem_of_cons; simpl in Hs; apply Ha.
  - subst a. by left.
  - subst a. right. by left.
  - do 2 right. unfold addrs in *. rewrite Hin1 in Hs. rewrite Hin.
    revert Hs. rewrite !fmap_app, fmap_cons, !fmap_app, !elem_of_app, elem_of_cons.
    rewrite elem_of_app. tauto.
Qed.

(** The loop of [erase_right(first, last)] on the part [v2] of the
    right walk. *)
Lemma erase_right_loop_spec v2 : ∀ fuel h B sl sr v1 v3,
  wf_shapes h B sl sr → inorder sr = v1 ++ v2 ++ v3 →
  length v2 < fuel →
  ∃ h' B' sl' sr',
    bimap.erase_right_loop fuel h B (first_or (sentR B) (v2 ++ v3))
      (first_or (sentR B) v3)
    = Some (first_or (sentR B) v3, h', B')
    ∧ wf_shapes h' B' sl' sr' ∧ inorder sr' = v1 ++ v3
    ∧ bimap.left_tree B' = bimap.left_tree B
    ∧ bimap.right_tree B' = bimap.right_tree B
    ∧ bimap.n_node B' = bimap.n_node B - length v2
    ∧ (v2 = [] → h' = h ∧ B' = B)
    ∧ inorder sl' = filter (λ p, p.1 ∉ v2.*1) (inorder sl)
    ∧ (∀ a, a ∈ v2.*1 → h' !! a = None)
    ∧ (∀ a, a ∉ v2.*1 → pair_at h' a = pair_at h a)
    ∧ (∀ a, a ∉ footprint B sl → h' !! a = h !! a).
Proof.
  induction v2 as [|[x kr] v2 IH]; intros fuel h B sl sr v1 v3 Hwf Hin Hfuel;
    (destruct fuel as [|fuel]; [simpl in Hfuel; lia|]); simpl in *.
  { rewrite decide_False by (intros Hne; by apply Hne).
    exists h, B, sl, sr. rewrite Nat.sub_0_r.
    repeat (split; [done|]). split.
    { symmetry. apply filter_all, Forall_forall. intros p _ Hp.
      by apply elem_of_nil in Hp. }
    split; [|done]. intros a Ha. by apply elem_of_nil in Ha. }
  pose proof (ti_nodup _ _ _ _ (wf_right _ _ _ _ Hwf)) as Hnd.
  unfold addrs in Hnd. rewrite Hin in Hnd.
  assert (x ∈ addrs sr) as Hx.
  { unfold addrs. rewrite Hin, fmap_app, fmap_cons.
    apply elem_of_app. right. by left. }
  assert (x ≠ first_or (sentR B) v3) as Hne.
  { destruct v3 as [|[y ky] v3]; simpl.
    - intros ->. by apply (wf_sentinels_fresh _ _ _ _ Hwf) in Hx.
    - intros ->. rewrite fmap_app in Hnd.
      apply NoDup_app in Hnd as (_ & _ & Hnd). rewrite fmap_cons in Hnd.
      apply NoDup_cons in Hnd as [Hnd _]. apply Hnd.
      rewrite fmap_app, fmap_cons. apply elem_of_app. right. by left. }
  rewrite decide_True by done.
  destruct (erase_right_shapes _ _ _ _ _ _ _ _ Hwf Hin)
    as (h1 & sl1 & sr1 & w1 & kl & w2 & Her & Hwf1 & Hin1 & Hjn & Hjn1
        & Hp & Hfree & Hpo & Hfr).
  rewrite Her. simpl.
  destruct (IH fuel h1 _ sl1 sr1 v1 v3 Hwf1 Hin1 ltac:(lia))
    as (h' & B' & sl' & sr' & Hloop & Hwf' & Hin' & HlT & HrT & Hn & _
        & HsubL & Hfree' & Hpo' & Hfr').
  simpl in *. rewrite Hloop.
  exists h', B', sl', sr'. repeat (split; [done|]).
  split; [lia|]. split; [done|]. split.
  { rewrite HsubL, Hjn, Hjn1. symmetry. apply filter_without.
    pose proof (ti_nodup _ _ _ _ (wf_left _ _ _ _ Hwf)) as HndL'.
    unfold addrs in HndL'. rewrite Hjn in HndL'.
    by apply split_fresh in HndL' as (? & _). }
  pose proof (ti_nodup _ _ _ _ (wf_left _ _ _ _ Hwf)) as HndL.
  unfold addrs in HndL. rewrite Hjn in HndL.
  rewrite <- (wf_same _ _ _ _ Hwf) in Hx.
  assert (x ∉ footprint (less_one B) sl1) as Hxf.
  { intros [Hs|[Hs|Hs]%elem_of_cons]%elem_of_cons; simpl in Hs.
    - subst x. by apply (wf_sentinels_fresh _ _ _ _ Hwf) in Hx.
    - subst x. by apply (wf_sentinels_fresh _ _ _ _ Hwf) in Hx.
    - unfold addrs in Hs. rewrite Hjn1 in Hs.
      apply split_fresh in HndL as (HndL & _). done. }
  split.
  { intros a [->|Ha]%elem_of_cons; [|by apply Hfree'].
    by rewrite Hfr'. }
  split.
  { intros a [Hax Ha]%not_elem_of_cons. rewrite Hpo' by done. by apply Hpo. }
  intros a Ha. rewrite Hfr', Hfr; [done..|].
  intros [Hs|[Hs|Hs]%elem_of_cons]%elem_of_cons; simpl in Hs; apply Ha.
  - subst a. by left.
  - subst a. right. by left.
  - do 2 right. unfold addrs in *. rewrite Hjn1 in Hs. rewrite Hjn.
    revert Hs. rewrite !fmap_app, fmap_cons, !elem_of_app, elem_of_cons. tauto.
Qed.

(** The loop of the destructor is the loop of [erase_left(first,
    last)] up to [end_left()]. *)
Lemma dtor_loop_erase fuel : ∀ h B it,
  bimap.dtor_loop fuel h B it
  = '(_, h', B') ← bimap.erase_left_loop fuel h B it (bimap.end_left B);
    Some (h', B').
Proof.
  induction fuel as [|fuel IH]; intros h B it; simpl; [done|].
  destruct (decide (it ≠ bimap.end_left B)); [|done].
  unfold bimap.erase_left.
  destruct (bimap.incr_left h it) as [it'|]; simpl; [|done].
  destruct (bimap.delete_node h it) as [h'|]; simpl; [|done].
  exact (IH h' (less_one B) it').
Qed.
End bimap_erasures.

(* ================================================================== *)
(** ** What [operator==] decides                                       *)
(* ================================================================== *)

Section bimap_comparison.
Context {Left Right : Type}.
Implicit Types (h : gmap addr (details.obj Left Right)).
Implicit Types (B C : bimap.bimap Left Right).
Implicit Types (sl : shape Left) (sr : shape Right).
Implicit Types (es : list (Left * Right)).

Local Abbreviation sentL B := (intrusive.sentinel (bimap.left_tree B)).
Local Abbreviation compL B := (intrusive.comp (bimap.left_tree B)).
Local Abbreviation compR B := (intrusive.comp (bimap.right_tree B)).
Local Abbreviation same_pair B :=
  (λ x y : Left * Right,
     equiv_key (compL B) x.1 y.1 ∧ equiv_key (compR B) x.2 y.2).

Lemma is_equals_decide {K} (t : intrusive.intrusive_tree K) (a b : K) :
  intrusive.is_equals t a b = bool_decide (equiv_key (intrusive.comp t) a b).
Proof.
  unfold intrusive.is_equals.
  destruct (decide (equiv_key (intrusive.comp t) a b)) as [He|Hn].
  - rewrite bool_decide_eq_true_2 by done. by destruct He as [-> ->].
  - rewrite bool_decide_eq_false_2 by done.
    destruct (intrusive.comp t a b) eqn:E1, (intrusive.comp t b a) eqn:E2;
      try done.
    by destruct Hn.
Qed.

Lemma equal_loop_decides p2 : ∀ q2 p1 q1 ea eb fuel h B slB srB C slC srC,
  wf_shapes h B slB srB → wf_shapes h C slC srC →
  inorder slB = p1 ++ p2 → inorder slC = q1 ++ q2 →
  entries_of h p2 ea → entries_of h q2 eb →
  length p2 = length q2 → length p2 < fuel →
  bimap.equal_loop fuel h B C (first_or (sentL B) p2) (first_or (sentL C) q2)
  = Some (bool_decide (Forall2 (same_pair B) ea eb)).
Proof.
  induction p2 as [|[a ka] p2 IH];
    intros [|[b kb] q2] p1 q1 ea eb fuel h B slB srB C slC srC HB HC EB EC
      Hp Hq Hlen Hfuel; try done;
    (destruct fuel as [|fuel]; [simpl in Hfuel; lia|]); simpl in *.
  { rewrite decide_False by (by intros [H _]).
    apply Forall2_nil_inv_l in Hp as ->. apply Forall2_nil_inv_l in Hq as ->.
    by rewrite bool_decide_eq_true_2 by constructor. }
  apply Forall2_cons_inv_l in Hp as ([la ra] & ea' & [Hpa Hl] & Hp & ->).
  apply Forall2_cons_inv_l in Hq as ([lb rb] & eb' & [Hpb Hl'] & Hq & ->).
  simpl in *. subst ka kb.
  assert (a ∈ addrs slB) as Ha.
  { unfold addrs. rewrite EB, fmap_app, fmap_cons.
    apply elem_of_app. right. by left. }
  assert (b ∈ addrs slC) as Hb.
  { unfold addrs. rewrite EC, fmap_app, fmap_cons.
    apply elem_of_app. right. by left. }
  rewrite decide_True; cycle 1.
  { split; intros ->.
    - by apply (wf_sentinels_fresh _ _ _ _ HB) in Ha.
    - by apply (wf_sentinels_fresh _ _ _ _ HC) in Hb. }
  destruct (deref_pair _ _ _ _ Hpa) as [Dla Dra].
  destruct (deref_pair _ _ _ _ Hpb) as [Dlb Drb].
  rewrite Dla, Dlb. simpl.
  unfold bimap.eq_left, bimap.eq_right. rewrite !is_equals_decide.
  destruct (decide (equiv_key (compL B) la lb)) as [HeL|HeL].
  2:{ rewrite bool_decide_eq_false_2 by done. simpl. f_equal. symmetry.
      apply bool_decide_eq_false. intros H%Forall2_cons_1. simpl in H. tauto. }
  rewrite bool_decide_eq_true_2 by done. simpl.
  rewrite (flip_left_node _ _ _ _ _ HB Ha), (flip_left_node _ _ _ _ _ HC Hb).
  simpl. rewrite Dra, Drb. simpl. rewrite is_equals_decide.
  destruct (decide (equiv_key (compR B) ra rb)) as [HeR|HeR].
  2:{ rewrite bool_decide_eq_false_2 by done. simpl. f_equal. symmetry.
      apply bool_decide_eq_false. intros H%Forall2_cons_1. simpl in H. tauto. }
  rewrite bool_decide_eq_true_2 by done. simpl.
  unfold bimap.incr_left.
  rewrite (next_spec _ _ _ _ _ _ _ _ (ti_rep _ _ _ _ (wf_left _ _ _ _ HB))
             (ti_nodup _ _ _ _ (wf_left _ _ _ _ HB)) EB). simpl.
  rewrite (next_spec _ _ _ _ _ _ _ _ (ti_rep _ _ _ _ (wf_left _ _ _ _ HC))
             (ti_nodup _ _ _ _ (wf_left _ _ _ _ HC)) EC). simpl.
  rewrite (IH q2 (p1 ++ [(a, la)]) (q1 ++ [(b, lb)]) ea' eb' fuel h
             B slB srB C slC srC); try done.
  - f_equal. apply bool_decide_ext. rewrite Forall2_cons. simpl. tauto.
  - by rewrite <- app_assoc.
  - by rewrite <- app_assoc.
  - lia.
  - lia.
Qed.

Lemma equal_decides h B slB srB C slC srC ea eb :
  wf_shapes h B slB srB → wf_shapes h C slC srC →
  bimap.entries h B = Some ea → bimap.entries h C = Some eb →
  bimap.equal h B C = Some (bool_decide (Forall2 (same_pair B) ea eb)).
Proof.
  intros HB HC HeB HeC.
  apply (wf_entries _ _ _ _ _ HB) in HeB.
  apply (wf_entries _ _ _ _ _ HC) in HeC.
  pose proof (Forall2_length _ _ _ HeB) as LB.
  pose proof (Forall2_length _ _ _ HeC) as LC.
  unfold bimap.equal, bimap.size.
  rewrite (wf_count _ _ _ _ HB), (wf_count _ _ _ _ HC).
  unfold addrs. rewrite !length_fmap.
  destruct (decide (length (inorder slB) ≠ length (inorder slC))) as [Hne|He].
  { f_equal. symmetry. apply bool_decide_eq_false.
    intros H%Forall2_length. lia. }
  unfold bimap.begin_left.
  rewrite (begin_spec _ _ _ _ (ti_rep _ _ _ _ (wf_left _ _ _ _ HB))
             (ti_nodup _ _ _ _ (wf_left _ _ _ _ HB))). simpl.
  rewrite (begin_spec _ _ _ _ (ti_rep _ _ _ _ (wf_left _ _ _ _ HC))
             (ti_nodup _ _ _ _ (wf_left _ _ _ _ HC))). simpl.
  eapply (equal_loop_decides _ _ [] []); try done; [lia|].
  pose proof (tree_rep_fuel _ _ _ _ (ti_rep _ _ _ _ (wf_left _ _ _ _ HB))
                (ti_nodup _ _ _ _ (wf_left _ _ _ _ HB))) as Hf.
  unfold addrs in Hf. rewrite length_fmap in Hf. lia.
Qed.
End bimap_comparison.

(* ================================================================== *)
(** ** The two orders of a bimap                                       *)
(* ================================================================== *)

Section bimap_orders.
Context {Left Right : Type}.
Implicit Types (h : gmap addr (details.obj Left Right)).
Implicit Types (B C : bimap.bimap Left Right).
Implicit Types (sl : shape Left) (sr : shape Right).
Implicit Types (es : list (Left * Right)).

Local Abbreviation compL B := (intrusive.comp (bimap.left_tree B)).
Local Abbreviation compR B := (intrusive.comp (bimap.right_tree B)).

Lemma mapM_omap {X Y} (f : X → option Y) (l : list X) (k : list Y) :
  mapM f l = Some k → omap f l = k.
Proof.
  rewrite mapM_Some. induction 1 as [|x y l k Hxy _ IH]; [done|].
  csimpl. rewrite Hxy. simpl. by rewrite IH.
Qed.

Lemma sorted_fmap_inv {X Y} (f : X → Y) (R : Y → Y → Prop) (l : list X) :
  StronglySorted R (f <$> l) → StronglySorted (λ x y, R (f x) (f y)) l.
Proof.
  induction l as [|x l IH]; [constructor|]. rewrite fmap_cons.
  intros Hs. apply StronglySorted_inv in Hs as [Hl Hx].
  constructor; [by apply IH|]. rewrite Forall_forall in Hx.
  apply Forall_forall. intros y Hy. apply Hx. by apply list_elem_of_fmap_2.
Qed.

(** The pairs behind a right walk. *)
Lemma wf_right_entries h B sl sr :
  wf_shapes h B sl sr →
  ∃ es_r,
    mapM (bimap.entry h) (addrs sr) = Some es_r
    ∧ es_r.*2 = keys sr.
Proof.
  intros Hwf.
  assert (∀ v : list (addr * Right),
            (∀ a kr, (a, kr) ∈ v → ∃ kl, pair_at h a = Some (kl, kr)) →
            ∃ es_r, mapM (bimap.entry h) v.*1 = Some es_r ∧ es_r.*2 = v.*2)
    as Hv.
  { induction v as [|[a kr] v IH]; intros Hp; [by exists []|].
    destruct (Hp a kr) as [kl Hkl]; [by left|].
    destruct IH as (es_r & Hm & Hk).
    { intros b k Hb. apply (Hp b k). by right. }
    exists ((kl, kr) :: es_r). rewrite !fmap_cons. simpl.
    rewrite entry_pair_at, Hkl. simpl. rewrite Hm. simpl.
    by rewrite Hk. }
  apply Hv. intros a kr Hin.
  destruct (wf_pair_right _ _ _ _ _ _ Hwf Hin) as (kl & Hp & _). eauto.
Qed.

Lemma wf_left_entries h B sl sr es :
  wf_shapes h B sl sr → bimap.entries h B = Some es →
  mapM (bimap.entry h) (addrs sl) = Some es ∧ es.*1 = keys sl.
Proof.
  intros Hwf Hes. split.
  - unfold bimap.entries in Hes.
    by rewrite (wf_left_positions _ _ _ _ Hwf) in Hes.
  - apply (wf_entries _ _ _ _ _ Hwf) in Hes. unfold keys.
    induction Hes as [|[a k] e w es [_ Hk] _ IH]; [done|].
    rewrite !fmap_cons. simpl in *. by rewrite Hk, IH.
Qed.

(** The entries of a bimap differ in their left keys and in their
    right keys. *)
Lemma wf_entries_differ h B sl sr es i j x y :
  wf_shapes h B sl sr → bimap.entries h B = Some es →
  es !! i = Some x → es !! j = Some y →
  equiv_key (compL B) x.1 y.1 ∨ equiv_key (compR B) x.2 y.2 →
  i = j.
Proof.
  intros Hwf Hes Hi Hj Heq.
  apply (wf_entries _ _ _ _ _ Hwf) in Hes.
  destruct (Forall2_lookup_r _ _ _ _ _ Hes Hi) as ([a ka] & Hai & Hpa & Hka).
  destruct (Forall2_lookup_r _ _ _ _ _ Hes Hj) as ([b kb] & Hbj & Hpb & Hkb).
  simpl in *.
  pose proof (wf_left _ _ _ _ Hwf) as [_ HndL HbstL HswoL].
  pose proof (wf_right _ _ _ _ Hwf) as [_ _ HbstR HswoR].
  assert ((a, ka) ∈ inorder sl) as HaL by by eapply list_elem_of_lookup_2.
  assert ((b, kb) ∈ inorder sl) as HbL by by eapply list_elem_of_lookup_2.
  destruct (wf_pair_left _ _ _ _ _ _ Hwf HaL) as (ra & Hpa' & HaR).
  destruct (wf_pair_left _ _ _ _ _ _ Hwf HbL) as (rb & Hpb' & HbR).
  rewrite Hpa in Hpa'. rewrite Hpb in Hpb'.
  injection Hpa' as ->. injection Hpb' as ->. simpl in Heq. clear Hka Hkb.
  assert (a = b) as ->.
  { destruct Heq as [He|He].
    - assert (equiv_key (compL B) kb kb) as Hr
        by (split; apply (swo_irrefl _ HswoL)).
      pose proof (sorted_equiv_unique _ HswoL _ _ _ _ _ _ HbstL HaL HbL He Hr).
      congruence.
    - assert (equiv_key (compR B) rb rb) as Hr
        by (split; apply (swo_irrefl _ HswoR)).
      pose proof (sorted_equiv_unique _ HswoR _ _ _ _ _ _ HbstR HaR HbR He Hr).
      congruence. }
  eapply NoDup_lookup; [exact HndL|..]; unfold addrs;
    rewrite list_lookup_fmap; [by rewrite Hai|by rewrite Hbj].
Qed.
End bimap_orders.

(* ================================================================== *)
(** ** Swapping two trees                                              *)
(* ================================================================== *)

Section index_swaps.
Context {T K : Type} {A : intrusive.Access T K}.
Implicit Types (h : gmap addr T) (t : intrusive.intrusive_tree K).
Implicit Types (s : shape K).

Lemma upd_opt_parent h (p : option addr) par :
  (∀ r, p = Some r → is_Some (view h r)) →
  ∃ h',
    intrusive.upd_opt h p (intrusive.set_parent par) = Some h'
    ∧ (∀ c, view h' c
            = if decide (p = Some c)
              then (λ nk, (intrusive.set_parent par nk.1, nk.2)) <$> view h c
              else view h c)
    ∧ modifies h h' (option_list p).
Proof.
  intros Hp. destruct p as [r|]; simpl.
  - destruct (Hp r eq_refl) as [[n k] Hv].
    destruct (upd_Some h r (intrusive.set_parent par) n k Hv)
      as (h' & Hu & Hv' & Hm).
    exists h'. split; [done|]. split; [|done].
    intros c. rewrite Hv'. destruct (decide (c = r)) as [->|Hne].
    + rewrite decide_True by done. by rewrite Hv.
    + rewrite decide_False by congruence. done.
  - exists h. split; [done|]. split; [|apply modifies_refl].
    by intros c.
Qed.

Lemma node_swap_spec h a b na nb :
  a ≠ b →
  view h a = Some (na, None) → view h b = Some (nb, None) →
  (∀ r, intrusive.left na = Some r → r ≠ a ∧ r ≠ b ∧ is_Some (view h r)) →
  (∀ r, intrusive.left nb = Some r → r ≠ a ∧ r ≠ b ∧ is_Some (view h r)) →
  (∀ r, intrusive.left na = Some r → intrusive.left nb ≠ Some r) →
  ∃ h',
    intrusive.node_swap h a b = Some h'
    ∧ view h' a = Some (intrusive.set_left (intrusive.left nb) na, None)
    ∧ view h' b = Some (intrusive.set_left (intrusive.left na) nb, None)
    ∧ (∀ r n k, intrusive.left nb = Some r → view h r = Some (n, k) →
         view h' r = Some (intrusive.set_parent (Some a) n, k))
    ∧ (∀ r n k, intrusive.left na = Some r → view h r = Some (n, k) →
         view h' r = Some (intrusive.set_parent (Some b) n, k))
    ∧ (∀ c, c ≠ a → c ≠ b → intrusive.left na ≠ Some c →
         intrusive.left nb ≠ Some c → view h' c = view h c)
    ∧ modifies h h'
        (a :: b :: option_list (intrusive.left na)
           ++ option_list (intrusive.left nb)).
Proof.
  intros Hab Ha Hb Hra Hrb Hdiff.
  pose proof Ha as (oa & Hoa & Hba & _)%view_Some.
  pose proof Hb as (ob & Hob & Hbb & _)%view_Some.
  unfold intrusive.node_swap. rewrite Hoa, Hob. simpl. rewrite Hba, Hbb.
  destruct (upd_Some h a (intrusive.set_left (intrusive.left nb)) _ _ Ha)
    as (h1 & -> & Hv1 & Hm1). simpl.
  assert (view h1 b = Some (nb, None)) as Hb1.
  { rewrite Hv1, decide_False by done. done. }
  destruct (upd_Some h1 b (intrusive.set_left (intrusive.left na)) _ _ Hb1)
    as (h2 & -> & Hv2 & Hm2). simpl.
  destruct (upd_opt_parent h2 (intrusive.left nb) (Some a))
    as (h3 & -> & Hv3 & Hm3).
  { intros r Hr. destruct (Hrb r Hr) as (? & ? & ?).
    by rewrite Hv2, decide_False, Hv1, decide_False. }
  simpl.
  destruct (upd_opt_parent h3 (intrusive.left na) (Some b))
    as (h4 & -> & Hv4 & Hm4).
  { intros r Hr. destruct (Hra r Hr) as (? & ? & ?).
    rewrite Hv3, decide_False by by apply Hdiff.
    by rewrite Hv2, decide_False, Hv1, decide_False. }
  exists h4. split; [done|].
  assert (intrusive.left na ≠ Some a ∧ intrusive.left na ≠ Some b
          ∧ intrusive.left nb ≠ Some a ∧ intrusive.left nb ≠ Some b)
    as (Ha1 & Ha2 & Hb1' & Hb2).
  { repeat split; intros E.
    - by destruct (Hra _ E) as (? & _).
    - by destruct (Hra _ E) as (_ & ? & _).
    - by destruct (Hrb _ E) as (? & _).
    - by destruct (Hrb _ E) as (_ & ? & _). }
  split.
  { rewrite Hv4, decide_False, Hv3, decide_False by done.
    rewrite Hv2, decide_False, Hv1, decide_True by done. done. }
  split.
  { rewrite Hv4, decide_False, Hv3, decide_False by done.
    rewrite Hv2, decide_True by done. done. }
  split.
  { intros r n k Hr Hv. destruct (Hrb r Hr) as (? & ? & _).
    rewrite Hv4, decide_False by (intros E; by apply (Hdiff r E)).
    rewrite Hv3, decide_True by done.
    rewrite Hv2, decide_False, Hv1, decide_False by done. by rewrite Hv. }
  split.
  { intros r n k Hr Hv. destruct (Hra r Hr) as (? & ? & _).
    rewrite Hv4, decide_True by done.
    rewrite Hv3, decide_False by by apply Hdiff.
    rewrite Hv2, decide_False, Hv1, decide_False by done. by rewrite Hv. }
  split.
  { intros c ? ? ? ?.
    rewrite Hv4, decide_False, Hv3, decide_False by done.
    by rewrite Hv2, decide_False, Hv1, decide_False. }
  assert (modifies h h2 [a; b]) as M12.
  { eapply modifies_trans; [exact Hm1|exact Hm2|..];
      intros c Hc%list_elem_of_singleton; subst c; [by left|right; by left]. }
  assert (modifies h h3 ([a; b] ++ option_list (intrusive.left nb))) as M13.
  { eapply modifies_trans; [exact M12|exact Hm3|..];
      intros c Hc; apply elem_of_app; auto. }
  eapply modifies_trans; [exact M13|exact Hm4|..].
  - intros c [Hc|Hc]%elem_of_app.
    + apply elem_of_cons in Hc as [->|Hc]; [by left|].
      apply list_elem_of_singleton in Hc as ->. right. by left.
    + do 2 right. apply elem_of_app. by right.
  - intros c Hc. do 2 right. apply elem_of_app. by left.
Qed.

(** [swap] on two trees that share no node: each sentinel gets the
    nodes of the other tree. *)
Lemma swap_spec h t xr s t' xr' s' :
  tree_inv h t xr s → tree_inv h t' xr' s' →
  intrusive.sentinel t ≠ intrusive.sentinel t' →
  intrusive.sentinel t ∉ addrs s' → intrusive.sentinel t' ∉ addrs s →
  (∀ x, x ∈ addrs s → x ∉ addrs s') →
  ∃ h',
    intrusive.swap h t t'
    = Some (h',
            intrusive.Tree (intrusive.sentinel t) (intrusive.comp t')
              (intrusive.n_node t'),
            intrusive.Tree (intrusive.sentinel t') (intrusive.comp t)
              (intrusive.n_node t))
    ∧ tree_inv h'
        (intrusive.Tree (intrusive.sentinel t) (intrusive.comp t')
           (intrusive.n_node t')) xr s'
    ∧ tree_inv h'
        (intrusive.Tree (intrusive.sentinel t') (intrusive.comp t)
           (intrusive.n_node t)) xr' s
    ∧ modifies h h'
        (intrusive.sentinel t :: intrusive.sentinel t'
           :: option_list (root s) ++ option_list (root s')).
Proof.
  intros Hinv Hinv' Hne Hs1 Hs2 Hdisj.
  pose proof (tree_rep_sentinel_fresh _ _ _ _ (ti_rep _ _ _ _ Hinv)) as Hf.
  pose proof (tree_rep_sentinel_fresh _ _ _ _ (ti_rep _ _ _ _ Hinv')) as Hf'.
  destruct Hinv as [[Htop Hrep] Hnd Hbst Hswo].
  destruct Hinv' as [[Htop' Hrep'] Hnd' Hbst' Hswo'].
  destruct (node_swap_spec h (intrusive.sentinel t) (intrusive.sentinel t')
              _ _ Hne Htop Htop')
    as (h' & Hsw & Va & Vb & Vr' & Vr & Vo & Hm); simpl in *.
  { intros r Hr%root_addrs. split; [by intros ->|]. split; [by intros ->|].
    destruct (rep_view _ _ _ _ Hrep Hr) as (n & k & Hv). rewrite Hv. eauto. }
  { intros r Hr%root_addrs. split; [by intros ->|]. split; [by intros ->|].
    destruct (rep_view _ _ _ _ Hrep' Hr) as (n & k & Hv). rewrite Hv. eauto. }
  { intros r Hr%root_addrs Hr'%root_addrs. by apply (Hdisj r). }
  exists h'. unfold intrusive.swap. rewrite Hsw. simpl. split; [done|].
  split; [|split; [|done]].
  - split; [split|done..]; simpl; [exact Va|].
    eapply (rep_reparent h h'); [exact Hrep'|done|..].
    + intros x Hx Hroot. apply Vo; [by intros ->|by intros ->| |done].
      intros Hr%root_addrs. by apply (Hdisj x).
    + intros x n k Hroot Hv. by eapply Vr'.
  - split; [split|done..]; simpl; [exact Vb|].
    eapply (rep_reparent h h'); [exact Hrep|done|..].
    + intros x Hx Hroot. apply Vo; [by intros ->|by intros ->|done|].
      intros Hr%root_addrs. by apply (Hdisj x).
    + intros x n k Hroot Hv. by eapply Vr.
Qed.
End index_swaps.

(* ================================================================== *)
(** ** Swapping two bimaps                                             *)
(* ================================================================== *)

Section bimap_swaps.
Context {Left Right : Type}.
Local Abbreviation LT := (@details.left_tag Left Right).
Local Abbreviation RT := (@details.right_tag Left Right).
Implicit Types (h : gmap addr (details.obj Left Right)).
Implicit Types (B C : bimap.bimap Left Right).
Implicit Types (sl : shape Left) (sr : shape Right).

Local Abbreviation sentL B := (intrusive.sentinel (bimap.left_tree B)).
Local Abbreviation sentR B := (intrusive.sentinel (bimap.right_tree B)).
Local Abbreviation compL B := (intrusive.comp (bimap.left_tree B)).
Local Abbreviation compR B := (intrusive.comp (bimap.right_tree B)).

(** The sentinels of a bimap point to each other, so that linking
    them again changes nothing. *)
Lemma link_sentinel_linked h B sl sr :
  wf_shapes h B sl sr → bimap.link_sentinel h B = Some h.
Proof.
  intros Hwf.
  pose proof (wf_sentinel_left _ _ _ _ Hwf) as HsL.
  pose proof (wf_sentinel_right _ _ _ _ Hwf) as HsR.
  unfold bimap.link_sentinel, intrusive.upd. rewrite HsR. simpl.
  rewrite insert_id by done. rewrite HsL. simpl.
  by rewrite insert_id.
Qed.

Lemma elem_of_root {K} (s : shape K) x : x ∈ option_list (root s) → x ∈ addrs s.
Proof.
  destruct (root s) as [r|] eqn:E; simpl.
  - intros ->%list_elem_of_singleton. by apply root_addrs.
  - by intros ?%elem_of_nil.
Qed.

Lemma swap_spec_bimap h B slB srB C slC srC :
  wf_shapes h B slB srB → wf_shapes h C slC srC →
  (∀ a, a ∈ footprint B slB → a ∉ footprint C slC) →
  ∃ h' B' C',
    bimap.swap h B C = Some (h', B', C')
    ∧ wf_shapes h' B' slC srC ∧ wf_shapes h' C' slB srB
    ∧ (∀ a, a ∈ footprint B' slC → a ∉ footprint C' slB)
    ∧ sentL B' = sentL B ∧ sentR B' = sentR B
    ∧ sentL C' = sentL C ∧ sentR C' = sentR C
    ∧ compL B' = compL C ∧ compR B' = compR C
    ∧ compL C' = compL B ∧ compR C' = compR B
    ∧ bimap.n_node B' = bimap.n_node C ∧ bimap.n_node C' = bimap.n_node B
    ∧ (∀ a, pair_at h' a = pair_at h a)
    ∧ (∀ a, a ∉ footprint B slB → a ∉ footprint C slC → h' !! a = h !! a).
Proof.
  intros HB HC Hsep.
  pose proof (wf_sentinels_fresh _ _ _ _ HB) as (FB1 & FB2 & FB3 & FB4).
  pose proof (wf_sentinels_fresh _ _ _ _ HC) as (FC1 & FC2 & FC3 & FC4).
  assert (∀ a, a ∈ addrs slB → a ∉ addrs slC) as Hdl.
  { intros a Ha Hc. apply (Hsep a); by do 2 right. }
  assert (∀ a, a ∈ addrs srB → a ∉ addrs srC) as Hdr.
  { intros a Ha Hc. rewrite <- (wf_same _ _ _ _ HB) in Ha.
    rewrite <- (wf_same _ _ _ _ HC) in Hc. by apply (Hdl a). }
  assert (sentL B ≠ sentL C ∧ sentL B ≠ sentR C ∧ sentR B ≠ sentL C
          ∧ sentR B ≠ sentR C) as (N1 & N2 & N3 & N4).
  { repeat split; intros E.
    - apply (Hsep (sentL B)); [by left|]. rewrite E. by left.
    - apply (Hsep (sentL B)); [by left|]. rewrite E. right. by left.
    - apply (Hsep (sentR B)); [right; by left|]. rewrite E. by left.
    - apply (Hsep (sentR B)); [right; by left|]. rewrite E. right. by left. }
  assert ((sentL B ∉ addrs slC) ∧ (sentR B ∉ addrs slC)
          ∧ (sentL C ∉ addrs slB) ∧ (sentR C ∉ addrs slB))
    as (M1 & M2 & M3 & M4).
  { repeat split; intros E.
    - apply (Hsep (sentL B)); [by left|by do 2 right].
    - apply (Hsep (sentR B)); [right; by left|by do 2 right].
    - apply (Hsep (sentL C)); [by do 2 right|by left].
    - apply (Hsep (sentR C)); [by do 2 right|right; by left]. }
  destruct (swap_spec (A := LT) h (bimap.left_tree B) _ slB
              (bimap.left_tree C) _ slC (wf_left _ _ _ _ HB)
              (wf_left _ _ _ _ HC) N1 M1 M3 Hdl)
    as (h1 & Hsw1 & HL1 & HL1' & Hm1).
  assert (∀ x, x ∈ intrusive.sentinel (bimap.left_tree B)
                   :: intrusive.sentinel (bimap.left_tree C)
                   :: option_list (root slB) ++ option_list (root slC) →
               x = sentL B ∨ x = sentL C ∨ x ∈ addrs slB ∨ x ∈ addrs slC)
    as HF1.
  { intros x [->|[->|[Hx|Hx]%elem_of_app]%elem_of_cons]%elem_of_cons;
      auto using elem_of_root. }
  assert (tree_inv (A := RT) h1 (bimap.right_tree B) (Some (sentL B)) srB)
    as HR1.
  { eapply tree_inv_right_frame; [exact (wf_right _ _ _ _ HB)|exact Hm1|].
    intros [E|[E|[E|E]]]%HF1; try done;
      pose proof (wf_sentinels _ _ _ _ HB); pose proof (wf_sentinels _ _ _ _ HC);
      congruence. }
  assert (tree_inv (A := RT) h1 (bimap.right_tree C) (Some (sentL C)) srC)
    as HR1'.
  { eapply tree_inv_right_frame; [exact (wf_right _ _ _ _ HC)|exact Hm1|].
    intros [E|[E|[E|E]]]%HF1; try done;
      pose proof (wf_sentinels _ _ _ _ HB); pose proof (wf_sentinels _ _ _ _ HC);
      congruence. }
  assert ((sentR B ∉ addrs srC) ∧ (sentR C ∉ addrs srB)) as (M5 & M6).
  { rewrite <- (wf_same _ _ _ _ HC), <- (wf_same _ _ _ _ HB). done. }
  destruct (swap_spec (A := RT) h1 (bimap.right_tree B) _ srB
              (bimap.right_tree C) _ srC HR1 HR1' N4 M5 M6 Hdr)
    as (h2 & Hsw2 & HR2 & HR2' & Hm2).
  assert (∀ x, x ∈ intrusive.sentinel (bimap.right_tree B)
                   :: intrusive.sentinel (bimap.right_tree C)
                   :: option_list (root srB) ++ option_list (root srC) →
               x = sentR B ∨ x = sentR C ∨ x ∈ addrs slB ∨ x ∈ addrs slC)
    as HF2.
  { intros x [->|[->|[Hx|Hx]%elem_of_app]%elem_of_cons]%elem_of_cons;
      [by left|right; by left|right; right; left|do 3 right].
    - rewrite (wf_same _ _ _ _ HB). by apply elem_of_root.
    - rewrite (wf_same _ _ _ _ HC). by apply elem_of_root. }
  set (B' := bimap.Bimap
               (intrusive.Tree (sentL B) (compL C)
                  (intrusive.n_node (bimap.left_tree C)))
               (intrusive.Tree (sentR B) (compR C)
                  (intrusive.n_node (bimap.right_tree C)))
               (bimap.n_node C)).
  set (C' := bimap.Bimap
               (intrusive.Tree (sentL C) (compL B)
                  (intrusive.n_node (bimap.left_tree B)))
               (intrusive.Tree (sentR C) (compR B)
                  (intrusive.n_node (bimap.right_tree B)))
               (bimap.n_node B)).
  assert (wf_shapes h2 B' slC srC) as HB'.
  { split; simpl.
    - eapply tree_inv_left_frame; [exact HL1|exact Hm2|]. simpl.
      intros [E|[E|[E|E]]]%HF2; try done;
      pose proof (wf_sentinels _ _ _ _ HB); pose proof (wf_sentinels _ _ _ _ HC);
      congruence.
    - exact HR2.
    - exact (wf_sentinels _ _ _ _ HB).
    - exact (wf_same _ _ _ _ HC).
    - exact (wf_count _ _ _ _ HC). }
  assert (wf_shapes h2 C' slB srB) as HC'.
  { split; simpl.
    - eapply tree_inv_left_frame; [exact HL1'|exact Hm2|]. simpl.
      intros [E|[E|[E|E]]]%HF2; try done;
      pose proof (wf_sentinels _ _ _ _ HB); pose proof (wf_sentinels _ _ _ _ HC);
      congruence.
    - exact HR2'.
    - exact (wf_sentinels _ _ _ _ HC).
    - exact (wf_same _ _ _ _ HB).
    - exact (wf_count _ _ _ _ HB). }
  exists h2, B', C'. split.
  { unfold bimap.swap. rewrite Hsw1. simpl. rewrite Hsw2. simpl.
    fold B' C'. rewrite (link_sentinel_linked _ _ _ _ HB'). simpl.
    by rewrite (link_sentinel_linked _ _ _ _ HC'). }
  split; [done|]. split; [done|]. split.
  { unfold footprint. simpl.
    intros a [->|[->|Ha]%elem_of_cons]%elem_of_cons
      [E|[E|Hb]%elem_of_cons]%elem_of_cons; try done;
      try (subst a; done).
    by apply (Hdl a). }
  repeat (split; [done|]).
  split.
  { intros a. rewrite (modifies_right_pair_at _ _ _ _ Hm2).
    by rewrite (modifies_left_pair_at _ _ _ _ Hm1). }
  intros a HaB HaC.
  rewrite (modifies_outside _ _ _ _ Hm2), (modifies_outside _ _ _ _ Hm1);
    [done|..].
  - intros [E|[E|[E|E]]]%HF1.
    + apply HaB. rewrite E. by left.
    + apply HaC. rewrite E. by left.
    + apply HaB. by do 2 right.
    + apply HaC. by do 2 right.
  - intros [E|[E|[E|E]]]%HF2.
    + apply HaB. rewrite E. right. by left.
    + apply HaC. rewrite E. right. by left.
    + apply HaB. by do 2 right.
    + apply HaC. by do 2 right.
Qed.
End bimap_swaps.

(* ================================================================== *)
(** ** Destruction and assignment                                      *)
(* ================================================================== *)

Section bimap_assignment.
Context {Left Right : Type}.
Implicit Types (h : gmap addr (details.obj Left Right)).
Implicit Types (B C : bimap.bimap Left Right).
Implicit Types (sl : shape Left) (sr : shape Right).
Implicit Types (es : list (Left * Right)).

Local Abbreviation sentL B := (intrusive.sentinel (bimap.left_tree B)).
Local Abbreviation sentR B := (intrusive.sentinel (bimap.right_tree B)).

(** The destructor on the shapes. *)
Lemma dtor_spec h B sl sr :
  wf_shapes h B sl sr →
  ∃ h' B' sl' sr',
    bimap.dtor h B = Some (h', B')
    ∧ wf_shapes h' B' sl' sr' ∧ inorder sl' = []
    ∧ bimap.left_tree B' = bimap.left_tree B
    ∧ bimap.right_tree B' = bimap.right_tree B
    ∧ bimap.n_node B' = 0
    ∧ (∀ a, a ∈ addrs sl → h' !! a = None)
    ∧ (∀ a, a ∉ footprint B sl → h' !! a = h !! a).
Proof.
  intros Hwf.
  pose proof (tree_rep_fuel _ _ _ _ (ti_rep _ _ _ _ (wf_left _ _ _ _ Hwf))
                (ti_nodup _ _ _ _ (wf_left _ _ _ _ Hwf))) as Hfuel.
  unfold addrs in Hfuel. rewrite length_fmap in Hfuel.
  destruct (erase_left_loop_spec (inorder sl) (heap_fuel h) h B sl sr [] []
              Hwf)
    as (h' & B' & sl' & sr' & Hloop & Hwf' & Hin' & HlT & HrT & Hn & _
        & _ & Hfree & _ & Hfr); [by rewrite app_nil_r|lia|].
  rewrite app_nil_r in Hloop. simpl in *.
  exists h', B', sl', sr'. split.
  { unfold bimap.dtor, bimap.begin_left.
    rewrite (begin_spec _ _ _ _ (ti_rep _ _ _ _ (wf_left _ _ _ _ Hwf))
               (ti_nodup _ _ _ _ (wf_left _ _ _ _ Hwf))). simpl.
    rewrite dtor_loop_erase. unfold bimap.end_left, intrusive.end_.
    by rewrite Hloop. }
  repeat (split; [done|]). split; [|done].
  rewrite Hn, (wf_count _ _ _ _ Hwf). unfold addrs. rewrite length_fmap. lia.
Qed.

(** Assignment of a bimap to itself. *)
Lemma copy_assign_self h B : bimap.copy_assign h B B = Some (h, B).
Proof. unfold bimap.copy_assign. by rewrite decide_False by auto. Qed.

(** Assignment from another bimap, on the shapes. *)
Lemma copy_assign_spec h B slB srB C slC srC ec :
  wf_shapes h B slB srB → wf_shapes h C slC srC →
  (∀ a, a ∈ footprint B slB → a ∉ footprint C slC) →
  bimap.entries h C = Some ec →
  ∃ h' B' slB' srB',
    bimap.copy_assign h B C = Some (h', B')
    ∧ wf_shapes h' B' slB' srB' ∧ wf_shapes h' C slC srC
    ∧ (∀ a, a ∈ footprint B' slB' → a ∉ footprint C slC)
    ∧ sentL B' = sentL B ∧ sentR B' = sentR B
    ∧ bimap.n_node B' = bimap.n_node C
    ∧ bimap.entries h' B' = Some ec
    ∧ (∀ a, a ∈ addrs slB → h' !! a = None)
    ∧ (∀ a, a ∈ footprint C slC → h' !! a = h !! a).
Proof.
  intros HB HC Hsep Hec.
  assert (sentL B ≠ sentL C) as Hne.
  { intros E. apply (Hsep (sentL B)); [by left|]. rewrite E. by left. }
  destruct (copy_ctor_spec _ _ _ _ _ HC Hec)
    as (h1 & T & slT & srT & Hcopy & HT & HC1 & HsepT & Hfresh & Hfr1 & _ & _
        & HeT).
  assert (wf_shapes h1 B slB srB) as HB1.
  { eapply wf_shapes_same; [exact HB|]. intros a Ha. apply Hfr1.
    eapply footprint_dom; [exact HB|done]. }
  assert (∀ a, a ∈ footprint T slT → a ∉ footprint B slB) as HsepTB.
  { intros a Ha%Hfresh Hb.
    destruct (footprint_dom _ _ _ _ _ HB Hb) as [o Ho]. congruence. }
  destruct (swap_spec_bimap _ _ _ _ _ _ _ HT HB1 HsepTB)
    as (h2 & T' & B' & Hswap & HT' & HB' & _ & ST1 & ST2 & SB1 & SB2 & _ & _
        & _ & _ & HnT & HnB & Hpa & Hfr2).
  assert (∀ a, a ∈ footprint C slC → h2 !! a = h1 !! a) as HfrC2.
  { intros a Ha. apply Hfr2; intros Hx.
    - by apply (HsepT a).
    - by apply (Hsep a). }
  pose proof (wf_shapes_same _ _ _ _ _ HC1 HfrC2) as HC2.
  destruct (dtor_spec _ _ _ _ HT')
    as (h3 & T'' & slT'' & srT'' & Hd & _ & _ & _ & _ & _ & Hfree & Hfr3).
  assert (∀ a, a ∈ footprint B' slT → a ∉ footprint T' slB) as HsepBT.
  { destruct (wf_sentinels_fresh _ _ _ _ HB1) as (F1 & F2 & _).
    destruct (wf_sentinels_fresh _ _ _ _ HT) as (G1 & G2 & _).
    unfold footprint. rewrite SB1, SB2, ST1, ST2.
    intros a [->|[->|Ha]%elem_of_cons]%elem_of_cons
      [E|[E|Hb]%elem_of_cons]%elem_of_cons; try done.
    - apply (HsepTB (sentL T)); [by left|]. rewrite <- E. by left.
    - apply (HsepTB (sentR T)); [right; by left|]. rewrite <- E. by left.
    - apply (HsepTB (sentL T)); [by left|]. rewrite <- E. right. by left.
    - apply (HsepTB (sentR T)); [right; by left|]. rewrite <- E. right. by left.
    - subst a. done.
    - subst a. done.
    - apply (HsepTB a); by do 2 right. }
  assert (∀ a, a ∈ footprint C slC → a ∉ footprint T' slB) as HsepCT.
  { unfold footprint. rewrite ST1, ST2.
    intros a Ha [->|[->|Hb]%elem_of_cons]%elem_of_cons.
    - apply (HsepT (sentL T)); [by left|done].
    - apply (HsepT (sentR T)); [right; by left|done].
    - apply (Hsep a); [by do 2 right|done]. }
  assert (wf_shapes h3 B' slT srT) as HB3.
  { eapply wf_shapes_same; [exact HB'|]. intros a Ha. apply Hfr3.
    by apply HsepBT. }
  assert (wf_shapes h3 C slC srC) as HC3.
  { eapply wf_shapes_same; [exact HC2|]. intros a Ha. apply Hfr3.
    by apply HsepCT. }
  exists h3, B', slT, srT. split.
  { unfold bimap.copy_assign. rewrite decide_True by done.
    rewrite Hcopy. simpl. rewrite Hswap. simpl. by rewrite Hd. }
  split; [done|]. split; [done|]. split.
  { unfold footprint. rewrite SB1, SB2.
    intros a [->|[->|Ha]%elem_of_cons]%elem_of_cons.
    - apply (Hsep (sentL B)). by left.
    - apply (Hsep (sentR B)). right. by left.
    - apply (HsepT a). by do 2 right. }
  split; [done|]. split; [done|].
  split.
  { rewrite HnB, (wf_count _ _ _ _ HT), (wf_count _ _ _ _ HC).
    apply (wf_entries _ _ _ _ _ HT), Forall2_length in HeT.
    apply (wf_entries _ _ _ _ _ HC), Forall2_length in Hec.
    unfold addrs. rewrite !length_fmap. congruence. }
  split.
  { apply (wf_entries _ _ _ _ _ HB3).
    apply (wf_entries _ _ _ _ _ HT) in HeT.
    eapply entries_of_agree; [exact HeT|].
    intros a Ha. unfold pair_at. rewrite Hfr3.
    - fold (pair_at h2 a). fold (pair_at h1 a). apply Hpa.
    - apply HsepBT. by do 2 right. }
  split; [done|].
  intros a Ha. rewrite Hfr3 by by apply HsepCT.
  rewrite HfrC2 by done. apply Hfr1.
  eapply footprint_dom; [exact HC|done].
Qed.
End bimap_assignment.

(* ================================================================== *)
(** ** Moving a bimap                                                  *)
(* ================================================================== *)

Section bimap_moves.
Context {Left Right : Type}.
Local Abbreviation LT := (@details.left_tag Left Right).
Local Abbreviation RT := (@details.right_tag Left Right).
Implicit Types (h : gmap addr (details.obj Left Right)).
Implicit Types (B : bimap.bimap Left Right).
Implicit Types (sl : shape Left) (sr : shape Right).

Local Abbreviation sentL B := (intrusive.sentinel (bimap.left_tree B)).
Local Abbreviation sentR B := (intrusive.sentinel (bimap.right_tree B)).
Local Abbreviation compL B := (intrusive.comp (bimap.left_tree B)).
Local Abbreviation compR B := (intrusive.comp (bimap.right_tree B)).

(** The move constructor: the new object gets the nodes of [other]
    under two new sentinels, whose [right] links stay null. *)
Lemma move_ctor_spec h other sl sr :
  wf_shapes h other sl sr →
  ∃ h' B other',
    bimap.move_ctor h other = Some (h', B, other')
    ∧ tree_inv (A := LT) h' (bimap.left_tree B) None sl
    ∧ tree_inv (A := RT) h' (bimap.right_tree B) None sr
    ∧ sentL B ≠ sentR B
    ∧ h !! sentL B = None ∧ h !! sentR B = None
    ∧ bimap.n_node B = bimap.n_node other
    ∧ bimap.n_node other' = bimap.n_node other
    ∧ (∀ a, a ∈ addrs sl → pair_at h' a = pair_at h a).
Proof.
  intros Hwf.
  pose proof (wf_sentinels_fresh _ _ _ _ Hwf) as (F1 & F2 & F3 & F4).
  pose proof (wf_sentinels _ _ _ _ Hwf) as Hss.
  unfold bimap.move_ctor, bimap.new_tree, intrusive.get_compare.
  set (s1 := fresh (dom h)).
  set (h1 := <[s1 := details.sentinel_node intrusive.null_node]> h).
  set (s2 := fresh (dom h1)).
  set (h2 := <[s2 := details.sentinel_node intrusive.null_node]> h1).
  assert (h !! s1 = None) as H1 by apply not_elem_of_dom, is_fresh.
  assert (h1 !! s2 = None) as H2 by apply not_elem_of_dom, is_fresh.
  assert (s1 ≠ s2) as Hne.
  { intros E. rewrite <- E in H2. unfold h1 in H2.
    by rewrite lookup_insert_eq in H2. }
  assert (h !! s2 = None) as H2'.
  { unfold h1 in H2. by rewrite lookup_insert_ne in H2. }
  assert (∀ a, is_Some (h !! a) → a ≠ s1 ∧ a ≠ s2) as Hold.
  { intros a Ha. split; intros ->; rewrite ?H1, ?H2' in Ha; by destruct Ha. }
  assert (∀ a, is_Some (h !! a) → h2 !! a = h !! a) as Hsame.
  { intros a [??]%Hold. unfold h2, h1. by rewrite !lookup_insert_ne. }
  assert (∀ a, a ∈ sentL other :: sentR other :: addrs sl →
               a ≠ s1 ∧ a ≠ s2) as Hfp.
  { intros a Ha. apply Hold. by eapply wf_dom. }
  destruct (Hfp (sentL other)) as [N1 N2]; [by left|].
  destruct (Hfp (sentR other)) as [N3 N4]; [right; by left|].
  assert ((s1 ∉ addrs sl) ∧ (s2 ∉ addrs sl)) as [N5 N6].
  { split; intros Hc; destruct (Hfp _ ltac:(do 2 right; exact Hc)); done. }
  assert ((s1 ∉ addrs sr) ∧ (s2 ∉ addrs sr)) as [N7 N8].
  { rewrite <- (wf_same _ _ _ _ Hwf). done. }
  assert (wf_shapes h2 other sl sr) as Hwf2.
  { eapply wf_shapes_same; [done|]. intros a Ha. apply Hsame.
    by eapply wf_dom. }
  assert (tree_inv (A := LT) h2 (intrusive.Tree s1 (compL other) 0) None Nil)
    as Hn1.
  { split; [split; [|done]|by constructor|by constructor|
            exact (ti_order _ _ _ _ (wf_left _ _ _ _ Hwf))].
    unfold view. simpl. unfold h2, h1. rewrite lookup_insert_ne by done.
    by rewrite lookup_insert_eq. }
  destruct (swap_spec (A := LT) h2 _ _ _ _ _ _ Hn1 (wf_left _ _ _ _ Hwf2))
    as (h3 & -> & Hl3 & Hol3 & Hm3); simpl; try done.
  { apply not_elem_of_nil. }
  { by intros ? ?%elem_of_nil. }
  assert (tree_inv (A := RT) h3 (intrusive.Tree s2 (compR other) 0) None Nil)
    as Hn2.
  { split; [split; [|done]|by constructor|by constructor|
            exact (ti_order _ _ _ _ (wf_right _ _ _ _ Hwf))].
    unfold view. simpl. rewrite (modifies_outside _ _ _ _ Hm3).
    - unfold h2. by rewrite lookup_insert_eq.
    - simpl. rewrite !not_elem_of_cons. split; [done|]. split; [done|].
      intros Hc%elem_of_root. done. }
  assert (tree_inv (A := RT) h3 (bimap.right_tree other)
            (Some (sentL other)) sr) as Hr3.
  { eapply tree_inv_right_frame; [exact (wf_right _ _ _ _ Hwf2)|exact Hm3|].
    simpl. rewrite !not_elem_of_cons. split; [done|]. split; [done|].
    intros Hc%elem_of_root. done. }
  destruct (swap_spec (A := RT) h3 _ _ _ _ _ _ Hn2 Hr3)
    as (h4 & -> & Hr4 & Hor4 & Hm4); simpl; try done.
  { apply not_elem_of_nil. }
  { by intros ? ?%elem_of_nil. }
  eexists _, _, _. split; [done|]. simpl.
  split; [|split; [done|]].
  { eapply tree_inv_left_frame; [exact Hl3|exact Hm4|].
    simpl. rewrite !not_elem_of_cons. split; [done|]. split; [done|].
    intros Hc%elem_of_root. done. }
  split; [done|]. split; [done|]. split; [done|]. split; [done|].
  split; [done|]. intros a Ha.
  rewrite (modifies_right_pair_at _ _ _ _ Hm4).
  rewrite (modifies_left_pair_at _ _ _ _ Hm3).
  unfold pair_at. rewrite Hsame; [done|]. eapply wf_dom; [done|].
  by do 2 right.
Qed.

Lemma mapM_agree {X Y} (f g : X → option Y) (l : list X) :
  (∀ a, a ∈ l → f a = g a) → mapM f l = mapM g l.
Proof.
  induction l as [|a l IH]; intros Hfg; [done|].
  change (mapM f (a :: l)) with (y ← f a; k ← mapM f l; mret (y :: k)).
  change (mapM g (a :: l)) with (y ← g a; k ← mapM g l; mret (y :: k)).
  rewrite (Hfg a) by by left. rewrite IH; [done|].
  intros b Hb. apply Hfg. by right.
Qed.

(** C4.  A bimap that satisfies the invariant is moved from.  The move
    constructor returns, and the new bimap has the positions and the
    entries of the source; but its two end positions do not flip to
    each other.  The constructor swaps the two trees under two new
    sentinels and never calls [link_sentinel], which the other
    constructors and [swap] call, so [end_left().flip()] of the new
    bimap is not its [end_right()], and [end_right().flip()] is not
    its [end_left()]. *)
Theorem move_constructor_leaves_the_ends_unlinked h other :
  wf h other →
  ∃ h' B other',
    bimap.move_ctor h other = Some (h', B, other')
    ∧ bimap.left_positions h' B = bimap.left_positions h other
    ∧ bimap.entries h' B = bimap.entries h other
    ∧ bimap.flip_left h' (bimap.end_left B) ≠ Some (bimap.end_right B)
    ∧ bimap.flip_right h' (bimap.end_right B) ≠ Some (bimap.end_left B).
Proof.
  intros (sl & sr & Hwf).
  destruct (move_ctor_spec _ _ _ _ Hwf)
    as (h' & B & other' & Hm & HL & HR & Hne & _ & _ & _ & _ & Hp).
  exists h', B, other'. split; [done|].
  assert (bimap.left_positions h' B = Some (addrs sl)) as Hpos.
  { destruct HL. by eapply walk_all. }
  split; [by rewrite Hpos, (wf_left_positions _ _ _ _ Hwf)|].
  split.
  { unfold bimap.entries.
    rewrite Hpos, (wf_left_positions _ _ _ _ Hwf). simpl.
    apply mapM_agree. intros a Ha. rewrite !entry_pair_at. by apply Hp. }
  destruct HL as [[HtL _] _ _ _]. destruct HR as [[HtR _] _ _ _].
  apply view_sentinel_left in HtL. apply view_sentinel_right in HtR.
  unfold bimap.flip_left, bimap.flip_right, intrusive.is_end,
    bimap.end_left, bimap.end_right, intrusive.end_.
  rewrite HtL, HtR. simpl. done.
Qed.
End bimap_moves.

(* ================================================================== *)
(** ** More on the members of [intrusive_tree]                         *)
(* ================================================================== *)

Section index_removals.
Context {T K : Type} {A : intrusive.Access T K}.
Implicit Types (h : gmap addr T) (t : intrusive.intrusive_tree K).
Implicit Types (s : shape K).

Local Abbreviation one_less t :=
  (intrusive.Tree (intrusive.sentinel t) (intrusive.comp t)
     (intrusive.decrement (intrusive.n_node t))).

(** [remove(iterator)] on the shape. *)
Lemma remove_spec h t xr s w1 x k w2 :
  tree_inv h t xr s → inorder s = w1 ++ (x, k) :: w2 →
  ∃ h' s',
    intrusive.remove h t x
    = Some (first_or (intrusive.sentinel t) w2, h', one_less t)
    ∧ tree_inv h' (one_less t) xr s'
    ∧ inorder s' = w1 ++ w2
    ∧ modifies h h' (intrusive.sentinel t :: addrs s).
Proof.
  intros Hinv Hin.
  assert (x ∈ addrs s) as Hx.
  { unfold addrs. rewrite Hin, fmap_app, fmap_cons.
    apply elem_of_app. right. by left. }
  destruct (unlink_inv _ _ _ _ _ Hinv Hx)
    as (h' & s' & w1' & k' & w2' & Hun & Hinv' & E & E' & Hv & Hm).
  pose proof (ti_nodup _ _ _ _ Hinv) as Hnd.
  unfold addrs in Hnd. rewrite Hin in Hnd. rewrite Hin in E.
  destruct (split_unique _ _ _ _ _ _ _ Hnd E) as (<- & <- & <-).
  exists h', s'. unfold intrusive.remove.
  rewrite (next_spec _ _ _ _ _ _ _ _ (ti_rep _ _ _ _ Hinv)
             (ti_nodup _ _ _ _ Hinv) Hin). simpl.
  rewrite Hun. simpl. split; [done|].
  split; [by eapply tree_inv_counter|done].
Qed.

(** The counter after [n_node--]. *)
Lemma decrement_wraps n :
  intrusive.decrement n = if decide (n = 0) then 2 ^ 64 - 1 else pred n.
Proof.
  destruct n; [|reflexivity]. rewrite decide_True by done. reflexivity.
Qed.

(** The private [find] on a value that is not there, in a tree that
    is not empty: it stops at a node next to where the value would
    be. *)
Lemma find_priv_absent h t xr s v :
  tree_inv h t xr s → inorder s ≠ [] →
  (∀ a k, (a, k) ∈ inorder s → ¬ equiv_key (intrusive.comp t) k v) →
  ∃ w1 x k w2 res,
    intrusive.find_priv h t v = Some (x, res)
    ∧ res ≠ intrusive.THERE_IS
    ∧ inorder s = w1 ++ (x, k) :: w2
    ∧ (∀ a k', (a, k') ∈ w1 → intrusive.comp t k' v = true)
    ∧ (∀ a k', (a, k') ∈ w2 → intrusive.comp t v k' = true).
Proof.
  intros Hinv Hne Hno.
  destruct (find_priv_cases _ _ _ _ v Hinv) as (Hf & Hplug & Hb & Ha & Hc).
  destruct (descend (intrusive.comp t) v s Hole) as [c s0]. simpl in *.
  destruct s0 as [|l0 a0 k0 r0].
  2:{ exfalso. apply (Hno a0 k0); [|done]. rewrite <- Hplug, inorder_plug.
      simpl. rewrite !elem_of_app, elem_of_cons. tauto. }
  rewrite <- Hplug, inorder_plug in Hne |- *. simpl in *.
  destruct c as [|a k r c|l a k c]; simpl in *; [done|..].
  - exists (before c), a, k, (inorder r ++ after c), intrusive.ADD_LEFT.
    split; [done|]. split; [done|]. split; [done|]. split.
    + intros b k' Hin. apply Hb. by apply (list_elem_of_fmap_2 snd) in Hin.
    + intros b k' Hin. apply Ha. right.
      by apply (list_elem_of_fmap_2 snd) in Hin.
  - exists (before c ++ inorder l), a, k, (after c), intrusive.ADD_RIGHT.
    split; [done|]. split; [done|]. split; [by rewrite <- !app_assoc|].
    split.
    + intros b k' Hin. apply Hb. rewrite app_assoc, fmap_app.
      apply elem_of_app. left. by apply (list_elem_of_fmap_2 snd) in Hin.
    + intros b k' Hin. apply Ha. by apply (list_elem_of_fmap_2 snd) in Hin.
Qed.
End index_removals.

(* ================================================================== *)
(** ** Further properties of [intrusive_tree]                          *)
(* ================================================================== *)

Section further_index_properties.
Context {T K : Type} {A : intrusive.Access T K}.
Implicit Types (h : gmap addr T) (t : intrusive.intrusive_tree K).

Local Abbreviation one_less t :=
  (intrusive.Tree (intrusive.sentinel t) (intrusive.comp t)
     (intrusive.decrement (intrusive.n_node t))).
Local Abbreviation one_more t :=
  (intrusive.Tree (intrusive.sentinel t) (intrusive.comp t)
     (S (intrusive.n_node t))).

(** X1.  [find(x)] on an index whose traversal is [w]: the position
    of the entry whose key is equivalent to [x] when there is one, and
    there is at most one; the end position when there is none. *)
Theorem find_returns_the_equivalent_entry h t x w :
  tree_ok h t → intrusive.traversal h t = Some w →
  (∀ a k, (a, k) ∈ w → equiv_key (intrusive.comp t) k x →
     intrusive.find h t x = Some a)
  ∧ (Forall (λ p, ¬ equiv_key (intrusive.comp t) p.2 x) w →
     intrusive.find h t x = Some (intrusive.end_ t))
  ∧ (∀ a k, (a, k) ∈ w → a ≠ intrusive.end_ t)
  ∧ (∀ a1 k1 a2 k2, (a1, k1) ∈ w → (a2, k2) ∈ w →
       equiv_key (intrusive.comp t) k1 x →
       equiv_key (intrusive.comp t) k2 x → a1 = a2).
Proof.
  intros (xr & s & Hinv) Hw.
  rewrite (tree_ok_traversal _ _ _ _ Hinv) in Hw. injection Hw as <-.
  split; [|split; [|split]].
  - intros a k Hin He. by eapply find_present.
  - intros Hall. eapply find_absent; [done|].
    intros a k Hin. rewrite Forall_forall in Hall. apply (Hall (a, k) Hin).
  - intros a k Hin ->. apply (list_elem_of_fmap_2 fst) in Hin.
    by apply (tree_rep_sentinel_fresh _ _ _ _ (ti_rep _ _ _ _ Hinv)) in Hin.
  - intros a1 k1 a2 k2 H1 H2 E1 E2.
    pose proof (sorted_equiv_unique _ (ti_order _ _ _ _ Hinv) _ _ _ _ _ _
                  (ti_bst _ _ _ _ Hinv) H1 H2 E1 E2). congruence.
Qed.


(** X3.  [remove(it)] on an index whose traversal is [w1], the entry
    at [it], [w2], whatever its node counter is: the call returns the
    position after [it], which is the end position when [w2] is empty,
    and leaves the traversal [w1 ++ w2], the sentinel and the
    comparator.  The counter is decremented as a [size_t]: it is one
    less when it was not zero, and wraps around to [2^64 - 1] when it
    was zero. *)
Theorem remove_unlinks_and_returns_the_next h t w1 x k w2 :
  tree_ok h t → intrusive.traversal h t = Some (w1 ++ (x, k) :: w2) →
  ∃ h' t',
    intrusive.remove h t x = Some (first_or (intrusive.end_ t) w2, h', t')
    ∧ intrusive.end_ t' = intrusive.end_ t
    ∧ intrusive.get_compare t' = intrusive.get_compare t
    ∧ intrusive.size t'
      = (if decide (intrusive.size t = 0) then 2 ^ 64 - 1
         else pred (intrusive.size t))
    ∧ tree_ok h' t'
    ∧ intrusive.traversal h' t' = Some (w1 ++ w2).
Proof.
  intros (xr & s & Hinv) Hw.
  rewrite (tree_ok_traversal _ _ _ _ Hinv) in Hw. injection Hw as Hw.
  destruct (remove_spec _ _ _ _ _ _ _ _ Hinv Hw)
    as (h' & s' & Hrem & Hinv' & E & _).
  exists h', (one_less t). split; [done|]. split; [done|]. split; [done|].
  split; [apply decrement_wraps|]. split; [by exists xr, s'|].
  by rewrite (tree_ok_traversal _ _ _ _ Hinv'), E.
Qed.

(** X4.  [remove(data)] with a value [v] that no entry of the index is
    equivalent to, on an index that is not empty, whatever its node
    counter is: the call unlinks an entry all the same.  It is the
    entry at which the search for [v] stops, a neighbour of the place
    where [v] would be: the entries before it have keys less than [v],
    the entries after it have keys greater than [v].  The counter is
    decremented as a [size_t]: it is one less when it was not zero,
    and wraps around to [2^64 - 1] when it was zero. *)
Theorem remove_of_an_absent_value_unlinks_a_neighbour h t v w :
  tree_ok h t → intrusive.traversal h t = Some w → w ≠ [] →
  Forall (λ p, ¬ equiv_key (intrusive.comp t) p.2 v) w →
  ∃ w1 x k w2 h' t',
    w = w1 ++ (x, k) :: w2
    ∧ Forall (λ p, intrusive.comp t p.2 v = true) w1
    ∧ Forall (λ p, intrusive.comp t v p.2 = true) w2
    ∧ intrusive.remove_value h t v
      = Some (first_or (intrusive.end_ t) w2, h', t')
    ∧ intrusive.end_ t' = intrusive.end_ t
    ∧ intrusive.get_compare t' = intrusive.get_compare t
    ∧ intrusive.size t'
      = (if decide (intrusive.size t = 0) then 2 ^ 64 - 1
         else pred (intrusive.size t))
    ∧ tree_ok h' t'
    ∧ intrusive.traversal h' t' = Some (w1 ++ w2).
Proof.
  intros (xr & s & Hinv) Hw Hne Hall.
  rewrite (tree_ok_traversal _ _ _ _ Hinv) in Hw. injection Hw as <-.
  rewrite Forall_forall in Hall.
  destruct (find_priv_absent _ _ _ _ v Hinv Hne)
    as (w1 & x & k & w2 & res & Hf & Hres & E & H1 & H2).
  { intros a k Hin. apply (Hall (a, k) Hin). }
  destruct (remove_spec _ _ _ _ _ _ _ _ Hinv E)
    as (h' & s' & Hrem & Hinv' & E' & _).
  exists w1, x, k, w2, h', (one_less t). split; [done|].
  split; [apply Forall_forall; intros [a k'] Hin; by apply (H1 a)|].
  split; [apply Forall_forall; intros [a k'] Hin; by apply (H2 a)|].
  split; [|split; [done|split; [done|]]].
  - unfold intrusive.remove_value. rewrite Hf. simpl.
    by destruct res.
  - split; [apply decrement_wraps|]. split; [by exists xr, s'|].
    by rewrite (tree_ok_traversal _ _ _ _ Hinv'), E'.
Qed.

(** X5.  [empty()] on an index whose traversal is [w]: the call
    answers whether [w] is empty, and its assertion holds exactly when
    the node counter is zero for an empty [w] and not zero otherwise;
    so it holds whenever the counter is the length of [w]. *)
Theorem empty_tests_the_root h t w :
  tree_ok h t → intrusive.traversal h t = Some w →
  intrusive.empty h t = Some (bool_decide (w = []))
  ∧ intrusive.empty_assertion h t
    = Some (bool_decide (w = [] ↔ intrusive.n_node t = 0))
  ∧ (intrusive.n_node t = length w →
     intrusive.empty_assertion h t = Some true).
Proof.
  intros (xr & s & Hinv) Hw.
  rewrite (tree_ok_traversal _ _ _ _ Hinv) in Hw. injection Hw as <-.
  destruct (ti_rep _ _ _ _ Hinv) as [(o & Ho & Hb & _)%view_Some _].
  assert (intrusive.left (intrusive.base o) = None ↔ inorder s = []) as Hroot.
  { rewrite Hb. simpl. destruct s as [|l a k r]; simpl; [done|].
    split; [done|]. intros Hnil. by apply app_nil in Hnil as [_ ?]. }
  unfold intrusive.empty, intrusive.empty_assertion. rewrite Ho. simpl.
  split; [f_equal; by apply bool_decide_ext|].
  split; [f_equal; apply bool_decide_ext; by rewrite Hroot|].
  intros Hn. f_equal. apply bool_decide_eq_true. rewrite Hroot, Hn.
  split; [by intros ->|]. by intros ->%length_zero_iff_nil.
Qed.

(** X6.  [swap] on two indexes that share no node, with the
    traversals [w] and [w']: the call returns, and each index gets the
    traversal, the comparator and the node counter of the other, while
    it keeps its own sentinel, that is, its own end position. *)
Theorem swap_exchanges_the_trees h t t' w w' :
  tree_ok h t → tree_ok h t' →
  intrusive.traversal h t = Some w → intrusive.traversal h t' = Some w' →
  (∀ a, a ∈ intrusive.end_ t :: w.*1 → a ∉ intrusive.end_ t' :: w'.*1) →
  ∃ h',
    intrusive.swap h t t'
    = Some (h',
            intrusive.Tree (intrusive.sentinel t) (intrusive.comp t')
              (intrusive.n_node t'),
            intrusive.Tree (intrusive.sentinel t') (intrusive.comp t)
              (intrusive.n_node t))
    ∧ tree_ok h'
        (intrusive.Tree (intrusive.sentinel t) (intrusive.comp t')
           (intrusive.n_node t'))
    ∧ tree_ok h'
        (intrusive.Tree (intrusive.sentinel t') (intrusive.comp t)
           (intrusive.n_node t))
    ∧ intrusive.traversal h'
        (intrusive.Tree (intrusive.sentinel t) (intrusive.comp t')
           (intrusive.n_node t')) = Some w'
    ∧ intrusive.traversal h'
        (intrusive.Tree (intrusive.sentinel t') (intrusive.comp t)
           (intrusive.n_node t)) = Some w.
Proof.
  intros (xr & s & Hinv) (xr' & s' & Hinv') Hw Hw' Hsep.
  rewrite (tree_ok_traversal _ _ _ _ Hinv) in Hw. injection Hw as <-.
  rewrite (tree_ok_traversal _ _ _ _ Hinv') in Hw'. injection Hw' as <-.
  destruct (swap_spec h t xr s t' xr' s' Hinv Hinv')
    as (h' & Hsw & H1 & H2 & _).
  - intros E. apply (Hsep (intrusive.sentinel t)); [by left|].
    rewrite E. by left.
  - intros Hin. apply (Hsep (intrusive.sentinel t)); [by left|by right].
  - intros Hin. apply (Hsep (intrusive.sentinel t')); [by right|by left].
  - intros x Hx Hx'. apply (Hsep x); by right.
  - exists h'. split; [done|]. split; [by exists xr, s'|].
    split; [by exists xr', s|].
    by rewrite (tree_ok_traversal _ _ _ _ H1), (tree_ok_traversal _ _ _ _ H2).
Qed.
End further_index_properties.

(* ================================================================== *)
(** ** Further properties of [bimap]                                   *)
(* ================================================================== *)

Section further_bimap_properties.
Context {Left Right : Type}.
Implicit Types (h : gmap addr (details.obj Left Right)).
Implicit Types (B C : bimap.bimap Left Right).
Implicit Types (es : list (Left * Right)).

Local Abbreviation sentL B := (intrusive.sentinel (bimap.left_tree B)).
Local Abbreviation sentR B := (intrusive.sentinel (bimap.right_tree B)).
Local Abbreviation compL B := (intrusive.comp (bimap.left_tree B)).
Local Abbreviation compR B := (intrusive.comp (bimap.right_tree B)).

(** X7.  [erase_left(it)] at a position of the left traversal
    [p1 ++ it :: p2], on a bimap whose entries are [es]: the call
    returns the position after [it], which is [end_left()] when [p2]
    is empty, frees the record, and takes the entry at [it], the one
    with the index [length p1], out of [es]; the positions left keep
    their pairs, the size drops by one, and neither key of the entry
    is found any more. *)
Theorem erase_left_removes_the_entry h B p1 it p2 es :
  wf h B → bimap.left_positions h B = Some (p1 ++ it :: p2) →
  bimap.entries h B = Some es →
  ∃ h' B' e1 e e2,
    bimap.erase_left h B it
    = Some (default (bimap.end_left B) (head p2), h', B')
    ∧ es = e1 ++ e :: e2 ∧ length e1 = length p1
    ∧ bimap.entry h it = Some e
    ∧ wf h' B'
    ∧ bimap.left_positions h' B' = Some (p1 ++ p2)
    ∧ bimap.entries h' B' = Some (e1 ++ e2)
    ∧ bimap.size B' = pred (bimap.size B)
    ∧ h' !! it = None
    ∧ (∀ a, a ≠ it → bimap.entry h' a = bimap.entry h a)
    ∧ bimap.at_left h' B' e.1 = Some bimap.throws_out_of_range
    ∧ bimap.at_right h' B' e.2 = Some bimap.throws_out_of_range.
Proof.
  intros (sl & sr & Hwf) Hpos Hes.
  rewrite (wf_left_positions _ _ _ _ Hwf) in Hpos. injection Hpos as Hpos.
  apply fmap_app_inv in Hpos as (w1 & w' & -> & Hw' & Hin).
  symmetry in Hw'.
  apply fmap_cons_inv in Hw' as ([x kl] & w2 & Hx & -> & ->).
  simpl in Hx. subst it.
  destruct (erase_left_shapes _ _ _ _ _ _ _ _ Hwf Hin)
    as (h' & sl' & sr' & v1 & kr & v2 & Her & Hwf' & Hin' & Hjn & Hjn'
        & Hp & Hfree & Hpo & _).
  destruct (erased_entries _ _ _ _ _ _ _ _ _ _ _ _ _ _ _ _ Hwf Hwf'
              eq_refl eq_refl Hin Hin' Hjn Hjn' Hp Hpo Hes)
    as (e1 & e2 & -> & Hlen & Hes' & HaL & HaR).
  eexists h', _, e1, (kl, kr), e2.
  split; [by rewrite Her, first_or_head|]. split; [done|].
  split; [by rewrite length_fmap|]. split; [by rewrite entry_pair_at|].
  split; [by exists sl', sr'|]. split.
  { rewrite (wf_left_positions _ _ _ _ Hwf'). unfold addrs.
    by rewrite Hin', fmap_app. }
  repeat (split; [done|]). split; [|done].
  intros a Ha. rewrite !entry_pair_at. by apply Hpo.
Qed.

(** X8.  [erase_right(it)] at a position of the right traversal
    [q1 ++ it :: q2]: the call returns the position after [it] in the
    right order, which is [end_right()] when [q2] is empty, frees the
    record, and takes its entry out of the entries; the positions left
    keep their pairs, the size drops by one, and neither key of the
    entry is found any more. *)
Theorem erase_right_removes_the_entry h B q1 it q2 es :
  wf h B → bimap.right_positions h B = Some (q1 ++ it :: q2) →
  bimap.entries h B = Some es →
  ∃ h' B' e1 e e2,
    bimap.erase_right h B it
    = Some (default (bimap.end_right B) (head q2), h', B')
    ∧ es = e1 ++ e :: e2
    ∧ bimap.entry h it = Some e
    ∧ wf h' B'
    ∧ bimap.right_positions h' B' = Some (q1 ++ q2)
    ∧ bimap.entries h' B' = Some (e1 ++ e2)
    ∧ bimap.size B' = pred (bimap.size B)
    ∧ h' !! it = None
    ∧ (∀ a, a ≠ it → bimap.entry h' a = bimap.entry h a)
    ∧ bimap.at_left h' B' e.1 = Some bimap.throws_out_of_range
    ∧ bimap.at_right h' B' e.2 = Some bimap.throws_out_of_range.
Proof.
  intros (sl & sr & Hwf) Hpos Hes.
  rewrite (wf_right_positions _ _ _ _ Hwf) in Hpos. injection Hpos as Hpos.
  apply fmap_app_inv in Hpos as (v1 & v' & -> & Hv' & Hjn).
  symmetry in Hv'.
  apply fmap_cons_inv in Hv' as ([x kr] & v2 & Hx & -> & ->).
  simpl in Hx. subst it.
  destruct (erase_right_shapes _ _ _ _ _ _ _ _ Hwf Hjn)
    as (h' & sl' & sr' & w1 & kl & w2 & Her & Hwf' & Hjn' & Hin & Hin'
        & Hp & Hfree & Hpo & _).
  destruct (erased_entries _ _ _ _ _ _ _ _ _ _ _ _ _ _ _ _ Hwf Hwf'
              eq_refl eq_refl Hin Hin' Hjn Hjn' Hp Hpo Hes)
    as (e1 & e2 & -> & Hlen & Hes' & HaL & HaR).
  eexists h', _, e1, (kl, kr), e2.
  split; [by rewrite Her, first_or_head|]. split; [done|].
  split; [by rewrite entry_pair_at|].
  split; [by exists sl', sr'|]. split.
  { rewrite (wf_right_positions _ _ _ _ Hwf'). unfold addrs.
    by rewrite Hjn', fmap_app. }
  repeat (split; [done|]). split; [|done].
  intros a Ha. rewrite !entry_pair_at. by apply Hpo.
Qed.

(** X9.  [erase_left(key)] on a bimap whose entries are [es]: the
    call answers whether an entry has a left key equivalent to [key];
    it leaves the entries that have none, which are all entries but
    one when the answer is yes, and everything as it was when the
    answer is no; afterwards the key is not found. *)
Theorem erase_left_by_key_erases_the_match h B l es :
  wf h B → bimap.entries h B = Some es →
  ∃ b h' B',
    bimap.erase_left_key h B l = Some (b, h', B')
    ∧ (b = true ↔ Exists (λ e, equiv_key (compL B) e.1 l) es)
    ∧ (b = false → h' = h ∧ B' = B)
    ∧ wf h' B'
    ∧ bimap.entries h' B'
      = Some (filter (λ e, ¬ equiv_key (compL B) e.1 l) es)
    ∧ bimap.size B' = (if b then pred (bimap.size B) else bimap.size B)
    ∧ bimap.find_left h' B' l = Some (bimap.end_left B')
    ∧ bimap.at_left h' B' l = Some bimap.throws_out_of_range.
Proof.
  intros (sl & sr & Hwf) Hes.
  destruct (erase_left_key_full _ _ _ _ _ l Hwf Hes)
    as (b & h' & B' & sl' & sr' & Her & Hwf' & HlT & HrT & Hb & Hn & Hsame
        & _ & _ & Hno & Hes' & _).
  exists b, h', B'. repeat (split; [done|]).
  split; [by exists sl', sr'|]. split; [done|]. split; [done|].
  rewrite <- HlT in Hno. split.
  - unfold bimap.find_left. eapply find_absent; [|exact Hno].
    exact (wf_left _ _ _ _ Hwf').
  - by eapply at_left_absent.
Qed.

(** X10.  [erase_right(key)] on a bimap whose entries are [es]: the
    call answers whether an entry has a right key equivalent to
    [key]; it leaves the entries that have none, which are all entries
    but one when the answer is yes, and everything as it was when the
    answer is no; afterwards the key is not found. *)
Theorem erase_right_by_key_erases_the_match h B r es :
  wf h B → bimap.entries h B = Some es →
  ∃ b h' B',
    bimap.erase_right_key h B r = Some (b, h', B')
    ∧ (b = true ↔ Exists (λ e, equiv_key (compR B) e.2 r) es)
    ∧ (b = false → h' = h ∧ B' = B)
    ∧ wf h' B'
    ∧ bimap.entries h' B'
      = Some (filter (λ e, ¬ equiv_key (compR B) e.2 r) es)
    ∧ bimap.size B' = (if b then pred (bimap.size B) else bimap.size B)
    ∧ bimap.find_right h' B' r = Some (bimap.end_right B')
    ∧ bimap.at_right h' B' r = Some bimap.throws_out_of_range.
Proof.
  intros (sl & sr & Hwf) Hes.
  destruct (erase_right_key_full _ _ _ _ _ r Hwf Hes)
    as (b & h' & B' & sl' & sr' & Her & Hwf' & HlT & HrT & Hb & Hn & Hsame
        & _ & _ & Hno & Hes' & _).
  exists b, h', B'. repeat (split; [done|]).
  split; [by exists sl', sr'|]. split; [done|]. split; [done|].
  rewrite <- HrT in Hno. split.
  - unfold bimap.find_right. eapply find_absent; [|exact Hno].
    exact (wf_right _ _ _ _ Hwf').
  - by eapply at_right_absent.
Qed.

(** X11.  [erase_left(first, last)] on the part [p2] of the left
    traversal [p1 ++ p2 ++ p3], with [first] the first position of
    [p2 ++ p3] and [last] the first position of [p3], each
    [end_left()] when there is none: the call returns [last], frees
    the records of [p2] and no other, and takes their entries, the
    ones with the indexes from [length p1] on, out of the entries; the
    right traversal loses the same records.  On an empty range,
    [first = last], nothing changes. *)
Theorem erase_left_range_removes_the_range h B p1 p2 p3 rw es :
  wf h B → bimap.left_positions h B = Some (p1 ++ p2 ++ p3) →
  bimap.right_positions h B = Some rw →
  bimap.entries h B = Some es →
  ∃ h' B' e1 e2 e3,
    bimap.erase_left_range h B
      (default (bimap.end_left B) (head (p2 ++ p3)))
      (default (bimap.end_left B) (head p3))
    = Some (default (bimap.end_left B) (head p3), h', B')
    ∧ es = e1 ++ e2 ++ e3 ∧ length e1 = length p1 ∧ length e2 = length p2
    ∧ wf h' B'
    ∧ bimap.left_positions h' B' = Some (p1 ++ p3)
    ∧ bimap.right_positions h' B' = Some (filter (λ a, a ∉ p2) rw)
    ∧ bimap.entries h' B' = Some (e1 ++ e3)
    ∧ bimap.size B' = bimap.size B - length p2
    ∧ (p2 = [] → h' = h ∧ B' = B)
    ∧ (∀ a, a ∈ p2 → h' !! a = None)
    ∧ (∀ a, a ∉ p2 → bimap.entry h' a = bimap.entry h a).
Proof.
  intros (sl & sr & Hwf) Hpos Hrw Hes.
  rewrite (wf_left_positions _ _ _ _ Hwf) in Hpos. injection Hpos as Hpos.
  rewrite (wf_right_positions _ _ _ _ Hwf) in Hrw. injection Hrw as <-.
  apply fmap_app_inv in Hpos as (w1 & w' & -> & Hw' & Hin).
  symmetry in Hw'. apply fmap_app_inv in Hw' as (w2 & w3 & -> & -> & ->).
  pose proof (tree_rep_fuel _ _ _ _ (ti_rep _ _ _ _ (wf_left _ _ _ _ Hwf))
                (ti_nodup _ _ _ _ (wf_left _ _ _ _ Hwf))) as Hfuel.
  unfold addrs in Hfuel. rewrite Hin, length_fmap, !length_app in Hfuel.
  destruct (erase_left_loop_spec w2 (heap_fuel h) h B sl sr w1 w3 Hwf Hin)
    as (h' & B' & sl' & sr' & Hloop & Hwf' & Hin' & HlT & HrT & Hn & Hnil
        & Hsr' & Hfree & Hpo & _); [lia|].
  pose proof (ti_nodup _ _ _ _ (wf_left _ _ _ _ Hwf)) as Hnd.
  unfold addrs in Hnd. rewrite Hin, !fmap_app in Hnd.
  apply NoDup_app in Hnd as (_ & Hnd12 & Hnd).
  apply NoDup_app in Hnd as (_ & Hnd23 & _).
  pose proof Hes as Hes0. apply (wf_entries _ _ _ _ _ Hwf) in Hes0.
  rewrite Hin in Hes0.
  apply Forall2_app_inv_l in Hes0 as (e1 & e' & H1 & H' & ->).
  apply Forall2_app_inv_l in H' as (e2 & e3 & H2 & H3 & ->).
  exists h', B', e1, e2, e3.
  split; [by rewrite <- fmap_app, <- !first_or_head|].
  split; [done|].
  split; [apply Forall2_length in H1; by rewrite length_fmap|].
  split; [apply Forall2_length in H2; by rewrite length_fmap|].
  split; [by exists sl', sr'|]. split.
  { rewrite (wf_left_positions _ _ _ _ Hwf'). unfold addrs.
    by rewrite Hin', fmap_app. }
  split.
  { rewrite (wf_right_positions _ _ _ _ Hwf'). unfold addrs.
    rewrite Hsr'. f_equal. clear.
    induction (inorder sr) as [|[a k] v IH]; [done|]. rewrite fmap_cons.
    destruct (decide (a ∈ w2.*1)).
    - rewrite !filter_cons_False by (simpl; auto). done.
    - rewrite !filter_cons_True by done. by rewrite fmap_cons, IH. }
  split.
  { apply (wf_entries _ _ _ _ _ Hwf'). rewrite Hin'.
    apply Forall2_app; (eapply entries_of_agree; [done|]);
      intros a Ha; apply Hpo; intros Ha2.
    - apply (Hnd12 a Ha). apply elem_of_app. by left.
    - by apply (Hnd23 a Ha2). }
  split; [unfold bimap.size; by rewrite Hn, length_fmap|].
  split; [by intros ->%fmap_nil_inv; apply Hnil|].
  split; [done|].
  intros a Ha. rewrite !entry_pair_at. by apply Hpo.
Qed.

(** X12.  [erase_right(first, last)] on the part [q2] of the right
    traversal [q1 ++ q2 ++ q3], with [first] the first position of
    [q2 ++ q3] and [last] the first position of [q3], each
    [end_right()] when there is none: the call returns [last], frees
    the records of [q2] and no other, and both traversals lose these
    records; the positions left keep their pairs.  On an empty range
    nothing changes. *)
Theorem erase_right_range_removes_the_range h B q1 q2 q3 lw :
  wf h B → bimap.right_positions h B = Some (q1 ++ q2 ++ q3) →
  bimap.left_positions h B = Some lw →
  ∃ h' B',
    bimap.erase_right_range h B
      (default (bimap.end_right B) (head (q2 ++ q3)))
      (default (bimap.end_right B) (head q3))
    = Some (default (bimap.end_right B) (head q3), h', B')
    ∧ wf h' B'
    ∧ bimap.right_positions h' B' = Some (q1 ++ q3)
    ∧ bimap.left_positions h' B' = Some (filter (λ a, a ∉ q2) lw)
    ∧ bimap.size B' = bimap.size B - length q2
    ∧ (q2 = [] → h' = h ∧ B' = B)
    ∧ (∀ a, a ∈ q2 → h' !! a = None)
    ∧ (∀ a, a ∉ q2 → bimap.entry h' a = bimap.entry h a).
Proof.
  intros (sl & sr & Hwf) Hpos Hlw.
  rewrite (wf_right_positions _ _ _ _ Hwf) in Hpos. injection Hpos as Hpos.
  rewrite (wf_left_positions _ _ _ _ Hwf) in Hlw. injection Hlw as <-.
  apply fmap_app_inv in Hpos as (v1 & v' & -> & Hv' & Hin).
  symmetry in Hv'. apply fmap_app_inv in Hv' as (v2 & v3 & -> & -> & ->).
  pose proof (tree_rep_fuel _ _ _ _ (ti_rep _ _ _ _ (wf_right _ _ _ _ Hwf))
                (ti_nodup _ _ _ _ (wf_right _ _ _ _ Hwf))) as Hfuel.
  unfold addrs in Hfuel. rewrite Hin, length_fmap, !length_app in Hfuel.
  destruct (erase_right_loop_spec v2 (heap_fuel h) h B sl sr v1 v3 Hwf Hin)
    as (h' & B' & sl' & sr' & Hloop & Hwf' & Hin' & HlT & HrT & Hn & Hnil
        & Hsl' & Hfree & Hpo & _); [lia|].
  exists h', B'.
  split; [by rewrite <- fmap_app, <- !first_or_head|].
  split; [by exists sl', sr'|]. split.
  { rewrite (wf_right_positions _ _ _ _ Hwf'). unfold addrs.
    by rewrite Hin', fmap_app. }
  split.
  { rewrite (wf_left_positions _ _ _ _ Hwf'). unfold addrs.
    rewrite Hsl'. f_equal. clear.
    induction (inorder sl) as [|[a k] v IH]; [done|]. rewrite fmap_cons.
    destruct (decide (a ∈ v2.*1)).
    - rewrite !filter_cons_False by (simpl; auto). done.
    - rewrite !filter_cons_True by done. by rewrite fmap_cons, IH. }
  split; [unfold bimap.size; by rewrite Hn, length_fmap|].
  split; [by intros ->%fmap_nil_inv; apply Hnil|].
  split; [done|].
  intros a Ha. rewrite !entry_pair_at. by apply Hpo.
Qed.

(** X13.  The destructor of a bimap whose left traversal is [lw]: its
    loop ends, frees every record of the bimap, and touches no object
    but these records and the two sentinels, which it leaves as the
    sentinels of an empty bimap. *)
Theorem destructor_frees_every_record h B lw :
  wf h B → bimap.left_positions h B = Some lw →
  ∃ h' B',
    bimap.dtor h B = Some (h', B')
    ∧ (∀ a, a ∈ lw → h' !! a = None)
    ∧ (∀ a, a ∉ bimap.end_left B :: bimap.end_right B :: lw →
         h' !! a = h !! a)
    ∧ bimap.end_left B' = bimap.end_left B
    ∧ bimap.end_right B' = bimap.end_right B
    ∧ wf h' B'
    ∧ bimap.entries h' B' = Some []
    ∧ bimap.size B' = 0.
Proof.
  intros (sl & sr & Hwf) Hpos.
  rewrite (wf_left_positions _ _ _ _ Hwf) in Hpos. injection Hpos as <-.
  pose proof (tree_rep_fuel _ _ _ _ (ti_rep _ _ _ _ (wf_left _ _ _ _ Hwf))
                (ti_nodup _ _ _ _ (wf_left _ _ _ _ Hwf))) as Hfuel.
  unfold addrs in Hfuel. rewrite length_fmap in Hfuel.
  destruct (erase_left_loop_spec (inorder sl) (heap_fuel h) h B sl sr [] []
              Hwf)
    as (h' & B' & sl' & sr' & Hloop & Hwf' & Hin' & HlT & HrT & Hn & _
        & _ & Hfree & _ & Hfr); [by rewrite app_nil_r|lia|].
  rewrite app_nil_r in Hloop. simpl in *.
  exists h', B'. split.
  { unfold bimap.dtor, bimap.begin_left.
    rewrite (begin_spec _ _ _ _ (ti_rep _ _ _ _ (wf_left _ _ _ _ Hwf))
               (ti_nodup _ _ _ _ (wf_left _ _ _ _ Hwf))). simpl.
    rewrite dtor_loop_erase. unfold bimap.end_left, intrusive.end_.
    by rewrite Hloop. }
  split; [done|]. split; [done|].
  split; [unfold bimap.end_left; by rewrite HlT|].
  split; [unfold bimap.end_right; by rewrite HrT|].
  split; [by exists sl', sr'|]. split.
  - apply (wf_entries _ _ _ _ _ Hwf'). rewrite Hin'. constructor.
  - unfold bimap.size. rewrite Hn, (wf_count _ _ _ _ Hwf).
    unfold addrs. rewrite length_fmap. lia.
Qed.

(** X14.  The constructor from two comparators that are strict weak
    orders: it allocates two sentinels at free addresses, changes no
    object that was there, and builds an empty bimap: no entries,
    size zero, [empty()] true with its assertions holding, [begin]
    equal to [end] on both sides, and every lookup failing. *)
Theorem new_bimap_is_empty h cl cr :
  strict_weak_order cl → strict_weak_order cr →
  ∃ h' B,
    bimap.ctor h cl cr = Some (h', B)
    ∧ wf h' B
    ∧ h !! bimap.end_left B = None ∧ h !! bimap.end_right B = None
    ∧ (∀ a, is_Some (h !! a) → h' !! a = h !! a)
    ∧ bimap.entries h' B = Some []
    ∧ bimap.size B = 0 ∧ bimap.empty B = true
    ∧ bimap.empty_assertions h' B = Some true
    ∧ bimap.begin_left h' B = Some (bimap.end_left B)
    ∧ bimap.begin_right h' B = Some (bimap.end_right B)
    ∧ (∀ l, bimap.find_left h' B l = Some (bimap.end_left B))
    ∧ (∀ r, bimap.find_right h' B r = Some (bimap.end_right B))
    ∧ (∀ l, bimap.at_left h' B l = Some bimap.throws_out_of_range)
    ∧ (∀ r, bimap.at_right h' B r = Some bimap.throws_out_of_range).
Proof.
  intros Hcl Hcr.
  destruct (ctor_spec h cl cr Hcl Hcr)
    as (h' & B & Hctor & Hwf & HcL & HcR & HfL & HfR & Hfr).
  assert (intrusive.n_node (bimap.left_tree B) = 0
          ∧ intrusive.n_node (bimap.right_tree B) = 0
          ∧ bimap.n_node B = 0) as (HnL & HnR & Hn).
  { clear -Hctor. unfold bimap.ctor, bimap.new_tree in Hctor.
    destruct (bimap.link_sentinel _ _); by simplify_eq/=. }
  pose proof (wf_sentinel_left _ _ _ _ Hwf) as HsL.
  pose proof (wf_sentinel_right _ _ _ _ Hwf) as HsR.
  exists h', B. split; [done|]. split; [by exists Nil, Nil|].
  split; [done|]. split; [done|]. split; [done|].
  split; [apply (wf_entries _ _ _ _ _ Hwf); constructor|].
  split; [done|]. split; [unfold bimap.empty; by rewrite Hn|].
  split.
  { unfold bimap.empty_assertions, intrusive.empty_assertion, intrusive.empty.
    rewrite HsL, HsR. simpl. rewrite HnL, HnR, Hn. done. }
  split.
  { unfold bimap.begin_left.
    by rewrite (begin_spec _ _ _ _ (ti_rep _ _ _ _ (wf_left _ _ _ _ Hwf))
                  (ti_nodup _ _ _ _ (wf_left _ _ _ _ Hwf))). }
  split.
  { unfold bimap.begin_right.
    by rewrite (begin_spec _ _ _ _ (ti_rep _ _ _ _ (wf_right _ _ _ _ Hwf))
                  (ti_nodup _ _ _ _ (wf_right _ _ _ _ Hwf))). }
  split.
  { intros l. unfold bimap.find_left.
    eapply find_absent; [exact (wf_left _ _ _ _ Hwf)|].
    intros a k Hin. by apply elem_of_nil in Hin. }
  split.
  { intros r. unfold bimap.find_right.
    eapply find_absent; [exact (wf_right _ _ _ _ Hwf)|].
    intros a k Hin. by apply elem_of_nil in Hin. }
  split.
  - intros l. eapply at_left_absent; [done|].
    intros a k Hin. by apply elem_of_nil in Hin.
  - intros r. eapply at_right_absent; [done|].
    intros a k Hin. by apply elem_of_nil in Hin.
Qed.

(** X15.  After [insert(l, r)] with keys that no entry is equivalent
    to, the pair is found from either side: [find_left(l)] and
    [find_right(r)] return the new record, [at_left(l)] returns [r]
    and [at_right(r)] returns [l]; and every pair that was there
    before is still found from either side. *)
Theorem inserted_pair_is_found h B l r es :
  wf h B → bimap.entries h B = Some es →
  Forall (λ e, ¬ equiv_key (compL B) e.1 l
               ∧ ¬ equiv_key (compR B) e.2 r) es →
  ∃ d h' B',
    bimap.insert h B l r = Some (d, h', B')
    ∧ bimap.find_left h' B' l = Some d
    ∧ bimap.find_right h' B' r = Some d
    ∧ bimap.at_left h' B' l = Some (bimap.returns r)
    ∧ bimap.at_right h' B' r = Some (bimap.returns l)
    ∧ (∀ l0 r0, (l0, r0) ∈ es →
         bimap.at_left h' B' l0 = Some (bimap.returns r0)
         ∧ bimap.at_right h' B' r0 = Some (bimap.returns l0)).
Proof.
  intros (sl & sr & Hwf) Hes Hall. rewrite Forall_forall in Hall.
  destruct (add_fresh h B sl sr l r Hwf)
    as (d & h' & B' & sl' & sr' & w1 & w2 & v1 & v2 & Hadd & Hd & Hwf'
        & _ & _ & HcL & HcR & _ & E1 & E1' & E2 & E2' & _).
  { intros a k Hin.
    destruct (wf_pair_left _ _ _ _ _ _ Hwf Hin) as (kr & _ & Hin').
    apply (Hall (k, kr)), (entries_elem _ _ _ _ _ _ _ Hwf Hes). eauto. }
  { intros a k Hin.
    destruct (wf_pair_right _ _ _ _ _ _ Hwf Hin) as (kl & _ & Hin').
    apply (Hall (kl, k)), (entries_elem _ _ _ _ _ _ _ Hwf Hes). eauto. }
  pose proof (ti_order _ _ _ _ (wf_left _ _ _ _ Hwf')) as HswoL.
  pose proof (ti_order _ _ _ _ (wf_right _ _ _ _ Hwf')) as HswoR.
  assert ((d, l) ∈ inorder sl') as HdL.
  { rewrite E1'. apply elem_of_app. right. by left. }
  assert ((d, r) ∈ inorder sr') as HdR.
  { rewrite E2'. apply elem_of_app. right. by left. }
  assert (equiv_key (compL B') l l) as HeL by (split; apply (swo_irrefl _ HswoL)).
  assert (equiv_key (compR B') r r) as HeR by (split; apply (swo_irrefl _ HswoR)).
  exists d, h', B'. split; [done|].
  split; [by eapply find_present; [exact (wf_left _ _ _ _ Hwf')|..]|].
  split; [by eapply find_present; [exact (wf_right _ _ _ _ Hwf')|..]|].
  split; [by eapply at_left_present|].
  split; [by eapply at_right_present|].
  intros l0 r0 (a & HaL & HaR)%(entries_elem _ _ _ _ _ _ _ Hwf Hes).
  assert ((a, l0) ∈ inorder sl') as HaL'.
  { rewrite E1'. rewrite E1 in HaL. revert HaL.
    rewrite !elem_of_app, elem_of_cons. tauto. }
  assert ((a, r0) ∈ inorder sr') as HaR'.
  { rewrite E2'. rewrite E2 in HaR. revert HaR.
    rewrite !elem_of_app, elem_of_cons. tauto. }
  split.
  - eapply at_left_present; [done..|]. split; apply (swo_irrefl _ HswoL).
  - eapply at_right_present; [done..|]. split; apply (swo_irrefl _ HswoR).
Qed.

(** X16.  [at_right_or_default(k)] on a bimap whose entries are [es],
    with [dflt] for [Left()].  If an entry has a right key equivalent
    to [k], its left key is returned and heap and bimap stay as they
    were.  If no entry has one, the call does what [erase_left(dflt)]
    followed by [insert(dflt, k)] does: the entry whose left key is
    equivalent to [dflt] goes, if there is one, then the pair
    [(dflt, k)] is inserted as a new record, and the left key of that
    record, which is [dflt], is returned. *)
Theorem at_right_or_default_displaces (dflt : Left) h B k es :
  wf h B → bimap.entries h B = Some es →
  (∀ l r, (l, r) ∈ es → equiv_key (compR B) r k →
     bimap.at_right_or_default dflt h B k = Some (l, h, B))
  ∧ (Forall (λ e, ¬ equiv_key (compR B) e.2 k) es →
     ∃ b h1 B1 d h' B' es',
       bimap.erase_left_key h B dflt = Some (b, h1, B1)
       ∧ bimap.entries h1 B1
         = Some (filter (λ e, ¬ equiv_key (compL B) e.1 dflt) es)
       ∧ bimap.insert h1 B1 dflt k = Some (d, h', B')
       ∧ bimap.at_right_or_default dflt h B k = Some (dflt, h', B')
       ∧ h1 !! d = None ∧ bimap.entry h' d = Some (dflt, k)
       ∧ wf h' B'
       ∧ bimap.entries h' B' = Some es'
       ∧ es' ≡ₚ (dflt, k)
                :: filter (λ e, ¬ equiv_key (compL B) e.1 dflt) es).
Proof.
  intros (sl & sr & Hwf) Hes. split.
  - intros l r (a & HinL & HinR)%(entries_elem _ _ _ _ _ _ _ Hwf Hes) He.
    pose proof (wf_sentinels_fresh _ _ _ _ Hwf) as (_ & HsRl & _).
    assert (a ∈ addrs sl) as Ha by by apply (list_elem_of_fmap_2 fst) in HinL.
    destruct (wf_pair_left _ _ _ _ _ _ Hwf HinL) as (kr' & Hp & _).
    apply deref_pair in Hp as [Hd _].
    unfold bimap.at_right_or_default, bimap.find_right.
    rewrite (find_present _ _ _ _ _ _ _ (wf_right _ _ _ _ Hwf) HinR He). simpl.
    rewrite decide_False by (unfold bimap.end_right, intrusive.end_; by intros ->).
    rewrite (flip_right_node _ _ _ _ _ Hwf Ha). simpl. by rewrite Hd.
  - intros Hall. rewrite Forall_forall in Hall.
    assert (∀ a kr, (a, kr) ∈ inorder sr → ¬ equiv_key (compR B) kr k) as HnoR.
    { intros a kr Hin.
      destruct (wf_pair_right _ _ _ _ _ _ Hwf Hin) as (kl & _ & Hin').
      apply (Hall (kl, kr)), (entries_elem _ _ _ _ _ _ _ Hwf Hes). eauto. }
    destruct (erase_left_key_full _ _ _ _ _ dflt Hwf Hes)
      as (b & h1 & B1 & sl1 & sr1 & Her & Hwf1 & HlT & HrT & _ & _ & _ & _
          & HsubR & HnoL1 & Hes1 & _).
    assert (∀ a kr, (a, kr) ∈ inorder sr1 → ¬ equiv_key (compR B1) kr k)
      as HnoR1 by (rewrite HrT; eauto).
    rewrite <- HlT in HnoL1.
    destruct (add_fresh _ _ _ _ _ _ Hwf1 HnoL1 HnoR1)
      as (d & h2 & B2 & sl2 & sr2 & w1 & w2 & v1 & v2 & Hadd & Hd & Hwf2
          & _ & _ & _ & _ & _ & Hin & Hin' & _ & _ & Hpd & Hpa & _).
    assert (d ∉ (w1 ++ w2).*1) as Hdfresh.
    { rewrite <- Hin. intros Hd'.
      destruct (wf_dom _ _ _ _ d Hwf1) as [? E]; [by do 2 right|].
      by rewrite E in Hd. }
    pose proof Hes1 as Hes1'. apply (wf_entries _ _ _ _ _ Hwf1) in Hes1'.
    rewrite Hin in Hes1'.
    destruct (entries_of_insert _ h2 _ _ d dflt k _ Hes1' Hpd Hpa Hdfresh)
      as (e1 & e2 & Hsplit & Hes2).
    rewrite <- Hin' in Hes2. apply (wf_entries _ _ _ _ _ Hwf2) in Hes2.
    exists b, h1, B1, d, h2, B2, (e1 ++ (dflt, k) :: e2).
    split; [done|]. split; [done|]. split; [done|].
    split; [|split; [done|split; [by rewrite entry_pair_at|]]].
    + unfold bimap.at_right_or_default, bimap.find_right.
      rewrite (find_absent _ _ _ _ _ (wf_right _ _ _ _ Hwf) HnoR). simpl.
      rewrite decide_True by done.
      pose proof (erase_left_key_inline h B dflt) as Hinl.
      rewrite Her in Hinl. simpl in Hinl.
      destruct (bimap.find_left h B dflt) as [it|]; simpl in Hinl; [|done].
      simpl. rewrite Hinl.
      simpl. unfold bimap.insert. rewrite Hadd. simpl.
      by rewrite (proj1 (deref_pair _ _ _ _ Hpd)).
    + split; [by exists sl2, sr2|]. split; [done|].
      by rewrite <- Permutation_middle, Hsplit.
Qed.

(** X17.  [a == b] for two bimaps in one heap with the entries [ea]
    and [eb]: the answer is there, and it is yes exactly when the two
    lists have the same length and, position by position, left keys
    and right keys that are equivalent under the comparators of [a];
    [a != b] is the opposite answer, and [a == a] holds. *)
Theorem equality_compares_entries_pairwise h B C ea eb :
  wf h B → wf h C →
  bimap.entries h B = Some ea → bimap.entries h C = Some eb →
  bimap.equal h B C
  = Some (bool_decide
            (Forall2 (λ x y, equiv_key (compL B) x.1 y.1
                             ∧ equiv_key (compR B) x.2 y.2) ea eb))
  ∧ bimap.not_equal h B C
    = Some (negb (bool_decide
                    (Forall2 (λ x y, equiv_key (compL B) x.1 y.1
                                     ∧ equiv_key (compR B) x.2 y.2) ea eb)))
  ∧ (length ea ≠ length eb → bimap.equal h B C = Some false)
  ∧ bimap.equal h B B = Some true.
Proof.
  intros (slB & srB & HB) (slC & srC & HC) HeB HeC.
  pose proof (equal_decides _ _ _ _ _ _ _ _ _ HB HC HeB HeC) as Heq.
  split; [done|]. split; [unfold bimap.not_equal; by rewrite Heq|].
  split.
  - intros Hne. rewrite Heq. f_equal. apply bool_decide_eq_false.
    by intros H%Forall2_length.
  - rewrite (equal_decides _ _ _ _ _ _ _ _ _ HB HB HeB HeB). f_equal.
    apply bool_decide_eq_true. apply Forall_Forall2_diag, Forall_forall.
    intros [l r] _. simpl.
    pose proof (ti_order _ _ _ _ (wf_left _ _ _ _ HB)) as HswoL.
    pose proof (ti_order _ _ _ _ (wf_right _ _ _ _ HB)) as HswoR.
    repeat split; first [apply (swo_irrefl _ HswoL)|apply (swo_irrefl _ HswoR)].
Qed.

(** X18.  In every state that a program reaches with the constructor,
    [insert] and [erase] by key: walking the left side gives the
    entries in strictly increasing order of their left keys, walking
    the right side gives the same entries in strictly increasing order
    of their right keys, [size()] is their number, and no two of them
    have equivalent left keys or equivalent right keys. *)
Theorem reachable_bimap_is_ordered_on_both_sides h B :
  reachable h B →
  ∃ es rw es_r,
    bimap.entries h B = Some es
    ∧ bimap.right_positions h B = Some rw
    ∧ mapM (bimap.entry h) rw = Some es_r
    ∧ es_r ≡ₚ es
    ∧ StronglySorted (λ x y, compL B x.1 y.1 = true) es
    ∧ StronglySorted (λ x y, compR B x.2 y.2 = true) es_r
    ∧ bimap.size B = length es
    ∧ (∀ i j x y, es !! i = Some x → es !! j = Some y →
         equiv_key (compL B) x.1 y.1 ∨ equiv_key (compR B) x.2 y.2 →
         i = j).
Proof.
  intros (sl & sr & Hwf)%reachable_wf.
  destruct (wf_entries_total _ _ _ _ Hwf) as [es Hes].
  destruct (wf_right_entries _ _ _ _ Hwf) as (es_r & Hr & Hkr).
  destruct (wf_left_entries _ _ _ _ _ Hwf Hes) as (Hl & Hkl).
  exists es, (addrs sr), es_r. split; [done|].
  split; [by eapply wf_right_positions|]. split; [done|]. split.
  { rewrite <- (mapM_omap _ _ _ Hr), <- (mapM_omap _ _ _ Hl).
    by rewrite (wf_same _ _ _ _ Hwf). }
  split.
  { apply (sorted_fmap_inv fst (λ a b, compL B a b = true)). rewrite Hkl.
    exact (ti_bst _ _ _ _ (wf_left _ _ _ _ Hwf)). }
  split.
  { apply (sorted_fmap_inv snd (λ a b, compR B a b = true)). rewrite Hkr.
    exact (ti_bst _ _ _ _ (wf_right _ _ _ _ Hwf)). }
  split.
  { unfold bimap.size. rewrite (wf_count _ _ _ _ Hwf).
    apply (wf_entries _ _ _ _ _ Hwf), Forall2_length in Hes.
    unfold addrs. by rewrite length_fmap. }
  intros i j x y. by eapply wf_entries_differ.
Qed.

(** X19.  [a.swap(b)] on two bimaps that share no object: the call
    returns, [a] gets the entries and the size of [b] and [b] those of
    [a]; the records stay where they are and keep their pairs, so the
    positions of [b] are now positions of [a], while each bimap keeps
    its own end positions; the two bimaps are well-formed and share no
    object afterwards. *)
Theorem swap_exchanges_the_contents h B C eb ec :
  separate h B C →
  bimap.entries h B = Some eb → bimap.entries h C = Some ec →
  ∃ h' B' C',
    bimap.swap h B C = Some (h', B', C')
    ∧ separate h' B' C'
    ∧ bimap.entries h' B' = Some ec ∧ bimap.entries h' C' = Some eb
    ∧ bimap.size B' = bimap.size C ∧ bimap.size C' = bimap.size B
    ∧ bimap.left_positions h' B' = bimap.left_positions h C
    ∧ bimap.left_positions h' C' = bimap.left_positions h B
    ∧ bimap.end_left B' = bimap.end_left B
    ∧ bimap.end_right B' = bimap.end_right B
    ∧ bimap.end_left C' = bimap.end_left C
    ∧ bimap.end_right C' = bimap.end_right C
    ∧ (∀ a, bimap.entry h' a = bimap.entry h a).
Proof.
  intros (slB & srB & slC & srC & HB & HC & Hsep) HeB HeC.
  destruct (swap_spec_bimap _ _ _ _ _ _ _ HB HC Hsep)
    as (h' & B' & C' & Hswap & HB' & HC' & Hsep' & SB1 & SB2 & SC1 & SC2
        & _ & _ & _ & _ & HnB & HnC & Hpa & _).
  exists h', B', C'. split; [done|].
  split; [by exists slC, srC, slB, srB|]. split.
  { apply (wf_entries _ _ _ _ _ HB'). apply (wf_entries _ _ _ _ _ HC) in HeC.
    eapply entries_of_agree; [exact HeC|]. intros a _. apply Hpa. }
  split.
  { apply (wf_entries _ _ _ _ _ HC'). apply (wf_entries _ _ _ _ _ HB) in HeB.
    eapply entries_of_agree; [exact HeB|]. intros a _. apply Hpa. }
  split; [done|]. split; [done|].
  split; [by rewrite (wf_left_positions _ _ _ _ HB'),
               (wf_left_positions _ _ _ _ HC)|].
  split; [by rewrite (wf_left_positions _ _ _ _ HC'),
               (wf_left_positions _ _ _ _ HB)|].
  repeat (split; [done|]).
  intros a. rewrite !entry_pair_at. apply Hpa.
Qed.

(** X20.  [a = b] for two bimaps that share no object: the call
    returns, [a] holds the entries of [b] in records of its own and
    compares equal to [b], the records that [a] held before are freed,
    [a] keeps its end positions, and [b] is as it was.  Assigning a
    bimap to itself changes nothing. *)
Theorem copy_assignment_replaces_the_contents h B C ec lw :
  bimap.copy_assign h B B = Some (h, B)
  ∧ (separate h B C →
     bimap.entries h C = Some ec → bimap.left_positions h B = Some lw →
     ∃ h' B',
       bimap.copy_assign h B C = Some (h', B')
       ∧ separate h' B' C
       ∧ bimap.entries h' B' = Some ec ∧ bimap.entries h' C = Some ec
       ∧ bimap.equal h' B' C = Some true
       ∧ bimap.size B' = bimap.size C
       ∧ bimap.end_left B' = bimap.end_left B
       ∧ bimap.end_right B' = bimap.end_right B
       ∧ (∀ a, a ∈ lw → h' !! a = None)).
Proof.
  split; [apply copy_assign_self|].
  intros (slB & srB & slC & srC & HB & HC & Hsep) HeC Hlw.
  rewrite (wf_left_positions _ _ _ _ HB) in Hlw. injection Hlw as <-.
  destruct (copy_assign_spec _ _ _ _ _ _ _ _ HB HC Hsep HeC)
    as (h' & B' & slB' & srB' & Has & HB' & HC' & Hsep' & S1 & S2 & Hn & HeB'
        & Hfree & HfrC).
  assert (bimap.entries h' C = Some ec) as HeC'.
  { rewrite <- HeC. eapply entries_same; [exact HC|done]. }
  exists h', B'. split; [done|].
  split; [by exists slB', srB', slC, srC|].
  split; [done|]. split; [done|].
  split; [by eapply equal_same_entries|].
  by repeat (split; [done|]).
Qed.
End further_bimap_properties.

(* ================================================================== *)
(** ** The further properties on the sample bimap                      *)
(* ================================================================== *)

Lemma sample_left_positions :
  bimap.left_positions sample.heap sample.map = Some [3; 2; 4].
Proof. vm_compute. reflexivity. Qed.

Lemma sample_right_positions :
  bimap.right_positions sample.heap sample.map = Some [4; 2; 3].
Proof. vm_compute. reflexivity. Qed.

Lemma sample_reachable : reachable sample.heap sample.map.
Proof.
  eapply run_reachable; [apply nat_ltb_order|apply nat_ltb_order|].
  apply sample_run.
Qed.

Lemma sample_copy :
  bimap.copy_ctor sample.heap sample.map
  = Some (sample.copied_heap, sample.copy).
Proof. vm_compute. reflexivity. Qed.

Lemma sample_separate : separate sample.copied_heap sample.copy sample.map.
Proof.
  destruct sample_wf as (sl & sr & Hwf).
  destruct (copy_ctor_spec _ _ _ _ _ Hwf sample_entries)
    as (h' & B & slB & srB & Hc & HB & HC & Hsep & _).
  rewrite sample_copy in Hc. injection Hc as <- <-.
  by exists slB, srB, sl, sr.
Qed.

Lemma sample_copy_wf : wf sample.copied_heap sample.copy.
Proof. destruct sample_separate as (sl & sr & _ & _ & H & _). by exists sl, sr. Qed.

Lemma sample_copied_wf : wf sample.copied_heap sample.map.
Proof.
  destruct sample_separate as (_ & _ & sl & sr & _ & H & _). by exists sl, sr.
Qed.

Lemma sample_copy_entries :
  bimap.entries sample.copied_heap sample.copy
  = Some [(1, 30); (2, 20); (3, 10)].
Proof. vm_compute. reflexivity. Qed.

Lemma sample_copied_entries :
  bimap.entries sample.copied_heap sample.map
  = Some [(1, 30); (2, 20); (3, 10)].
Proof. vm_compute. reflexivity. Qed.

Lemma sample_copy_left_positions :
  bimap.left_positions sample.copied_heap sample.copy = Some [7; 8; 9].
Proof. vm_compute. reflexivity. Qed.



Lemma find_returns_the_equivalent_entry_witness :
  tree_ok (A := details.left_tag) sample.heap (bimap.left_tree sample.map)
  ∧ intrusive.traversal (A := details.left_tag) sample.heap
      (bimap.left_tree sample.map) = Some [(3, 1); (2, 2); (4, 3)]
  ∧ intrusive.find (A := details.left_tag) sample.heap
      (bimap.left_tree sample.map) 2 = Some 2.
Proof.
  split; [exact (wf_tree_ok_left _ _ sample_wf)|].
  split; [exact sample_traversal|].
  apply (proj1 (find_returns_the_equivalent_entry (A := details.left_tag)
                  sample.heap (bimap.left_tree sample.map) 2 _
                  (wf_tree_ok_left _ _ sample_wf) sample_traversal) 2 2).
  - right. by left.
  - split; reflexivity.
Defined.


Lemma remove_unlinks_and_returns_the_next_witness :
  tree_ok (A := details.left_tag) sample.heap (bimap.left_tree sample.map)
  ∧ intrusive.traversal (A := details.left_tag) sample.heap
      (bimap.left_tree sample.map) = Some ([(3, 1)] ++ (2, 2) :: [(4, 3)])
  ∧ ∃ h' t',
      intrusive.remove (A := details.left_tag) sample.heap
        (bimap.left_tree sample.map) 2
      = Some (4, h', t')
      ∧ intrusive.size t' = 2
      ∧ intrusive.traversal (A := details.left_tag) h' t'
        = Some [(3, 1); (4, 3)].
Proof.
  split; [exact (wf_tree_ok_left _ _ sample_wf)|].
  split; [exact sample_traversal|].
  destruct (remove_unlinks_and_returns_the_next (A := details.left_tag)
              sample.heap (bimap.left_tree sample.map) [(3, 1)] 2 2 [(4, 3)]
              (wf_tree_ok_left _ _ sample_wf) sample_traversal)
    as (h' & t' & Hrem & _ & _ & Hn & _ & Htr).
  by exists h', t'.
Defined.

Lemma remove_of_an_absent_value_unlinks_a_neighbour_witness :
  tree_ok (A := details.left_tag) sample.heap (bimap.left_tree sample.map)
  ∧ intrusive.traversal (A := details.left_tag) sample.heap
      (bimap.left_tree sample.map) = Some [(3, 1); (2, 2); (4, 3)]
  ∧ [(3, 1); (2, 2); (4, 3)] ≠ []
  ∧ Forall (λ p : addr * nat, ¬ equiv_key Nat.ltb p.2 9)
      [(3, 1); (2, 2); (4, 3)]
  ∧ ∃ it h' t',
      intrusive.remove_value (A := details.left_tag) sample.heap
        (bimap.left_tree sample.map) 9
      = Some (it, h', t')
      ∧ intrusive.size t' = 2.
Proof.
  assert (Forall (λ p : addr * nat, ¬ equiv_key Nat.ltb p.2 9)
            [(3, 1); (2, 2); (4, 3)]) as Hall.
  { repeat constructor; simpl; intros [E1 E2]; discriminate. }
  split; [exact (wf_tree_ok_left _ _ sample_wf)|].
  split; [exact sample_traversal|]. split; [discriminate|].
  split; [exact Hall|].
  destruct (remove_of_an_absent_value_unlinks_a_neighbour
              (A := details.left_tag) sample.heap (bimap.left_tree sample.map)
              9 _ (wf_tree_ok_left _ _ sample_wf) sample_traversal
              ltac:(discriminate) Hall)
    as (w1 & x & k & w2 & h' & t' & _ & _ & _ & Hrem & _ & _ & Hn & _).
  by eexists _, h', t'.
Defined.

Lemma empty_tests_the_root_witness :
  tree_ok (A := details.left_tag) sample.heap (bimap.left_tree sample.map)
  ∧ intrusive.traversal (A := details.left_tag) sample.heap
      (bimap.left_tree sample.map) = Some [(3, 1); (2, 2); (4, 3)]
  ∧ intrusive.empty (A := details.left_tag) sample.heap
      (bimap.left_tree sample.map) = Some false.
Proof.
  split; [exact (wf_tree_ok_left _ _ sample_wf)|].
  split; [exact sample_traversal|].
  exact (proj1 (empty_tests_the_root (A := details.left_tag) sample.heap
                  (bimap.left_tree sample.map) _
                  (wf_tree_ok_left _ _ sample_wf) sample_traversal)).
Defined.

Lemma erase_left_removes_the_entry_witness :
  wf sample.heap sample.map
  ∧ bimap.left_positions sample.heap sample.map = Some ([3] ++ 2 :: [4])
  ∧ bimap.entries sample.heap sample.map = Some [(1, 30); (2, 20); (3, 10)]
  ∧ ∃ h' B',
      bimap.erase_left sample.heap sample.map 2 = Some (4, h', B')
      ∧ bimap.left_positions h' B' = Some [3; 4].
Proof.
  split; [exact sample_wf|]. split; [exact sample_left_positions|].
  split; [exact sample_entries|].
  destruct (erase_left_removes_the_entry sample.heap sample.map [3] 2 [4] _
              sample_wf sample_left_positions sample_entries)
    as (h' & B' & e1 & e & e2 & Her & _ & _ & _ & _ & Hpos & _).
  by exists h', B'.
Defined.

Lemma erase_right_removes_the_entry_witness :
  wf sample.heap sample.map
  ∧ bimap.right_positions sample.heap sample.map = Some ([4] ++ 2 :: [3])
  ∧ bimap.entries sample.heap sample.map = Some [(1, 30); (2, 20); (3, 10)]
  ∧ ∃ h' B',
      bimap.erase_right sample.heap sample.map 2 = Some (3, h', B')
      ∧ bimap.right_positions h' B' = Some [4; 3].
Proof.
  split; [exact sample_wf|]. split; [exact sample_right_positions|].
  split; [exact sample_entries|].
  destruct (erase_right_removes_the_entry sample.heap sample.map [4] 2 [3] _
              sample_wf sample_right_positions sample_entries)
    as (h' & B' & e1 & e & e2 & Her & _ & _ & _ & Hpos & _).
  by exists h', B'.
Defined.

Lemma erase_left_by_key_erases_the_match_witness :
  wf sample.heap sample.map
  ∧ bimap.entries sample.heap sample.map = Some [(1, 30); (2, 20); (3, 10)]
  ∧ ∃ b h' B',
      bimap.erase_left_key sample.heap sample.map 2 = Some (b, h', B')
      ∧ bimap.entries h' B' = Some [(1, 30); (3, 10)].
Proof.
  split; [exact sample_wf|]. split; [exact sample_entries|].
  destruct (erase_left_by_key_erases_the_match sample.heap sample.map 2 _
              sample_wf sample_entries)
    as (b & h' & B' & Her & _ & _ & _ & Hes & _).
  by exists b, h', B'.
Defined.

Lemma erase_right_by_key_erases_the_match_witness :
  wf sample.heap sample.map
  ∧ bimap.entries sample.heap sample.map = Some [(1, 30); (2, 20); (3, 10)]
  ∧ ∃ b h' B',
      bimap.erase_right_key sample.heap sample.map 20 = Some (b, h', B')
      ∧ bimap.entries h' B' = Some [(1, 30); (3, 10)].
Proof.
  split; [exact sample_wf|]. split; [exact sample_entries|].
  destruct (erase_right_by_key_erases_the_match sample.heap sample.map 20 _
              sample_wf sample_entries)
    as (b & h' & B' & Her & _ & _ & _ & Hes & _).
  by exists b, h', B'.
Defined.

Lemma erase_left_range_removes_the_range_witness :
  wf sample.heap sample.map
  ∧ bimap.left_positions sample.heap sample.map = Some ([3] ++ [2] ++ [4])
  ∧ bimap.right_positions sample.heap sample.map = Some [4; 2; 3]
  ∧ bimap.entries sample.heap sample.map = Some [(1, 30); (2, 20); (3, 10)]
  ∧ ∃ h' B',
      bimap.erase_left_range sample.heap sample.map 2 4 = Some (4, h', B')
      ∧ bimap.left_positions h' B' = Some [3; 4]
      ∧ bimap.right_positions h' B' = Some [4; 3].
Proof.
  split; [exact sample_wf|]. split; [exact sample_left_positions|].
  split; [exact sample_right_positions|]. split; [exact sample_entries|].
  destruct (erase_left_range_removes_the_range sample.heap sample.map
              [3] [2] [4] _ _ sample_wf sample_left_positions
              sample_right_positions sample_entries)
    as (h' & B' & e1 & e2 & e3 & Her & _ & _ & _ & _ & HposL & HposR & _).
  by exists h', B'.
Defined.

Lemma erase_right_range_removes_the_range_witness :
  wf sample.heap sample.map
  ∧ bimap.right_positions sample.heap sample.map = Some ([4] ++ [2] ++ [3])
  ∧ bimap.left_positions sample.heap sample.map = Some [3; 2; 4]
  ∧ ∃ h' B',
      bimap.erase_right_range sample.heap sample.map 2 3 = Some (3, h', B')
      ∧ bimap.right_positions h' B' = Some [4; 3]
      ∧ bimap.left_positions h' B' = Some [3; 4].
Proof.
  split; [exact sample_wf|]. split; [exact sample_right_positions|].
  split; [exact sample_left_positions|].
  destruct (erase_right_range_removes_the_range sample.heap sample.map
              [4] [2] [3] _ sample_wf sample_right_positions
              sample_left_positions)
    as (h' & B' & Her & _ & HposR & HposL & _).
  by exists h', B'.
Defined.

Lemma destructor_frees_every_record_witness :
  wf sample.heap sample.map
  ∧ bimap.left_positions sample.heap sample.map = Some [3; 2; 4]
  ∧ ∃ h' B',
      bimap.dtor sample.heap sample.map = Some (h', B')
      ∧ h' !! 3 = None ∧ h' !! 2 = None ∧ h' !! 4 = None.
Proof.
  split; [exact sample_wf|]. split; [exact sample_left_positions|].
  destruct (destructor_frees_every_record sample.heap sample.map _
              sample_wf sample_left_positions)
    as (h' & B' & Hd & Hfree & _).
  exists h', B'. split; [exact Hd|].
  split; [apply Hfree; by left|].
  split; apply Hfree; [right; by left|right; right; by left].
Defined.

Lemma new_bimap_is_empty_witness :
  strict_weak_order Nat.ltb
  ∧ ∃ h' B,
      bimap.ctor (∅ : gmap addr (details.obj nat nat)) Nat.ltb Nat.ltb
      = Some (h', B)
      ∧ bimap.entries h' B = Some [].
Proof.
  split; [exact nat_ltb_order|].
  destruct (new_bimap_is_empty (∅ : gmap addr (details.obj nat nat))
              Nat.ltb Nat.ltb nat_ltb_order nat_ltb_order)
    as (h' & B & Hc & _ & _ & _ & _ & Hes & _).
  by exists h', B.
Defined.

Lemma inserted_pair_is_found_witness :
  wf sample.heap sample.map
  ∧ bimap.entries sample.heap sample.map = Some [(1, 30); (2, 20); (3, 10)]
  ∧ Forall (λ e : nat * nat, ¬ equiv_key Nat.ltb e.1 5
                             ∧ ¬ equiv_key Nat.ltb e.2 50)
      [(1, 30); (2, 20); (3, 10)]
  ∧ ∃ d h' B',
      bimap.insert sample.heap sample.map 5 50 = Some (d, h', B')
      ∧ bimap.at_left h' B' 5 = Some (bimap.returns 50)
      ∧ bimap.at_right h' B' 50 = Some (bimap.returns 5).
Proof.
  assert (Forall (λ e : nat * nat, ¬ equiv_key Nat.ltb e.1 5
                                   ∧ ¬ equiv_key Nat.ltb e.2 50)
            [(1, 30); (2, 20); (3, 10)]) as Hall.
  { repeat constructor; simpl; intros [E1 E2]; discriminate. }
  split; [exact sample_wf|]. split; [exact sample_entries|].
  split; [exact Hall|].
  destruct (inserted_pair_is_found sample.heap sample.map 5 50 _
              sample_wf sample_entries Hall)
    as (d & h' & B' & Hins & _ & _ & HaL & HaR & _).
  by exists d, h', B'.
Defined.

Lemma at_right_or_default_displaces_witness :
  wf sample.heap sample.map
  ∧ bimap.entries sample.heap sample.map = Some [(1, 30); (2, 20); (3, 10)]
  ∧ bimap.at_right_or_default 0 sample.heap sample.map 20
    = Some (2, sample.heap, sample.map).
Proof.
  split; [exact sample_wf|]. split; [exact sample_entries|].
  apply (proj1 (at_right_or_default_displaces 0 sample.heap sample.map 20 _
                  sample_wf sample_entries) 2 20).
  - right. by left.
  - split; reflexivity.
Defined.

Lemma equality_compares_entries_pairwise_witness :
  wf sample.copied_heap sample.copy ∧ wf sample.copied_heap sample.map
  ∧ bimap.entries sample.copied_heap sample.copy
    = Some [(1, 30); (2, 20); (3, 10)]
  ∧ bimap.entries sample.copied_heap sample.map
    = Some [(1, 30); (2, 20); (3, 10)]
  ∧ bimap.equal sample.copied_heap sample.copy sample.copy = Some true.
Proof.
  split; [exact sample_copy_wf|]. split; [exact sample_copied_wf|].
  split; [exact sample_copy_entries|]. split; [exact sample_copied_entries|].
  exact (proj2 (proj2 (proj2
           (equality_compares_entries_pairwise sample.copied_heap sample.copy
              sample.map _ _ sample_copy_wf sample_copied_wf
              sample_copy_entries sample_copied_entries)))).
Defined.

Lemma reachable_bimap_is_ordered_on_both_sides_witness :
  reachable sample.heap sample.map
  ∧ ∃ es, bimap.entries sample.heap sample.map = Some es
          ∧ bimap.size sample.map = length es.
Proof.
  split; [exact sample_reachable|].
  destruct (reachable_bimap_is_ordered_on_both_sides sample.heap sample.map
              sample_reachable)
    as (es & rw & es_r & Hes & _ & _ & _ & _ & _ & Hsize & _).
  by exists es.
Defined.

Lemma swap_exchanges_the_contents_witness :
  separate sample.copied_heap sample.copy sample.map
  ∧ bimap.entries sample.copied_heap sample.copy
    = Some [(1, 30); (2, 20); (3, 10)]
  ∧ bimap.entries sample.copied_heap sample.map
    = Some [(1, 30); (2, 20); (3, 10)]
  ∧ ∃ h' B' C',
      bimap.swap sample.copied_heap sample.copy sample.map
      = Some (h', B', C')
      ∧ bimap.left_positions h' B' = Some [3; 2; 4].
Proof.
  split; [exact sample_separate|]. split; [exact sample_copy_entries|].
  split; [exact sample_copied_entries|].
  destruct (swap_exchanges_the_contents sample.copied_heap sample.copy
              sample.map _ _ sample_separate sample_copy_entries
              sample_copied_entries)
    as (h' & B' & C' & Hsw & _ & _ & _ & _ & _ & Hpos & _).
  exists h', B', C'. split; [exact Hsw|]. rewrite Hpos.
  vm_compute. reflexivity.
Defined.

Lemma copy_assignment_replaces_the_contents_witness :
  separate sample.copied_heap sample.copy sample.map
  ∧ bimap.entries sample.copied_heap sample.map
    = Some [(1, 30); (2, 20); (3, 10)]
  ∧ bimap.left_positions sample.copied_heap sample.copy = Some [7; 8; 9]
  ∧ ∃ h' B',
      bimap.copy_assign sample.copied_heap sample.copy sample.map
      = Some (h', B')
      ∧ bimap.entries h' B' = Some [(1, 30); (2, 20); (3, 10)]
      ∧ h' !! 7 = None.
Proof.
  split; [exact sample_separate|]. split; [exact sample_copied_entries|].
  split; [exact sample_copy_left_positions|].
  destruct (proj2 (copy_assignment_replaces_the_contents sample.copied_heap
                     sample.copy sample.map _ _)
              sample_separate sample_copied_entries
              sample_copy_left_positions)
    as (h' & B' & Has & _ & Hes & _ & _ & _ & _ & _ & Hfree).
  exists h', B'. split; [exact Has|]. split; [exact Hes|].
  apply Hfree. by left.
Defined.

Lemma sample_copy_traversal :
  intrusive.traversal (A := details.left_tag) sample.copied_heap
    (bimap.left_tree sample.copy) = Some [(7, 1); (8, 2); (9, 3)].
Proof. vm_compute. reflexivity. Qed.

Lemma sample_copied_traversal :
  intrusive.traversal (A := details.left_tag) sample.copied_heap
    (bimap.left_tree sample.map) = Some [(3, 1); (2, 2); (4, 3)].
Proof. vm_compute. reflexivity. Qed.

Lemma swap_exchanges_the_trees_witness :
  tree_ok (A := details.left_tag) sample.copied_heap
    (bimap.left_tree sample.copy)
  ∧ tree_ok (A := details.left_tag) sample.copied_heap
      (bimap.left_tree sample.map)
  ∧ intrusive.traversal (A := details.left_tag) sample.copied_heap
      (bimap.left_tree sample.copy) = Some [(7, 1); (8, 2); (9, 3)]
  ∧ intrusive.traversal (A := details.left_tag) sample.copied_heap
      (bimap.left_tree sample.map) = Some [(3, 1); (2, 2); (4, 3)]
  ∧ (∀ a, a ∈ [5; 7; 8; 9] → a ∉ [0; 3; 2; 4])
  ∧ ∃ h',
      intrusive.swap (A := details.left_tag) sample.copied_heap
        (bimap.left_tree sample.copy) (bimap.left_tree sample.map)
      = Some (h', intrusive.Tree 5 Nat.ltb 3, intrusive.Tree 0 Nat.ltb 3)
      ∧ intrusive.traversal (A := details.left_tag) h'
          (intrusive.Tree 5 Nat.ltb 3) = Some [(3, 1); (2, 2); (4, 3)].
Proof.
  assert (∀ a, a ∈ [5; 7; 8; 9] → a ∉ [0; 3; 2; 4]) as Hsep.
  { intros a Ha Hb. set_solver. }
  split; [exact (wf_tree_ok_left _ _ sample_copy_wf)|].
  split; [exact (wf_tree_ok_left _ _ sample_copied_wf)|].
  split; [exact sample_copy_traversal|].
  split; [exact sample_copied_traversal|]. split; [exact Hsep|].
  destruct (swap_exchanges_the_trees (A := details.left_tag)
              sample.copied_heap (bimap.left_tree sample.copy)
              (bimap.left_tree sample.map) _ _
              (wf_tree_ok_left _ _ sample_copy_wf)
              (wf_tree_ok_left _ _ sample_copied_wf)
              sample_copy_traversal sample_copied_traversal Hsep)
    as (h' & Hsw & _ & _ & Htr & _).
  by exists h'.
Defined.

(* ================================================================== *)
(** ** Lookups that insert                                             *)
(* ================================================================== *)

Section bimap_defaults.
Context {Left Right : Type}.
Implicit Types (h : gmap addr (details.obj Left Right)).
Implicit Types (B C : bimap.bimap Left Right).
Implicit Types (sl : shape Left) (sr : shape Right).
Implicit Types (es : list (Left * Right)).

Local Abbreviation compL B := (intrusive.comp (bimap.left_tree B)).
Local Abbreviation compR B := (intrusive.comp (bimap.right_tree B)).

Lemma at_left_or_default_found (dflt : Right) h B sl sr a kl kr k :
  wf_shapes h B sl sr → (a, kl) ∈ inorder sl → (a, kr) ∈ inorder sr →
  equiv_key (compL B) kl k →
  bimap.at_left_or_default dflt h B k = Some (kr, h, B).
Proof.
  intros Hwf HinL HinR He.
  pose proof (wf_sentinels_fresh _ _ _ _ Hwf) as (HsLl & _).
  assert (a ∈ addrs sl) as Ha by by apply (list_elem_of_fmap_2 fst) in HinL.
  destruct (wf_pair_right _ _ _ _ _ _ Hwf HinR) as (kl' & Hp & _).
  apply deref_pair in Hp as [_ Hd].
  unfold bimap.at_left_or_default, bimap.find_left.
  rewrite (find_present _ _ _ _ _ _ _ (wf_left _ _ _ _ Hwf) HinL He). simpl.
  rewrite decide_False by (unfold bimap.end_left, intrusive.end_; by intros ->).
  rewrite (flip_left_node _ _ _ _ _ Hwf Ha). simpl. by rewrite Hd.
Qed.

Lemma at_right_or_default_found (dflt : Left) h B sl sr a kl kr k :
  wf_shapes h B sl sr → (a, kl) ∈ inorder sl → (a, kr) ∈ inorder sr →
  equiv_key (compR B) kr k →
  bimap.at_right_or_default dflt h B k = Some (kl, h, B).
Proof.
  intros Hwf HinL HinR He.
  pose proof (wf_sentinels_fresh _ _ _ _ Hwf) as (_ & HsRl & _).
  assert (a ∈ addrs sl) as Ha by by apply (list_elem_of_fmap_2 fst) in HinL.
  destruct (wf_pair_left _ _ _ _ _ _ Hwf HinL) as (kr' & Hp & _).
  apply deref_pair in Hp as [Hd _].
  unfold bimap.at_right_or_default, bimap.find_right.
  rewrite (find_present _ _ _ _ _ _ _ (wf_right _ _ _ _ Hwf) HinR He). simpl.
  rewrite decide_False by (unfold bimap.end_right, intrusive.end_; by intros ->).
  rewrite (flip_right_node _ _ _ _ _ Hwf Ha). simpl. by rewrite Hd.
Qed.

Lemma at_left_or_default_added (dflt : Right) h B sl sr k :
  wf_shapes h B sl sr →
  (∀ a kl, (a, kl) ∈ inorder sl → ¬ equiv_key (compL B) kl k) →
  ∃ d h' B' sl' sr',
    bimap.at_left_or_default dflt h B k = Some (dflt, h', B')
    ∧ wf_shapes h' B' sl' sr'
    ∧ (d, k) ∈ inorder sl' ∧ (d, dflt) ∈ inorder sr'.
Proof.
  intros Hwf HnoL.
  destruct (wf_entries_total _ _ _ _ Hwf) as [es Hes].
  destruct (erase_right_key_full _ _ _ _ _ dflt Hwf Hes)
    as (b & h1 & B1 & sl1 & sr1 & Her & Hwf1 & HlT & HrT & _ & _ & _ & HsubL
        & _ & HnoR1 & _).
  assert (∀ a kl, (a, kl) ∈ inorder sl1 → ¬ equiv_key (compL B1) kl k)
    as HnoL1 by (rewrite HlT; eauto).
  rewrite <- HrT in HnoR1.
  destruct (add_fresh _ _ _ _ _ _ Hwf1 HnoL1 HnoR1)
    as (d & h2 & B2 & sl2 & sr2 & w1 & w2 & v1 & v2 & Hadd & Hd & Hwf2
        & _ & _ & _ & _ & _ & _ & Hin' & _ & Hjn' & Hpd & _).
  assert ((d, k) ∈ inorder sl2) as HdL.
  { rewrite Hin'. apply elem_of_app. right. by left. }
  assert ((d, dflt) ∈ inorder sr2) as HdR.
  { rewrite Hjn'. apply elem_of_app. right. by left. }
  assert (d ∈ addrs sl2) as Hd2 by by apply (list_elem_of_fmap_2 fst) in HdL.
  exists d, h2, B2, sl2, sr2. split; [|done].
  unfold bimap.at_left_or_default, bimap.find_left.
  rewrite (find_absent _ _ _ _ _ (wf_left _ _ _ _ Hwf) HnoL). simpl.
  rewrite decide_True by done.
  pose proof (erase_right_key_inline h B dflt) as Hinl.
  rewrite Her in Hinl. simpl in Hinl.
  destruct (bimap.find_right h B dflt) as [it|]; simpl in Hinl; [|done].
  simpl. rewrite Hinl.
  simpl. unfold bimap.insert. rewrite Hadd. simpl.
  rewrite (flip_left_node _ _ _ _ _ Hwf2 Hd2). simpl.
  by rewrite (proj2 (deref_pair _ _ _ _ Hpd)).
Qed.

Lemma at_right_or_default_added (dflt : Left) h B sl sr k :
  wf_shapes h B sl sr →
  (∀ a kr, (a, kr) ∈ inorder sr → ¬ equiv_key (compR B) kr k) →
  ∃ d h' B' sl' sr',
    bimap.at_right_or_default dflt h B k = Some (dflt, h', B')
    ∧ wf_shapes h' B' sl' sr'
    ∧ (d, dflt) ∈ inorder sl' ∧ (d, k) ∈ inorder sr'.
Proof.
  intros Hwf HnoR.
  destruct (wf_entries_total _ _ _ _ Hwf) as [es Hes].
  destruct (erase_left_key_full _ _ _ _ _ dflt Hwf Hes)
    as (b & h1 & B1 & sl1 & sr1 & Her & Hwf1 & HlT & HrT & _ & _ & _ & _
        & HsubR & HnoL1 & _).
  assert (∀ a kr, (a, kr) ∈ inorder sr1 → ¬ equiv_key (compR B1) kr k)
    as HnoR1 by (rewrite HrT; eauto).
  rewrite <- HlT in HnoL1.
  destruct (add_fresh _ _ _ _ _ _ Hwf1 HnoL1 HnoR1)
    as (d & h2 & B2 & sl2 & sr2 & w1 & w2 & v1 & v2 & Hadd & Hd & Hwf2
        & _ & _ & _ & _ & _ & _ & Hin' & _ & Hjn' & Hpd & _).
  assert ((d, dflt) ∈ inorder sl2) as HdL.
  { rewrite Hin'. apply elem_of_app. right. by left. }
  assert ((d, k) ∈ inorder sr2) as HdR.
  { rewrite Hjn'. apply elem_of_app. right. by left. }
  exists d, h2, B2, sl2, sr2. split; [|done].
  unfold bimap.at_right_or_default, bimap.find_right.
  rewrite (find_absent _ _ _ _ _ (wf_right _ _ _ _ Hwf) HnoR). simpl.
  rewrite decide_True by done.
  pose proof (erase_left_key_inline h B dflt) as Hinl.
  rewrite Her in Hinl. simpl in Hinl.
  destruct (bimap.find_left h B dflt) as [it|]; simpl in Hinl; [|done].
  simpl. rewrite Hinl.
  simpl. unfold bimap.insert. rewrite Hadd. simpl.
  by rewrite (proj1 (deref_pair _ _ _ _ Hpd)).
Qed.

(** The entries after [insert] and [erase] of the same pair. *)
Lemma insert_erase_entries h B sl sr l r es :
  wf_shapes h B sl sr → bimap.entries h B = Some es →
  (∀ a k, (a, k) ∈ inorder sl → ¬ equiv_key (compL B) k l) →
  (∀ a k, (a, k) ∈ inorder sr → ¬ equiv_key (compR B) k r) →
  ∃ d h1 B1 e1 e2,
    bimap.insert h B l r = Some (d, h1, B1)
    ∧ wf h1 B1
    ∧ compL B1 = compL B ∧ compR B1 = compR B
    ∧ bimap.n_node B1 = S (bimap.n_node B)
    ∧ es = e1 ++ e2
    ∧ bimap.entries h1 B1 = Some (e1 ++ (l, r) :: e2)
    ∧ strict_weak_order (compL B) ∧ strict_weak_order (compR B).
Proof.
  intros Hwf Hes HnoL HnoR.
  destruct (add_fresh _ _ _ _ _ _ Hwf HnoL HnoR)
    as (d & h1 & B1 & sl1 & sr1 & w1 & w2 & v1 & v2 & Hadd & Hd & Hwf1
        & _ & _ & HcL & HcR & Hn & Hin & Hin' & _ & _ & Hpd & Hpa & _).
  assert (d ∉ (w1 ++ w2).*1) as Hdfresh.
  { rewrite <- Hin. intros Hd'.
    destruct (wf_dom _ _ _ _ d Hwf) as [? E]; [by do 2 right|].
    by rewrite E in Hd. }
  pose proof Hes as Hes'. apply (wf_entries _ _ _ _ _ Hwf) in Hes'.
  rewrite Hin in Hes'.
  destruct (entries_of_insert _ h1 _ _ d l r _ Hes' Hpd Hpa Hdfresh)
    as (e1 & e2 & Hsplit & Hes1).
  rewrite <- Hin' in Hes1. apply (wf_entries _ _ _ _ _ Hwf1) in Hes1.
  exists d, h1, B1, e1, e2. split; [done|]. split; [by exists sl1, sr1|].
  repeat (split; [done|]).
  split; [exact (ti_order _ _ _ _ (wf_left _ _ _ _ Hwf))
         |exact (ti_order _ _ _ _ (wf_right _ _ _ _ Hwf))].
Qed.
End bimap_defaults.

Section round_trips.
Context {Left Right : Type}.
Implicit Types (h : gmap addr (details.obj Left Right)).
Implicit Types (B C : bimap.bimap Left Right).
Implicit Types (es : list (Left * Right)).

Local Abbreviation compL B := (intrusive.comp (bimap.left_tree B)).
Local Abbreviation compR B := (intrusive.comp (bimap.right_tree B)).

(** X21.  [at_left_or_default(k)] on any bimap returns; afterwards
    the bimap maps [k] to the value returned, so that [at_left(k)]
    returns it, and a second call returns it again and changes
    nothing. *)
Theorem at_left_or_default_settles (dflt : Right) h B k :
  wf h B →
  ∃ v h' B',
    bimap.at_left_or_default dflt h B k = Some (v, h', B')
    ∧ wf h' B'
    ∧ bimap.at_left h' B' k = Some (bimap.returns v)
    ∧ bimap.at_left_or_default dflt h' B' k = Some (v, h', B').
Proof.
  intros (sl & sr & Hwf).
  pose proof (ti_order _ _ _ _ (wf_left _ _ _ _ Hwf)) as Hswo.
  destruct (find_spec _ _ _ _ k (wf_left _ _ _ _ Hwf))
    as [(a & kl & _ & HinL & He)|[_ Hno]].
  - destruct (wf_pair_left _ _ _ _ _ _ Hwf HinL) as (kr & _ & HinR).
    exists kr, h, B.
    split; [by eapply at_left_or_default_found|].
    split; [by exists sl, sr|].
    split; [by eapply at_left_present|by eapply at_left_or_default_found].
  - destruct (at_left_or_default_added dflt _ _ _ _ k Hwf Hno)
      as (d & h' & B' & sl' & sr' & Hcall & Hwf' & HdL & HdR).
    pose proof (ti_order _ _ _ _ (wf_left _ _ _ _ Hwf')) as Hswo'.
    assert (equiv_key (compL B') k k) as Hkk
      by (split; apply (swo_irrefl _ Hswo')).
    exists dflt, h', B'. split; [done|]. split; [by exists sl', sr'|].
    split; [by eapply at_left_present|by eapply at_left_or_default_found].
Qed.

(** X22.  [at_right_or_default(k)] on any bimap returns; afterwards
    the bimap maps the value returned to [k], so that [at_right(k)]
    returns it, and a second call returns it again and changes
    nothing. *)
Theorem at_right_or_default_settles (dflt : Left) h B k :
  wf h B →
  ∃ v h' B',
    bimap.at_right_or_default dflt h B k = Some (v, h', B')
    ∧ wf h' B'
    ∧ bimap.at_right h' B' k = Some (bimap.returns v)
    ∧ bimap.at_right_or_default dflt h' B' k = Some (v, h', B').
Proof.
  intros (sl & sr & Hwf).
  destruct (find_spec _ _ _ _ k (wf_right _ _ _ _ Hwf))
    as [(a & kr & _ & HinR & He)|[_ Hno]].
  - destruct (wf_pair_right _ _ _ _ _ _ Hwf HinR) as (kl & _ & HinL).
    exists kl, h, B.
    split; [by eapply at_right_or_default_found|].
    split; [by exists sl, sr|].
    split; [by eapply at_right_present|by eapply at_right_or_default_found].
  - destruct (at_right_or_default_added dflt _ _ _ _ k Hwf Hno)
      as (d & h' & B' & sl' & sr' & Hcall & Hwf' & HdL & HdR).
    pose proof (ti_order _ _ _ _ (wf_right _ _ _ _ Hwf')) as Hswo'.
    assert (equiv_key (compR B') k k) as Hkk
      by (split; apply (swo_irrefl _ Hswo')).
    exists dflt, h', B'. split; [done|]. split; [by exists sl', sr'|].
    split; [by eapply at_right_present|by eapply at_right_or_default_found].
Qed.

(** X23.  [insert(l, r)] with keys that no entry is equivalent to,
    followed by [erase_left(l)] or by [erase_right(r)]: the erase
    answers yes, and the bimap has the entries and the size it had
    before the insertion. *)
Theorem insert_then_erase_restores_the_entries h B l r es :
  wf h B → bimap.entries h B = Some es →
  Forall (λ e, ¬ equiv_key (compL B) e.1 l
               ∧ ¬ equiv_key (compR B) e.2 r) es →
  ∃ d h1 B1,
    bimap.insert h B l r = Some (d, h1, B1)
    ∧ (∃ h2 B2,
         bimap.erase_left_key h1 B1 l = Some (true, h2, B2)
         ∧ wf h2 B2 ∧ bimap.entries h2 B2 = Some es
         ∧ bimap.size B2 = bimap.size B)
    ∧ (∃ h2 B2,
         bimap.erase_right_key h1 B1 r = Some (true, h2, B2)
         ∧ wf h2 B2 ∧ bimap.entries h2 B2 = Some es
         ∧ bimap.size B2 = bimap.size B).
Proof.
  intros (sl & sr & Hwf) Hes Hall. rewrite Forall_forall in Hall.
  destruct (insert_erase_entries _ _ _ _ l r _ Hwf Hes)
    as (d & h1 & B1 & e1 & e2 & Hins & (sl1 & sr1 & Hwf1) & HcL & HcR & Hn
        & -> & Hes1 & HswoL & HswoR).
  { intros a k Hin.
    destruct (wf_pair_left _ _ _ _ _ _ Hwf Hin) as (kr & _ & Hin').
    apply (Hall (k, kr)), (entries_elem _ _ _ _ _ _ _ Hwf Hes). eauto. }
  { intros a k Hin.
    destruct (wf_pair_right _ _ _ _ _ _ Hwf Hin) as (kl & _ & Hin').
    apply (Hall (kl, k)), (entries_elem _ _ _ _ _ _ _ Hwf Hes). eauto. }
  exists d, h1, B1. split; [done|]. split.
  - destruct (erase_left_key_full _ _ _ _ _ l Hwf1 Hes1)
      as (b & h2 & B2 & sl2 & sr2 & Her & Hwf2 & _ & _ & Hb & Hn2 & _ & _ & _
          & _ & Hes2 & _).
    assert (b = true) as ->.
    { apply Hb, Exists_exists. exists (l, r).
      split; [apply elem_of_app; right; by left|].
      rewrite HcL. split; apply (swo_irrefl _ HswoL). }
    exists h2, B2. split; [done|]. split; [by exists sl2, sr2|]. split.
    + rewrite Hes2. f_equal. rewrite filter_app, filter_cons_False.
      2:{ simpl. intros Hne. apply Hne. rewrite HcL.
          split; apply (swo_irrefl _ HswoL). }
      rewrite <- filter_app. apply filter_all, Forall_forall.
      intros e He. rewrite HcL. by apply (Hall e).
    + unfold bimap.size. rewrite Hn2, Hn. done.
  - destruct (erase_right_key_full _ _ _ _ _ r Hwf1 Hes1)
      as (b & h2 & B2 & sl2 & sr2 & Her & Hwf2 & _ & _ & Hb & Hn2 & _ & _ & _
          & _ & Hes2 & _).
    assert (b = true) as ->.
    { apply Hb, Exists_exists. exists (l, r).
      split; [apply elem_of_app; right; by left|].
      rewrite HcR. split; apply (swo_irrefl _ HswoR). }
    exists h2, B2. split; [done|]. split; [by exists sl2, sr2|]. split.
    + rewrite Hes2. f_equal. rewrite filter_app, filter_cons_False.
      2:{ simpl. intros Hne. apply Hne. rewrite HcR.
          split; apply (swo_irrefl _ HswoR). }
      rewrite <- filter_app. apply filter_all, Forall_forall.
      intros e He. rewrite HcR. by apply (Hall e).
    + unfold bimap.size. rewrite Hn2, Hn. done.
Qed.
End round_trips.

Lemma at_left_or_default_settles_witness :
  wf sample.heap sample.map
  ∧ ∃ v h' B',
      bimap.at_left_or_default 0 sample.heap sample.map 7 = Some (v, h', B')
      ∧ bimap.at_left h' B' 7 = Some (bimap.returns v).
Proof.
  split; [exact sample_wf|].
  destruct (at_left_or_default_settles 0 sample.heap sample.map 7 sample_wf)
    as (v & h' & B' & Hcall & _ & Hat & _).
  by exists v, h', B'.
Defined.

Lemma at_right_or_default_settles_witness :
  wf sample.heap sample.map
  ∧ ∃ v h' B',
      bimap.at_right_or_default 0 sample.heap sample.map 70
      = Some (v, h', B')
      ∧ bimap.at_right h' B' 70 = Some (bimap.returns v).
Proof.
  split; [exact sample_wf|].
  destruct (at_right_or_default_settles 0 sample.heap sample.map 70 sample_wf)
    as (v & h' & B' & Hcall & _ & Hat & _).
  by exists v, h', B'.
Defined.

Lemma insert_then_erase_restores_the_entries_witness :
  wf sample.heap sample.map
  ∧ bimap.entries sample.heap sample.map = Some [(1, 30); (2, 20); (3, 10)]
  ∧ Forall (λ e : nat * nat, ¬ equiv_key Nat.ltb e.1 5
                             ∧ ¬ equiv_key Nat.ltb e.2 50)
      [(1, 30); (2, 20); (3, 10)]
  ∧ ∃ d h1 B1 h2 B2,
      bimap.insert sample.heap sample.map 5 50 = Some (d, h1, B1)
      ∧ bimap.erase_left_key h1 B1 5 = Some (true, h2, B2)
      ∧ bimap.entries h2 B2 = Some [(1, 30); (2, 20); (3, 10)].
Proof.
  assert (Forall (λ e : nat * nat, ¬ equiv_key Nat.ltb e.1 5
                                   ∧ ¬ equiv_key Nat.ltb e.2 50)
            [(1, 30); (2, 20); (3, 10)]) as Hall.
  { repeat constructor; simpl; intros [E1 E2]; discriminate. }
  split; [exact sample_wf|]. split; [exact sample_entries|].
  split; [exact Hall|].
  destruct (insert_then_erase_restores_the_entries sample.heap sample.map
              5 50 _ sample_wf sample_entries Hall)
    as (d & h1 & B1 & Hins & (h2 & B2 & Her & _ & Hes & _) & _).
  by exists d, h1, B1, h2, B2.
Defined.

Lemma move_constructor_leaves_the_ends_unlinked_witness :
  wf sample.heap sample.map
  ∧ ∃ h' B other',
      bimap.move_ctor sample.heap sample.map = Some (h', B, other')
      ∧ bimap.left_positions h' B = Some [3; 2; 4]
      ∧ bimap.entries h' B = Some [(1, 30); (2, 20); (3, 10)]
      ∧ bimap.flip_left h' (bimap.end_left B) ≠ Some (bimap.end_right B).
Proof.
  split; [exact sample_wf|].
  destruct (move_constructor_leaves_the_ends_unlinked sample.heap sample.map
              sample_wf) as (h' & B & other' & Hm & Hpos & Hes & Hf & _).
  exists h', B, other'. split; [exact Hm|].
  split; [rewrite Hpos; exact sample_left_positions|].
  split; [rewrite Hes; exact sample_entries|exact Hf].
Defined.
